(** * Sparse matrix multiplication in CSR format: a model of the C sources

    The development follows [matrixutils.c] (helper functions and the
    multiplication kernels) and [matrix.c] (the six entry points) of the
    repository.  Machine integers are [Z] with their wrap-around written
    out, [float] is IEEE-754 binary32 through the Standard Library's
    [SpecFloat], C arrays are lists addressed by [Z] indices, and the
    process state touched by the entry points ([errno], the allocator, the
    thread library) is threaded through a small state monad. *)

From Stdlib Require Import ZArith List Lia Bool SpecFloat Permutation.
Import ListNotations.
Open Scope Z_scope.

(** ** Machine integers *)

Module Word.

(** [uint64_t] arithmetic wraps modulo [2^64], [unsigned int] modulo [2^32]. *)
Definition modulus64 : Z := 2 ^ 64.
Definition modulus32 : Z := 2 ^ 32.
Definition max64 : Z := modulus64 - 1.

Definition wrap64 (z : Z) : Z := z mod modulus64.
Definition wrap32 (z : Z) : Z := z mod modulus32.

Definition add64 (a b : Z) : Z := wrap64 (a + b).
Definition sub64 (a b : Z) : Z := wrap64 (a - b).
Definition mul64 (a b : Z) : Z := wrap64 (a * b).

(** [__builtin_umull_overflow a b &r]: the flag is set when the exact
    product does not fit; [r] receives the wrapped product. *)
Definition umull_overflow (a b : Z) : bool * Z :=
  (modulus64 <=? a * b, mul64 a b).

Definition in64 (z : Z) : Prop := 0 <= z < modulus64.

End Word.
Import Word.

(** ** Arrays *)

Section Arrays.
Context {A : Type}.

Definition zlength (l : list A) : Z := Z.of_nat (length l).

(** [aget l i d] is [l[i]].  An index outside the block is undefined
    behaviour in C; the model reads the default [d] there. *)
Definition aget (l : list A) (i : Z) (d : A) : A :=
  if (0 <=? i) && (i <? zlength l) then nth (Z.to_nat i) l d else d.

Fixpoint aset_nat (l : list A) (n : nat) (v : A) : list A :=
  match l, n with
  | [], _ => []
  | _ :: t, O => v :: t
  | h :: t, S k => h :: aset_nat t k v
  end.

(** [aset l i v] is [l[i] = v].  A store outside the block is undefined
    behaviour in C; the model leaves the block as it is. *)
Definition aset (l : list A) (i : Z) (v : A) : list A :=
  if (0 <=? i) && (i <? zlength l) then aset_nat l (Z.to_nat i) v else l.

End Arrays.

(** ** Loops *)

Section Loops.
Context {S : Type}.

(** [n] rounds of [body], the counter starting at [i] and stepping by one. *)
Fixpoint iter_up (n : nat) (i : Z) (body : Z -> S -> S) (s : S) : S :=
  match n with
  | O => s
  | Datatypes.S k => iter_up k (i + 1) body (body i s)
  end.

(** [for (i = lo; i < hi; i++) s = body i s].  With [hi] a machine
    integer the increment never wraps. *)
Definition for_lt (lo hi : Z) (body : Z -> S -> S) (s : S) : S :=
  iter_up (Z.to_nat (hi - lo)) lo body s.

End Loops.

(** ** Single-precision floats *)

Definition float : Type := spec_float.

Module F32.

Definition prec : Z := 24.
Definition emax : Z := 128.

Definition zero : float := S754_zero false.
Definition add : float -> float -> float := SFadd prec emax.
Definition mul : float -> float -> float := SFmul prec emax.

(** [x == 0] in C: both signed zeros compare equal to zero, a NaN does not. *)
Definition eq0 (x : float) : bool := SFeqb x zero.
(** [x != 0], also the truth value of [if (x)]. *)
Definition ne0 (x : float) : bool := negb (eq0 x).
(** [x != y]. *)
Definition neq (x y : float) : bool := negb (SFeqb x y).

Definition finite (x : float) : bool :=
  match x with
  | S754_zero _ | S754_finite _ _ _ => true
  | S754_infinity _ | S754_nan => false
  end.

(** The binary32 number of a (small) integer literal. *)
Definition of_Z (z : Z) : float :=
  match z with
  | Z0 => zero
  | Zpos p => SFldexp prec emax (S754_finite false p 0) 0
  | Zneg p => SFldexp prec emax (S754_finite true p 0) 0
  end.

End F32.

(** ** The CSR matrix ([csrmatrix.h]) *)

Record Matrix : Type := mkMatrix {
  noRows : Z;
  noCols : Z;
  values : list float;
  valuesSize : Z;
  colIndices : list Z;
  rowPointers : list Z;
  rowPointersSize : Z
}.

Definition set_values (m : Matrix) (v : list float) : Matrix :=
  mkMatrix (noRows m) (noCols m) v (valuesSize m) (colIndices m)
           (rowPointers m) (rowPointersSize m).
Definition set_valuesSize (m : Matrix) (n : Z) : Matrix :=
  mkMatrix (noRows m) (noCols m) (values m) n (colIndices m)
           (rowPointers m) (rowPointersSize m).
Definition set_colIndices (m : Matrix) (c : list Z) : Matrix :=
  mkMatrix (noRows m) (noCols m) (values m) (valuesSize m) c
           (rowPointers m) (rowPointersSize m).
Definition set_rowPointers (m : Matrix) (r : list Z) : Matrix :=
  mkMatrix (noRows m) (noCols m) (values m) (valuesSize m) (colIndices m)
           r (rowPointersSize m).

(** Element accessors, reading as the C expressions do. *)
Definition val_at (m : Matrix) (i : Z) : float := aget (values m) i F32.zero.
Definition col_at (m : Matrix) (i : Z) : Z := aget (colIndices m) i 0.
Definition rowptr_at (m : Matrix) (i : Z) : Z := aget (rowPointers m) i 0.

(** Error codes ([constants.h], [matrix.h], [matrixutils.h]). *)
Definition HEAP_MEMORY_ERROR : Z := -1.
Definition MATRIX_DIMENSION_ERROR : Z := -2.
Definition MATRIX_CONVERSION_ERROR : Z := -3.
Definition THREAD_START_ERROR : Z := -5.
Definition MIN_THREADS : Z := 2.
Definition THREAD_COND_MIN_VALUES : Z := 40.
Definition THREAD_COND_MIN_ROWS : Z := 4.
Definition PREDICT_SIZE : Z := 1.
Definition NO_PREDICTION : Z := 0.
Definition sizeof_float : Z := 4.
Definition sizeof_uint64 : Z := 8.
Definition sizeof_ptr : Z := 8.

(** ** The multiplication kernels ([matrixutils.c]) *)

(** [values[rowA * result->noCols + columnB] += valueC;
    colIndices[rowA * b->noCols + columnB] = columnB;] *)
Definition accumulate (matrix_b res : Matrix) (rowA columnB : Z) (valueC : float)
  : Matrix :=
  let vi := add64 (mul64 rowA (noCols res)) columnB in
  let ci := add64 (mul64 rowA (noCols matrix_b)) columnB in
  let res := set_values res (aset (values res) vi (F32.add (val_at res vi) valueC)) in
  set_colIndices res (aset (colIndices res) ci columnB).

(** The scalar loop over one row of B: [for (; indexB < rowBEnd; indexB++)]. *)
Definition scalar_row_B (matrix_b : Matrix) (rowA : Z) (valueA : float)
           (indexB rowBEnd : Z) (res : Matrix) : Matrix :=
  for_lt indexB rowBEnd
    (fun indexB res =>
       let valueB := val_at matrix_b indexB in
       let valueC := F32.mul valueA valueB in
       let columnB := col_at matrix_b indexB in
       accumulate matrix_b res rowA columnB valueC)
    res.

(** The body of the loop over the rows of A that V2 and the worker of the
    multithreaded implementation share. *)
Definition gustavson_row (matrix_a matrix_b : Matrix) (rowA : Z) (res : Matrix)
  : Matrix :=
  let rowABeg := rowptr_at matrix_a rowA in
  let rowAEnd := rowptr_at matrix_a (rowA + 1) in
  let res :=
    for_lt rowABeg rowAEnd
      (fun indexA res =>
         let valueA := val_at matrix_a indexA in
         let rowBBeg := rowptr_at matrix_b (col_at matrix_a indexA) in
         let rowBEnd := rowptr_at matrix_b (add64 (col_at matrix_a indexA) 1) in
         scalar_row_B matrix_b rowA valueA rowBBeg rowBEnd res)
      res in
  set_rowPointers res
    (aset (rowPointers res) (rowA + 1) (mul64 (rowA + 1) (noCols res))).

Definition multiply_V2 (matrix_a matrix_b matrix_result : Matrix) : Matrix :=
  let res := set_rowPointers matrix_result (aset (rowPointers matrix_result) 0 0) in
  for_lt 0 (noRows matrix_a) (gustavson_row matrix_a matrix_b) res.

(** *** The SIMD kernels V3 (SSE, 4 lanes) and V4 (AVX, 8 lanes) *)

(** [_mm_loadu_ps] / [_mm256_loadu_ps]: the lanes [p[0] .. p[lanes-1]]. *)
Definition load_lanes (matrix_b : Matrix) (indexB : Z) (lanes : nat) : list float :=
  map (fun k => val_at matrix_b (indexB + Z.of_nat k)) (seq 0 lanes).

(** [_mm_mul_ps valuesB valueA], the value of A broadcast to every lane. *)
Definition mul_lanes (valuesB : list float) (valueA : float) : list float :=
  map (fun vb => F32.mul vb valueA) valuesB.

(** [for (int i = 0; i < lanes; i++) { columnB = colIndices[indexB++]; ... }] *)
Fixpoint scatter_lanes (matrix_b : Matrix) (rowA : Z) (values_to_add : list float)
         (indexB : Z) (res : Matrix) : Z * Matrix :=
  match values_to_add with
  | [] => (indexB, res)
  | v :: rest =>
      let columnB := col_at matrix_b indexB in
      scatter_lanes matrix_b rowA rest (indexB + 1)
                    (accumulate matrix_b res rowA columnB v)
  end.

(** [do { ... valuesToMultiply -= lanes; } while (valuesToMultiply >= lanes);]
    The first argument bounds the number of rounds; [valuesToMultiply]
    rounds always suffice. *)
Fixpoint simd_batches (fuel : nat) (lanes : nat) (matrix_b : Matrix) (rowA : Z)
         (valueA : float) (indexB valuesToMultiply : Z) (res : Matrix)
  : Z * Matrix :=
  match fuel with
  | O => (indexB, res)
  | S fuel' =>
      let valuesB := mul_lanes (load_lanes matrix_b indexB lanes) valueA in
      let '(indexB, res) := scatter_lanes matrix_b rowA valuesB indexB res in
      let valuesToMultiply := sub64 valuesToMultiply (Z.of_nat lanes) in
      if Z.of_nat lanes <=? valuesToMultiply
      then simd_batches fuel' lanes matrix_b rowA valueA indexB valuesToMultiply res
      else (indexB, res)
  end.

Definition simd_row (lanes : nat) (matrix_a matrix_b : Matrix) (rowA : Z)
           (res : Matrix) : Matrix :=
  let rowABeg := rowptr_at matrix_a rowA in
  let rowAEnd := rowptr_at matrix_a (rowA + 1) in
  let res :=
    for_lt rowABeg rowAEnd
      (fun indexA res =>
         let rowBBeg := rowptr_at matrix_b (col_at matrix_a indexA) in
         let rowBEnd := rowptr_at matrix_b (add64 (col_at matrix_a indexA) 1) in
         let valuesToMultiply := sub64 rowBEnd rowBBeg in
         let '(indexB, res) :=
           if Z.of_nat lanes <=? valuesToMultiply
           then simd_batches (Z.to_nat valuesToMultiply) lanes matrix_b rowA
                             (val_at matrix_a indexA) rowBBeg valuesToMultiply res
           else (rowBBeg, res) in
         scalar_row_B matrix_b rowA (val_at matrix_a indexA) indexB rowBEnd res)
      res in
  set_rowPointers res
    (aset (rowPointers res) (rowA + 1) (mul64 (rowA + 1) (noCols res))).

(** The loop nests of [multiply_V3] and [multiply_V4], after the scratch
    array [values_to_add] has been obtained. *)
Definition multiply_simd (lanes : nat) (matrix_a matrix_b res : Matrix) : Matrix :=
  for_lt 0 (noRows matrix_a) (simd_row lanes matrix_a matrix_b) res.

(** *** The size-predicted kernel V5 *)

(** [for (i = valuesBegPtr; i < valuesSize; i++)]: the first slot holding a
    zero value receives the product, a slot with the same column
    accumulates it.  Returns the result and [valuesEndPtr]. *)
Fixpoint place_V5 (n : nat) (i : Z) (columnB : Z) (valueC : float)
         (res : Matrix) (valuesEndPtr : Z) : Matrix * Z :=
  match n with
  | O => (res, valuesEndPtr)
  | S k =>
      if F32.eq0 (val_at res i) then
        let res := set_values res (aset (values res) i valueC) in
        let res := set_colIndices res (aset (colIndices res) i columnB) in
        (res, i + 1)
      else if col_at res i =? columnB then
        (set_values res (aset (values res) i (F32.add (val_at res i) valueC)),
         valuesEndPtr)
      else place_V5 k (i + 1) columnB valueC res valuesEndPtr
  end.

Definition row_V5 (matrix_a matrix_b : Matrix) (rowA : Z)
           (st : Matrix * Z * Z) : Matrix * Z * Z :=
  let '(res, valuesBegPtr, valuesEndPtr) := st in
  let rowABeg := rowptr_at matrix_a rowA in
  let rowAEnd := rowptr_at matrix_a (rowA + 1) in
  let '(res, valuesEndPtr) :=
    for_lt rowABeg rowAEnd
      (fun indexA st =>
         let valueA := val_at matrix_a indexA in
         let rowBBeg := rowptr_at matrix_b (col_at matrix_a indexA) in
         let rowBEnd := rowptr_at matrix_b (add64 (col_at matrix_a indexA) 1) in
         for_lt rowBBeg rowBEnd
           (fun indexB st =>
              let '(res, valuesEndPtr) := st in
              let valueB := val_at matrix_b indexB in
              let valueC := F32.mul valueA valueB in
              let columnB := col_at matrix_b indexB in
              place_V5 (Z.to_nat (valuesSize res - valuesBegPtr)) valuesBegPtr
                       columnB valueC res valuesEndPtr)
           st)
      (res, valuesEndPtr) in
  let res := set_rowPointers res (aset (rowPointers res) (rowA + 1) valuesEndPtr) in
  (res, valuesEndPtr, valuesEndPtr).

Definition multiply_V5 (matrix_a matrix_b matrix_result : Matrix) : Matrix :=
  let res := set_rowPointers matrix_result (aset (rowPointers matrix_result) 0 0) in
  fst (fst (for_lt 0 (noRows matrix_a) (row_V5 matrix_a matrix_b) (res, 0, 0))).

(** *** The worker of the multithreaded implementation *)

Record MultiplyArg : Type := mkArg { start_row : Z; end_row : Z }.

Definition multiply_main_implementation (matrix_a matrix_b : Matrix)
           (arg : MultiplyArg) (matrix_result : Matrix) : Matrix :=
  let res := set_rowPointers matrix_result (aset (rowPointers matrix_result) 0 0) in
  for_lt (start_row arg) (end_row arg) (gustavson_row matrix_a matrix_b) res.

(** ** Dense conversion (used by V1) *)

Definition dense : Type := list (list float).

Definition dget (d : dense) (i j : Z) : float := aget (aget d i []) j F32.zero.
Definition dset (d : dense) (i j : Z) (v : float) : dense :=
  aset d i (aset (aget d i []) j v).

(** [calloc]'ed rows: [noRows] rows of [noCols] zeros. *)
Definition dense_zero (rows cols : Z) : dense :=
  repeat (repeat F32.zero (Z.to_nat cols)) (Z.to_nat rows).

(** The scatter loop of [csr_to_ordinary]. *)
Definition csr_fill (csr : Matrix) (ordinary : dense) : dense :=
  for_lt 0 (noRows csr)
    (fun i ordinary =>
       for_lt (rowptr_at csr i) (rowptr_at csr (i + 1))
         (fun j ordinary => dset ordinary i (col_at csr j) (val_at csr j))
         ordinary)
    ordinary.

(** The counting loop of [ordinary_to_csr]. *)
Definition count_non_zero (rows cols : Z) (ordinary : dense) : Z :=
  for_lt 0 rows
    (fun i n =>
       for_lt 0 cols
         (fun j n => if F32.ne0 (dget ordinary i j) then add64 n 1 else n) n)
    0.

(** The filling loop of [ordinary_to_csr]: state is the three arrays and
    the insertion counter [c]. *)
Definition dense_fill (rows cols : Z) (ordinary : dense)
           (vals : list float) (cols_ : list Z) (rptr : list Z)
  : list float * list Z * list Z :=
  let rptr := aset rptr 0 0 in
  let '(vals, cols_, rptr, _) :=
    for_lt 0 rows
      (fun i st =>
         let '(vals, cols_, rptr, c) :=
           for_lt 0 cols
             (fun j st =>
                let '(vals, cols_, rptr, c) := st in
                if F32.ne0 (dget ordinary i j)
                then (aset vals c (dget ordinary i j), aset cols_ c j, rptr, c + 1)
                else st)
             st in
         (vals, cols_, aset rptr (i + 1) c, c))
      (vals, cols_, rptr, 0) in
  (vals, cols_, rptr).

(** The triple loop of [matr_mult_csr_V1]. *)
Definition dense_multiply (matrix_a matrix_b : Matrix)
           (ord_a ord_b ord_result : dense) : dense :=
  for_lt 0 (noRows matrix_a)
    (fun i r =>
       for_lt 0 (noCols matrix_b)
         (fun j r =>
            for_lt 0 (noCols matrix_a)
              (fun k r =>
                 dset r i j
                      (F32.add (dget r i j) (F32.mul (dget ord_a i k) (dget ord_b k j))))
              r)
         r)
    ord_result.

(** ** Process state: [errno], the allocator, the thread library *)

Record World : Type := mkWorld {
  errno : Z;
  heap_calls : nat;              (* calls to malloc/calloc/realloc so far *)
  heap_grants : nat -> bool;     (* whether the k-th call returns a block *)
  thread_calls : nat;            (* calls to pthread_create so far *)
  thread_grants : nat -> bool;   (* whether the k-th call starts a thread *)
  cpu_avx : bool;                (* __builtin_cpu_supports("avx") *)
  nprocs : Z                     (* get_nprocs() *)
}.

Definition M (A : Type) : Type := World -> A * World.

Definition ret {A} (a : A) : M A := fun w => (a, w).
Definition bind {A B} (c : M A) (k : A -> M B) : M B :=
  fun w => let '(a, w') := c w in k a w'.

Declare Scope monad_scope.
Delimit Scope monad_scope with monad.
Notation "x <- c ;; k" := (bind c (fun x => k))
  (at level 61, c at next level, right associativity) : monad_scope.
Notation "' pat <- c ;; k" := (bind c (fun x => match x with pat => k end))
  (at level 61, pat pattern, c at next level, right associativity) : monad_scope.
Notation "c ;;; k" := (bind c (fun _ => k))
  (at level 61, right associativity) : monad_scope.
Open Scope monad_scope.

Definition with_errno (e : Z) (w : World) : World :=
  mkWorld e (heap_calls w) (heap_grants w) (thread_calls w)
          (thread_grants w) (cpu_avx w) (nprocs w).

(** [errno = e;] *)
Definition set_errno (e : Z) : M unit := fun w => (tt, with_errno e w).

(** One request to the allocator: the world says whether it is granted.
    The request leaves [errno] alone.  A C library may store [ENOMEM] in
    [errno] when it refuses a request, which the model does not show: the
    [errno] of a world after a refused request is the one the program's
    own assignments give it. *)
Definition heap_request : M bool :=
  fun w => (heap_grants w (heap_calls w),
            mkWorld (errno w) (S (heap_calls w)) (heap_grants w) (thread_calls w)
                    (thread_grants w) (cpu_avx w) (nprocs w)).

Definition malloc (size : Z) : M bool := heap_request.
Definition realloc (size : Z) : M bool := heap_request.
(** [calloc] refuses a request whose byte count does not fit. *)
Definition calloc (n size : Z) : M bool :=
  ok <- heap_request ;; ret (ok && (n * size <? modulus64)).

(** [malloc_safe] ([utils.h]): no call to [malloc] on overflow. *)
Definition malloc_safe (element_size num_elements : Z) : M bool :=
  let '(overflow, alloc_size) := umull_overflow element_size num_elements in
  if overflow then ret false else malloc alloc_size.

Definition pthread_create : M bool :=
  fun w => (thread_grants w (thread_calls w),
            mkWorld (errno w) (heap_calls w) (heap_grants w) (S (thread_calls w))
                    (thread_grants w) (cpu_avx w) (nprocs w)).

Definition get_nprocs : M Z := fun w => (nprocs w, w).
Definition cpu_supports_avx : M bool := fun w => (cpu_avx w, w).

(** The result handle: a [Matrix] struct whose three array fields may be
    [NULL] ([None]). *)
Record Handle : Type := mkHandle {
  h_noRows : Z;
  h_noCols : Z;
  h_values : option (list float);
  h_valuesSize : Z;
  h_colIndices : option (list Z);
  h_rowPointers : option (list Z);
  h_rowPointersSize : Z
}.

Definition handle_of (m : Matrix) : Handle :=
  mkHandle (noRows m) (noCols m) (Some (values m)) (valuesSize m)
           (Some (colIndices m)) (Some (rowPointers m)) (rowPointersSize m).

Definition block {A} (p : option (list A)) : list A :=
  match p with Some l => l | None => [] end.

Definition deref (h : Handle) : Matrix :=
  mkMatrix (h_noRows h) (h_noCols h) (block (h_values h)) (h_valuesSize h)
           (block (h_colIndices h)) (block (h_rowPointers h)) (h_rowPointersSize h).

(** [result->values = NULL; result->colIndices = NULL; result->rowPointers = NULL;] *)
Definition null_arrays (h : Handle) : Handle :=
  mkHandle (h_noRows h) (h_noCols h) None (h_valuesSize h) None None
           (h_rowPointersSize h).

(** ** Helper functions ([matrixutils.c]) *)

Definition can_multiply (a b : Matrix) : bool :=
  (noCols a =? noRows b) && ((1 <=? noCols a) && (1 <=? noRows a))
  && ((1 <=? noCols b) && (1 <=? noRows b)).

(** The three loops of [predict_values_dimension] and the final clamp. *)
Definition predict_count (matrix_a matrix_b : Matrix) : Z :=
  let maxValueSize := mul64 (noRows matrix_a) (noCols matrix_b) in
  let numValuesInColsA := repeat 0 (Z.to_nat (noCols matrix_a)) in
  let numValuesInRowB := repeat 0 (Z.to_nat (noRows matrix_b)) in
  let numsSize := noCols matrix_a in
  let numValuesInRowB :=
    for_lt 0 (noRows matrix_b)
      (fun rowB rows =>
         aset rows rowB
              (sub64 (rowptr_at matrix_b (rowB + 1)) (rowptr_at matrix_b rowB)))
      numValuesInRowB in
  let numValuesInColsA :=
    for_lt 0 (valuesSize matrix_a)
      (fun valuesIndex cnt =>
         let column := col_at matrix_a valuesIndex in
         aset cnt column (add64 (aget cnt column 0) 1))
      numValuesInColsA in
  let values_size :=
    for_lt 0 numsSize
      (fun index acc =>
         add64 acc (mul64 (aget numValuesInRowB index 0)
                          (aget numValuesInColsA index 0)))
      0 in
  if maxValueSize <? values_size then maxValueSize else values_size.

Definition predict_values_dimension (matrix_a matrix_b : Matrix) : M (Z * Z) :=
  ok <- calloc (noCols matrix_a) sizeof_uint64 ;;
  if negb ok then ret (HEAP_MEMORY_ERROR, 0) else
  ok <- calloc (noRows matrix_b) sizeof_uint64 ;;
  if negb ok then ret (HEAP_MEMORY_ERROR, 0) else
  ret (0, predict_count matrix_a matrix_b).

Definition init_empty_csr_matrix (matrix_a matrix_b : Matrix) (result : Handle)
           (predict_flag : Z) : M (Z * Handle) :=
  '(rc, valuesSize) <-
     (if predict_flag =? 0
      then ret (0, mul64 (noRows matrix_a) (noCols matrix_b))
      else predict_values_dimension matrix_a matrix_b) ;;
  if rc =? HEAP_MEMORY_ERROR then ret (HEAP_MEMORY_ERROR, result) else
  ok <- calloc valuesSize sizeof_float ;;
  if negb ok then ret (HEAP_MEMORY_ERROR, null_arrays result) else
  ok <- calloc valuesSize sizeof_uint64 ;;
  if negb ok then ret (HEAP_MEMORY_ERROR, null_arrays result) else
  ok <- malloc_safe sizeof_uint64 (add64 (noRows matrix_a) 1) ;;
  if negb ok then ret (HEAP_MEMORY_ERROR, null_arrays result) else
  ret (0, mkHandle (noRows matrix_a) (noCols matrix_b)
                   (Some (repeat F32.zero (Z.to_nat valuesSize))) valuesSize
                   (Some (repeat 0 (Z.to_nat valuesSize)))
                   (Some (repeat 0 (Z.to_nat (add64 (noRows matrix_a) 1))))
                   (add64 (noRows matrix_a) 1)).

(** The state of [_clean_up_matrix_arrays]. *)
Record Compaction : Type := mkCompaction {
  cm : Matrix;
  non_zero_values : Z;
  removed : Z;
  row_beg : Z
}.

(** One round of [while (row_beg < row_end)].  The three counters stay
    below [row_end], so their increments do not wrap. *)
Definition compact_step (st : Compaction) : Compaction :=
  let m := cm st in
  if F32.ne0 (val_at m (row_beg st)) then
    let m := set_values m (aset (values m) (non_zero_values st) (val_at m (row_beg st))) in
    let m := set_colIndices m
               (aset (colIndices m) (non_zero_values st) (col_at m (row_beg st))) in
    mkCompaction m (non_zero_values st + 1) (removed st) (row_beg st + 1)
  else
    mkCompaction m (non_zero_values st) (removed st + 1) (row_beg st + 1).

Definition compact_row (row : Z) (st : Compaction) : Compaction :=
  let row_end := rowptr_at (cm st) row in
  let st := iter_up (Z.to_nat (row_end - row_beg st)) 0 (fun _ => compact_step) st in
  let m := cm st in
  mkCompaction
    (set_rowPointers m (aset (rowPointers m) row (sub64 row_end (removed st))))
    (non_zero_values st) (removed st) (row_beg st).

(** [_clean_up_matrix_arrays]: the compacted matrix and the count it stores
    through [non_zero_values]. *)
Definition _clean_up_matrix_arrays (matrix : Matrix) : Z * Matrix * Z :=
  let st := for_lt 1 (rowPointersSize matrix) compact_row
                   (mkCompaction matrix 0 0 (rowptr_at matrix 0)) in
  (0, cm st, non_zero_values st).

(** A block shrunk to [n] elements keeps its first [n] elements. *)
Definition shrink {A} (l : list A) (n : Z) : list A := firstn (Z.to_nat n) l.

Definition clean_up_csr (matrix : Matrix) : M (Z * Matrix) :=
  let '(rc, matrix, non_zero_values) := _clean_up_matrix_arrays matrix in
  if rc =? HEAP_MEMORY_ERROR then ret (HEAP_MEMORY_ERROR, matrix) else
  if 0 <? non_zero_values then
    let '(overflow, alloc_size) := umull_overflow non_zero_values sizeof_float in
    if overflow then ret (HEAP_MEMORY_ERROR, matrix) else
    ok <- realloc alloc_size ;;
    if negb ok then ret (HEAP_MEMORY_ERROR, matrix) else
    let matrix := set_values matrix (shrink (values matrix) non_zero_values) in
    let '(overflow, alloc_size) := umull_overflow non_zero_values sizeof_uint64 in
    if overflow then ret (HEAP_MEMORY_ERROR, matrix) else
    ok <- realloc alloc_size ;;
    if negb ok then ret (HEAP_MEMORY_ERROR, matrix) else
    let matrix := set_colIndices matrix (shrink (colIndices matrix) non_zero_values) in
    ret (0, set_valuesSize matrix non_zero_values)
  else ret (0, set_valuesSize matrix non_zero_values).

(** *** Thread partitioning and start-up *)

(** The row ranges computed by the first loop of [start_threads] and the
    final store of [matrix_a->noRows] into the last worker's [end_row]. *)
Definition make_arguments (noRows_a thread_count : Z) : list MultiplyArg :=
  let step := noRows_a / thread_count in
  let rest := wrap32 (noRows_a mod thread_count) in
  let '(arguments, _) :=
    for_lt 0 thread_count
      (fun i st =>
         let '(arguments, prev) := st in
         let prev' := if i <? rest then add64 prev (add64 step 1)
                      else add64 prev step in
         (arguments ++ [mkArg prev prev'], prev'))
      ([], 0) in
  let last := thread_count - 1 in
  aset arguments last (mkArg (start_row (aget arguments last (mkArg 0 0))) noRows_a).

(** [n] consecutive [malloc(size)] calls, stopping at the first failure. *)
Fixpoint malloc_each (n : nat) (size : Z) : M bool :=
  match n with
  | O => ret true
  | S k => ok <- malloc size ;; if ok then malloc_each k size else ret false
  end.

(** The second loop of [start_threads].  A started worker is run to
    completion on the shared result before the next one is created: the
    workers write disjoint rows, so the order does not show in the result. *)
Fixpoint spawn_workers (matrix_a matrix_b : Matrix) (arguments : list MultiplyArg)
         (res : Matrix) : M (Z * Matrix) :=
  match arguments with
  | [] => ret (0, res)
  | arg :: rest =>
      ok <- pthread_create ;;
      if ok
      then spawn_workers matrix_a matrix_b rest
                         (multiply_main_implementation matrix_a matrix_b arg res)
      else ret (THREAD_START_ERROR, res)
  end.

Definition sizeof_MultiplyArg : Z := 40.
Definition sizeof_pthread_t : Z := 8.

Definition start_threads (thread_count : Z) (matrix_a matrix_b matrix_result : Matrix)
  : M (Z * Matrix) :=
  if thread_count =? 0 then ret (THREAD_START_ERROR, matrix_result) else
  ok <- malloc (sizeof_ptr * thread_count) ;;
  if negb ok then ret (HEAP_MEMORY_ERROR, matrix_result) else
  ok <- malloc_each (Z.to_nat thread_count) sizeof_MultiplyArg ;;
  if negb ok then ret (HEAP_MEMORY_ERROR, matrix_result) else
  let arguments := make_arguments (noRows matrix_a) thread_count in
  ok <- malloc (sizeof_pthread_t * thread_count) ;;
  if negb ok then ret (HEAP_MEMORY_ERROR, matrix_result) else
  spawn_workers matrix_a matrix_b arguments matrix_result.

(** *** Dense conversion with its allocations *)

(** [n] consecutive [calloc(cols, sizeof(float))] calls. *)
Fixpoint calloc_rows (n : nat) (cols : Z) : M bool :=
  match n with
  | O => ret true
  | S k => ok <- calloc cols sizeof_float ;;
           if ok then calloc_rows k cols else ret false
  end.

(** What [csr_to_ordinary] returns once its blocks are allocated. *)
Definition dense_of_csr (csr : Matrix) : dense :=
  csr_fill csr (dense_zero (noRows csr) (noCols csr)).

Definition csr_to_ordinary (csr : Matrix) : M (option dense) :=
  ok <- malloc_safe (noRows csr) sizeof_ptr ;;
  if negb ok then ret None else
  ok <- calloc_rows (Z.to_nat (noRows csr)) (noCols csr) ;;
  if negb ok then ret None else
  ret (Some (dense_of_csr csr)).

Definition sizeof_Matrix : Z := 56.

(** What [ordinary_to_csr] returns once its blocks are allocated. *)
Definition csr_of_dense (rows cols : Z) (ordinary : dense) : Matrix :=
  let no_non_zero := count_non_zero rows cols ordinary in
  let '(vals, cols_, rptr) :=
    dense_fill rows cols ordinary
               (repeat F32.zero (Z.to_nat no_non_zero))
               (repeat 0 (Z.to_nat no_non_zero))
               (repeat 0 (Z.to_nat (add64 rows 1))) in
  mkMatrix rows cols vals no_non_zero cols_ rptr (add64 rows 1).

Definition ordinary_to_csr (rows cols : Z) (ordinary : dense) : M (option Matrix) :=
  ok <- malloc sizeof_Matrix ;;
  if negb ok then ret None else
  let no_non_zero := count_non_zero rows cols ordinary in
  ok <- malloc_safe sizeof_float no_non_zero ;;
  if negb ok then ret None else
  ok <- malloc_safe sizeof_uint64 no_non_zero ;;
  if negb ok then ret None else
  ok <- malloc_safe sizeof_uint64 (add64 rows 1) ;;
  if negb ok then ret None else
  ret (Some (csr_of_dense rows cols ordinary)).

(** ** The entry points ([matrix.c]) *)

Definition finish_with_clean_up (res : Matrix) : M Handle :=
  '(rc, res) <- clean_up_csr res ;;
  (if rc =? HEAP_MEMORY_ERROR then set_errno HEAP_MEMORY_ERROR else ret tt) ;;;
  ret (handle_of res).

Definition matr_mult_csr_V1 (a b : Matrix) (result : Handle) : M Handle :=
  if negb (can_multiply a b) then set_errno MATRIX_DIMENSION_ERROR ;;; ret result else
  ord_a <- csr_to_ordinary a ;;
  match ord_a with
  | None => set_errno MATRIX_CONVERSION_ERROR ;;; ret result
  | Some ord_a =>
  ord_b <- csr_to_ordinary b ;;
  match ord_b with
  | None => set_errno MATRIX_CONVERSION_ERROR ;;; ret result
  | Some ord_b =>
  ok <- malloc_safe (noRows a) sizeof_ptr ;;
  if negb ok then set_errno HEAP_MEMORY_ERROR ;;; ret result else
  ok <- calloc_rows (Z.to_nat (noRows a)) (noCols b) ;;
  if negb ok then set_errno HEAP_MEMORY_ERROR ;;; ret result else
  let ord_result :=
    dense_multiply a b ord_a ord_b (dense_zero (noRows a) (noCols b)) in
  matrix_tmp <- ordinary_to_csr (noRows a) (noCols b) ord_result ;;
  match matrix_tmp with
  | None => set_errno MATRIX_CONVERSION_ERROR ;;; ret result
  | Some matrix_tmp => ret (handle_of matrix_tmp)
  end end end.

Definition matr_mult_csr_V2 (a b : Matrix) (result : Handle) : M Handle :=
  if negb (can_multiply a b) then set_errno MATRIX_DIMENSION_ERROR ;;; ret result else
  '(rc, result) <- init_empty_csr_matrix a b result NO_PREDICTION ;;
  if rc =? HEAP_MEMORY_ERROR then set_errno HEAP_MEMORY_ERROR ;;; ret result else
  finish_with_clean_up (multiply_V2 a b (deref result)).

(** [multiply_V3] / [multiply_V4]: the first row pointer, the scratch
    array, then the loop nest. *)
Definition multiply_V3 (a b matrix_result : Matrix) : M (Z * Matrix) :=
  let res := set_rowPointers matrix_result (aset (rowPointers matrix_result) 0 0) in
  ok <- malloc (sizeof_float * 4) ;;
  if negb ok then ret (HEAP_MEMORY_ERROR, res) else
  ret (0, multiply_simd 4 a b res).

Definition multiply_V4 (a b matrix_result : Matrix) : M (Z * Matrix) :=
  let res := set_rowPointers matrix_result (aset (rowPointers matrix_result) 0 0) in
  ok <- malloc (sizeof_float * 8) ;;
  if negb ok then ret (HEAP_MEMORY_ERROR, res) else
  ret (0, multiply_simd 8 a b res).

Definition matr_mult_csr_V3 (a b : Matrix) (result : Handle) : M Handle :=
  if negb (can_multiply a b) then set_errno MATRIX_DIMENSION_ERROR ;;; ret result else
  '(rc, result) <- init_empty_csr_matrix a b result NO_PREDICTION ;;
  if rc =? HEAP_MEMORY_ERROR then set_errno HEAP_MEMORY_ERROR ;;; ret result else
  '(rc, res) <- multiply_V3 a b (deref result) ;;
  if rc =? HEAP_MEMORY_ERROR then set_errno HEAP_MEMORY_ERROR ;;; ret (handle_of res) else
  finish_with_clean_up res.

Definition matr_mult_csr_V4 (a b : Matrix) (result : Handle) : M Handle :=
  avx <- cpu_supports_avx ;;
  if negb avx then matr_mult_csr_V1 a b result else
  if negb (can_multiply a b) then set_errno MATRIX_DIMENSION_ERROR ;;; ret result else
  '(rc, result) <- init_empty_csr_matrix a b result NO_PREDICTION ;;
  if rc =? HEAP_MEMORY_ERROR then set_errno HEAP_MEMORY_ERROR ;;; ret result else
  '(rc, res) <- multiply_V4 a b (deref result) ;;
  if rc =? HEAP_MEMORY_ERROR then set_errno HEAP_MEMORY_ERROR ;;; ret (handle_of res) else
  finish_with_clean_up res.

Definition matr_mult_csr_V5 (a b : Matrix) (result : Handle) : M Handle :=
  if negb (can_multiply a b) then set_errno MATRIX_DIMENSION_ERROR ;;; ret result else
  '(rc, result) <- init_empty_csr_matrix a b result PREDICT_SIZE ;;
  if rc =? HEAP_MEMORY_ERROR then set_errno HEAP_MEMORY_ERROR ;;; ret result else
  finish_with_clean_up (multiply_V5 a b (deref result)).

(** The thread count chosen by [matr_mult_csr]; it is passed to
    [start_threads] as an [unsigned int]. *)
Definition choose_thread_count (noRows_a available_threads : Z) : Z :=
  let row_weight := noRows_a / THREAD_COND_MIN_VALUES in
  let elem_weight := noRows_a / THREAD_COND_MIN_ROWS in
  let tmp_min := if row_weight <? elem_weight then row_weight else elem_weight in
  let thread_count :=
    if tmp_min <? available_threads then tmp_min else available_threads in
  if thread_count <? MIN_THREADS then MIN_THREADS else thread_count.

(** The threaded default implementation.  The C function tests the result
    of [start_threads] against [THREAD_START_ERROR] only, and so does the
    model.  When [start_threads] returns [HEAP_MEMORY_ERROR] the C function
    goes on to join and free through the two pointers [start_threads]
    never assigned, which has no defined outcome; the model goes on to the
    clean-up with the untouched result.  What is proved of such a run
    describes the model only. *)
Definition matr_mult_csr (a b : Matrix) (result : Handle) : M Handle :=
  if (valuesSize a <? 10000) || (noRows a <? MIN_THREADS)
  then matr_mult_csr_V5 a b result else
  if negb (can_multiply a b) then set_errno MATRIX_DIMENSION_ERROR ;;; ret result else
  '(rc, result) <- init_empty_csr_matrix a b result NO_PREDICTION ;;
  if rc =? HEAP_MEMORY_ERROR then set_errno HEAP_MEMORY_ERROR ;;; ret result else
  available_threads <- get_nprocs ;;
  let thread_count := choose_thread_count (noRows a) (wrap64 available_threads) in
  '(start_result, res) <- start_threads (wrap32 thread_count) a b (deref result) ;;
  if start_result =? THREAD_START_ERROR
  then set_errno THREAD_START_ERROR ;;; ret (handle_of res) else
  finish_with_clean_up res.

(** The dispatch table of [main.c]. *)
Definition choose_mult_fn (implementation : Z)
  : option (Matrix -> Matrix -> Handle -> M Handle) :=
  match implementation with
  | 0 => Some matr_mult_csr
  | 1 => Some matr_mult_csr_V1
  | 2 => Some matr_mult_csr_V2
  | 3 => Some matr_mult_csr_V3
  | 4 => Some matr_mult_csr_V4
  | 5 => Some matr_mult_csr_V5
  | _ => None
  end.

(** ** The equality checker ([matrixutils.c]) *)

(** [_swap_cols] / [_swap_values]: nothing happens unless both positions
    are below [size]. *)
Definition swap_guarded {A} (l : list A) (size i j : Z) (d : A) : list A :=
  if (i <? size) && (j <? size)
  then let tmp := aget l j d in aset (aset l j (aget l i d)) i tmp
  else l.

(** The inner loop of [sort_matrix],
    [for (uint64_t j = i - 1; j >= beg; j--)], entered with [j = i - 1]
    wrapped.  The first argument bounds the number of rounds: with
    [i - beg + 1] rounds the last one either fails [j >= beg] or, when
    [beg = 0] and [j] has wrapped to [2^64 - 1], reads outside the block. *)
Fixpoint sift_down (n : nat) (beg col currentPositionOfValue j : Z) (m : Matrix)
  : Matrix :=
  match n with
  | O => m
  | S k =>
      if beg <=? j then
        if col <? col_at m j then
          let m := set_colIndices m
                     (swap_guarded (colIndices m) (valuesSize m)
                                   currentPositionOfValue j 0) in
          let m := set_values m
                     (swap_guarded (values m) (valuesSize m)
                                   currentPositionOfValue j F32.zero) in
          sift_down k beg col j (sub64 j 1) m
        else m
      else m
  end.

Definition sort_step (beg i : Z) (m : Matrix) : Matrix :=
  let col := col_at m i in
  sift_down (Z.to_nat (i - beg + 1)) beg col i (sub64 i 1) m.

(** [for (uint64_t i = beg; i <= end; i++)].  With [end = 2^64 - 1] the
    test [i <= end] never fails and the call does not return ([None]). *)
Definition sort_matrix (m : Matrix) (beg end_ : Z) : option Matrix :=
  if end_ =? max64 then None
  else Some (for_lt beg (end_ + 1) (sort_step beg) m).

(** [for (i = lo; i < hi; i++) if (!p i) return 0;] *)
Definition all_lt (lo hi : Z) (p : Z -> bool) : bool :=
  for_lt lo hi (fun i ok => ok && p i) true.

(** [equals]: the verdict together with the two argument matrices as the
    call leaves them, or [None] when the call does not return. *)
Definition equals (matrix_a matrix_b : Matrix) : option (bool * Matrix * Matrix) :=
  if negb (noCols matrix_a =? noCols matrix_b)
     || negb (noRows matrix_a =? noRows matrix_b)
     || negb (valuesSize matrix_a =? valuesSize matrix_b)
     || negb (rowPointersSize matrix_a =? rowPointersSize matrix_b)
  then Some (false, matrix_a, matrix_b)
  else
    let sorted :=
      for_lt 0 (sub64 (rowPointersSize matrix_a) 1)
        (fun i st =>
           match st with
           | None => None
           | Some (a, b) =>
               let rowBegA := rowptr_at a i in
               let rowEndA := sub64 (rowptr_at a (i + 1)) 1 in
               let rowBegB := rowptr_at b i in
               let rowEndB := sub64 (rowptr_at b (i + 1)) 1 in
               match sort_matrix a rowBegA rowEndA with
               | None => None
               | Some a =>
                   match sort_matrix b rowBegB rowEndB with
                   | None => None
                   | Some b => Some (a, b)
                   end
               end
           end)
        (Some (matrix_a, matrix_b)) in
    match sorted with
    | None => None
    | Some (a, b) =>
        let same_entries :=
          all_lt 0 (valuesSize a)
                 (fun i => negb (negb (col_at a i =? col_at b i)
                                 || F32.neq (val_at a i) (val_at b i))) in
        let same_pointers :=
          all_lt 0 (rowPointersSize a)
                 (fun i => rowptr_at a i =? rowptr_at b i) in
        Some (same_entries && same_pointers, a, b)
    end.

(** ** Concrete matrices used in the statements below *)

Definition floats (l : list Z) : list float := map F32.of_Z l.

(** A machine on which every allocation and every thread start succeeds. *)
Definition generous (avx : bool) (procs : Z) : World :=
  mkWorld 0 0 (fun _ => true) 0 (fun _ => true) avx procs.

(** A handle as [main] prepares it: the three arrays are [NULL]. *)
Definition blank_handle : Handle := mkHandle 0 0 None 0 None None 0.

Module Scenario.
(** The 2x3 by 3x2 example. *)
Definition A : Matrix := mkMatrix 2 3 (floats [1; 2; 3]) 3 [0; 1; 2] [0; 2; 3] 3.
Definition B : Matrix := mkMatrix 3 2 (floats [4; 5]) 2 [1; 0] [0; 1; 1; 2] 4.
Definition product : Matrix :=
  mkMatrix 2 2 (floats [4; 15]) 2 [1; 0] [0; 1; 2] 3.
End Scenario.

Module Cancel.
(** A 1x3 by 3x2 product whose entry at column 0 cancels:
    [1*1 + (-1)*1 = 0] and [1*1 + 1*1 = 2]. *)
Definition A : Matrix := mkMatrix 1 3 (floats [1; -1; 1]) 3 [0; 1; 2] [0; 3] 2.
Definition B : Matrix :=
  mkMatrix 3 2 (floats [1; 1; 1; 1]) 4 [0; 1; 0; 1] [0; 2; 3; 4] 4.
Definition product : Matrix := mkMatrix 1 2 (floats [2]) 1 [1] [0; 1] 2.
Definition product_V5 : Matrix := mkMatrix 1 2 (floats [1]) 1 [1] [0; 1] 2.
End Cancel.

(** The six entry points in the order of their identifiers. *)
Definition entry_points : list (Matrix -> Matrix -> Handle -> M Handle) :=
  [matr_mult_csr; matr_mult_csr_V1; matr_mult_csr_V2;
   matr_mult_csr_V3; matr_mult_csr_V4; matr_mult_csr_V5].

(** ** Notions used in the statements *)

(** The multiplication is defined: inner dimensions agree and no dimension
    is zero. *)
Definition compatible (a b : Matrix) : Prop :=
  noCols a = noRows b
  /\ (1 <= noCols a /\ 1 <= noRows a) /\ (1 <= noCols b /\ 1 <= noRows b).

(** A machine on which no allocation succeeds. *)
Definition exhausted : World :=
  mkWorld 0 0 (fun _ => false) 0 (fun _ => true) true 4.

(** A handle whose array fields still hold the (released) blocks of an
    earlier product, as in the measuring loop of [main], which reuses one
    handle for every repetition. *)
Definition stale_handle : Handle := handle_of Scenario.product.

Module Mismatch.
(** A 2x3 matrix and a 2x2 matrix. *)
Definition A : Matrix := Scenario.A.
Definition B : Matrix := mkMatrix 2 2 (floats [1; 1]) 2 [0; 1] [0; 1; 2] 3.
End Mismatch.

(** Worker [i] of an argument array, and the rows it is given. *)
Definition arg_at (arguments : list MultiplyArg) (i : Z) : MultiplyArg :=
  aget arguments i (mkArg 0 0).

Definition owns (arg : MultiplyArg) (r : Z) : Prop :=
  start_row arg <= r < end_row arg.

(** The row boundary before worker [k]: [k] shares of
    [rowCount / thread_count] rows plus one extra row for each of the
    first [rowCount % thread_count] workers. *)
Definition row_boundary (rowCount thread_count k : Z) : Z :=
  k * (rowCount / thread_count) + Z.min k (rowCount mod thread_count).

(** *** Valid CSR matrices

    The structural invariants of a CSR matrix: the sizes recorded in the
    struct are those of the three blocks and fit a machine word, the row
    pointers start at 0, never decrease and end at the number of stored
    values, every column index is below the column count, and no stored
    value compares equal to zero. *)
Definition well_formed (m : Matrix) : bool :=
  (0 <=? noRows m) && (noRows m + 1 <? modulus64)
  && (0 <=? noCols m) && (noCols m <? modulus64)
  && (rowPointersSize m =? noRows m + 1)
  && (zlength (rowPointers m) =? rowPointersSize m)
  && (zlength (values m) =? valuesSize m)
  && (zlength (colIndices m) =? valuesSize m)
  && (valuesSize m <? modulus64)
  && (rowptr_at m 0 =? 0)
  && all_lt 0 (noRows m) (fun r => rowptr_at m r <=? rowptr_at m (r + 1))
  && (rowptr_at m (noRows m) =? valuesSize m)
  && forallb (fun c => (0 <=? c) && (c <? noCols m)) (colIndices m)
  && forallb F32.ne0 (values m).

Definition valid_csr (m : Matrix) : Prop := well_formed m = true.

(** The same invariants, one by one. *)
Record csr_invariants (m : Matrix) : Prop := mkInvariants {
  inv_rows : 0 <= noRows m /\ noRows m + 1 < modulus64;
  inv_cols : 0 <= noCols m < modulus64;
  inv_rowPointersSize : rowPointersSize m = noRows m + 1;
  inv_rowPointers_length : zlength (rowPointers m) = rowPointersSize m;
  inv_values_length : zlength (values m) = valuesSize m;
  inv_colIndices_length : zlength (colIndices m) = valuesSize m;
  inv_valuesSize : valuesSize m < modulus64;
  inv_first : rowptr_at m 0 = 0;
  inv_monotone : forall r, 0 <= r < noRows m -> rowptr_at m r <= rowptr_at m (r + 1);
  inv_last : rowptr_at m (noRows m) = valuesSize m;
  inv_columns : forall i, 0 <= i < valuesSize m -> 0 <= col_at m i < noCols m;
  inv_nonzero : forall i, 0 <= i < valuesSize m -> F32.ne0 (val_at m i) = true
}.

(** The stored entries of a matrix: column index and value, in storage
    order. *)
Definition entries (m : Matrix) : list (Z * float) :=
  combine (colIndices m) (values m).

(** What [equals] preserves of an argument: everything but the order of
    the stored entries. *)
Definition reordered (m m' : Matrix) : Prop :=
  noRows m' = noRows m /\ noCols m' = noCols m
  /\ valuesSize m' = valuesSize m /\ rowPointersSize m' = rowPointersSize m
  /\ rowPointers m' = rowPointers m
  /\ Permutation (entries m') (entries m).

Module Unsorted.
(** One row holding columns 1 and 0 in that order, and the same row after
    sorting by column. *)
Definition M : Matrix := mkMatrix 1 2 (floats [1; 2]) 2 [1; 0] [0; 2] 2.
Definition sorted : Matrix := mkMatrix 1 2 (floats [2; 1]) 2 [0; 1] [0; 2] 2.
End Unsorted.

(** *** Rows as lists of entries *)

(** The integers [lo, lo + 1, ..., hi - 1]. *)
Definition zrange (lo hi : Z) : list Z :=
  map (fun k => lo + Z.of_nat k) (seq 0 (Z.to_nat (hi - lo))).

(** The entries stored for row [i]: column index and value of the
    positions [rowPointers[i] .. rowPointers[i+1] - 1]. *)
Definition row_entries (m : Matrix) (i : Z) : list (Z * float) :=
  map (fun k => (col_at m k, val_at m k))
      (zrange (rowptr_at m i) (rowptr_at m (i + 1))).

Fixpoint nodupb (l : list Z) : bool :=
  match l with
  | [] => true
  | x :: t => negb (existsb (Z.eqb x) t) && nodupb t
  end.

(** No column index is stored twice in a row. *)
Definition distinct_columns (m : Matrix) : Prop :=
  all_lt 0 (noRows m) (fun i => nodupb (map fst (row_entries m i))) = true.

(** Two CSR matrices store the same sparse matrix: same dimensions, same
    row pointers, and row by row the same entries up to their order. *)
Definition same_matrix (m m' : Matrix) : Prop :=
  noRows m = noRows m' /\ noCols m = noCols m'
  /\ valuesSize m = valuesSize m' /\ rowPointersSize m = rowPointersSize m'
  /\ rowPointers m = rowPointers m'
  /\ forall i, 0 <= i < noRows m ->
               Permutation (row_entries m i) (row_entries m' i).

(** Two cells hold the same number: they are identical, or both compare
    equal to zero (a cell holding [-0.0] is a zero cell). *)
Definition same_number (x y : float) : Prop :=
  x = y \/ (F32.eq0 x = true /\ F32.eq0 y = true).

(** A [rows] x [cols] array of arrays. *)
Definition dense_shape (rows cols : Z) (d : dense) : Prop :=
  zlength d = rows /\ Forall (fun r => zlength r = cols) d.

(** The nonzero cells among the first [j] cells of a dense row, with their
    column, in column order. *)
Definition nz_cells (row : list float) (j : Z) : list (Z * float) :=
  flat_map (fun k => if F32.ne0 (aget row k F32.zero)
                     then [(k, aget row k F32.zero)] else [])
           (zrange 0 j).

(** The nonzero cells of the first [i] rows, in row-major order. *)
Definition nz_upto (cols : Z) (d : dense) (i : Z) : list (Z * float) :=
  flat_map (fun r => nz_cells (aget d r []) cols) (zrange 0 i).

(** Storing the entries of a row, in order, into a dense row. *)
Definition scatter_row (es : list (Z * float)) (row : list float) : list float :=
  fold_left (fun r e => aset r (fst e) (snd e)) es row.

Module Duplicate.
(** One row that stores column 0 twice. *)
Definition M : Matrix := mkMatrix 1 2 (floats [1; 2]) 2 [0; 0] [0; 2] 2.
Definition back : Matrix := mkMatrix 1 2 (floats [2]) 1 [0] [0; 1] 2.
End Duplicate.

(** A cell as it comes back from a trip through CSR: a cell that compares
    equal to zero comes back as [+0.0]. *)
Definition canonical (v : float) : float := if F32.ne0 v then v else F32.zero.

(** No cell of the array is a negative zero. *)
Definition no_negative_zero (d : dense) : Prop :=
  Forall (Forall (fun v => F32.eq0 v = true -> v = F32.zero)) d.

(** *** The size prediction in the words of its description *)

(** [f lo + f (lo + 1) + ... + f (hi - 1)]. *)
Definition zsum (f : Z -> Z) (lo hi : Z) : Z :=
  fold_right Z.add 0 (map f (zrange lo hi)).

(** The number of stored entries of [a] whose column index is [c]. *)
Definition count_in_column (a : Matrix) (c : Z) : Z :=
  zlength (filter (fun p => col_at a p =? c) (zrange 0 (valuesSize a))).

(** The number of entries stored for row [c] of [b]. *)
Definition row_length (b : Matrix) (c : Z) : Z :=
  rowptr_at b (c + 1) - rowptr_at b c.

(** The sum over the columns [c] of A of (entries of A in column [c])
    times (entries in row [c] of B). *)
Definition column_row_sum (a b : Matrix) : Z :=
  zsum (fun c => count_in_column a c * row_length b c) 0 (noCols a).

(** The predicted size: that sum, clamped to [rowCount_A * colCount_B]. *)
Definition predicted_size (a b : Matrix) : Z :=
  Z.min (column_row_sum a b) (noRows a * noCols b).

(** The multiply-accumulate steps Gustavson's algorithm performs for the
    first [p] stored entries of [a]. *)
Definition ops_upto (a b : Matrix) (p : Z) : Z :=
  zsum (fun q => row_length b (col_at a q)) 0 p.

(** The number of cells of a block that do not compare equal to zero. *)
Definition nnz_count (l : list float) : Z := zlength (filter F32.ne0 l).

(** Every stored value is a finite number (neither an infinity nor a
    NaN), as is every value the file reader accepts. *)
Definition finite_values (m : Matrix) : Prop :=
  forallb F32.finite (values m) = true.

(** [res'] comes from [res] by stores into its [values] block that turn at
    most [n] more cells nonzero. *)
Definition grown (n : Z) (res res' : Matrix) : Prop :=
  zlength (values res') = zlength (values res)
  /\ nnz_count (values res') <= nnz_count (values res) + n.

(** ** Auxiliary notions of the proofs *)

Definition no_spawn {A} (c : M A) : Prop :=
  forall w, thread_calls (snd (c w)) = thread_calls w.

(** The transposition of [i] and [j]. *)
Definition transpose (i j k : Z) : Z :=
  if k =? i then j else if k =? j then i else k.

(** The arrays of [ordinary_to_csr] while they are being filled: the
    entries written so far, then the untouched rest of the block. *)
Definition written (acc : list (Z * float)) (n : Z)
           (vals : list float) (cols_ : list Z) : Prop :=
  vals = map snd acc ++ repeat F32.zero (Z.to_nat (n - zlength acc))
  /\ cols_ = map fst acc ++ repeat 0 (Z.to_nat (n - zlength acc)).

(** Nonzero cells among the first [p] cells of a block. *)
Definition nnz_below (l : list float) (p : Z) : Z :=
  nnz_count (firstn (Z.to_nat p) l).

Module Infinite.
(** A 1x2 by 2x2 product whose left factor stores an infinity:
    [inf * 1] is stored at column 0, and the dense product also holds
    [inf * 0 + 0 * 1 = NaN] at column 1. *)
Definition A : Matrix := mkMatrix 1 2 [S754_infinity false] 1 [0] [0; 1] 2.
Definition B : Matrix := mkMatrix 2 2 (floats [1; 1]) 2 [0; 1] [0; 1; 2] 3.
End Infinite.

(** The allocator grants the next [n] requests. *)
Definition grants_next (n : nat) (w : World) : Prop :=
  forall k, (k < n)%nat -> heap_grants w (heap_calls w + k)%nat = true.

(** The handle that a successful [init_empty_csr_matrix] leaves: the
    dimensions of the product and zero-filled arrays for [size] values. *)
Definition zeroed_handle (a b : Matrix) (size : Z) : Handle :=
  mkHandle (noRows a) (noCols b)
           (Some (repeat F32.zero (Z.to_nat size))) size
           (Some (repeat 0 (Z.to_nat size)))
           (Some (repeat 0 (Z.to_nat (add64 (noRows a) 1))))
           (add64 (noRows a) 1).

(** The buffer of [rowCount_A * colCount_B] values that the kernels without
    size prediction fill. *)
Definition full_buffer (a b : Matrix) : Matrix :=
  deref (zeroed_handle a b (mul64 (noRows a) (noCols b))).

Module Wide.
(** A 2x2 by 2x9 product: the rows of B hold 9 and 4 values, so that the
    SSE and the AVX kernels run both their batches and their scalar
    remainders. *)
Definition A : Matrix := mkMatrix 2 2 (floats [2; 3; -1]) 3 [0; 1; 1] [0; 2; 3] 3.
Definition B : Matrix :=
  mkMatrix 2 9 (floats [1; 2; 3; 4; 5; 6; 7; 8; 9; -2; 4; 8; 16]) 13
           [0; 1; 2; 3; 4; 5; 6; 7; 8; 1; 3; 5; 7] [0; 9; 13] 3.
End Wide.

(** ** The validators of the matrix reader ([utils.c]) *)

Definition MATRIX_FILE_FORMAT_ERROR : Z := -3.

(** [_check_values]: the size test against [noRows*noCols] (a [uint64_t]
    product) and the scan for a zero.  The array is freed on error. *)
Definition _check_values (values : list float) (values_size noRows noCols : Z) : Z :=
  if mul64 noRows noCols <? values_size then MATRIX_FILE_FORMAT_ERROR else
  if all_lt 0 values_size (fun i => negb (F32.eq0 (aget values i F32.zero)))
  then 0 else MATRIX_FILE_FORMAT_ERROR.

(** [_check_col_indices] *)
Definition _check_col_indices (colIndices : list Z)
           (col_indices_size values_size noCols : Z) : Z :=
  if negb (col_indices_size =? values_size) then MATRIX_FILE_FORMAT_ERROR else
  if all_lt 0 col_indices_size (fun i => negb (noCols <=? aget colIndices i 0))
  then 0 else MATRIX_FILE_FORMAT_ERROR.

(** [_check_row_pointers]: the state of the loop is whether it is still
    running and [prev_row_ptr]; the difference [next_row_ptr - prev_row_ptr]
    is a [uint64_t] difference. *)
Definition _check_row_pointers (rowPointers : list Z)
           (row_pointers_size values_size noRows noCols : Z) : Z :=
  if (row_pointers_size <? 2) || negb (row_pointers_size =? add64 noRows 1)
  then MATRIX_FILE_FORMAT_ERROR else
  let prev_row_ptr := aget rowPointers 0 0 in
  if negb (prev_row_ptr =? 0) then MATRIX_FILE_FORMAT_ERROR else
  let '(running, prev_row_ptr) :=
    for_lt 1 row_pointers_size
      (fun i (st : bool * Z) =>
         let '(running, prev_row_ptr) := st in
         if running then
           let next_row_ptr := aget rowPointers i 0 in
           if noCols <? sub64 next_row_ptr prev_row_ptr
           then (false, prev_row_ptr)
           else (true, next_row_ptr)
         else st)
      (true, prev_row_ptr) in
  if negb running then MATRIX_FILE_FORMAT_ERROR else
  if negb (prev_row_ptr =? values_size) then MATRIX_FILE_FORMAT_ERROR else 0.

(** The three checks that [read_matrix_from_file] runs on the arrays it
    has parsed, the sizes being those of the arrays. *)
Definition passes_checks (m : Matrix) : Prop :=
  _check_values (values m) (valuesSize m) (noRows m) (noCols m) = 0
  /\ _check_col_indices (colIndices m) (zlength (colIndices m))
                        (valuesSize m) (noCols m) = 0
  /\ _check_row_pointers (rowPointers m) (rowPointersSize m) (valuesSize m)
                         (noRows m) (noCols m) = 0.

(** What the reader's parser guarantees of the arrays it hands over:
    every element is a [uint64_t], and the sizes are the numbers of
    elements read. *)
Definition parsed (m : Matrix) : Prop :=
  Forall in64 (colIndices m) /\ Forall in64 (rowPointers m)
  /\ zlength (values m) = valuesSize m
  /\ zlength (rowPointers m) = rowPointersSize m.

Module Shuffled.
(** Two rows, the second one holding columns 2, 0, 1 in that order. *)
Definition M : Matrix :=
  mkMatrix 2 3 (floats [1; 5; 3; 4]) 4 [0; 2; 0; 1] [0; 1; 4] 3.
End Shuffled.

(** The entries stored at the positions [lo .. hi - 1] whose value is not
    zero, in storage order. *)
Definition nonzero_entries (m : Matrix) (lo hi : Z) : list (Z * float) :=
  filter (fun e => F32.ne0 (snd e))
         (map (fun k => (col_at m k, val_at m k)) (zrange lo hi)).

(** What [_clean_up_matrix_arrays] relies on: one row pointer more than
    rows, starting at 0 and never decreasing, and value and column blocks
    of one length that the last row pointer does not exceed. *)
Record compactable (m : Matrix) : Prop := mkCompactable {
  cp_rows : 0 <= noRows m;
  cp_rowPointersSize : rowPointersSize m = noRows m + 1;
  cp_rowPointers_length : zlength (rowPointers m) = rowPointersSize m;
  cp_first : rowptr_at m 0 = 0;
  cp_monotone : forall r, 0 <= r < noRows m -> rowptr_at m r <= rowptr_at m (r + 1);
  cp_last : rowptr_at m (noRows m) <= zlength (values m);
  cp_blocks : zlength (colIndices m) = zlength (values m);
  cp_fits : zlength (values m) < modulus64
}.

Module Padded.
(** A 2x2 buffer as a kernel leaves it: row 0 holds a 3 at column 1, row 1
    a 4 at column 0, and the two other slots hold zeros. *)
Definition M : Matrix :=
  mkMatrix 2 2 (floats [0; 3; 4; 0]) 4 [0; 1; 0; 0] [0; 2; 4] 3.
End Padded.

(** The products that Gustavson's loop nest adds into cell [(r, c)] of the
    result, in the order in which it meets them: one for each entry [p] of
    row [r] of A and each entry [q] of row [colIndices_A[p]] of B that
    lies in column [c]. *)
Definition entry_products (a b : Matrix) (c p : Z) : list float :=
  flat_map (fun q => if col_at b q =? c
                     then [F32.mul (val_at a p) (val_at b q)] else [])
           (zrange (rowptr_at b (col_at a p)) (rowptr_at b (col_at a p + 1))).

Definition cell_products (a b : Matrix) (r c : Z) : list float :=
  flat_map (entry_products a b c) (zrange (rowptr_at a r) (rowptr_at a (r + 1))).

(** Their sum, each product added in turn to the zero-initialised cell. *)
Definition cell_sum (a b : Matrix) (r c : Z) : float :=
  fold_left F32.add (cell_products a b r c) F32.zero.

(** Row [r] of the product in CSR form: the cells whose sum is not zero,
    in ascending column order. *)
Definition product_row (a b : Matrix) (r : Z) : list (Z * float) :=
  nz_cells (map (cell_sum a b r) (zrange 0 (noCols b))) (noCols b).

(** The sum that the innermost loop of [matr_mult_csr_V1] leaves in cell
    [(i, j)] of the dense result: from 0, it adds
    [ord_a[i][k] * ord_b[k][j]] for [k = 0 .. n - 1], in that order. *)
Definition dense_cell_sum (ord_a ord_b : dense) (n i j : Z) : float :=
  fold_left (fun acc k => F32.add acc (F32.mul (dget ord_a i k) (dget ord_b k j)))
            (zrange 0 n) F32.zero.

(** The nonzero cells of row [i] of the dense product, by ascending
    column. *)
Definition dense_product_row (a b : Matrix) (i : Z) : list (Z * float) :=
  nz_cells (map (dense_cell_sum (dense_of_csr a) (dense_of_csr b) (noCols a) i)
                (zrange 0 (noCols b)))
           (noCols b).

(** Every allocation and every thread start that is still to come
    succeeds. *)
Definition granting (w : World) : Prop :=
  (forall n, heap_grants w n = true) /\ (forall n, thread_grants w n = true).

(** [w'] differs from [w] at most in the numbers of calls made so far. *)
Definition calm (w w' : World) : Prop :=
  errno w' = errno w /\ heap_grants w' = heap_grants w
  /\ thread_grants w' = thread_grants w /\ nprocs w' = nprocs w.

Module Tall.
(** A column vector with [n] stored entries of value [v], and the 10000x1
    by 1x1 product that takes the threaded path of [matr_mult_csr]. *)
Definition column (n : Z) (v : float) : Matrix :=
  mkMatrix n 1 (repeat v (Z.to_nat n)) n (repeat 0 (Z.to_nat n))
           (zrange 0 (n + 1)) (n + 1).
Definition A : Matrix := column 10000 (F32.of_Z 1).
Definition B : Matrix := mkMatrix 1 1 (floats [2]) 1 [0] [0; 1] 2.
End Tall.

(** Two stored entries that [equals] cannot tell apart: the same column
    and values that do not differ under the float comparison [!=]. *)
Definition same_entry (e e' : Z * float) : Prop :=
  fst e = fst e' /\ F32.neq (snd e) (snd e') = false.

(** No stored value differs from itself (none is a NaN). *)
Definition comparable (m : Matrix) : bool :=
  forallb (fun v => negb (F32.neq v v)) (values m).

Module Blurred.
(** A valid 1x1 matrix whose only stored value is a NaN. *)
Definition M : Matrix := mkMatrix 1 1 [S754_nan] 1 [0] [0; 1] 2.
End Blurred.

(** *** Rows as V5 builds them *)

(** The products that the loop nest of a kernel meets for row [r] of the
    result, in loop order, each with the column of B it belongs to. *)
Definition row_stream (a b : Matrix) (r : Z) : list (Z * float) :=
  flat_map (fun p =>
              map (fun q => (col_at b q, F32.mul (val_at a p) (val_at b q)))
                  (zrange (rowptr_at b (col_at a p)) (rowptr_at b (col_at a p + 1))))
           (zrange (rowptr_at a r) (rowptr_at a (r + 1))).

(** One product put into the slots of a row: it is added to the slot of
    its column, or takes a new slot behind the others. *)
Fixpoint absorb (acc : list (Z * float)) (e : Z * float) : list (Z * float) :=
  match acc with
  | [] => [e]
  | x :: t => if fst x =? fst e then (fst x, F32.add (snd x) (snd e)) :: t
              else x :: absorb t e
  end.

Definition gather (s : list (Z * float)) : list (Z * float) := fold_left absorb s [].

(** After each product of [s] has been put into the slots [acc], no slot
    holds a zero: no product and no partial sum of a cell is zero. *)
Fixpoint stays_nonzero (acc s : list (Z * float)) : bool :=
  match s with
  | [] => true
  | e :: t => forallb (fun x => F32.ne0 (snd x)) (absorb acc e)
              && stays_nonzero (absorb acc e) t
  end.

Definition no_cancellation (a b : Matrix) : Prop :=
  forall r, 0 <= r < noRows a -> stays_nonzero [] (row_stream a b r) = true.

(** The value stored for column [c] in a list of slots. *)
Fixpoint slot_of (acc : list (Z * float)) (c : Z) : option float :=
  match acc with
  | [] => None
  | x :: t => if fst x =? c then Some (snd x) else slot_of t c
  end.

(** The buffer that [init_empty_csr_matrix] hands to V5. *)
Definition predicted_buffer (a b : Matrix) : Matrix :=
  deref (zeroed_handle a b (predict_count a b)).

(** The slots of the buffer [res] from [Beg] on hold the list [acc], and
    zeros behind it; [P] is the number of slots. *)
Definition slots_hold (P Beg : Z) (res : Matrix) (acc : list (Z * float)) : Prop :=
  valuesSize res = P /\ zlength (values res) = P /\ zlength (colIndices res) = P
  /\ (forall j, 0 <= j < zlength acc ->
        (col_at res (Beg + j), val_at res (Beg + j)) = aget acc j (0, F32.zero))
  /\ (forall i, Beg + zlength acc <= i < P -> val_at res i = F32.zero).

(** Nothing but the slots from [Beg] on differs between [res] and [res']. *)
Definition framed_below (Beg : Z) (res res' : Matrix) : Prop :=
  noRows res' = noRows res /\ noCols res' = noCols res
  /\ rowPointers res' = rowPointers res
  /\ rowPointersSize res' = rowPointersSize res
  /\ forall i, i < Beg -> col_at res' i = col_at res i /\ val_at res' i = val_at res i.

(** One round of the innermost loop nest of [multiply_V5]: the slot search
    for one product. *)
Definition place_step (Beg : Z) (st : Matrix * Z) (e : Z * float) : Matrix * Z :=
  place_V5 (Z.to_nat (valuesSize (fst st) - Beg)) Beg (fst e) (snd e) (fst st) (snd st).

(** The number of slots that the rows before row [r] take. *)
Definition used_before (a b : Matrix) (r : Z) : Z :=
  zsum (fun i => zlength (gather (row_stream a b i))) 0 r.

(* ================================================================== *)
(** * Theorems *)

(** ** Concrete runs *)

(** C3 -- on the 2x3 by 3x2 example every one of the six entry points, on a
    machine where all allocations succeed (with or without AVX, for any
    processor count), leaves no error in [errno] and stores exactly the
    2x2 product [{values=[4,15], colIndices=[1,0], rowPointers=[0,1,2]}]
    in the result handle, whatever the handle held before. *)
Theorem scenario_product_by_all_kernels :
  forall (h : Handle) (avx : bool) (procs : Z),
    Forall (fun f =>
              fst (f Scenario.A Scenario.B h (generous avx procs))
              = handle_of Scenario.product
              /\ errno (snd (f Scenario.A Scenario.B h (generous avx procs))) = 0)
           entry_points.
Proof.
  intros h avx procs.
  repeat constructor; destruct avx; vm_compute; reflexivity.
Qed.

Lemma entry_points_dispatch :
  forall impl, 0 <= impl <= 5 ->
    choose_mult_fn impl = nth_error entry_points (Z.to_nat impl).
Proof.
  intros impl H.
  assert (impl = 0 \/ impl = 1 \/ impl = 2 \/ impl = 3 \/ impl = 4 \/ impl = 5)
    as [-> | [-> | [-> | [-> | [-> | ->]]]]] by lia; reflexivity.
Qed.

(** The equality checker accepts each of these results against the
    expected product. *)
Lemma scenario_product_equals :
  equals Scenario.product Scenario.product
  = Some (true, Scenario.product, Scenario.product).
Proof. vm_compute. reflexivity. Qed.

(** C1 -- the cross-kernel equivalence fails on the cancelling 1x3 by 3x2
    input: V1, V2, V3 and V4 store the product [{values=[2],
    colIndices=[1], rowPointers=[0,1]}], while V5 and the dispatcher's
    default (which falls back to V5 on small inputs) store the value 1 at
    that position, and the equality checker tells the two results apart. *)
Theorem cancelling_input_splits_kernels :
  forall (h : Handle) (avx : bool) (procs : Z),
    let w := generous avx procs in
    fst (matr_mult_csr_V1 Cancel.A Cancel.B h w) = handle_of Cancel.product
    /\ fst (matr_mult_csr_V2 Cancel.A Cancel.B h w) = handle_of Cancel.product
    /\ fst (matr_mult_csr_V3 Cancel.A Cancel.B h w) = handle_of Cancel.product
    /\ fst (matr_mult_csr_V4 Cancel.A Cancel.B h w) = handle_of Cancel.product
    /\ fst (matr_mult_csr_V5 Cancel.A Cancel.B h w) = handle_of Cancel.product_V5
    /\ fst (matr_mult_csr Cancel.A Cancel.B h w) = handle_of Cancel.product_V5
    /\ errno (snd (matr_mult_csr_V5 Cancel.A Cancel.B h w)) = 0
    /\ equals Cancel.product Cancel.product_V5
       = Some (false, Cancel.product, Cancel.product_V5).
Proof.
  intros h avx procs w; subst w.
  repeat split; destruct avx; vm_compute; reflexivity.
Qed.

(** ** Dispatch and compatibility *)

Lemma can_multiply_iff (a b : Matrix) :
  can_multiply a b = true <-> compatible a b.
Proof.
  unfold can_multiply, compatible.
  rewrite !andb_true_iff, Z.eqb_eq, !Z.leb_le. tauto.
Qed.

Lemma can_multiply_false (a b : Matrix) :
  ~ compatible a b -> can_multiply a b = false.
Proof.
  intros H. destruct (can_multiply a b) eqn:E; [|reflexivity].
  exfalso. apply H, can_multiply_iff, E.
Qed.

(** C4 -- [can_multiply] holds exactly for compatible matrices, and on an
    incompatible pair every one of the six entry points only stores
    [MATRIX_DIMENSION_ERROR] in [errno]: the result handle comes back as it
    was passed in and no call to the allocator or to the thread library
    has been made. *)
Theorem incompatible_pair_rejected
        (a b : Matrix) (h : Handle) (w : World) (H : ~ compatible a b) :
  (forall a' b', can_multiply a' b' = true <-> compatible a' b')
  /\ can_multiply a b = false
  /\ Forall (fun f => f a b h w = (h, with_errno MATRIX_DIMENSION_ERROR w))
            entry_points.
Proof.
  split; [exact can_multiply_iff|].
  pose proof (can_multiply_false a b H) as E. split; [exact E|].
  assert (V1 : matr_mult_csr_V1 a b h w = (h, with_errno MATRIX_DIMENSION_ERROR w)).
  { unfold matr_mult_csr_V1. rewrite E. reflexivity. }
  assert (V5 : matr_mult_csr_V5 a b h w = (h, with_errno MATRIX_DIMENSION_ERROR w)).
  { unfold matr_mult_csr_V5. rewrite E. reflexivity. }
  repeat constructor.
  - unfold matr_mult_csr.
    destruct ((valuesSize a <? 10000) || (noRows a <? MIN_THREADS)); [exact V5|].
    rewrite E. reflexivity.
  - exact V1.
  - unfold matr_mult_csr_V2. rewrite E. reflexivity.
  - unfold matr_mult_csr_V3. rewrite E. reflexivity.
  - unfold matr_mult_csr_V4, bind, cpu_supports_avx.
    destruct (cpu_avx w); simpl; [|exact V1].
    rewrite E. reflexivity.
  - exact V5.
Qed.

Lemma incompatible_pair_rejected_witness :
  ~ compatible Mismatch.A Mismatch.B
  /\ Forall (fun f => f Mismatch.A Mismatch.B blank_handle (generous true 4)
                      = (blank_handle,
                         with_errno MATRIX_DIMENSION_ERROR (generous true 4)))
            entry_points.
Proof.
  assert (H : ~ compatible Mismatch.A Mismatch.B).
  { unfold compatible; simpl; lia. }
  split; [exact H|].
  exact (proj2 (proj2 (incompatible_pair_rejected Mismatch.A Mismatch.B
                         blank_handle (generous true 4) H))).
Defined.

(** *** The monadic operations never touch the thread library, except
    [pthread_create] *)

Lemma no_spawn_ret {A} (a : A) : no_spawn (ret a).
Proof. intro w; reflexivity. Qed.

Lemma no_spawn_bind {A B} (c : M A) (k : A -> M B) :
  no_spawn c -> (forall a, no_spawn (k a)) -> no_spawn (bind c k).
Proof.
  intros Hc Hk w. unfold bind. specialize (Hc w).
  destruct (c w) as [a w'] eqn:E. simpl in Hc. rewrite Hk. exact Hc.
Qed.

Lemma no_spawn_set_errno e : no_spawn (set_errno e).
Proof. intro w; reflexivity. Qed.

Lemma no_spawn_heap_request : no_spawn heap_request.
Proof. intro w; reflexivity. Qed.

Lemma no_spawn_calloc n size : no_spawn (calloc n size).
Proof.
  apply no_spawn_bind; [apply no_spawn_heap_request|intro; apply no_spawn_ret].
Qed.

Lemma no_spawn_malloc_safe e n : no_spawn (malloc_safe e n).
Proof.
  unfold malloc_safe, umull_overflow.
  destruct (modulus64 <=? e * n); [apply no_spawn_ret|apply no_spawn_heap_request].
Qed.

Create HintDb spawn.
#[local] Hint Resolve no_spawn_ret no_spawn_set_errno no_spawn_heap_request
  no_spawn_calloc no_spawn_malloc_safe : spawn.

Ltac no_spawn_step :=
  match goal with
  | |- no_spawn (bind _ _) => apply no_spawn_bind; [|intro]
  | |- no_spawn (if ?c then _ else _) => destruct c
  | |- no_spawn (match ?x with (_, _) => _ end) => destruct x
  | |- no_spawn (let '(_, _) := ?x in _) => destruct x
  | |- no_spawn (malloc _) => apply no_spawn_heap_request
  | |- no_spawn (realloc _) => apply no_spawn_heap_request
  | |- _ => solve [auto with spawn]
  end.

Lemma no_spawn_predict a b : no_spawn (predict_values_dimension a b).
Proof. unfold predict_values_dimension. repeat no_spawn_step. Qed.

Lemma no_spawn_init a b h flag : no_spawn (init_empty_csr_matrix a b h flag).
Proof.
  unfold init_empty_csr_matrix.
  apply no_spawn_bind.
  - destruct (flag =? 0); [apply no_spawn_ret|apply no_spawn_predict].
  - intros [rc vs]. repeat no_spawn_step.
Qed.

Lemma no_spawn_clean_up m : no_spawn (clean_up_csr m).
Proof.
  unfold clean_up_csr.
  destruct (_clean_up_matrix_arrays m) as [[rc m'] nz].
  unfold umull_overflow. repeat no_spawn_step.
Qed.

Lemma no_spawn_finish m : no_spawn (finish_with_clean_up m).
Proof.
  unfold finish_with_clean_up.
  apply no_spawn_bind; [apply no_spawn_clean_up|].
  intros [rc m']. repeat no_spawn_step.
Qed.

Lemma no_spawn_V5 a b h : no_spawn (matr_mult_csr_V5 a b h).
Proof.
  unfold matr_mult_csr_V5.
  destruct (negb (can_multiply a b)); [repeat no_spawn_step|].
  apply no_spawn_bind; [apply no_spawn_init|].
  intros [rc h']. destruct (rc =? HEAP_MEMORY_ERROR); [repeat no_spawn_step|].
  apply no_spawn_finish.
Qed.

(** C8 -- identifier 0 selects [matr_mult_csr]; when [A] holds fewer than
    10000 values or has fewer than [MIN_THREADS = 2] rows, that function is
    the size-predicted single-threaded entry point V5 (same result handle,
    same [errno], same allocator traffic) and no thread is created. *)
Theorem small_input_runs_V5
        (a b : Matrix) (h : Handle) (w : World)
        (H : valuesSize a < 10000 \/ noRows a < MIN_THREADS) :
  choose_mult_fn 0 = Some matr_mult_csr
  /\ matr_mult_csr a b h w = matr_mult_csr_V5 a b h w
  /\ thread_calls (snd (matr_mult_csr a b h w)) = thread_calls w.
Proof.
  split; [reflexivity|].
  assert (E : matr_mult_csr a b h w = matr_mult_csr_V5 a b h w).
  { unfold matr_mult_csr.
    replace ((valuesSize a <? 10000) || (noRows a <? MIN_THREADS)) with true;
      [reflexivity|].
    symmetry. apply orb_true_iff. rewrite !Z.ltb_lt. exact H. }
  split; [exact E|]. rewrite E. apply no_spawn_V5.
Qed.

Lemma small_input_runs_V5_witness :
  (valuesSize Scenario.A < 10000 \/ noRows Scenario.A < MIN_THREADS)
  /\ matr_mult_csr Scenario.A Scenario.B blank_handle (generous true 4)
     = matr_mult_csr_V5 Scenario.A Scenario.B blank_handle (generous true 4).
Proof.
  assert (H : valuesSize Scenario.A < 10000 \/ noRows Scenario.A < MIN_THREADS).
  { left. simpl. lia. }
  split; [exact H|].
  exact (proj1 (proj2 (small_input_runs_V5 Scenario.A Scenario.B blank_handle
                                            (generous true 4) H))).
Defined.

(** ** Failure while the result is being initialised *)

(** With no prediction, a failed initialisation leaves the three array
    fields [NULL]. *)
Lemma init_without_prediction_nulls a b h w rc h' w' :
  init_empty_csr_matrix a b h NO_PREDICTION w = ((rc, h'), w') ->
  rc = HEAP_MEMORY_ERROR ->
  h_values h' = None /\ h_colIndices h' = None /\ h_rowPointers h' = None.
Proof.
  unfold init_empty_csr_matrix, bind, ret, calloc, malloc_safe, umull_overflow,
    malloc, heap_request, bind, ret.
  simpl.
  repeat match goal with
         | |- context [if ?c then _ else _] => destruct c; simpl
         end;
    intros E Hrc; inversion E; subst; simpl; try discriminate; auto.
Qed.

(** C10 -- with the allocator exhausted and a handle whose arrays are not
    [NULL] on entry, V1 reports [MATRIX_CONVERSION_ERROR] and V5 (hence
    also the default entry point on a small input) reports
    [HEAP_MEMORY_ERROR] from within the initialisation, and both leave the
    handle's three array fields as they were, not [NULL]; V2 on the same
    input does reset them. *)
Theorem failed_initialisation_keeps_arrays :
  matr_mult_csr_V1 Scenario.A Scenario.B stale_handle exhausted
  = (stale_handle,
     mkWorld MATRIX_CONVERSION_ERROR 1 (fun _ => false) 0 (fun _ => true) true 4)
  /\ matr_mult_csr_V5 Scenario.A Scenario.B stale_handle exhausted
     = (stale_handle,
        mkWorld HEAP_MEMORY_ERROR 1 (fun _ => false) 0 (fun _ => true) true 4)
  /\ matr_mult_csr Scenario.A Scenario.B stale_handle exhausted
     = (stale_handle,
        mkWorld HEAP_MEMORY_ERROR 1 (fun _ => false) 0 (fun _ => true) true 4)
  /\ h_values stale_handle <> None
  /\ fst (matr_mult_csr_V2 Scenario.A Scenario.B stale_handle exhausted)
     = null_arrays stale_handle.
Proof.
  repeat split; try (vm_compute; reflexivity).
  vm_compute. discriminate.
Qed.

(** ** Arrays and loops: basic facts *)

Section ArrayFacts.
Context {A : Type}.
Implicit Types (l : list A) (i j : Z) (v d : A).

Lemma zlength_nonneg l : 0 <= zlength l.
Proof. unfold zlength; lia. Qed.

Lemma zlength_nil : zlength (@nil A) = 0.
Proof. reflexivity. Qed.

Lemma zlength_cons v l : zlength (v :: l) = zlength l + 1.
Proof. unfold zlength; simpl length; lia. Qed.

Lemma zlength_app l l' : zlength (l ++ l') = zlength l + zlength l'.
Proof. unfold zlength; rewrite length_app; lia. Qed.

Lemma zlength_repeat v n : zlength (repeat v n) = Z.of_nat n.
Proof. unfold zlength; now rewrite repeat_length. Qed.

Lemma length_aset_nat l n v : length (aset_nat l n v) = length l.
Proof.
  revert n; induction l as [|h t IH]; intros [|n]; simpl; auto.
Qed.

Lemma zlength_aset l i v : zlength (aset l i v) = zlength l.
Proof.
  unfold aset. destruct ((0 <=? i) && (i <? zlength l)); [|reflexivity].
  unfold zlength. now rewrite length_aset_nat.
Qed.

Lemma nth_aset_nat_same l n v d :
  (n < length l)%nat -> nth n (aset_nat l n v) d = v.
Proof.
  revert n; induction l as [|h t IH]; intros [|n] H; simpl in *; try lia; auto.
  apply IH; lia.
Qed.

Lemma nth_aset_nat_other l n k v d :
  n <> k -> nth k (aset_nat l n v) d = nth k l d.
Proof.
  revert n k; induction l as [|h t IH]; intros [|n] [|k] H; simpl; auto; try lia.
Qed.

Lemma aget_in_range l i d :
  0 <= i < zlength l -> aget l i d = nth (Z.to_nat i) l d.
Proof.
  intros H. unfold aget.
  replace ((0 <=? i) && (i <? zlength l)) with true; [reflexivity|].
  symmetry; apply andb_true_iff; split; [apply Z.leb_le|apply Z.ltb_lt]; lia.
Qed.

Lemma aget_out_of_range l i d :
  i < 0 \/ zlength l <= i -> aget l i d = d.
Proof.
  intros H. unfold aget.
  destruct (0 <=? i) eqn:E1; [|reflexivity].
  destruct (i <? zlength l) eqn:E2; [|reflexivity].
  apply Z.leb_le in E1. apply Z.ltb_lt in E2. lia.
Qed.

Lemma aset_out_of_range l i v :
  i < 0 \/ zlength l <= i -> aset l i v = l.
Proof.
  intros H. unfold aset.
  destruct (0 <=? i) eqn:E1; [|reflexivity].
  destruct (i <? zlength l) eqn:E2; [|reflexivity].
  apply Z.leb_le in E1. apply Z.ltb_lt in E2. lia.
Qed.

Lemma aget_aset_same l i v d :
  0 <= i < zlength l -> aget (aset l i v) i d = v.
Proof.
  intros H. rewrite aget_in_range by now rewrite zlength_aset.
  unfold aset.
  replace ((0 <=? i) && (i <? zlength l)) with true.
  - apply nth_aset_nat_same. unfold zlength in H. lia.
  - symmetry; apply andb_true_iff; split; [apply Z.leb_le|apply Z.ltb_lt]; lia.
Qed.

Lemma aget_aset_other l i j v d :
  i <> j -> aget (aset l i v) j d = aget l j d.
Proof.
  intros H. unfold aget. rewrite zlength_aset.
  destruct ((0 <=? j) && (j <? zlength l)) eqn:Ej; [|reflexivity].
  apply andb_true_iff in Ej. destruct Ej as [Ej1 Ej2].
  apply Z.leb_le in Ej1. apply Z.ltb_lt in Ej2.
  unfold aset. destruct ((0 <=? i) && (i <? zlength l)) eqn:Ei; [|reflexivity].
  apply andb_true_iff in Ei. destruct Ei as [Ei1 Ei2].
  apply Z.leb_le in Ei1.
  apply nth_aset_nat_other. lia.
Qed.

Lemma aget_app_l l l' i d :
  i < zlength l -> aget (l ++ l') i d = aget l i d.
Proof.
  intros H. destruct (Z.ltb_spec i 0) as [Hn|Hn].
  - rewrite !aget_out_of_range by lia. reflexivity.
  - rewrite !aget_in_range by (rewrite ?zlength_app; pose proof (zlength_nonneg l'); lia).
    apply app_nth1. unfold zlength in H. lia.
Qed.

Lemma aget_app_r l l' i d :
  zlength l <= i -> aget (l ++ l') i d = aget l' (i - zlength l) d.
Proof.
  intros H. pose proof (zlength_nonneg l) as Hl.
  destruct (Z.ltb_spec i (zlength l + zlength l')) as [Hn|Hn].
  - rewrite !aget_in_range by (rewrite ?zlength_app; lia).
    rewrite app_nth2 by (unfold zlength in H; lia).
    f_equal. unfold zlength. lia.
  - rewrite !aget_out_of_range by (rewrite ?zlength_app; lia). reflexivity.
Qed.

Lemma aget_repeat v n i : aget (repeat v n) i v = v.
Proof.
  unfold aget. destruct ((0 <=? i) && (i <? zlength (repeat v n))); [|reflexivity].
  apply nth_repeat.
Qed.

(** Two blocks of the same length that agree at every index are equal. *)
Lemma aget_ext l l' d :
  zlength l = zlength l' ->
  (forall i, 0 <= i < zlength l -> aget l i d = aget l' i d) ->
  l = l'.
Proof.
  intros Hlen H. apply nth_ext with (d := d) (d' := d).
  - unfold zlength in Hlen. lia.
  - intros n Hn. specialize (H (Z.of_nat n)).
    rewrite !aget_in_range in H by (unfold zlength in *; lia).
    rewrite Nat2Z.id in H. apply H. unfold zlength. lia.
Qed.

Lemma aset_same_value l i d : aset l i (aget l i d) = l.
Proof.
  destruct (Z.ltb_spec i 0) as [Hn|Hn]; [apply aset_out_of_range; lia|].
  destruct (Z.ltb_spec i (zlength l)) as [Hl|Hl]; [|apply aset_out_of_range; lia].
  apply aget_ext with (d := d); [apply zlength_aset|].
  intros j Hj. destruct (Z.eq_dec i j) as [->|Hij].
  - apply aget_aset_same. lia.
  - now apply aget_aset_other.
Qed.

End ArrayFacts.

Section LoopFacts.
Context {S : Type}.
Implicit Types (body : Z -> S -> S) (s : S).

Lemma for_lt_empty lo hi body s : hi <= lo -> for_lt lo hi body s = s.
Proof.
  intros H. unfold for_lt. replace (Z.to_nat (hi - lo)) with O by lia. reflexivity.
Qed.

Lemma iter_up_last n i body s :
  iter_up (Datatypes.S n) i body s
  = body (i + Z.of_nat n) (iter_up n i body s).
Proof.
  revert i s; induction n as [|n IH]; intros i s.
  - simpl. f_equal. lia.
  - change (iter_up (Datatypes.S (Datatypes.S n)) i body s)
      with (iter_up (Datatypes.S n) (i + 1) body (body i s)).
    rewrite IH. simpl. f_equal. lia.
Qed.

Lemma for_lt_first lo hi body s :
  lo < hi -> for_lt lo hi body s = for_lt (lo + 1) hi body (body lo s).
Proof.
  intros H. unfold for_lt.
  replace (Z.to_nat (hi - lo)) with (Datatypes.S (Z.to_nat (hi - (lo + 1)))) by lia.
  reflexivity.
Qed.

Lemma for_lt_last lo hi body s :
  lo <= hi -> for_lt lo (hi + 1) body s = body hi (for_lt lo hi body s).
Proof.
  intros H. unfold for_lt.
  replace (Z.to_nat (hi + 1 - lo)) with (Datatypes.S (Z.to_nat (hi - lo))) by lia.
  rewrite iter_up_last. f_equal. lia.
Qed.

(** Loop invariants: [P i s] holds of the state before round [i]. *)
Lemma for_lt_invariant (P : Z -> S -> Prop) lo hi body s :
  lo <= hi ->
  P lo s ->
  (forall i s, lo <= i < hi -> P i s -> P (i + 1) (body i s)) ->
  P hi (for_lt lo hi body s).
Proof.
  intros Hle H0 Hstep.
  assert (G : forall n, lo + Z.of_nat n <= hi ->
                   P (lo + Z.of_nat n) (for_lt lo (lo + Z.of_nat n) body s)).
  { induction n as [|n IH]; intros Hn.
    - rewrite Z.add_0_r, for_lt_empty by lia. exact H0.
    - replace (lo + Z.of_nat (Datatypes.S n)) with (lo + Z.of_nat n + 1) by lia.
      rewrite for_lt_last by lia. apply Hstep; [lia|]. apply IH. lia. }
  specialize (G (Z.to_nat (hi - lo))).
  replace (lo + Z.of_nat (Z.to_nat (hi - lo))) with hi in G by lia.
  apply G. lia.
Qed.

Lemma for_lt_split lo mid hi body s :
  lo <= mid <= hi ->
  for_lt lo hi body s = for_lt mid hi body (for_lt lo mid body s).
Proof.
  intros H.
  apply (for_lt_invariant
           (fun i t => for_lt lo hi body s = for_lt i hi body t) lo mid);
    [lia|reflexivity|].
  intros i t Hi E. rewrite E. apply for_lt_first. lia.
Qed.

Lemma for_lt_ext lo hi body body' s :
  (forall i t, lo <= i < hi -> body i t = body' i t) ->
  for_lt lo hi body s = for_lt lo hi body' s.
Proof.
  intros H. destruct (Z.le_gt_cases lo hi) as [Hle|Hgt].
  - apply (for_lt_invariant
             (fun i t => t = for_lt lo i body' s) lo hi);
      [lia|now rewrite for_lt_empty by lia|].
    intros i t Hi ->. rewrite for_lt_last by lia. apply H. lia.
  - rewrite !for_lt_empty by lia. reflexivity.
Qed.

End LoopFacts.

(** ** Machine arithmetic: basic facts *)

Lemma wrap64_small z : 0 <= z < modulus64 -> wrap64 z = z.
Proof. intros H. unfold wrap64. now apply Z.mod_small. Qed.

Lemma wrap32_small z : 0 <= z < modulus32 -> wrap32 z = z.
Proof. intros H. unfold wrap32. now apply Z.mod_small. Qed.

Lemma add64_small a b : 0 <= a + b < modulus64 -> add64 a b = a + b.
Proof. apply wrap64_small. Qed.

Lemma sub64_small a b : 0 <= a - b < modulus64 -> sub64 a b = a - b.
Proof. apply wrap64_small. Qed.

Lemma mul64_small a b : 0 <= a * b < modulus64 -> mul64 a b = a * b.
Proof. apply wrap64_small. Qed.

Lemma modulus64_pos : 0 < modulus64.
Proof. reflexivity. Qed.

Lemma wrap64_range z : 0 <= wrap64 z < modulus64.
Proof. unfold wrap64. apply Z.mod_pos_bound. reflexivity. Qed.

(** ** The thread partition *)

Section Partition.
Variables rowCount thread_count : Z.
Hypothesis rows_in_range : 1 <= rowCount < modulus64.
Hypothesis threads_in_range : 1 <= thread_count < modulus32.

Let step : Z := rowCount / thread_count.
Let rest : Z := rowCount mod thread_count.

Let boundary : Z -> Z := row_boundary rowCount thread_count.

Lemma rest_range : 0 <= rest < thread_count.
Proof. apply Z.mod_pos_bound. lia. Qed.

Lemma step_nonneg : 0 <= step.
Proof. apply Z.div_pos; lia. Qed.

Lemma boundary_zero : boundary 0 = 0.
Proof. unfold boundary, row_boundary. fold rest. pose proof rest_range. lia. Qed.

Lemma boundary_last : boundary thread_count = rowCount.
Proof.
  unfold boundary, row_boundary. fold step rest. pose proof rest_range.
  rewrite Z.min_r by lia.
  pose proof (Z.div_mod rowCount thread_count ltac:(lia)) as E.
  fold step rest in E. lia.
Qed.

Lemma boundary_step k :
  0 <= k -> boundary (k + 1) = boundary k + (if k <? rest then step + 1 else step).
Proof.
  intros Hk. unfold boundary, row_boundary. fold step rest.
  destruct (Z.ltb_spec k rest); lia.
Qed.

Lemma boundary_mono k : 0 <= k -> boundary k <= boundary (k + 1).
Proof.
  intros Hk. rewrite boundary_step by lia. pose proof step_nonneg.
  destruct (k <? rest); lia.
Qed.

Lemma boundary_mono_le j k : 0 <= j <= k -> boundary j <= boundary k.
Proof.
  intros [Hj Hjk]. pose proof step_nonneg. unfold boundary, row_boundary.
  fold step rest. nia.
Qed.

Lemma boundary_range k : 0 <= k <= thread_count -> 0 <= boundary k <= rowCount.
Proof.
  intros Hk. rewrite <- boundary_zero at 1. rewrite <- boundary_last.
  split; apply boundary_mono_le; lia.
Qed.

(** The state of the first loop of [start_threads] before round [i]. *)
Let built (i : Z) (st : list MultiplyArg * Z) : Prop :=
  zlength (fst st) = i
  /\ snd st = boundary i
  /\ forall k, 0 <= k < i ->
               arg_at (fst st) k = mkArg (boundary k) (boundary (k + 1)).

Lemma make_arguments_loop :
  built thread_count
        (for_lt 0 thread_count
           (fun i st =>
              let '(arguments, prev) := st in
              let prev' := if i <? wrap32 (rowCount mod thread_count)
                           then add64 prev (add64 (rowCount / thread_count) 1)
                           else add64 prev (rowCount / thread_count) in
              (arguments ++ [mkArg prev prev'], prev'))
           ([], 0)).
Proof.
  apply for_lt_invariant; [lia| |].
  - repeat split; simpl; [symmetry; apply boundary_zero|intros; lia].
  - intros i [arguments prev] Hi (Hlen & Hprev & Hargs). simpl in Hlen, Hprev, Hargs.
    subst prev. fold step rest.
    pose proof rest_range as Hrest.
    rewrite (wrap32_small rest) by lia.
    assert (Hnext : (if i <? rest
                     then add64 (boundary i) (add64 step 1)
                     else add64 (boundary i) step) = boundary (i + 1)).
    { pose proof (boundary_range (i + 1) ltac:(lia)) as Hb.
      pose proof (boundary_range i ltac:(lia)) as Hb0.
      pose proof step_nonneg as Hs.
      rewrite boundary_step in * by lia.
      destruct (i <? rest).
      - rewrite (add64_small step 1) by (unfold modulus64 in *; lia).
        rewrite add64_small by (unfold modulus64 in *; lia). reflexivity.
      - rewrite add64_small by (unfold modulus64 in *; lia). reflexivity. }
    rewrite Hnext. repeat split; simpl.
    + rewrite zlength_app, zlength_cons, zlength_nil. lia.
    + intros k Hk. unfold arg_at in *.
      destruct (Z.eq_dec k i) as [->|Hne].
      * rewrite aget_app_r by lia. rewrite Hlen, Z.sub_diag. reflexivity.
      * rewrite aget_app_l by lia. apply Hargs. lia.
Qed.

Lemma make_arguments_spec :
  zlength (make_arguments rowCount thread_count) = thread_count
  /\ forall k, 0 <= k < thread_count ->
               arg_at (make_arguments rowCount thread_count) k
               = mkArg (boundary k) (boundary (k + 1)).
Proof.
  unfold make_arguments. pose proof make_arguments_loop as H.
  destruct (for_lt 0 thread_count _ _) as [arguments prev].
  destruct H as (Hlen & _ & Hargs). simpl in Hlen, Hargs.
  split; [now rewrite zlength_aset|].
  intros k Hk. unfold arg_at in *.
  destruct (Z.eq_dec k (thread_count - 1)) as [->|Hne].
  - rewrite aget_aset_same by lia.
    rewrite Hargs by lia. simpl.
    replace (thread_count - 1 + 1) with thread_count by lia.
    now rewrite boundary_last.
  - rewrite aget_aset_other by lia. apply Hargs. exact Hk.
Qed.

(** A row below the last boundary lies between two consecutive ones. *)
Lemma boundary_locate r n :
  0 <= n -> boundary 0 <= r < boundary n ->
  exists i, 0 <= i < n /\ boundary i <= r < boundary (i + 1).
Proof.
  intros Hn. revert r. pattern n. apply natlike_ind; [|clear n Hn|exact Hn].
  - intros r H. lia.
  - intros n Hn IH r Hr. unfold Z.succ in *.
    destruct (Z.lt_ge_cases r (boundary n)) as [Hlt|Hge].
    + destruct (IH r ltac:(lia)) as (i & Hi & Hb). exists i. split; [lia|exact Hb].
    + exists n. split; [lia|]. lia.
Qed.

End Partition.

(** C7 -- for [rowCount >= 1] rows and [thread_count >= 1] workers the
    argument array built by [start_threads] has one range per worker; the
    first starts at row 0, each next one starts where the previous one
    ends, the last ends at [rowCount], no range is reversed, ranges of
    different workers do not overlap, and every row of [0, rowCount) lies
    in the range of exactly one worker. *)
Theorem thread_ranges_partition_rows
        (rowCount thread_count : Z)
        (Hrows : 1 <= rowCount < modulus64)
        (Hthreads : 1 <= thread_count < modulus32) :
  let arguments := make_arguments rowCount thread_count in
  zlength arguments = thread_count
  /\ start_row (arg_at arguments 0) = 0
  /\ end_row (arg_at arguments (thread_count - 1)) = rowCount
  /\ (forall i, 0 <= i < thread_count - 1 ->
                start_row (arg_at arguments (i + 1)) = end_row (arg_at arguments i))
  /\ (forall i, 0 <= i < thread_count ->
                start_row (arg_at arguments i) <= end_row (arg_at arguments i))
  /\ (forall i j r, 0 <= i < thread_count -> 0 <= j < thread_count ->
                    owns (arg_at arguments i) r -> owns (arg_at arguments j) r ->
                    i = j)
  /\ (forall r, 0 <= r < rowCount ->
                exists i, 0 <= i < thread_count /\ owns (arg_at arguments i) r).
Proof.
  intros arguments. subst arguments.
  destruct (make_arguments_spec rowCount thread_count Hrows Hthreads) as [Hlen Hargs].
  pose proof (boundary_mono_le rowCount thread_count Hrows Hthreads) as Hmono.
  split; [exact Hlen|].
  split. { rewrite Hargs by lia. simpl. apply boundary_zero; assumption. }
  split. { rewrite Hargs by lia. simpl.
           replace (thread_count - 1 + 1) with thread_count by lia.
           apply boundary_last; assumption. }
  split. { intros i Hi. rewrite !Hargs by lia. reflexivity. }
  split. { intros i Hi. rewrite Hargs by lia. simpl. apply Hmono. lia. }
  split.
  - intros i j r Hi Hj. unfold owns. rewrite !Hargs by lia. simpl. intros Ri Rj.
    destruct (Z.lt_trichotomy i j) as [Hlt|[Heq|Hgt]]; [|exact Heq|].
    + pose proof (Hmono (i + 1) j ltac:(lia)). lia.
    + pose proof (Hmono (j + 1) i ltac:(lia)). lia.
  - intros r Hr.
    destruct (boundary_locate rowCount thread_count r thread_count ltac:(lia))
      as (i & Hi & Hb).
    { rewrite boundary_zero, boundary_last by assumption. lia. }
    exists i. split; [exact Hi|]. unfold owns. rewrite Hargs by lia. exact Hb.
Qed.

Lemma thread_ranges_partition_rows_witness :
  (1 <= 10 < modulus64) /\ (1 <= 3 < modulus32)
  /\ make_arguments 10 3 = [mkArg 0 4; mkArg 4 7; mkArg 7 10]
  /\ forall r, 0 <= r < 10 ->
               exists i, 0 <= i < 3 /\ owns (arg_at (make_arguments 10 3) i) r.
Proof.
  assert (H1 : 1 <= 10 < modulus64) by (unfold modulus64; lia).
  assert (H2 : 1 <= 3 < modulus32) by (unfold modulus32; lia).
  split; [exact H1|]. split; [exact H2|]. split; [reflexivity|].
  exact (proj2 (proj2 (proj2 (proj2 (proj2 (proj2
           (thread_ranges_partition_rows 10 3 H1 H2))))))).
Defined.

(** ** Valid matrices *)

Lemma all_lt_true lo hi p :
  lo <= hi -> (all_lt lo hi p = true <-> forall i, lo <= i < hi -> p i = true).
Proof.
  intros Hle. unfold all_lt.
  apply (for_lt_invariant
           (fun k ok => ok = true <-> forall i, lo <= i < k -> p i = true));
    [exact Hle| |].
  - split; [intros _ i Hi; lia|reflexivity].
  - intros k ok Hk IH. rewrite andb_true_iff, IH. split.
    + intros [Hall Hp] i Hi. destruct (Z.eq_dec i k) as [->|Hne]; [exact Hp|].
      apply Hall. lia.
    + intros H. split; [intros i Hi; apply H; lia|apply H; lia].
Qed.

Lemma forallb_aget {A} (p : A -> bool) (l : list A) (d : A) :
  forallb p l = true <-> forall i, 0 <= i < zlength l -> p (aget l i d) = true.
Proof.
  rewrite forallb_forall. split.
  - intros H i Hi. rewrite aget_in_range by exact Hi. apply H, nth_In.
    unfold zlength in Hi. lia.
  - intros H x Hx. destruct (In_nth l x d Hx) as (n & Hn & <-).
    specialize (H (Z.of_nat n)).
    rewrite aget_in_range, Nat2Z.id in H by (unfold zlength; lia).
    apply H. unfold zlength. lia.
Qed.

Lemma valid_csr_invariants m : valid_csr m <-> csr_invariants m.
Proof.
  unfold valid_csr, well_formed. rewrite !andb_true_iff.
  rewrite !Z.leb_le, !Z.ltb_lt, !Z.eqb_eq.
  rewrite (forallb_aget _ (colIndices m) 0), (forallb_aget _ (values m) F32.zero).
  split.
  - intros (((((((((((((H1 & H2) & H3) & H4) & H5) & H6) & H7) & H8) & H9) & H10)
               & H11) & H12) & H13) & H14).
    rewrite all_lt_true in H11 by exact H1.
    constructor; auto.
    + intros r Hr. apply Z.leb_le, H11, Hr.
    + intros i Hi. rewrite <- H8 in Hi. specialize (H13 i Hi).
      apply andb_true_iff in H13. rewrite Z.leb_le, Z.ltb_lt in H13. exact H13.
    + intros i Hi. rewrite <- H7 in Hi. exact (H14 i Hi).
  - intros [[H1 H2] [H3 H4] H5 H6 H7 H8 H9 H10 H11 H12 H13 H14].
    repeat split; auto.
    + apply all_lt_true; [exact H1|]. intros r Hr. apply Z.leb_le, H11, Hr.
    + intros i Hi. rewrite H8 in Hi. apply andb_true_iff.
      rewrite Z.leb_le, Z.ltb_lt. apply H13, Hi.
    + intros i Hi. rewrite H7 in Hi. apply H14, Hi.
Qed.

Section ValidFacts.
Variable m : Matrix.
Hypothesis valid : csr_invariants m.

Lemma rowptr_monotone r s :
  0 <= r <= s -> s <= noRows m -> rowptr_at m r <= rowptr_at m s.
Proof.
  intros [Hr Hrs] Hs.
  replace s with (r + Z.of_nat (Z.to_nat (s - r))) in * by lia.
  induction (Z.to_nat (s - r)) as [|n IH]; [rewrite Z.add_0_r; lia|].
  rewrite Nat2Z.inj_succ in *.
  etransitivity; [apply IH; lia|].
  replace (r + Z.succ (Z.of_nat n)) with (r + Z.of_nat n + 1) by lia.
  apply (inv_monotone m valid). lia.
Qed.

Lemma rowptr_range r :
  0 <= r <= noRows m -> 0 <= rowptr_at m r <= valuesSize m.
Proof.
  intros Hr. rewrite <- (inv_first m valid) at 1. rewrite <- (inv_last m valid).
  split; apply rowptr_monotone; lia.
Qed.

End ValidFacts.

(** ** The compactor on a compact matrix *)

Lemma set_values_same m : set_values m (values m) = m.
Proof. destruct m; reflexivity. Qed.

Lemma set_colIndices_same m : set_colIndices m (colIndices m) = m.
Proof. destruct m; reflexivity. Qed.

Lemma set_rowPointers_same m : set_rowPointers m (rowPointers m) = m.
Proof. destruct m; reflexivity. Qed.

Lemma set_valuesSize_same m : set_valuesSize m (valuesSize m) = m.
Proof. destruct m; reflexivity. Qed.

Lemma shrink_all {A} (l : list A) : shrink l (zlength l) = l.
Proof.
  unfold shrink, zlength. rewrite Nat2Z.id. apply firstn_all.
Qed.

Section CompactFixed.
Variable m : Matrix.
Hypothesis valid : csr_invariants m.

(** Nothing has been dropped so far and the write position is the read
    position. *)
Let in_step (p : Z) (st : Compaction) : Prop :=
  cm st = m /\ removed st = 0 /\ non_zero_values st = p /\ row_beg st = p.

Lemma compact_step_fixed p st :
  0 <= p < valuesSize m -> in_step p st -> in_step (p + 1) (compact_step st).
Proof.
  intros Hp (Hm & Hrem & Hnz & Hbeg). unfold compact_step.
  rewrite Hm, Hbeg, Hnz, Hrem.
  rewrite (inv_nonzero m valid p Hp).
  assert (Ev : aset (values m) p (val_at m p) = values m)
    by apply aset_same_value.
  assert (Ec : aset (colIndices m) p (col_at m p) = colIndices m)
    by apply aset_same_value.
  rewrite !Ev, !set_values_same, !Ec, !set_colIndices_same.
  repeat split.
Qed.

Lemma compact_steps_fixed n i p st :
  0 <= p -> p + Z.of_nat n <= valuesSize m -> in_step p st ->
  in_step (p + Z.of_nat n) (iter_up n i (fun _ => compact_step) st).
Proof.
  revert i p st. induction n as [|n IH]; intros i p st Hp Hn Hst.
  - simpl. now rewrite Z.add_0_r.
  - simpl iter_up.
    replace (p + Z.of_nat (S n)) with (p + 1 + Z.of_nat n) by lia.
    apply IH; [lia|lia|]. apply compact_step_fixed; [lia|exact Hst].
Qed.

Lemma compact_row_fixed row st :
  1 <= row <= noRows m ->
  in_step (rowptr_at m (row - 1)) st ->
  in_step (rowptr_at m row) (compact_row row st).
Proof.
  intros Hrow Hst. unfold compact_row.
  pose proof Hst as (Hm & _ & _ & Hbeg). rewrite Hm, Hbeg.
  pose proof (rowptr_range m valid (row - 1) ltac:(lia)) as Hlo.
  pose proof (rowptr_range m valid row ltac:(lia)) as Hhi.
  pose proof (inv_monotone m valid (row - 1) ltac:(lia)) as Hmono.
  replace (row - 1 + 1) with row in Hmono by lia.
  pose proof (compact_steps_fixed
                (Z.to_nat (rowptr_at m row - rowptr_at m (row - 1))) 0
                (rowptr_at m (row - 1)) st ltac:(lia) ltac:(lia) Hst) as Hsteps.
  replace (rowptr_at m (row - 1)
           + Z.of_nat (Z.to_nat (rowptr_at m row - rowptr_at m (row - 1))))
    with (rowptr_at m row) in Hsteps by lia.
  destruct Hsteps as (Hm' & Hrem' & Hnz' & Hbeg').
  rewrite Hm', Hrem', Hnz', Hbeg'. simpl.
  rewrite sub64_small
    by (rewrite Z.sub_0_r; pose proof (inv_valuesSize m valid); lia).
  rewrite Z.sub_0_r. unfold rowptr_at at 2.
  rewrite aset_same_value, set_rowPointers_same.
  repeat split.
Qed.

Lemma clean_up_matrix_arrays_fixed :
  _clean_up_matrix_arrays m = (0, m, valuesSize m).
Proof.
  unfold _clean_up_matrix_arrays.
  assert (H : in_step (rowptr_at m (rowPointersSize m - 1))
                      (for_lt 1 (rowPointersSize m) compact_row
                              (mkCompaction m 0 0 (rowptr_at m 0)))).
  { rewrite (inv_rowPointersSize m valid).
    pose proof (inv_rows m valid) as Hrows.
    apply (for_lt_invariant (fun row st => in_step (rowptr_at m (row - 1)) st));
      [lia| |].
    - simpl. rewrite (inv_first m valid). repeat split.
    - intros row st Hrow Hst. replace (row + 1 - 1) with row by lia.
      apply compact_row_fixed; [lia|exact Hst]. }
  destruct H as (Hm & _ & Hnz & _). rewrite Hm, Hnz.
  rewrite (inv_rowPointersSize m valid).
  replace (noRows m + 1 - 1) with (noRows m) by lia.
  now rewrite (inv_last m valid).
Qed.

End CompactFixed.

(** C5 -- on a valid (compact) CSR matrix [clean_up_csr] changes nothing:
    whatever the two [realloc] calls answer, the matrix it leaves behind
    has the same dimensions, [values], [colIndices], [rowPointers] and
    [valuesSize] as before; when they succeed it reports success. *)
Theorem clean_up_csr_fixes_compact (m : Matrix) (w : World) (H : valid_csr m) :
  snd (fst (clean_up_csr m w)) = m
  /\ (heap_grants w (heap_calls w) = true ->
      heap_grants w (S (heap_calls w)) = true ->
      valuesSize m * sizeof_uint64 < modulus64 ->
      fst (fst (clean_up_csr m w)) = 0).
Proof.
  apply valid_csr_invariants in H.
  unfold clean_up_csr. rewrite (clean_up_matrix_arrays_fixed m H).
  change (0 =? HEAP_MEMORY_ERROR) with false. cbv iota.
  unfold umull_overflow, bind, ret, realloc, heap_request. simpl.
  pose proof (inv_values_length m H) as Hv.
  pose proof (inv_colIndices_length m H) as Hc.
  assert (Ev : set_values m (shrink (values m) (valuesSize m)) = m).
  { rewrite <- Hv, shrink_all. apply set_values_same. }
  assert (Ec : set_colIndices m (shrink (colIndices m) (valuesSize m)) = m).
  { rewrite <- Hc, shrink_all. apply set_colIndices_same. }
  destruct (0 <? valuesSize m) eqn:Hpos; [|simpl; split;
    [apply set_valuesSize_same|reflexivity]].
  destruct (Z.leb_spec modulus64 (valuesSize m * sizeof_float)) as [Ho1|Ho1].
  { simpl. split; [reflexivity|]. intros _ _ Hfit. unfold sizeof_float, sizeof_uint64 in *.
    apply Z.ltb_lt in Hpos. lia. }
  rewrite Ev.
  destruct (heap_grants w (heap_calls w)) eqn:G1; simpl;
    [|split; [reflexivity|discriminate]].
  destruct (Z.leb_spec modulus64 (valuesSize m * sizeof_uint64)) as [Ho2|Ho2].
  { simpl. split; [reflexivity|]. intros _ _ Hfit. lia. }
  rewrite Ec. simpl.
  destruct (heap_grants w (S (heap_calls w))) eqn:G2; simpl;
    [|split; [reflexivity|intros _ D; discriminate D]].
  split; [apply set_valuesSize_same|reflexivity].
Qed.

Lemma clean_up_csr_fixes_compact_witness :
  valid_csr Scenario.product
  /\ snd (fst (clean_up_csr Scenario.product (generous true 4))) = Scenario.product.
Proof.
  assert (H : valid_csr Scenario.product) by (vm_compute; reflexivity).
  split; [exact H|].
  exact (proj1 (clean_up_csr_fixes_compact Scenario.product (generous true 4) H)).
Defined.

(** ** The equality checker and its arguments *)

Lemma transpose_involutive i j k : transpose i j (transpose i j k) = k.
Proof.
  unfold transpose.
  repeat match goal with
         | |- context [?x =? ?y] =>
             is_var x; is_var y; destruct (Z.eqb_spec x y); try subst x
         end; lia.
Qed.

Lemma transpose_range i j k n :
  0 <= i < n -> 0 <= j < n -> 0 <= k < n -> 0 <= transpose i j k < n.
Proof.
  intros Hi Hj Hk. unfold transpose.
  destruct (k =? i); [lia|]. destruct (k =? j); lia.
Qed.

Lemma aget_swap {A} (l : list A) (i j k : Z) (d : A) :
  0 <= i < zlength l -> 0 <= j < zlength l ->
  aget (aset (aset l j (aget l i d)) i (aget l j d)) k d
  = aget l (transpose i j k) d.
Proof.
  intros Hi Hj. unfold transpose.
  destruct (Z.eqb_spec k i) as [->|Hki].
  - rewrite aget_aset_same by (rewrite zlength_aset; lia). reflexivity.
  - rewrite aget_aset_other by lia.
    destruct (Z.eqb_spec k j) as [->|Hkj].
    + rewrite aget_aset_same by lia. reflexivity.
    + rewrite aget_aset_other by lia. reflexivity.
Qed.

(** Rearranging a list along a transposition of its positions. *)
Lemma transposed_permutation {A} (l l' : list A) (i j : Z) (d : A) :
  0 <= i < zlength l -> 0 <= j < zlength l ->
  zlength l' = zlength l ->
  (forall k, 0 <= k < zlength l -> aget l' k d = aget l (transpose i j k) d) ->
  Permutation l' l.
Proof.
  intros Hi Hj Hlen Hget. symmetry.
  apply (proj2 (Permutation_nth_error l l')).
  split; [unfold zlength in Hlen; lia|].
  exists (fun n => Z.to_nat (transpose i j (Z.of_nat n))).
  split.
  - intros x y E.
    assert (Hpos : forall k, 0 <= k -> 0 <= transpose i j k).
    { intros k Hk. unfold transpose. destruct (k =? i); [lia|].
      destruct (k =? j); lia. }
    pose proof (Hpos (Z.of_nat x) ltac:(lia)) as H1.
    pose proof (Hpos (Z.of_nat y) ltac:(lia)) as H2.
    assert (E' : transpose i j (Z.of_nat x) = transpose i j (Z.of_nat y)) by lia.
    apply (f_equal (transpose i j)) in E'.
    rewrite !transpose_involutive in E'. lia.
  - intros n. destruct (Nat.lt_ge_cases n (length l)) as [Hn|Hn].
    + pose proof (transpose_range i j (Z.of_nat n) (zlength l) Hi Hj) as H.
      specialize (Hget (Z.of_nat n)).
      rewrite !aget_in_range in Hget by (unfold zlength in *; lia).
      rewrite Nat2Z.id in Hget.
      rewrite (nth_error_nth' l' d) by (unfold zlength in *; lia).
      rewrite (nth_error_nth' l d) by (unfold zlength in *; lia).
      f_equal. apply Hget. unfold zlength. lia.
    + assert (E : transpose i j (Z.of_nat n) = Z.of_nat n).
      { unfold transpose, zlength in *.
        destruct (Z.eqb_spec (Z.of_nat n) i); [lia|].
        destruct (Z.eqb_spec (Z.of_nat n) j); lia. }
      rewrite E, Nat2Z.id.
      rewrite (proj2 (nth_error_None l n)) by lia.
      apply nth_error_None. unfold zlength in Hlen. lia.
Qed.

Lemma zlength_combine {A B} (l : list A) (l' : list B) :
  zlength l = zlength l' -> zlength (combine l l') = zlength l.
Proof. unfold zlength. intros H. rewrite length_combine. lia. Qed.

Lemma aget_combine {A B} (l : list A) (l' : list B) (k : Z) (d : A) (d' : B) :
  zlength l = zlength l' ->
  aget (combine l l') k (d, d') = (aget l k d, aget l' k d').
Proof.
  intros H. unfold aget. rewrite zlength_combine by exact H. rewrite <- H.
  destruct ((0 <=? k) && (k <? zlength l)); [|reflexivity].
  apply combine_nth. unfold zlength in H. lia.
Qed.

Section SortFrame.
Variable m0 : Matrix.
Hypothesis values_length : zlength (values m0) = valuesSize m0.
Hypothesis colIndices_length : zlength (colIndices m0) = valuesSize m0.

(** What every step of the sort preserves. *)
Let kept (m : Matrix) : Prop :=
  reordered m0 m
  /\ zlength (values m) = valuesSize m0
  /\ zlength (colIndices m) = valuesSize m0.

Lemma kept_initial : kept m0.
Proof. unfold kept, reordered. repeat split; auto. Qed.

Lemma kept_swap m cur j :
  0 <= cur -> 0 <= j -> kept m ->
  kept (set_values
          (set_colIndices m (swap_guarded (colIndices m) (valuesSize m) cur j 0))
          (swap_guarded (values m) (valuesSize m) cur j F32.zero)).
Proof.
  intros Hcur Hj ((R1 & R2 & R3 & R4 & R5 & R6) & Hv & Hc).
  unfold swap_guarded.
  destruct ((cur <? valuesSize m) && (j <? valuesSize m)) eqn:G.
  - apply andb_true_iff in G. destruct G as [G1 G2].
    apply Z.ltb_lt in G1. apply Z.ltb_lt in G2. rewrite R3 in G1, G2.
    unfold kept, reordered. simpl. rewrite !zlength_aset.
    repeat split; auto.
    etransitivity; [|exact R6]. unfold entries. simpl.
    apply transposed_permutation with (i := cur) (j := j) (d := (0, F32.zero)).
    + rewrite zlength_combine; lia.
    + rewrite zlength_combine; lia.
    + rewrite !zlength_combine; rewrite ?zlength_aset; lia.
    + intros k Hk. rewrite !aget_combine by (rewrite ?zlength_aset; lia).
      rewrite !aget_swap by lia. reflexivity.
  - rewrite set_colIndices_same, set_values_same.
    unfold kept, reordered. repeat split; auto.
Qed.

Lemma kept_sift_down n beg col cur j m :
  0 <= cur -> 0 <= j -> kept m -> kept (sift_down n beg col cur j m).
Proof.
  revert cur j m. induction n as [|n IH]; intros cur j m Hcur Hj Hm; [exact Hm|].
  simpl. destruct (beg <=? j); [|exact Hm].
  destruct (col <? col_at m j); [|exact Hm].
  apply IH; [exact Hj|apply wrap64_range|].
  apply kept_swap; assumption.
Qed.

Lemma kept_sort_matrix m beg end_ m' :
  0 <= beg -> kept m -> sort_matrix m beg end_ = Some m' -> kept m'.
Proof.
  intros Hbeg Hm. unfold sort_matrix.
  destruct (end_ =? max64); [discriminate|]. intros E. inversion E; subst m'.
  destruct (Z.le_gt_cases beg (end_ + 1)) as [Hle|Hgt].
  - apply (for_lt_invariant (fun _ m => kept m)); [exact Hle|exact Hm|].
    intros i m1 Hi Hm1. unfold sort_step.
    apply kept_sift_down; [lia|apply wrap64_range|exact Hm1].
  - rewrite for_lt_empty by lia. exact Hm.
Qed.

End SortFrame.

Lemma reordered_rowptr m m' i :
  reordered m m' -> rowptr_at m' i = rowptr_at m i.
Proof.
  intros (_ & _ & _ & _ & R & _). unfold rowptr_at. now rewrite R.
Qed.

(** C9 (as stated) fails: on a valid one-row matrix that stores column 1
    before column 0, [equals] returns with both arguments rewritten; their
    [colIndices] and [values] no longer hold what they held before the
    call. *)
Lemma equals_rewrites_its_arguments :
  valid_csr Unsorted.M
  /\ exists a' b',
       equals Unsorted.M Unsorted.M = Some (true, a', b')
       /\ colIndices a' <> colIndices Unsorted.M
       /\ values a' <> values Unsorted.M
       /\ colIndices b' <> colIndices Unsorted.M
       /\ values b' <> values Unsorted.M.
Proof.
  split; [vm_compute; reflexivity|].
  exists Unsorted.sorted, Unsorted.sorted.
  split; [vm_compute; reflexivity|].
  repeat split; vm_compute; discriminate.
Qed.

(** [equals] returns as soon as neither argument starts with an empty
    row; with an empty first row the sort is entered with
    [end = 2^64 - 1] and the call does not come back. *)
Lemma equals_empty_first_row :
  let m := mkMatrix 2 2 (floats [1]) 1 [0] [0; 0; 1] 3 in
  valid_csr m /\ equals m m = None.
Proof. split; vm_compute; reflexivity. Qed.

(** ** Integer ranges *)

Lemma zrange_empty lo hi : hi <= lo -> zrange lo hi = [].
Proof.
  intros H. unfold zrange. replace (Z.to_nat (hi - lo)) with O by lia. reflexivity.
Qed.

Lemma zrange_snoc lo hi : lo <= hi -> zrange lo (hi + 1) = zrange lo hi ++ [hi].
Proof.
  intros H. unfold zrange.
  replace (Z.to_nat (hi + 1 - lo)) with (S (Z.to_nat (hi - lo))) by lia.
  rewrite seq_S, map_app. simpl. do 2 f_equal. lia.
Qed.

Lemma in_zrange lo hi k : In k (zrange lo hi) <-> lo <= k < hi.
Proof.
  unfold zrange. rewrite in_map_iff. split.
  - intros (n & <- & Hn). apply in_seq in Hn. lia.
  - intros H. exists (Z.to_nat (k - lo)). split; [lia|]. apply in_seq. lia.
Qed.

Lemma zlength_zrange lo hi : lo <= hi -> zlength (zrange lo hi) = hi - lo.
Proof.
  intros H. unfold zrange, zlength. rewrite length_map, length_seq. lia.
Qed.

Lemma zrange_app lo mid hi :
  lo <= mid <= hi -> zrange lo hi = zrange lo mid ++ zrange mid hi.
Proof.
  intros [H1 H2].
  replace hi with (mid + Z.of_nat (Z.to_nat (hi - mid))) by lia.
  induction (Z.to_nat (hi - mid)) as [|n IH].
  - rewrite Z.add_0_r, (zrange_empty mid mid), app_nil_r by lia. reflexivity.
  - rewrite Nat2Z.inj_succ.
    replace (mid + Z.succ (Z.of_nat n)) with (mid + Z.of_nat n + 1) by lia.
    rewrite !zrange_snoc by lia. rewrite IH. now rewrite app_assoc.
Qed.

Lemma zrange_first lo hi : lo < hi -> zrange lo hi = lo :: zrange (lo + 1) hi.
Proof.
  intros H. rewrite (zrange_app lo (lo + 1) hi) by lia.
  replace (zrange lo (lo + 1)) with [lo]; [reflexivity|].
  rewrite zrange_snoc by lia. now rewrite zrange_empty by lia.
Qed.

Lemma NoDup_zrange lo hi : NoDup (zrange lo hi).
Proof.
  unfold zrange. apply Finite.Injective_map_NoDup; [|apply seq_NoDup].
  intros x y H. lia.
Qed.

(** Reading a middle segment of a list position by position. *)
Lemma map_aget_middle {A} (l1 l2 l3 : list A) (d : A) :
  map (fun k => aget (l1 ++ l2 ++ l3) k d)
      (zrange (zlength l1) (zlength l1 + zlength l2))
  = l2.
Proof.
  revert l1. induction l2 as [|x l2 IH]; intros l1.
  - rewrite zlength_nil, Z.add_0_r, zrange_empty by lia. reflexivity.
  - pose proof (zlength_nonneg l1). pose proof (zlength_nonneg l2).
    rewrite zrange_first by (rewrite zlength_cons; lia). simpl map. f_equal.
    + rewrite aget_app_r by lia. rewrite Z.sub_diag.
      unfold aget, zlength. simpl. reflexivity.
    + specialize (IH (l1 ++ [x])).
      rewrite zlength_app, zlength_cons, zlength_nil in IH.
      rewrite zlength_cons.
      replace (zlength l1 + (zlength l2 + 1)) with (zlength l1 + (0 + 1) + zlength l2)
        by lia.
      rewrite <- IH at 2. apply map_ext. intros k.
      now rewrite <- app_assoc.
Qed.

Lemma nodupb_NoDup l : nodupb l = true <-> NoDup l.
Proof.
  induction l as [|x t IH]; simpl.
  - split; [constructor|reflexivity].
  - rewrite andb_true_iff, negb_true_iff, IH. split.
    + intros [Hx Ht]. constructor; [|exact Ht]. intros Hin.
      assert (E : existsb (Z.eqb x) t = true)
        by (apply existsb_exists; exists x; split; [exact Hin|apply Z.eqb_refl]).
      congruence.
    + intros H. inversion H as [|? ? Hx Ht]; subst. split; [|exact Ht].
      destruct (existsb (Z.eqb x) t) eqn:E; [|reflexivity].
      apply existsb_exists in E. destruct E as (y & Hy & Exy).
      apply Z.eqb_eq in Exy. subst y. contradiction.
Qed.

(** ** Dense to CSR: what the two scans compute *)

Section DenseScan.
Variable row : list float.

Lemma nz_cells_snoc j :
  0 <= j ->
  nz_cells row (j + 1)
  = nz_cells row j ++ (if F32.ne0 (aget row j F32.zero)
                       then [(j, aget row j F32.zero)] else []).
Proof.
  intros Hj. unfold nz_cells. rewrite zrange_snoc by lia.
  rewrite flat_map_app. simpl. now rewrite app_nil_r.
Qed.

Lemma nz_cells_split j j' :
  0 <= j <= j' -> exists rest, nz_cells row j' = nz_cells row j ++ rest.
Proof.
  intros H. unfold nz_cells. rewrite (zrange_app 0 j j') by lia.
  rewrite flat_map_app. eexists. reflexivity.
Qed.

Lemma in_nz_cells j k v :
  In (k, v) (nz_cells row j)
  <-> 0 <= k < j /\ v = aget row k F32.zero /\ F32.ne0 v = true.
Proof.
  unfold nz_cells. rewrite in_flat_map. split.
  - intros (x & Hx & Hin). apply in_zrange in Hx.
    destruct (F32.ne0 (aget row x F32.zero)) eqn:E; [|contradiction].
    destruct Hin as [Hin|[]]. inversion Hin; subst. auto.
  - intros (Hk & -> & Hne). exists k. split; [apply in_zrange; lia|].
    rewrite Hne. now left.
Qed.

Lemma zlength_nz_cells_le j : 0 <= j -> zlength (nz_cells row j) <= j.
Proof.
  intros Hj. pattern j. apply natlike_ind; [reflexivity| |exact Hj].
  intros x Hx IH. unfold Z.succ. rewrite nz_cells_snoc by lia.
  rewrite zlength_app. destruct (F32.ne0 _); simpl; unfold zlength in *; simpl; lia.
Qed.

Lemma nz_cells_columns_below j k :
  In k (map fst (nz_cells row j)) -> 0 <= k < j.
Proof.
  intros H. apply in_map_iff in H. destruct H as ([k' v] & <- & Hin).
  apply in_nz_cells in Hin. simpl. tauto.
Qed.

Lemma NoDup_nz_cells_columns j : NoDup (map fst (nz_cells row j)).
Proof.
  destruct (Z.le_gt_cases 0 j) as [Hj|Hj].
  - pattern j. apply natlike_ind; [constructor| |exact Hj].
    intros x Hx IH. unfold Z.succ. rewrite nz_cells_snoc by lia.
    rewrite map_app. destruct (F32.ne0 _); simpl; [|now rewrite app_nil_r].
    apply NoDup_app; [exact IH|repeat constructor; intros []|].
    intros k Hk [<-|[]]. apply nz_cells_columns_below in Hk. lia.
  - unfold nz_cells. rewrite zrange_empty by lia. constructor.
Qed.

End DenseScan.

Section DenseRows.
Variables (cols : Z) (d : dense).
Hypothesis cols_nonneg : 0 <= cols.

Lemma nz_upto_snoc i :
  0 <= i -> nz_upto cols d (i + 1) = nz_upto cols d i ++ nz_cells (aget d i []) cols.
Proof.
  intros Hi. unfold nz_upto. rewrite zrange_snoc by lia.
  rewrite flat_map_app. simpl. now rewrite app_nil_r.
Qed.

Lemma nz_upto_split i i' :
  0 <= i <= i' -> exists rest, nz_upto cols d i' = nz_upto cols d i ++ rest.
Proof.
  intros H. unfold nz_upto. rewrite (zrange_app 0 i i') by lia.
  rewrite flat_map_app. eexists. reflexivity.
Qed.

Lemma zlength_nz_upto_le i : 0 <= i -> zlength (nz_upto cols d i) <= i * cols.
Proof.
  intros Hi. pattern i. apply natlike_ind; [reflexivity| |exact Hi].
  intros x Hx IH. unfold Z.succ. rewrite nz_upto_snoc by lia.
  rewrite zlength_app.
  pose proof (zlength_nz_cells_le (aget d x []) cols cols_nonneg). lia.
Qed.

Lemma zlength_nz_upto_mono i i' :
  0 <= i <= i' -> zlength (nz_upto cols d i) <= zlength (nz_upto cols d i').
Proof.
  intros H. destruct (nz_upto_split i i' H) as (rest & ->).
  rewrite zlength_app. pose proof (zlength_nonneg rest). lia.
Qed.

(** The nonzero cells met so far never outnumber those of the whole
    array. *)
Lemma zlength_scan_prefix rows i j :
  0 <= i < rows -> 0 <= j <= cols ->
  zlength (nz_upto cols d i) + zlength (nz_cells (aget d i []) j)
  <= zlength (nz_upto cols d rows).
Proof.
  intros Hi Hj.
  pose proof (zlength_nz_upto_mono (i + 1) rows ltac:(lia)) as Hmono.
  rewrite nz_upto_snoc in Hmono by lia.
  destruct (nz_cells_split (aget d i []) j cols Hj) as (rest & Erest).
  rewrite Erest, !zlength_app in Hmono. pose proof (zlength_nonneg rest). lia.
Qed.

(** The counting scan of [ordinary_to_csr]. *)
Lemma count_non_zero_spec rows :
  0 <= rows -> zlength (nz_upto cols d rows) < modulus64 ->
  count_non_zero rows cols d = zlength (nz_upto cols d rows).
Proof.
  intros Hrows Hfit. unfold count_non_zero.
  apply (for_lt_invariant (fun i n => n = zlength (nz_upto cols d i)));
    [exact Hrows|reflexivity|].
  intros i n Hi ->. rewrite nz_upto_snoc by lia. rewrite zlength_app.
  set (r := aget d i []).
  apply (for_lt_invariant
           (fun j n => n = zlength (nz_upto cols d i) + zlength (nz_cells r j)));
    [exact cols_nonneg|unfold nz_cells; rewrite zrange_empty by lia; simpl;
                       rewrite zlength_nil; lia|].
  intros j n Hj ->.
  pose proof (zlength_scan_prefix rows i (j + 1) ltac:(lia) ltac:(lia)) as Hb.
  fold r in Hb. rewrite nz_cells_snoc in * by lia. rewrite zlength_app in *.
  unfold dget. fold r.
  pose proof (zlength_nonneg (nz_upto cols d i)).
  pose proof (zlength_nonneg (nz_cells r j)).
  destruct (F32.ne0 (aget r j F32.zero)).
  - rewrite zlength_cons, zlength_nil in *. rewrite add64_small by lia. lia.
  - rewrite zlength_nil. lia.
Qed.

End DenseRows.

Lemma aset_app_here {A} (l1 l2 : list A) (x v : A) :
  aset (l1 ++ x :: l2) (zlength l1) v = l1 ++ v :: l2.
Proof.
  pose proof (zlength_nonneg l1) as H1. pose proof (zlength_nonneg l2) as H2.
  apply aget_ext with (d := v).
  - rewrite zlength_aset, !zlength_app, !zlength_cons. reflexivity.
  - intros k Hk. rewrite zlength_aset, zlength_app, zlength_cons in Hk.
    destruct (Z.eq_dec k (zlength l1)) as [->|Hne].
    + rewrite aget_aset_same by (rewrite zlength_app, zlength_cons; lia).
      rewrite aget_app_r by lia. rewrite Z.sub_diag.
      unfold aget, zlength. simpl. reflexivity.
    + rewrite aget_aset_other by lia.
      destruct (Z.lt_ge_cases k (zlength l1)).
      * rewrite !aget_app_l by lia. reflexivity.
      * rewrite !aget_app_r by lia.
        unfold aget. rewrite !zlength_cons.
        destruct ((0 <=? k - zlength l1) && (k - zlength l1 <? zlength l2 + 1));
          [|reflexivity].
        replace (Z.to_nat (k - zlength l1)) with (S (Z.to_nat (k - zlength l1 - 1)))
          by lia.
        reflexivity.
Qed.

Lemma written_push acc n vals cols_ k v :
  zlength acc < n ->
  written acc n vals cols_ ->
  written (acc ++ [(k, v)]) n
          (aset vals (zlength acc) v) (aset cols_ (zlength acc) k).
Proof.
  intros Hlt [Hv Hc]. unfold written.
  rewrite zlength_app, zlength_cons, zlength_nil, !map_app.
  replace (Z.to_nat (n - zlength acc))
    with (S (Z.to_nat (n - (zlength acc + (0 + 1))))) in Hv, Hc by lia.
  cbn [repeat] in Hv, Hc. subst vals cols_.
  assert (Ls : zlength (map snd acc) = zlength acc)
    by (unfold zlength; now rewrite length_map).
  assert (Lf : zlength (map fst acc) = zlength acc)
    by (unfold zlength; now rewrite length_map).
  cbn [map snd fst].
  split.
  - pose proof (aset_app_here
                  (map snd acc)
                  (repeat F32.zero (Z.to_nat (n - (zlength acc + (0 + 1)))))
                  F32.zero v) as E.
    rewrite Ls in E. rewrite E. now rewrite <- app_assoc.
  - pose proof (aset_app_here
                  (map fst acc)
                  (repeat 0 (Z.to_nat (n - (zlength acc + (0 + 1))))) 0 k) as E.
    rewrite Lf in E. rewrite E. now rewrite <- app_assoc.
Qed.

Section DenseFill.
Variables (rows cols : Z) (d : dense).
Hypothesis rows_range : 0 <= rows /\ rows + 1 < modulus64.
Hypothesis cols_nonneg : 0 <= cols.
Hypothesis total_fits : zlength (nz_upto cols d rows) < modulus64.

Let total : Z := zlength (nz_upto cols d rows).

(** The state of the filling scan before row [i]. *)
Let filled (i : Z) (st : list float * list Z * list Z * Z) : Prop :=
  let '(vals, cols_, rptr, c) := st in
  written (nz_upto cols d i) total vals cols_
  /\ c = zlength (nz_upto cols d i)
  /\ zlength rptr = rows + 1
  /\ forall r, 0 <= r <= i -> aget rptr r 0 = zlength (nz_upto cols d r).

Lemma dense_fill_row i st :
  0 <= i < rows -> filled i st ->
  filled (i + 1)
         (let '(vals, cols_, rptr, c) :=
            for_lt 0 cols
              (fun j st =>
                 let '(vals, cols_, rptr, c) := st in
                 if F32.ne0 (dget d i j)
                 then (aset vals c (dget d i j), aset cols_ c j, rptr, c + 1)
                 else st)
              st in
          (vals, cols_, aset rptr (i + 1) c, c)).
Proof.
  intros Hi Hst. destruct st as [[[vals cols_] rptr] c].
  destruct Hst as (Hw & Hc & Hlen & Hptr).
  set (r := aget d i []).
  assert (Hinner :
            let '(vals', cols', rptr', c') :=
              for_lt 0 cols
                (fun j st =>
                   let '(vals, cols_, rptr, c) := st in
                   if F32.ne0 (dget d i j)
                   then (aset vals c (dget d i j), aset cols_ c j, rptr, c + 1)
                   else st)
                (vals, cols_, rptr, c) in
            written (nz_upto cols d i ++ nz_cells r cols) total vals' cols'
            /\ c' = zlength (nz_upto cols d i ++ nz_cells r cols)
            /\ rptr' = rptr).
  { apply (for_lt_invariant
             (fun j st =>
                let '(vals', cols', rptr', c') := st in
                written (nz_upto cols d i ++ nz_cells r j) total vals' cols'
                /\ c' = zlength (nz_upto cols d i ++ nz_cells r j)
                /\ rptr' = rptr)); [exact cols_nonneg| |].
    - unfold nz_cells. rewrite zrange_empty by lia. simpl. rewrite app_nil_r.
      auto.
    - intros j [[[vals' cols'] rptr'] c'] Hj (Hw' & Hc' & Hr').
      unfold dget. fold r. rewrite nz_cells_snoc by lia.
      destruct (F32.ne0 (aget r j F32.zero)) eqn:Hne;
        [|rewrite app_nil_r; auto].
      rewrite app_assoc. subst c'. split; [|split; [|exact Hr']].
      + apply written_push; [|exact Hw'].
        pose proof (zlength_scan_prefix cols d rows i (j + 1)
                                        ltac:(lia) ltac:(lia)) as Hb.
        fold r total in Hb. rewrite nz_cells_snoc, Hne in Hb by lia.
        rewrite !zlength_app, zlength_cons, zlength_nil in *. lia.
      + rewrite !zlength_app, zlength_cons, zlength_nil. lia. }
  destruct (for_lt 0 cols _ (vals, cols_, rptr, c)) as [[[vals' cols'] rptr'] c'].
  destruct Hinner as (Hw' & Hc' & ->).
  unfold filled. rewrite nz_upto_snoc by lia. fold r.
  split; [exact Hw'|]. split; [exact Hc'|]. split; [now rewrite zlength_aset|].
  intros s Hs. destruct (Z.eq_dec s (i + 1)) as [->|Hne].
  - rewrite aget_aset_same by lia. rewrite nz_upto_snoc by lia. exact Hc'.
  - rewrite aget_aset_other by lia. apply Hptr. lia.
Qed.

Lemma csr_of_dense_spec :
  let m := csr_of_dense rows cols d in
  noRows m = rows /\ noCols m = cols
  /\ values m = map snd (nz_upto cols d rows)
  /\ colIndices m = map fst (nz_upto cols d rows)
  /\ valuesSize m = total
  /\ rowPointersSize m = rows + 1
  /\ zlength (rowPointers m) = rows + 1
  /\ forall r, 0 <= r <= rows -> rowptr_at m r = zlength (nz_upto cols d r).
Proof.
  unfold csr_of_dense, dense_fill.
  rewrite (count_non_zero_spec cols d cols_nonneg rows (proj1 rows_range) total_fits).
  fold total.
  rewrite add64_small by lia.
  assert (H : filled rows
                (for_lt 0 rows
                   (fun i st =>
                      let '(vals, cols_, rptr, c) :=
                        for_lt 0 cols
                          (fun j st =>
                             let '(vals, cols_, rptr, c) := st in
                             if F32.ne0 (dget d i j)
                             then (aset vals c (dget d i j), aset cols_ c j, rptr, c + 1)
                             else st)
                          st in
                      (vals, cols_, aset rptr (i + 1) c, c))
                   (repeat F32.zero (Z.to_nat total), repeat 0 (Z.to_nat total),
                    aset (repeat 0 (Z.to_nat (rows + 1))) 0 0, 0))).
  { apply (for_lt_invariant filled); [lia| |].
    - unfold filled, written, nz_upto. rewrite zrange_empty by lia. simpl.
      rewrite zlength_nil, Z.sub_0_r. repeat split.
      + rewrite zlength_aset, zlength_repeat. lia.
      + intros r Hr. assert (r = 0) as -> by lia.
        rewrite aget_aset_same by (rewrite zlength_repeat; lia).
        rewrite zrange_empty by lia. reflexivity.
    - intros i st Hi Hst. apply dense_fill_row; [lia|exact Hst]. }
  destruct (for_lt 0 rows _ _) as [[[vals cols_] rptr] c].
  destruct H as ((Hv & Hc) & _ & Hlen & Hptr). simpl.
  fold total in Hv, Hc. rewrite Z.sub_diag in Hv, Hc. simpl in Hv, Hc.
  rewrite app_nil_r in Hv, Hc.
  repeat split; auto.
Qed.

End DenseFill.

(** ** CSR to dense: what the scatter loop computes *)

Lemma aget_repeat_in_range {A} (v d : A) (n : nat) (i : Z) :
  0 <= i < Z.of_nat n -> aget (repeat v n) i d = v.
Proof.
  intros H. rewrite aget_in_range by (rewrite zlength_repeat; lia).
  rewrite (nth_indep _ d v) by (rewrite repeat_length; lia).
  apply nth_repeat.
Qed.

Lemma aget_map {A B} (f : A -> B) (l : list A) (i : Z) (d : A) :
  aget (map f l) i (f d) = f (aget l i d).
Proof.
  unfold aget, zlength. rewrite length_map.
  destruct ((0 <=? i) && (i <? Z.of_nat (length l))); [|reflexivity].
  apply map_nth.
Qed.

Lemma Forall2_aget {A B} (R : A -> B -> Prop) (l : list A) (l' : list B)
      (d : A) (d' : B) :
  zlength l = zlength l' ->
  (forall i, 0 <= i < zlength l -> R (aget l i d) (aget l' i d')) ->
  Forall2 R l l'.
Proof.
  revert l'. induction l as [|x l IH]; intros [|y l'] Hlen H.
  - constructor.
  - rewrite zlength_cons, zlength_nil in Hlen.
    pose proof (zlength_nonneg l'). lia.
  - rewrite zlength_cons, zlength_nil in Hlen.
    pose proof (zlength_nonneg l). lia.
  - rewrite !zlength_cons in Hlen. constructor.
    + specialize (H 0). unfold aget, zlength in H. simpl in H. apply H.
      split; [lia|]. lia.
    + apply IH; [lia|]. intros i Hi. specialize (H (i + 1)).
      rewrite !aget_in_range in H
        by (rewrite ?zlength_cons; lia).
      rewrite !aget_in_range by lia.
      replace (Z.to_nat (i + 1)) with (S (Z.to_nat i)) in H by lia.
      apply H. rewrite zlength_cons. lia.
Qed.

Section Scatter.
Implicit Types (es : list (Z * float)) (row : list float).

Lemma zlength_scatter_row es row : zlength (scatter_row es row) = zlength row.
Proof.
  revert row. induction es as [|e es IH]; intros row; [reflexivity|].
  simpl. rewrite IH. apply zlength_aset.
Qed.

Lemma scatter_row_snoc es e row :
  scatter_row (es ++ [e]) row = aset (scatter_row es row) (fst e) (snd e).
Proof. unfold scatter_row. now rewrite fold_left_app. Qed.

Lemma scatter_row_notin es row j :
  ~ In j (map fst es) ->
  aget (scatter_row es row) j F32.zero = aget row j F32.zero.
Proof.
  revert row. induction es as [|e es IH]; intros row Hnot; [reflexivity|].
  simpl in *. rewrite IH by tauto. apply aget_aset_other. tauto.
Qed.

Lemma scatter_row_in es row j v :
  NoDup (map fst es) -> In (j, v) es -> 0 <= j < zlength row ->
  aget (scatter_row es row) j F32.zero = v.
Proof.
  revert row. induction es as [|e es IH]; intros row Hnd Hin Hj; [contradiction|].
  simpl in Hnd. inversion Hnd as [|? ? Hfresh Hnd']; subst.
  destruct Hin as [->|Hin]; simpl.
  - rewrite scatter_row_notin by exact Hfresh. now apply aget_aset_same.
  - apply IH; [exact Hnd'|exact Hin|now rewrite zlength_aset].
Qed.

(** A cell that ends up nonzero was stored by an entry of the row. *)
Lemma scatter_row_nonzero es n j :
  F32.ne0 (aget (scatter_row es (repeat F32.zero n)) j F32.zero) = true ->
  In j (map fst es).
Proof.
  intros H. destruct (In_dec Z.eq_dec j (map fst es)) as [Hin|Hnot]; [exact Hin|].
  rewrite scatter_row_notin, aget_repeat in H by exact Hnot. discriminate.
Qed.

(** Storing the nonzero cells of a row into zeros gives the row back, its
    zero cells replaced by [+0.0]. *)
Lemma scatter_nz_cells row j :
  aget (scatter_row (nz_cells row (zlength row))
                    (repeat F32.zero (Z.to_nat (zlength row)))) j F32.zero
  = if F32.ne0 (aget row j F32.zero) then aget row j F32.zero else F32.zero.
Proof.
  destruct (F32.ne0 (aget row j F32.zero)) eqn:Hne.
  - assert (Hj : 0 <= j < zlength row).
    { destruct (Z.lt_ge_cases j 0); [rewrite aget_out_of_range in Hne by lia;
                                     discriminate|].
      destruct (Z.lt_ge_cases j (zlength row)); [lia|].
      rewrite aget_out_of_range in Hne by lia. discriminate. }
    apply scatter_row_in.
    + apply NoDup_nz_cells_columns.
    + apply in_nz_cells. auto.
    + rewrite zlength_repeat. lia.
  - rewrite scatter_row_notin; [apply aget_repeat|].
    intros Hin. apply in_map_iff in Hin. destruct Hin as ([k v] & Hk & Hin).
    simpl in Hk. subst k. apply in_nz_cells in Hin.
    destruct Hin as (_ & -> & Hv). congruence.
Qed.

End Scatter.

Section CsrFill.
Variable m : Matrix.
Hypothesis rows_nonneg : 0 <= noRows m.

Let zeros : list float := repeat F32.zero (Z.to_nat (noCols m)).

(** The dense array before row [i] of the scatter loop. *)
Let scattered (i : Z) (d : dense) : Prop :=
  zlength d = noRows m
  /\ forall r, 0 <= r < noRows m ->
               aget d r [] = if r <? i then scatter_row (row_entries m r) zeros
                             else zeros.

Lemma csr_fill_row i d :
  0 <= i < noRows m -> scattered i d ->
  scattered (i + 1)
            (for_lt (rowptr_at m i) (rowptr_at m (i + 1))
                    (fun j d => dset d i (col_at m j) (val_at m j)) d).
Proof.
  intros Hi [Hlen Hrows].
  set (lo := rowptr_at m i). set (hi := rowptr_at m (i + 1)).
  set (entry := fun k => (col_at m k, val_at m k)).
  assert (Hinner :
            let d' := for_lt lo hi (fun j d => dset d i (col_at m j) (val_at m j)) d in
            zlength d' = noRows m
            /\ aget d' i [] = scatter_row (row_entries m i) zeros
            /\ forall r, r <> i -> aget d' r [] = aget d r []).
  { destruct (Z.le_gt_cases lo hi) as [Hle|Hgt].
    - unfold row_entries. fold lo hi entry.
      apply (for_lt_invariant
               (fun j d' =>
                  zlength d' = noRows m
                  /\ aget d' i [] = scatter_row (map entry (zrange lo j)) zeros
                  /\ forall r, r <> i -> aget d' r [] = aget d r []));
        [exact Hle| |].
      + rewrite zrange_empty by lia. simpl.
        split; [exact Hlen|]. split; [|auto].
        rewrite Hrows by lia. now rewrite (proj2 (Z.ltb_ge i i)) by lia.
      + intros j d' Hj (Hlen' & Hrow & Hother). unfold dset.
        split; [now rewrite zlength_aset|]. split.
        * rewrite aget_aset_same by lia. rewrite Hrow.
          rewrite zrange_snoc, map_app by lia. simpl.
          now rewrite scatter_row_snoc.
        * intros r Hr. rewrite aget_aset_other by lia. now apply Hother.
    - rewrite for_lt_empty by lia. unfold row_entries. fold lo hi.
      rewrite zrange_empty by lia. simpl.
      split; [exact Hlen|]. split; [|auto].
      rewrite Hrows by lia. now rewrite (proj2 (Z.ltb_ge i i)) by lia. }
  destruct Hinner as (Hlen' & Hrow & Hother).
  split; [exact Hlen'|]. intros r Hr.
  destruct (Z.eq_dec r i) as [->|Hne].
  - rewrite Hrow. now rewrite (proj2 (Z.ltb_lt i (i + 1))) by lia.
  - rewrite Hother by exact Hne. rewrite Hrows by exact Hr.
    destruct (Z.ltb_spec r i), (Z.ltb_spec r (i + 1)); try lia; reflexivity.
Qed.

Lemma dense_of_csr_spec :
  zlength (dense_of_csr m) = noRows m
  /\ forall r, 0 <= r < noRows m ->
               aget (dense_of_csr m) r [] = scatter_row (row_entries m r) zeros.
Proof.
  assert (H : scattered (noRows m) (dense_of_csr m)).
  { unfold dense_of_csr, csr_fill.
    apply (for_lt_invariant scattered); [exact rows_nonneg| |].
    - split.
      + unfold dense_zero. rewrite zlength_repeat. lia.
      + intros r Hr. rewrite (proj2 (Z.ltb_ge r 0)) by lia.
        unfold dense_zero. apply aget_repeat_in_range. lia.
    - intros i d Hi Hd. apply csr_fill_row; [lia|exact Hd]. }
  destruct H as [Hlen Hrows]. split; [exact Hlen|].
  intros r Hr. rewrite Hrows by exact Hr.
  now rewrite (proj2 (Z.ltb_lt r (noRows m))) by lia.
Qed.

End CsrFill.

(** ** Round trips between the two formats *)

Lemma row_entries_csr_of_dense rows cols d i :
  0 <= rows /\ rows + 1 < modulus64 -> 0 <= cols ->
  zlength (nz_upto cols d rows) < modulus64 ->
  0 <= i < rows ->
  row_entries (csr_of_dense rows cols d) i = nz_cells (aget d i []) cols.
Proof.
  intros Hrows Hcols Hfit Hi.
  destruct (csr_of_dense_spec rows cols d Hrows Hcols Hfit)
    as (_ & _ & Hv & Hc & _ & _ & _ & Hptr).
  unfold row_entries, col_at, val_at. rewrite Hv, Hc, !Hptr by lia.
  destruct (nz_upto_split cols d (i + 1) rows ltac:(lia)) as (rest & Erest).
  rewrite nz_upto_snoc in Erest by lia. rewrite <- app_assoc in Erest.
  rewrite nz_upto_snoc, zlength_app by lia.
  rewrite <- (map_aget_middle (nz_upto cols d i) (nz_cells (aget d i []) cols)
                              rest (0, F32.zero)) at 2.
  rewrite <- Erest. apply map_ext. intros k.
  pose proof (aget_map fst (nz_upto cols d rows) k (0, F32.zero)) as E1.
  pose proof (aget_map snd (nz_upto cols d rows) k (0, F32.zero)) as E2.
  cbn [fst snd] in E1, E2. rewrite E1, E2.
  symmetry. apply surjective_pairing.
Qed.

Lemma dense_shape_row rows cols d r :
  dense_shape rows cols d -> 0 <= r < rows -> zlength (aget d r []) = cols.
Proof.
  intros [Hlen Hrows] Hr. rewrite aget_in_range by lia.
  rewrite Forall_forall in Hrows. apply Hrows, nth_In.
  unfold zlength in Hlen. lia.
Qed.

(** Dense to CSR and back. *)
Lemma dense_round_trip rows cols d :
  0 <= rows /\ rows + 1 < modulus64 -> 0 <= cols -> rows * cols < modulus64 ->
  dense_shape rows cols d ->
  dense_of_csr (csr_of_dense rows cols d) = map (map canonical) d.
Proof.
  intros Hrows Hcols Hfit Hshape.
  assert (Htotal : zlength (nz_upto cols d rows) < modulus64).
  { pose proof (zlength_nz_upto_le cols d Hcols rows (proj1 Hrows)). lia. }
  destruct (csr_of_dense_spec rows cols d Hrows Hcols Htotal)
    as (Hr & Hc & _).
  set (m := csr_of_dense rows cols d) in *.
  destruct (dense_of_csr_spec m ltac:(lia)) as [Hlen Hget].
  rewrite Hr in Hlen, Hget. rewrite Hc in Hget.
  assert (Lmap : forall (A B : Type) (f : A -> B) (l : list A),
             zlength (map f l) = zlength l)
    by (intros; unfold zlength; now rewrite length_map).
  apply aget_ext with (d := []);
    [rewrite Hlen, Lmap; symmetry; apply Hshape|].
  intros r Hrange. rewrite Hlen in Hrange. rewrite Hget by exact Hrange.
  unfold m. rewrite row_entries_csr_of_dense by assumption.
  pose proof (dense_shape_row rows cols d r Hshape Hrange) as Hrow.
  change (@nil float) with (map canonical []) at 2. rewrite aget_map.
  set (row := aget d r []) in *.
  apply aget_ext with (d := F32.zero);
    [rewrite zlength_scatter_row, zlength_repeat, Lmap; lia|].
  intros j Hj. rewrite <- Hrow. rewrite scatter_nz_cells.
  change F32.zero with (canonical F32.zero) at 4. rewrite aget_map.
  reflexivity.
Qed.

Lemma canonical_same_number v : same_number (canonical v) v.
Proof.
  unfold same_number, canonical, F32.ne0.
  destruct (F32.eq0 v) eqn:E; simpl; [right|left]; auto.
Qed.

Lemma map_canonical_same_number d :
  Forall2 (Forall2 same_number) (map (map canonical) d) d.
Proof.
  induction d as [|row d IH]; simpl; constructor; [|exact IH].
  induction row as [|v row IHr]; simpl; constructor;
    [apply canonical_same_number|exact IHr].
Qed.

Lemma map_canonical_fixed d :
  no_negative_zero d -> map (map canonical) d = d.
Proof.
  unfold no_negative_zero. intros H.
  induction H as [|row d Hrow _ IH]; simpl; [reflexivity|]. f_equal; [|exact IH].
  induction Hrow as [|v row Hv _ IHr]; simpl; [reflexivity|]. f_equal; [|exact IHr].
  unfold canonical, F32.ne0. destruct (F32.eq0 v) eqn:E; simpl; [|reflexivity].
  symmetry. now apply Hv.
Qed.

(** The nonzero cells of a scattered row are its entries, in column order. *)
Lemma nz_cells_scatter_perm es cols :
  NoDup (map fst es) ->
  (forall j v, In (j, v) es -> 0 <= j < cols /\ F32.ne0 v = true) ->
  Permutation (nz_cells (scatter_row es (repeat F32.zero (Z.to_nat cols))) cols) es.
Proof.
  intros Hnd Hes.
  set (row := scatter_row es (repeat F32.zero (Z.to_nat cols))).
  apply NoDup_Permutation.
  - apply (NoDup_map_inv fst), NoDup_nz_cells_columns.
  - apply (NoDup_map_inv fst), Hnd.
  - intros [j v]. rewrite in_nz_cells. split.
    + intros (Hj & -> & Hne).
      pose proof (scatter_row_nonzero es _ j Hne) as Hin.
      apply in_map_iff in Hin. destruct Hin as ([j' v'] & Ej & Hin).
      simpl in Ej. subst j'.
      unfold row. rewrite (scatter_row_in es _ j v' Hnd Hin)
        by (rewrite zlength_repeat; lia).
      exact Hin.
    + intros Hin. destruct (Hes j v Hin) as [Hj Hne].
      split; [exact Hj|]. split; [|exact Hne].
      unfold row. symmetry. apply scatter_row_in; [exact Hnd|exact Hin|].
      rewrite zlength_repeat. lia.
Qed.

Section CsrRoundTrip.
Variable m : Matrix.
Hypothesis valid : csr_invariants m.
Hypothesis distinct : distinct_columns m.

Let back : dense := dense_of_csr m.

Lemma row_entries_valid i j v :
  0 <= i < noRows m -> In (j, v) (row_entries m i) ->
  0 <= j < noCols m /\ F32.ne0 v = true.
Proof.
  intros Hi Hin. unfold row_entries in Hin. apply in_map_iff in Hin.
  destruct Hin as (k & E & Hk). inversion E; subst. apply in_zrange in Hk.
  pose proof (rowptr_range m valid i ltac:(lia)).
  pose proof (rowptr_range m valid (i + 1) ltac:(lia)).
  split; [apply (inv_columns m valid)|apply (inv_nonzero m valid)]; lia.
Qed.

Lemma row_entries_distinct i :
  0 <= i < noRows m -> NoDup (map fst (row_entries m i)).
Proof.
  intros Hi. unfold distinct_columns in distinct.
  rewrite all_lt_true in distinct by apply (inv_rows m valid).
  apply nodupb_NoDup, distinct, Hi.
Qed.

Lemma zlength_row_entries i :
  0 <= i < noRows m ->
  zlength (row_entries m i) = rowptr_at m (i + 1) - rowptr_at m i.
Proof.
  intros Hi. unfold row_entries, zlength. rewrite length_map.
  fold (zlength (zrange (rowptr_at m i) (rowptr_at m (i + 1)))).
  apply zlength_zrange, (inv_monotone m valid), Hi.
Qed.

Lemma back_row_perm i :
  0 <= i < noRows m ->
  Permutation (nz_cells (aget back i []) (noCols m)) (row_entries m i).
Proof.
  intros Hi. unfold back.
  rewrite (proj2 (dense_of_csr_spec m (proj1 (inv_rows m valid)))) by exact Hi.
  apply nz_cells_scatter_perm; [now apply row_entries_distinct|].
  intros j v. now apply row_entries_valid.
Qed.

Lemma zlength_nz_upto_back r :
  0 <= r <= noRows m -> zlength (nz_upto (noCols m) back r) = rowptr_at m r.
Proof.
  intros [Hr Hle]. revert Hle. pattern r. apply natlike_ind; [| |exact Hr].
  - intros _. unfold nz_upto. rewrite zrange_empty by lia. simpl.
    now rewrite (inv_first m valid).
  - intros x Hx IH Hle. unfold Z.succ in *. rewrite nz_upto_snoc by lia.
    rewrite zlength_app, IH by lia.
    pose proof (Permutation_length (back_row_perm x ltac:(lia))) as Hlen.
    fold (zlength (nz_cells (aget back x []) (noCols m))) in Hlen.
    pose proof (zlength_row_entries x ltac:(lia)) as Hrow.
    unfold zlength in *. lia.
Qed.

(** CSR to dense and back. *)
Lemma csr_round_trip :
  same_matrix (csr_of_dense (noRows m) (noCols m) back) m.
Proof.
  pose proof (inv_rows m valid) as Hrows.
  pose proof (inv_cols m valid) as Hcols.
  assert (Htotal : zlength (nz_upto (noCols m) back (noRows m)) < modulus64).
  { rewrite zlength_nz_upto_back by lia. rewrite (inv_last m valid).
    apply (inv_valuesSize m valid). }
  destruct (csr_of_dense_spec (noRows m) (noCols m) back Hrows (proj1 Hcols) Htotal)
    as (Hr & Hc & Hv & Hci & Hsize & Hrps & Hlen & Hptr).
  unfold same_matrix. rewrite Hr, Hc, Hsize, Hrps.
  split; [reflexivity|]. split; [reflexivity|].
  split. { rewrite zlength_nz_upto_back by lia. apply (inv_last m valid). }
  split. { symmetry. apply (inv_rowPointersSize m valid). }
  split.
  - apply aget_ext with (d := 0).
    + rewrite Hlen, (inv_rowPointers_length m valid).
      symmetry. apply (inv_rowPointersSize m valid).
    + intros i Hi. rewrite Hlen in Hi.
      fold (rowptr_at (csr_of_dense (noRows m) (noCols m) back) i).
      rewrite Hptr by lia. fold (rowptr_at m i). apply zlength_nz_upto_back. lia.
  - intros i Hi.
    rewrite (row_entries_csr_of_dense (noRows m) (noCols m) back i Hrows
                                      (proj1 Hcols) Htotal Hi).
    now apply back_row_perm.
Qed.

End CsrRoundTrip.

Lemma csr_to_ordinary_some m w d w' :
  csr_to_ordinary m w = (Some d, w') -> d = dense_of_csr m.
Proof.
  unfold csr_to_ordinary, bind, ret.
  destruct (malloc_safe (noRows m) sizeof_ptr w) as [[|] w1]; simpl;
    [|discriminate].
  destruct (calloc_rows (Z.to_nat (noRows m)) (noCols m) w1) as [[|] w2]; simpl;
    [|discriminate].
  intros E. now inversion E.
Qed.

Lemma ordinary_to_csr_some rows cols d w m w' :
  ordinary_to_csr rows cols d w = (Some m, w') -> m = csr_of_dense rows cols d.
Proof.
  unfold ordinary_to_csr, bind, ret.
  destruct (malloc sizeof_Matrix w) as [[|] w1]; simpl; [|discriminate].
  destruct (malloc_safe sizeof_float _ w1) as [[|] w2]; simpl; [|discriminate].
  destruct (malloc_safe sizeof_uint64 _ w2) as [[|] w3]; simpl; [|discriminate].
  destruct (malloc_safe sizeof_uint64 _ w3) as [[|] w4]; simpl; [|discriminate].
  intros E. now inversion E.
Qed.

(** C6 (as amended) -- whenever the two conversions succeed:
    a dense [rows] x [cols] array ([rows, cols >= 1], sizes within the
    index range) converted to CSR and back comes back cell for cell as the
    same numbers, and exactly as it was when it holds no negative zero;
    a valid CSR matrix in which no row stores a column index twice,
    converted to a dense array and back, is the same sparse matrix: same
    dimensions, [valuesSize] and row pointers, and row by row the same
    entries up to their order. *)
Theorem conversions_round_trip :
  (forall rows cols d m d' w1 w2 w3,
      1 <= rows -> rows + 1 < modulus64 -> 1 <= cols ->
      rows * cols < modulus64 -> dense_shape rows cols d ->
      ordinary_to_csr rows cols d w1 = (Some m, w2) ->
      csr_to_ordinary m w2 = (Some d', w3) ->
      Forall2 (Forall2 same_number) d' d /\ (no_negative_zero d -> d' = d))
  /\ (forall m d m' w1 w2 w3,
         valid_csr m -> distinct_columns m ->
         csr_to_ordinary m w1 = (Some d, w2) ->
         ordinary_to_csr (noRows m) (noCols m) d w2 = (Some m', w3) ->
         same_matrix m' m).
Proof.
  split.
  - intros rows cols d m d' w1 w2 w3 Hrows Hrows' Hcols Hfit Hshape E1 E2.
    apply ordinary_to_csr_some in E1. apply csr_to_ordinary_some in E2.
    subst m d'.
    rewrite (dense_round_trip rows cols d) by (try assumption; lia).
    split; [apply map_canonical_same_number|apply map_canonical_fixed].
  - intros m d m' w1 w2 w3 Hvalid Hdistinct E1 E2.
    apply csr_to_ordinary_some in E1. apply ordinary_to_csr_some in E2.
    subst d m'. apply csr_round_trip; [|exact Hdistinct].
    now apply valid_csr_invariants.
Qed.

Lemma conversions_round_trip_witness :
  (let d := [floats [1; 0; 2]; floats [0; 0; 3]] in
   dense_shape 2 3 d
   /\ fst (csr_to_ordinary (csr_of_dense 2 3 d) (generous true 4)) = Some d)
  /\ (valid_csr Scenario.A /\ distinct_columns Scenario.A
      /\ same_matrix (csr_of_dense 2 3 (dense_of_csr Scenario.A)) Scenario.A).
Proof.
  split.
  - intros d.
    assert (Hshape : dense_shape 2 3 d) by (split; [reflexivity|repeat constructor]).
    split; [exact Hshape|].
    assert (E1 : ordinary_to_csr 2 3 d (generous true 4)
                 = (Some (csr_of_dense 2 3 d),
                    snd (ordinary_to_csr 2 3 d (generous true 4))))
      by (vm_compute; reflexivity).
    assert (E2 : csr_to_ordinary (csr_of_dense 2 3 d)
                                 (snd (ordinary_to_csr 2 3 d (generous true 4)))
                 = (Some (dense_of_csr (csr_of_dense 2 3 d)),
                    snd (csr_to_ordinary (csr_of_dense 2 3 d)
                           (snd (ordinary_to_csr 2 3 d (generous true 4))))))
      by (vm_compute; reflexivity).
    assert (Hnz : no_negative_zero d).
    { unfold no_negative_zero, d. repeat constructor; vm_compute;
        intros; try reflexivity; discriminate. }
    pose proof (proj2 (proj1 conversions_round_trip 2 3 d _ _ _ _ _
                         ltac:(lia) ltac:(unfold modulus64; lia) ltac:(lia)
                         ltac:(unfold modulus64; lia) Hshape E1 E2) Hnz) as E.
    vm_compute. reflexivity.
  - assert (Hv : valid_csr Scenario.A) by (vm_compute; reflexivity).
    assert (Hd : distinct_columns Scenario.A) by (vm_compute; reflexivity).
    split; [exact Hv|]. split; [exact Hd|].
    refine (proj2 conversions_round_trip Scenario.A (dense_of_csr Scenario.A)
                  _ (generous true 4)
                  (snd (csr_to_ordinary Scenario.A (generous true 4)))
                  (snd (ordinary_to_csr 2 3 (dense_of_csr Scenario.A)
                          (snd (csr_to_ordinary Scenario.A (generous true 4)))))
                  Hv Hd _ _); vm_compute; reflexivity.
Defined.

(** C6 (as stated) fails for a valid CSR matrix that stores a column twice
    in one row: the dense array keeps only the later value, so the matrix
    that comes back holds one entry where the original holds two, and the
    equality checker rejects the pair. *)
Lemma duplicate_column_breaks_round_trip :
  valid_csr Duplicate.M
  /\ fst (csr_to_ordinary Duplicate.M (generous true 4))
     = Some (dense_of_csr Duplicate.M)
  /\ fst (ordinary_to_csr (noRows Duplicate.M) (noCols Duplicate.M)
                          (dense_of_csr Duplicate.M) (generous true 4))
     = Some Duplicate.back
  /\ valuesSize Duplicate.back <> valuesSize Duplicate.M
  /\ ~ same_matrix Duplicate.back Duplicate.M
  /\ equals Duplicate.back Duplicate.M
     = Some (false, Duplicate.back, Duplicate.M).
Proof.
  split; [vm_compute; reflexivity|].
  split; [vm_compute; reflexivity|].
  split; [vm_compute; reflexivity|].
  split; [vm_compute; discriminate|].
  split; [|vm_compute; reflexivity].
  intros (_ & _ & H & _). vm_compute in H. discriminate.
Qed.

(** ** Counting nonzero cells *)

Lemma F32_eq0_inv x : F32.eq0 x = true -> exists s, x = S754_zero s.
Proof.
  destruct x as [s|s| |s m e]; intros H.
  - now exists s.
  - destruct s; discriminate H.
  - discriminate H.
  - destruct s; discriminate H.
Qed.

Lemma F32_add_zero x y :
  F32.eq0 x = true -> F32.eq0 y = true -> F32.eq0 (F32.add x y) = true.
Proof.
  intros Hx Hy. apply F32_eq0_inv in Hx, Hy.
  destruct Hx as [sx ->], Hy as [sy ->]. destruct sx, sy; reflexivity.
Qed.

Lemma F32_mul_zero_l x y :
  F32.eq0 x = true -> F32.finite y = true -> F32.eq0 (F32.mul x y) = true.
Proof.
  intros Hx Hy. apply F32_eq0_inv in Hx. destruct Hx as [sx ->].
  destruct y as [sy|sy| |sy my ey]; try discriminate Hy; reflexivity.
Qed.

Lemma F32_mul_zero_r x y :
  F32.finite x = true -> F32.eq0 y = true -> F32.eq0 (F32.mul x y) = true.
Proof.
  intros Hx Hy. apply F32_eq0_inv in Hy. destruct Hy as [sy ->].
  destruct x as [sx|sx| |sx mx ex]; try discriminate Hx; reflexivity.
Qed.

Lemma nnz_count_nonneg l : 0 <= nnz_count l.
Proof. apply zlength_nonneg. Qed.

Lemma nnz_count_le_length l : nnz_count l <= zlength l.
Proof.
  unfold nnz_count, zlength. pose proof (filter_length_le F32.ne0 l). lia.
Qed.

Lemma nnz_count_cons v l :
  nnz_count (v :: l) = (if F32.ne0 v then 1 else 0) + nnz_count l.
Proof.
  unfold nnz_count. simpl. destruct (F32.ne0 v); [rewrite zlength_cons|]; lia.
Qed.

Lemma nnz_count_zeros n : nnz_count (repeat F32.zero n) = 0.
Proof.
  induction n as [|n IH]; [reflexivity|]. simpl repeat. rewrite nnz_count_cons, IH.
  reflexivity.
Qed.

Lemma nnz_count_aset_nat l n v : nnz_count (aset_nat l n v) <= nnz_count l + 1.
Proof.
  revert n. induction l as [|x l IH]; intros n; simpl.
  - unfold nnz_count. simpl. rewrite zlength_nil. lia.
  - destruct n as [|n]; rewrite !nnz_count_cons.
    + destruct (F32.ne0 v), (F32.ne0 x); lia.
    + specialize (IH n). lia.
Qed.

Lemma nnz_count_aset l i v : nnz_count (aset l i v) <= nnz_count l + 1.
Proof.
  unfold aset. destruct ((0 <=? i) && (i <? zlength l)); [|lia].
  apply nnz_count_aset_nat.
Qed.

(** Overwriting a nonzero cell, or storing a zero, makes no new nonzero. *)
Lemma nnz_count_aset_nat_same l n v :
  (F32.ne0 v = true -> F32.ne0 (nth n l F32.zero) = true) ->
  nnz_count (aset_nat l n v) <= nnz_count l.
Proof.
  revert n. induction l as [|x l IH]; intros n H; simpl; [lia|].
  destruct n as [|n]; rewrite !nnz_count_cons.
  - simpl in H. destruct (F32.ne0 v); [rewrite H by reflexivity|];
      destruct (F32.ne0 x); lia.
  - simpl in H. specialize (IH n H). lia.
Qed.

Section Grown.
Implicit Types (res : Matrix) (n : Z).

Lemma grown_refl res : grown 0 res res.
Proof. unfold grown. split; [reflexivity|lia]. Qed.

Lemma grown_trans n1 n2 r1 r2 r3 :
  grown n1 r1 r2 -> grown n2 r2 r3 -> grown (n1 + n2) r1 r3.
Proof. unfold grown. intros [L1 C1] [L2 C2]. split; [congruence|lia]. Qed.

Lemma grown_weaken n n' r r' : n <= n' -> grown n r r' -> grown n' r r'.
Proof. unfold grown. intros H [L C]. split; [exact L|lia]. Qed.

Lemma grown_same_values n r r' :
  0 <= n -> values r' = values r -> grown n r r'.
Proof. unfold grown. intros H ->. split; [reflexivity|lia]. Qed.

(** A loop whose round [i] adds at most [g (i + 1) - g i] nonzero cells. *)
Lemma grown_for_lt (g : Z -> Z) lo hi body res :
  lo <= hi ->
  (forall i r, lo <= i < hi -> grown (g (i + 1) - g i) r (body i r)) ->
  grown (g hi - g lo) res (for_lt lo hi body res).
Proof.
  intros Hle Hbody.
  apply (for_lt_invariant (fun i r => grown (g i - g lo) res r)); [exact Hle| |].
  - rewrite Z.sub_diag. apply grown_refl.
  - intros i r Hi Hr.
    replace (g (i + 1) - g lo) with (g i - g lo + (g (i + 1) - g i)) by lia.
    eapply grown_trans; [exact Hr|]. now apply Hbody.
Qed.

Lemma grown_accumulate b res rowA columnB valueC :
  grown 1 res (accumulate b res rowA columnB valueC).
Proof.
  unfold grown, accumulate. simpl. rewrite zlength_aset.
  split; [reflexivity|apply nnz_count_aset].
Qed.

Lemma grown_scalar_row_B b rowA valueA lo hi res :
  lo <= hi -> grown (hi - lo) res (scalar_row_B b rowA valueA lo hi res).
Proof.
  intros Hle. unfold scalar_row_B.
  apply (grown_for_lt (fun i => i)); [exact Hle|].
  intros i r Hi. replace (i + 1 - i) with 1 by lia. apply grown_accumulate.
Qed.

End Grown.

(** ** Finite sums *)

Lemma Z_induction_from (lo : Z) (P : Z -> Prop) :
  P lo -> (forall hi, lo <= hi -> P hi -> P (hi + 1)) ->
  forall hi, lo <= hi -> P hi.
Proof.
  intros H0 Hstep hi Hle.
  replace hi with (lo + Z.of_nat (Z.to_nat (hi - lo))) by lia.
  induction (Z.to_nat (hi - lo)) as [|n IH].
  - now rewrite Z.add_0_r.
  - rewrite Nat2Z.inj_succ.
    replace (lo + Z.succ (Z.of_nat n)) with (lo + Z.of_nat n + 1) by lia.
    apply Hstep; [lia|exact IH].
Qed.

Section Sums.
Implicit Types (f g : Z -> Z) (lo mid hi : Z).

Lemma zsum_empty f lo hi : hi <= lo -> zsum f lo hi = 0.
Proof. intros H. unfold zsum. now rewrite zrange_empty. Qed.

Lemma zsum_snoc f lo hi : lo <= hi -> zsum f lo (hi + 1) = zsum f lo hi + f hi.
Proof.
  intros H. unfold zsum. rewrite zrange_snoc, map_app, fold_right_app by exact H.
  simpl. generalize (map f (zrange lo hi)). intros l.
  induction l as [|x l IH]; simpl; lia.
Qed.

Lemma zsum_split f lo mid hi :
  lo <= mid <= hi -> zsum f lo hi = zsum f lo mid + zsum f mid hi.
Proof.
  intros [H1 H2]. pattern hi. apply (Z_induction_from mid); [| |exact H2].
  - rewrite (zsum_empty f mid mid) by lia. lia.
  - intros x Hx IH. rewrite !zsum_snoc by lia. lia.
Qed.

Lemma zsum_nonneg f lo hi :
  (forall i, lo <= i < hi -> 0 <= f i) -> 0 <= zsum f lo hi.
Proof.
  destruct (Z.le_gt_cases lo hi) as [Hle|Hgt]; [|rewrite zsum_empty by lia; lia].
  pattern hi. apply (Z_induction_from lo); [| |exact Hle].
  - intros _. rewrite zsum_empty by lia. lia.
  - intros x Hx IH H. rewrite zsum_snoc by lia.
    specialize (H x ltac:(lia)) as Hfx.
    assert (0 <= zsum f lo x) by (apply IH; intros; apply H; lia). lia.
Qed.

Lemma zsum_ext f g lo hi :
  (forall i, lo <= i < hi -> f i = g i) -> zsum f lo hi = zsum g lo hi.
Proof.
  intros H. unfold zsum. f_equal. apply map_ext_in. intros i Hi.
  apply H, in_zrange, Hi.
Qed.

Lemma zsum_add f g lo hi :
  zsum (fun i => f i + g i) lo hi = zsum f lo hi + zsum g lo hi.
Proof.
  destruct (Z.le_gt_cases lo hi) as [Hle|Hgt]; [|rewrite !zsum_empty by lia; lia].
  pattern hi. apply (Z_induction_from lo); [| |exact Hle].
  - rewrite !zsum_empty by lia. lia.
  - intros x Hx IH. rewrite !zsum_snoc by lia. lia.
Qed.

Lemma zsum_zero lo hi : zsum (fun _ => 0) lo hi = 0.
Proof.
  destruct (Z.le_gt_cases lo hi) as [Hle|Hgt]; [|now rewrite zsum_empty by lia].
  pattern hi. apply (Z_induction_from lo); [| |exact Hle].
  - now rewrite zsum_empty by lia.
  - intros x Hx IH. rewrite zsum_snoc by lia. lia.
Qed.

(** Only the term at [c] counts. *)
Lemma zsum_single f lo hi c :
  lo <= c < hi -> zsum (fun i => if i =? c then f i else 0) lo hi = f c.
Proof.
  intros Hc.
  rewrite (zsum_split _ lo c hi) by lia.
  rewrite (zsum_split _ c (c + 1) hi) by lia.
  rewrite (zsum_ext _ (fun _ => 0) lo c)
    by (intros i Hi; destruct (Z.eqb_spec i c); [lia|reflexivity]).
  rewrite (zsum_ext _ (fun _ => 0) (c + 1) hi)
    by (intros i Hi; destruct (Z.eqb_spec i c); [lia|reflexivity]).
  rewrite !zsum_zero, zsum_snoc, zsum_empty by lia.
  rewrite Z.eqb_refl. lia.
Qed.

Lemma zsum_prefix_le f lo mid hi :
  lo <= mid <= hi -> (forall i, lo <= i < hi -> 0 <= f i) ->
  zsum f lo mid <= zsum f lo hi.
Proof.
  intros H Hf. rewrite (zsum_split f lo mid hi) by exact H.
  assert (0 <= zsum f mid hi) by (apply zsum_nonneg; intros; apply Hf; lia). lia.
Qed.

Lemma zlength_flat_map_zrange {A} (F : Z -> list A) lo hi :
  zlength (flat_map F (zrange lo hi)) = zsum (fun i => zlength (F i)) lo hi.
Proof.
  destruct (Z.le_gt_cases lo hi) as [Hle|Hgt].
  - pattern hi. apply (Z_induction_from lo); [| |exact Hle].
    + rewrite zsum_empty, zrange_empty by lia. reflexivity.
    + intros x Hx IH. rewrite zrange_snoc, flat_map_app, zlength_app, zsum_snoc by lia.
      simpl. rewrite app_nil_r. lia.
  - rewrite zsum_empty, zrange_empty by lia. reflexivity.
Qed.

End Sums.

(** ** The Gustavson kernels touch at most one cell per operation *)

Section Gustavson.
Variables a b : Matrix.
Hypothesis valid_a : csr_invariants a.
Hypothesis valid_b : csr_invariants b.
Hypothesis inner : noCols a = noRows b.

Let G (p : Z) : Z := ops_upto a b p.

Lemma entry_row_length p :
  0 <= p < valuesSize a ->
  0 <= row_length b (col_at a p)
  /\ add64 (col_at a p) 1 = col_at a p + 1
  /\ row_length b (col_at a p) < modulus64.
Proof.
  intros Hp. pose proof (inv_columns a valid_a p Hp) as Hc. rewrite inner in Hc.
  pose proof (inv_rows b valid_b) as Hrows.
  pose proof (inv_monotone b valid_b (col_at a p) Hc) as Hmono.
  pose proof (rowptr_range b valid_b (col_at a p) ltac:(lia)) as H1.
  pose proof (rowptr_range b valid_b (col_at a p + 1) ltac:(lia)) as H2.
  pose proof (inv_valuesSize b valid_b) as Hsize.
  unfold row_length. split; [lia|]. split; [apply add64_small; lia|lia].
Qed.

Lemma ops_upto_snoc p : 0 <= p -> G (p + 1) = G p + row_length b (col_at a p).
Proof. intros Hp. unfold G, ops_upto. now rewrite zsum_snoc. Qed.

Lemma ops_upto_mono p q : 0 <= p <= q -> q <= valuesSize a -> G p <= G q.
Proof.
  intros Hpq Hq. unfold G, ops_upto. apply zsum_prefix_le; [exact Hpq|].
  intros i Hi. apply entry_row_length. lia.
Qed.

Lemma ops_upto_zero : G 0 = 0.
Proof. unfold G, ops_upto. now apply zsum_empty. Qed.

(** The operations of the rows before row [r]. *)
Let Gr (r : Z) : Z := G (rowptr_at a r).

Lemma row_ops_mono r s : 0 <= r <= s -> s <= noRows a -> Gr r <= Gr s.
Proof.
  intros Hrs Hs. unfold Gr. apply ops_upto_mono.
  - split; [apply (rowptr_range a valid_a); lia|].
    apply (rowptr_monotone a valid_a); lia.
  - apply (rowptr_range a valid_a). lia.
Qed.

Lemma row_ops_first : Gr 0 = 0.
Proof. unfold Gr. rewrite (inv_first a valid_a). apply ops_upto_zero. Qed.

Lemma row_ops_last : Gr (noRows a) = G (valuesSize a).
Proof. unfold Gr. now rewrite (inv_last a valid_a). Qed.

Lemma grown_entry rowA indexA res :
  0 <= indexA < valuesSize a ->
  grown (G (indexA + 1) - G indexA) res
        (scalar_row_B b rowA (val_at a indexA)
                      (rowptr_at b (col_at a indexA))
                      (rowptr_at b (add64 (col_at a indexA) 1)) res).
Proof.
  intros Hp. destruct (entry_row_length indexA Hp) as (Hlen & Hadd & _).
  rewrite ops_upto_snoc, Hadd by lia.
  replace (G indexA + row_length b (col_at a indexA) - G indexA)
    with (rowptr_at b (col_at a indexA + 1) - rowptr_at b (col_at a indexA))
    by (unfold row_length; lia).
  apply grown_scalar_row_B. unfold row_length in Hlen. lia.
Qed.

Lemma row_entry_range r p :
  0 <= r < noRows a -> rowptr_at a r <= p < rowptr_at a (r + 1) ->
  0 <= p < valuesSize a.
Proof.
  intros Hr Hp.
  pose proof (rowptr_range a valid_a r ltac:(lia)).
  pose proof (rowptr_range a valid_a (r + 1) ltac:(lia)). lia.
Qed.

Lemma grown_gustavson_row r res :
  0 <= r < noRows a ->
  grown (Gr (r + 1) - Gr r) res (gustavson_row a b r res).
Proof.
  intros Hr. unfold gustavson_row.
  match goal with
  | |- grown _ _ (set_rowPointers ?x _) =>
      assert (H : grown (Gr (r + 1) - Gr r) res x)
  end.
  { unfold Gr. apply (grown_for_lt G); [apply (inv_monotone a valid_a), Hr|].
    intros p res' Hp. apply grown_entry. now apply (row_entry_range r). }
  exact H.
Qed.

Lemma grown_rows s e res :
  0 <= s <= e -> e <= noRows a ->
  grown (Gr e - Gr s) res (for_lt s e (gustavson_row a b) res).
Proof.
  intros Hse He. apply (grown_for_lt Gr); [lia|].
  intros r res' Hr. apply grown_gustavson_row. lia.
Qed.

Lemma grown_multiply_V2 res :
  grown (G (valuesSize a)) res (multiply_V2 a b res).
Proof.
  unfold multiply_V2. rewrite <- row_ops_last.
  replace (Gr (noRows a)) with (Gr (noRows a) - Gr 0) by (rewrite row_ops_first; lia).
  match goal with
  | |- grown _ _ (for_lt _ _ _ ?x) =>
      apply (grown_trans 0 _ res x); [now apply grown_same_values|]
  end.
  apply grown_rows; [|lia]. pose proof (inv_rows a valid_a). lia.
Qed.

Lemma grown_worker arg res :
  0 <= start_row arg <= end_row arg -> end_row arg <= noRows a ->
  grown (Gr (end_row arg) - Gr (start_row arg)) res
        (multiply_main_implementation a b arg res).
Proof.
  intros Hse He. unfold multiply_main_implementation.
  match goal with
  | |- grown ?n _ (for_lt _ _ _ ?x) =>
      apply (grown_weaken (0 + n) n); [lia|];
      apply (grown_trans 0 _ res x); [now apply grown_same_values|]
  end.
  now apply grown_rows.
Qed.

(** *** The SIMD loop nests *)

Lemma scatter_lanes_spec rowA vals indexB res :
  fst (scatter_lanes b rowA vals indexB res) = indexB + zlength vals
  /\ grown (zlength vals) res (snd (scatter_lanes b rowA vals indexB res)).
Proof.
  revert indexB res. induction vals as [|v vals IH]; intros indexB res.
  - simpl. rewrite zlength_nil. split; [lia|apply grown_refl].
  - cbn [scatter_lanes]. rewrite zlength_cons.
    destruct (IH (indexB + 1)
                 (accumulate b res rowA (col_at b indexB) v)) as [Hi Hg].
    split; [lia|].
    replace (zlength vals + 1) with (1 + zlength vals) by lia.
    eapply grown_trans; [apply grown_accumulate|exact Hg].
Qed.

Lemma zlength_lanes lanes indexB valueA :
  zlength (mul_lanes (load_lanes b indexB lanes) valueA) = Z.of_nat lanes.
Proof.
  unfold mul_lanes, load_lanes, zlength. now rewrite !length_map, length_seq.
Qed.

Lemma simd_batches_spec fuel lanes rowA valueA indexB vtm res :
  Z.of_nat lanes <= vtm < modulus64 ->
  exists k, 0 <= k <= vtm
            /\ fst (simd_batches fuel lanes b rowA valueA indexB vtm res) = indexB + k
            /\ grown k res (snd (simd_batches fuel lanes b rowA valueA indexB vtm res)).
Proof.
  revert indexB vtm res. induction fuel as [|fuel IH]; intros indexB vtm res Hv.
  - exists 0. simpl. split; [lia|]. split; [lia|apply grown_refl].
  - cbn [simd_batches].
    pose proof (scatter_lanes_spec rowA (mul_lanes (load_lanes b indexB lanes) valueA)
                                   indexB res) as [Hi Hg].
    destruct (scatter_lanes b rowA _ indexB res) as [indexB' res'].
    simpl in Hi, Hg. rewrite zlength_lanes in Hi, Hg.
    rewrite sub64_small by lia.
    destruct (Z.leb_spec (Z.of_nat lanes) (vtm - Z.of_nat lanes)) as [Hmore|Hdone].
    + destruct (IH indexB' (vtm - Z.of_nat lanes) res' ltac:(lia))
        as (k & Hk & Hfst & Hsnd).
      exists (Z.of_nat lanes + k). split; [lia|]. split; [lia|].
      eapply grown_trans; [exact Hg|exact Hsnd].
    + exists (Z.of_nat lanes). simpl. split; [lia|]. split; [lia|exact Hg].
Qed.

Lemma grown_simd_entry lanes rowA indexA res :
  0 <= indexA < valuesSize a ->
  let rowBBeg := rowptr_at b (col_at a indexA) in
  let rowBEnd := rowptr_at b (add64 (col_at a indexA) 1) in
  let valuesToMultiply := sub64 rowBEnd rowBBeg in
  grown (G (indexA + 1) - G indexA) res
        (let '(indexB, res) :=
           if Z.of_nat lanes <=? valuesToMultiply
           then simd_batches (Z.to_nat valuesToMultiply) lanes b rowA
                             (val_at a indexA) rowBBeg valuesToMultiply res
           else (rowBBeg, res) in
         scalar_row_B b rowA (val_at a indexA) indexB rowBEnd res).
Proof.
  intros Hp. destruct (entry_row_length indexA Hp) as (Hlen & Hadd & Hfit).
  cbv zeta. rewrite ops_upto_snoc, Hadd by lia.
  unfold row_length in Hlen, Hfit.
  rewrite sub64_small by lia.
  set (lo := rowptr_at b (col_at a indexA)) in *.
  set (hi := rowptr_at b (col_at a indexA + 1)) in *.
  replace (G indexA + row_length b (col_at a indexA) - G indexA) with (hi - lo)
    by (unfold row_length; lia).
  destruct (Z.leb_spec (Z.of_nat lanes) (hi - lo)) as [Hbatch|Hscalar].
  - destruct (simd_batches_spec (Z.to_nat (hi - lo)) lanes rowA (val_at a indexA)
                                lo (hi - lo) res ltac:(lia))
      as (k & Hk & Hfst & Hsnd).
    destruct (simd_batches _ lanes b rowA _ lo (hi - lo) res) as [indexB res'].
    simpl in Hfst, Hsnd. subst indexB.
    replace (hi - lo) with (k + (hi - (lo + k))) by lia.
    eapply grown_trans; [exact Hsnd|]. apply grown_scalar_row_B. lia.
  - apply grown_scalar_row_B. lia.
Qed.

Lemma grown_simd_row lanes r res :
  0 <= r < noRows a ->
  grown (Gr (r + 1) - Gr r) res (simd_row lanes a b r res).
Proof.
  intros Hr. unfold simd_row.
  match goal with
  | |- grown _ _ (set_rowPointers ?x _) =>
      assert (H : grown (Gr (r + 1) - Gr r) res x)
  end.
  { unfold Gr. apply (grown_for_lt G); [apply (inv_monotone a valid_a), Hr|].
    intros p res' Hp. apply (grown_simd_entry lanes r p res').
    now apply (row_entry_range r). }
  exact H.
Qed.

Lemma grown_multiply_simd lanes res :
  grown (G (valuesSize a)) res (multiply_simd lanes a b res).
Proof.
  unfold multiply_simd. rewrite <- row_ops_last.
  replace (Gr (noRows a)) with (Gr (noRows a) - Gr 0) by (rewrite row_ops_first; lia).
  apply (grown_for_lt Gr); [apply (inv_rows a valid_a)|].
  intros r res' Hr. now apply grown_simd_row.
Qed.

End Gustavson.

(** ** The compactor never counts more than the nonzero cells *)

Lemma nnz_count_app l l' : nnz_count (l ++ l') = nnz_count l + nnz_count l'.
Proof. unfold nnz_count. now rewrite filter_app, zlength_app. Qed.

Lemma nnz_below_le l p : nnz_below l p <= nnz_count l.
Proof.
  unfold nnz_below. rewrite <- (firstn_skipn (Z.to_nat p) l) at 2.
  rewrite nnz_count_app. pose proof (nnz_count_nonneg (skipn (Z.to_nat p) l)). lia.
Qed.

Lemma nnz_below_bound l p : nnz_below l p <= Z.max 0 p.
Proof.
  unfold nnz_below.
  pose proof (nnz_count_le_length (firstn (Z.to_nat p) l)) as H.
  unfold zlength in H. rewrite length_firstn in H. lia.
Qed.

Lemma firstn_succ_nth {A} (l : list A) (n : nat) (d : A) :
  (n < length l)%nat -> firstn (S n) l = firstn n l ++ [nth n l d].
Proof.
  revert n. induction l as [|x l IH]; intros n H; simpl in H; [lia|].
  destruct n as [|n]; [reflexivity|].
  simpl. f_equal. apply IH. lia.
Qed.

Lemma nnz_below_succ l p :
  nnz_below l (p + 1)
  = nnz_below l p + (if F32.ne0 (aget l p F32.zero) then 1 else 0).
Proof.
  unfold nnz_below.
  destruct (Z.ltb_spec p 0) as [Hneg|Hpos].
  - rewrite aget_out_of_range by lia.
    replace (Z.to_nat (p + 1)) with O by lia.
    replace (Z.to_nat p) with O by lia. reflexivity.
  - destruct (Z.ltb_spec p (zlength l)) as [Hin|Hout].
    + rewrite aget_in_range by lia.
      replace (Z.to_nat (p + 1)) with (S (Z.to_nat p)) by lia.
      rewrite (firstn_succ_nth l (Z.to_nat p) F32.zero)
        by (unfold zlength in Hin; lia).
      rewrite nnz_count_app, nnz_count_cons.
      change (nnz_count []) with 0. lia.
    + rewrite aget_out_of_range by lia.
      rewrite (@firstn_all2 _ (Z.to_nat (p + 1)) l),
        (@firstn_all2 _ (Z.to_nat p) l) by (unfold zlength in Hout; lia).
      change (F32.ne0 F32.zero) with false. cbv iota. lia.
Qed.

Section CompactBound.
Variable m : Matrix.

(** Before the cell at [row_beg] is read: the cells from there on are
    still those of [m], and no more values have been kept than nonzero
    cells were passed. *)
Let scanned (st : Compaction) : Prop :=
  (forall k, row_beg st <= k ->
             aget (values (cm st)) k F32.zero = aget (values m) k F32.zero)
  /\ 0 <= non_zero_values st <= nnz_below (values m) (row_beg st).

Lemma scanned_step st : scanned st -> scanned (compact_step st).
Proof.
  intros [Hrest Hnz]. unfold compact_step.
  pose proof (nnz_below_succ (values m) (row_beg st)) as Hsucc.
  pose proof (nnz_below_bound (values m) (row_beg st)) as Hbound.
  unfold val_at at 1. rewrite (Hrest (row_beg st)) by lia.
  destruct (F32.ne0 (aget (values m) (row_beg st) F32.zero)) eqn:Hne.
  - assert (Hpos : 0 <= row_beg st).
    { destruct (Z.lt_ge_cases (row_beg st) 0) as [Hneg|]; [|assumption].
      rewrite aget_out_of_range in Hne by lia. discriminate. }
    split; simpl.
    + intros k Hk. rewrite aget_aset_other by lia. apply Hrest. lia.
    + lia.
  - split; simpl; [intros k Hk; apply Hrest; lia|lia].
Qed.

Lemma scanned_steps n i st :
  scanned st -> scanned (iter_up n i (fun _ => compact_step) st).
Proof.
  revert i st. induction n as [|n IH]; intros i st H; [exact H|].
  simpl. apply IH, scanned_step, H.
Qed.

Lemma scanned_row row st : scanned st -> scanned (compact_row row st).
Proof.
  intros H. unfold compact_row.
  set (st' := iter_up _ 0 (fun _ => compact_step) st).
  assert (H' : scanned st') by apply scanned_steps, H.
  destruct H' as [Hrest Hnz]. split; simpl; assumption.
Qed.

Lemma clean_up_matrix_arrays_bound :
  fst (fst (_clean_up_matrix_arrays m)) = 0
  /\ 0 <= snd (_clean_up_matrix_arrays m) <= nnz_count (values m).
Proof.
  unfold _clean_up_matrix_arrays. simpl. split; [reflexivity|].
  set (st0 := mkCompaction m 0 0 (rowptr_at m 0)).
  assert (H0 : scanned st0).
  { split; simpl; [reflexivity|]. split; [lia|apply nnz_count_nonneg]. }
  assert (H : scanned (for_lt 1 (rowPointersSize m) compact_row st0)).
  { destruct (Z.le_gt_cases 1 (rowPointersSize m)) as [Hle|Hgt].
    - apply (for_lt_invariant (fun _ st => scanned st)); [exact Hle|exact H0|].
      intros i st _ Hst. now apply scanned_row.
    - now rewrite for_lt_empty by lia. }
  destruct H as [_ Hnz].
  pose proof (nnz_below_le (values m)
                (row_beg (for_lt 1 (rowPointersSize m) compact_row st0))). lia.
Qed.

End CompactBound.

Lemma clean_up_csr_bound m w :
  fst (fst (clean_up_csr m w)) <> HEAP_MEMORY_ERROR ->
  valuesSize (snd (fst (clean_up_csr m w))) <= nnz_count (values m).
Proof.
  unfold clean_up_csr.
  pose proof (clean_up_matrix_arrays_bound m) as [Hrc Hnz].
  destruct (_clean_up_matrix_arrays m) as [[rc m'] nz]. simpl in Hrc, Hnz. subst rc.
  change (0 =? HEAP_MEMORY_ERROR) with false. cbv iota.
  unfold umull_overflow, bind, ret, realloc, heap_request.
  repeat match goal with
         | |- context [if ?c then _ else _] => destruct c; simpl
         end; intros H; try (exfalso; apply H; reflexivity); lia.
Qed.

Lemma finish_with_clean_up_bound res w :
  errno (snd (finish_with_clean_up res w)) = 0 ->
  h_valuesSize (fst (finish_with_clean_up res w)) <= nnz_count (values res).
Proof.
  unfold finish_with_clean_up, bind.
  pose proof (clean_up_csr_bound res w) as H.
  destruct (clean_up_csr res w) as [[rc res'] w']. simpl in H.
  destruct (Z.eqb_spec rc HEAP_MEMORY_ERROR) as [->|Hne]; simpl.
  - discriminate.
  - intros _. apply H, Hne.
Qed.

(** ** The workers of the multithreaded implementation *)

Lemma aget_map_zrange {A} (f : Z -> A) lo hi i d :
  0 <= i < hi - lo -> aget (map f (zrange lo hi)) i d = f (lo + i).
Proof.
  intros Hi. unfold zrange. rewrite map_map.
  rewrite aget_in_range
    by (unfold zlength; rewrite length_map, length_seq; lia).
  rewrite (nth_indep _ d (f (lo + Z.of_nat 0)))
    by (rewrite length_map, length_seq; lia).
  rewrite (map_nth (fun k => f (lo + Z.of_nat k))), seq_nth by lia.
  f_equal. lia.
Qed.

Lemma make_arguments_map rowCount thread_count :
  1 <= rowCount < modulus64 -> 1 <= thread_count < modulus32 ->
  make_arguments rowCount thread_count
  = map (fun k => mkArg (row_boundary rowCount thread_count k)
                        (row_boundary rowCount thread_count (k + 1)))
        (zrange 0 thread_count).
Proof.
  intros Hrows Hthreads.
  destruct (make_arguments_spec rowCount thread_count Hrows Hthreads) as [Hlen Hargs].
  apply aget_ext with (d := mkArg 0 0).
  - rewrite Hlen. unfold zlength. rewrite length_map.
    fold (zlength (zrange 0 thread_count)). rewrite zlength_zrange; lia.
  - intros i Hi. rewrite Hlen in Hi. fold (arg_at (make_arguments rowCount thread_count) i).
    rewrite Hargs by exact Hi. rewrite aget_map_zrange by lia. reflexivity.
Qed.

Section Workers.
Variables a b : Matrix.
Hypothesis valid_a : csr_invariants a.
Hypothesis valid_b : csr_invariants b.
Hypothesis inner : noCols a = noRows b.

Let Gr (r : Z) : Z := ops_upto a b (rowptr_at a r).

(** Workers [k0 .. tc - 1], worker [k] owning the rows between the
    boundaries [bd k] and [bd (k + 1)]. *)
Lemma grown_spawn_workers (bd : Z -> Z) (tc : Z) n k0 res w :
  k0 + Z.of_nat n = tc -> 0 <= k0 ->
  (forall k, k0 <= k <= tc -> 0 <= bd k <= noRows a) ->
  (forall k, k0 <= k < tc -> bd k <= bd (k + 1)) ->
  grown (Gr (bd tc) - Gr (bd k0)) res
        (snd (fst (spawn_workers a b
                     (map (fun k => mkArg (bd k) (bd (k + 1))) (zrange k0 tc))
                     res w))).
Proof.
  revert k0 res w. induction n as [|n IH]; intros k0 res w Hn Hk0 Hrange Hmono.
  - rewrite zrange_empty by lia. simpl. replace k0 with tc by lia.
    rewrite Z.sub_diag. apply grown_refl.
  - rewrite zrange_first by lia. cbn [map spawn_workers]. unfold bind.
    destruct (pthread_create w) as [ok w'].
    assert (Hstep : Gr (bd k0) <= Gr (bd (k0 + 1))).
    { apply (row_ops_mono a b valid_a valid_b inner).
      - pose proof (Hrange k0 ltac:(lia)). pose proof (Hmono k0 ltac:(lia)). lia.
      - apply Hrange. lia. }
    assert (Hrest : Gr (bd (k0 + 1)) <= Gr (bd tc)).
    { assert (Hbd : forall j, (k0 + 1) <= j -> j <= tc -> bd (k0 + 1) <= bd j).
      { intros j Hj. pattern j. apply (Z_induction_from (k0 + 1)); [| |exact Hj].
        - lia.
        - intros x Hx IHx Hle. specialize (Hmono x ltac:(lia)). lia. }
      apply (row_ops_mono a b valid_a valid_b inner).
      - pose proof (Hrange (k0 + 1) ltac:(lia)). specialize (Hbd tc ltac:(lia)). lia.
      - apply Hrange. lia. }
    destruct ok.
    + replace (Gr (bd tc) - Gr (bd k0))
        with ((Gr (bd (k0 + 1)) - Gr (bd k0)) + (Gr (bd tc) - Gr (bd (k0 + 1))))
        by lia.
      eapply grown_trans.
      * apply (grown_worker a b valid_a valid_b inner (mkArg (bd k0) (bd (k0 + 1)))).
        -- simpl. pose proof (Hrange k0 ltac:(lia)).
           pose proof (Hmono k0 ltac:(lia)). lia.
        -- simpl. apply Hrange. lia.
      * apply IH; [lia|lia| |].
        -- intros k Hk. apply Hrange. lia.
        -- intros k Hk. apply Hmono. lia.
    + simpl. apply (grown_weaken 0); [lia|apply grown_refl].
Qed.

Lemma grown_start_threads thread_count res w :
  1 <= noRows a -> 0 <= thread_count < modulus32 ->
  grown (ops_upto a b (valuesSize a)) res
        (snd (fst (start_threads thread_count a b res w))).
Proof.
  intros Hrows Htc.
  assert (Hops : 0 <= ops_upto a b (valuesSize a)).
  { rewrite <- (ops_upto_zero a b).
    apply (ops_upto_mono a b valid_a valid_b inner).
    - pose proof (rowptr_range a valid_a (noRows a) ltac:(lia)) as H.
      rewrite (inv_last a valid_a) in H. lia.
    - lia. }
  assert (Hsame : grown (ops_upto a b (valuesSize a)) res res)
    by (apply (grown_weaken 0); [exact Hops|apply grown_refl]).
  unfold start_threads.
  destruct (Z.eqb_spec thread_count 0) as [->|Hnz]; [exact Hsame|].
  unfold bind.
  destruct (malloc (sizeof_ptr * thread_count) w) as [[|] w1]; cbn [negb];
    [|exact Hsame].
  destruct (malloc_each (Z.to_nat thread_count) sizeof_MultiplyArg w1)
    as [[|] w2]; cbn [negb]; [|exact Hsame].
  destruct (malloc (sizeof_pthread_t * thread_count) w2) as [[|] w3]; cbn [negb];
    [|exact Hsame].
  pose proof (inv_rows a valid_a) as Hr.
  rewrite make_arguments_map by lia.
  pose proof (grown_spawn_workers
                (row_boundary (noRows a) thread_count) thread_count
                (Z.to_nat thread_count) 0 res w3 ltac:(lia) ltac:(lia)) as H.
  rewrite (boundary_zero (noRows a) thread_count) in H by lia.
  rewrite (boundary_last (noRows a) thread_count) in H by lia.
  unfold Gr in H. rewrite (inv_first a valid_a), (inv_last a valid_a) in H.
  rewrite (ops_upto_zero a b), Z.sub_0_r in H.
  apply H.
  - intros k Hk. apply (boundary_range (noRows a) thread_count); lia.
  - intros k Hk. apply (boundary_mono (noRows a) thread_count); lia.
Qed.

End Workers.

(** ** The size-predicted kernel writes inside its buffer *)

Lemma for_lt_preserves {S} (P : S -> Prop) lo hi body s :
  P s -> (forall i s, lo <= i < hi -> P s -> P (body i s)) ->
  P (for_lt lo hi body s).
Proof.
  intros H0 Hstep. destruct (Z.le_gt_cases lo hi) as [Hle|Hgt].
  - apply (for_lt_invariant (fun _ s => P s)); assumption.
  - rewrite for_lt_empty by lia. exact H0.
Qed.

Lemma place_V5_length n i columnB valueC res e :
  zlength (values (fst (place_V5 n i columnB valueC res e))) = zlength (values res).
Proof.
  revert i. induction n as [|n IH]; intros i; cbn [place_V5]; [reflexivity|].
  destruct (F32.eq0 (val_at res i)).
  - cbn. apply zlength_aset.
  - destruct (col_at res i =? columnB).
    + cbn. apply zlength_aset.
    + apply IH.
Qed.

Lemma row_V5_length a b rowA st :
  zlength (values (fst (fst (row_V5 a b rowA st)))) = zlength (values (fst (fst st))).
Proof.
  destruct st as [[res beg] e]. unfold row_V5.
  set (inner := for_lt _ _ _ _).
  assert (H : zlength (values (fst inner)) = zlength (values res)).
  { subst inner.
    apply (for_lt_preserves
             (fun st => zlength (values (fst st)) = zlength (values res)));
      [reflexivity|].
    intros p st Hp Hst.
    apply (for_lt_preserves
             (fun st => zlength (values (fst st)) = zlength (values res)));
      [exact Hst|].
    intros q [r e'] Hq Hr. rewrite place_V5_length. exact Hr. }
  destruct inner as [r e']. cbn in *. exact H.
Qed.

Lemma multiply_V5_length a b res :
  zlength (values (multiply_V5 a b res)) = zlength (values res).
Proof.
  unfold multiply_V5.
  apply (for_lt_preserves
           (fun st => zlength (values (fst (fst st))) = zlength (values res)));
    [reflexivity|].
  intros i st Hi Hst. rewrite row_V5_length. exact Hst.
Qed.

(** ** The size prediction *)

Lemma count_prefix_snoc (a : Matrix) c p :
  0 <= p ->
  zlength (filter (fun q => col_at a q =? c) (zrange 0 (p + 1)))
  = zlength (filter (fun q => col_at a q =? c) (zrange 0 p))
    + (if col_at a p =? c then 1 else 0).
Proof.
  intros Hp. rewrite zrange_snoc by lia. rewrite filter_app, zlength_app.
  cbn [filter]. destruct (col_at a p =? c); reflexivity.
Qed.

Lemma count_prefix_range (a : Matrix) c p :
  0 <= p -> 0 <= zlength (filter (fun q => col_at a q =? c) (zrange 0 p)) <= p.
Proof.
  intros Hp. split; [apply zlength_nonneg|].
  pose proof (filter_length_le (fun q => col_at a q =? c) (zrange 0 p)) as H.
  pose proof (zlength_zrange 0 p Hp) as L. unfold zlength in *. lia.
Qed.

Section Prediction.
Variables a b : Matrix.
Hypothesis valid_a : csr_invariants a.
Hypothesis valid_b : csr_invariants b.
Hypothesis inner : noCols a = noRows b.

Lemma row_length_range c :
  0 <= c < noRows b -> 0 <= row_length b c <= valuesSize b.
Proof.
  intros Hc. unfold row_length.
  pose proof (rowptr_monotone b valid_b c (c + 1) ltac:(lia) ltac:(lia)).
  pose proof (rowptr_range b valid_b c ltac:(lia)).
  pose proof (rowptr_range b valid_b (c + 1) ltac:(lia)).
  lia.
Qed.

(** The first loop: [numValuesInRowB]. *)
Lemma predict_rows_loop :
  let rowsB :=
    for_lt 0 (noRows b)
      (fun rowB rows =>
         aset rows rowB (sub64 (rowptr_at b (rowB + 1)) (rowptr_at b rowB)))
      (repeat 0 (Z.to_nat (noRows b))) in
  forall c, 0 <= c < noRows b -> aget rowsB c 0 = row_length b c.
Proof.
  pose proof (inv_rows b valid_b) as Hrows.
  pose proof (inv_valuesSize b valid_b) as Hsize.
  cbv zeta.
  assert (H : zlength
                (for_lt 0 (noRows b)
                   (fun rowB rows =>
                      aset rows rowB (sub64 (rowptr_at b (rowB + 1)) (rowptr_at b rowB)))
                   (repeat 0 (Z.to_nat (noRows b)))) = noRows b
              /\ forall c, 0 <= c < noRows b ->
                   aget (for_lt 0 (noRows b)
                           (fun rowB rows =>
                              aset rows rowB
                                   (sub64 (rowptr_at b (rowB + 1)) (rowptr_at b rowB)))
                           (repeat 0 (Z.to_nat (noRows b)))) c 0 = row_length b c).
  { apply (for_lt_invariant
             (fun i rows => zlength rows = noRows b
                            /\ forall c, 0 <= c < i -> aget rows c 0 = row_length b c)).
    - lia.
    - split; [rewrite zlength_repeat; lia|]. intros c Hc. lia.
    - intros i rows Hi [Hlen Hget]. split; [rewrite zlength_aset; exact Hlen|].
      intros c Hc. destruct (Z.eq_dec c i) as [->|Hne].
      + rewrite aget_aset_same by lia.
        pose proof (row_length_range i ltac:(lia)) as R. unfold row_length in R.
        apply sub64_small. lia.
      + rewrite aget_aset_other by lia. apply Hget. lia. }
  exact (proj2 H).
Qed.

(** The second loop: [numValuesInColsA]. *)
Lemma predict_cols_loop :
  let colsA :=
    for_lt 0 (valuesSize a)
      (fun valuesIndex cnt =>
         let column := col_at a valuesIndex in
         aset cnt column (add64 (aget cnt column 0) 1))
      (repeat 0 (Z.to_nat (noCols a))) in
  forall c, 0 <= c < noCols a -> aget colsA c 0 = count_in_column a c.
Proof.
  pose proof (inv_cols a valid_a) as Hcols.
  pose proof (inv_valuesSize a valid_a) as Hsize.
  pose proof (zlength_nonneg (values a)) as Hnonneg.
  rewrite (inv_values_length a valid_a) in Hnonneg.
  cbv zeta.
  assert (H : zlength
                (for_lt 0 (valuesSize a)
                   (fun valuesIndex cnt =>
                      aset cnt (col_at a valuesIndex)
                           (add64 (aget cnt (col_at a valuesIndex) 0) 1))
                   (repeat 0 (Z.to_nat (noCols a)))) = noCols a
              /\ forall c, 0 <= c < noCols a ->
                   aget (for_lt 0 (valuesSize a)
                           (fun valuesIndex cnt =>
                              aset cnt (col_at a valuesIndex)
                                   (add64 (aget cnt (col_at a valuesIndex) 0) 1))
                           (repeat 0 (Z.to_nat (noCols a)))) c 0
                   = count_in_column a c).
  { unfold count_in_column.
    apply (for_lt_invariant
             (fun p cnt =>
                zlength cnt = noCols a
                /\ forall c, 0 <= c < noCols a ->
                     aget cnt c 0
                     = zlength (filter (fun q => col_at a q =? c) (zrange 0 p)))).
    - lia.
    - split; [rewrite zlength_repeat; lia|]. intros c Hc.
      rewrite zrange_empty by lia. apply aget_repeat.
    - intros p cnt Hp [Hlen Hget]. split; [rewrite zlength_aset; exact Hlen|].
      intros c Hc. rewrite count_prefix_snoc by lia.
      pose proof (inv_columns a valid_a p Hp) as Hcol.
      destruct (Z.eqb_spec (col_at a p) c) as [E|Hne].
      + rewrite E. rewrite aget_aset_same by lia. rewrite Hget by lia.
        pose proof (count_prefix_range a c p ltac:(lia)).
        apply add64_small. lia.
      + rewrite aget_aset_other by lia. rewrite Hget by lia. lia. }
  exact (proj2 H).
Qed.

Lemma count_in_column_range c : 0 <= count_in_column a c <= valuesSize a.
Proof.
  pose proof (zlength_nonneg (values a)) as Hnonneg.
  rewrite (inv_values_length a valid_a) in Hnonneg.
  apply count_prefix_range. exact Hnonneg.
Qed.

(** The clamped sum, when neither the sum nor the size of a full result
    exceeds the range of [uint64_t]. *)
Lemma predict_count_spec :
  noRows a * noCols b < modulus64 -> column_row_sum a b < modulus64 ->
  predict_count a b = predicted_size a b.
Proof.
  intros Hfull Hsum.
  pose proof (inv_rows a valid_a) as Hrows.
  pose proof (inv_cols a valid_a) as Hcols.
  pose proof (inv_cols b valid_b) as HcolsB.
  assert (Hterm : forall c, 0 <= c < noCols a ->
                            0 <= count_in_column a c * row_length b c).
  { intros c Hc. pose proof (count_in_column_range c).
    pose proof (row_length_range c ltac:(lia)). nia. }
  unfold predict_count. cbv zeta.
  rewrite mul64_small by nia.
  assert (E : for_lt 0 (noCols a)
                (fun index acc =>
                   add64 acc
                     (mul64
                        (aget
                           (for_lt 0 (noRows b)
                              (fun rowB rows =>
                                 aset rows rowB
                                      (sub64 (rowptr_at b (rowB + 1)) (rowptr_at b rowB)))
                              (repeat 0 (Z.to_nat (noRows b)))) index 0)
                        (aget
                           (for_lt 0 (valuesSize a)
                              (fun valuesIndex cnt =>
                                 aset cnt (col_at a valuesIndex)
                                      (add64 (aget cnt (col_at a valuesIndex) 0) 1))
                              (repeat 0 (Z.to_nat (noCols a)))) index 0)))
                0
              = column_row_sum a b).
  { unfold column_row_sum.
    apply (for_lt_invariant
             (fun i acc =>
                acc = zsum (fun c => count_in_column a c * row_length b c) 0 i)).
    - lia.
    - rewrite zsum_empty by lia. reflexivity.
    - intros i acc Hi ->.
      pose proof (predict_rows_loop i ltac:(lia)) as HR. cbv zeta in HR.
      pose proof (predict_cols_loop i Hi) as HC. cbv zeta in HC.
      rewrite HR, HC. rewrite zsum_snoc by lia.
      pose proof (Hterm i Hi) as Ht.
      pose proof (zsum_nonneg (fun c => count_in_column a c * row_length b c) 0 i
                    ltac:(intros c Hc; apply Hterm; lia)) as Hpre.
      pose proof (zsum_prefix_le (fun c => count_in_column a c * row_length b c)
                    0 (i + 1) (noCols a) ltac:(lia) Hterm) as Hle.
      rewrite zsum_snoc in Hle by lia. unfold column_row_sum in Hsum.
      rewrite mul64_small by lia. rewrite add64_small by lia. lia. }
  rewrite E. unfold predicted_size.
  destruct (Z.ltb_spec (noRows a * noCols b) (column_row_sum a b)); lia.
Qed.

(** The sum over the columns counts the scalar multiplications of
    Gustavson's algorithm. *)
Lemma column_row_sum_ops : column_row_sum a b = ops_upto a b (valuesSize a).
Proof.
  pose proof (inv_cols a valid_a) as Hcols.
  pose proof (zlength_nonneg (values a)) as Hnonneg.
  rewrite (inv_values_length a valid_a) in Hnonneg.
  unfold column_row_sum, count_in_column.
  assert (H : forall p, 0 <= p -> p <= valuesSize a ->
                zsum (fun c => zlength (filter (fun q => col_at a q =? c) (zrange 0 p))
                               * row_length b c) 0 (noCols a)
                = ops_upto a b p).
  { intros p Hp. pattern p. apply (Z_induction_from 0); [| |exact Hp].
    - intros _. rewrite (ops_upto_zero a b).
      rewrite (zsum_ext _ (fun _ => 0)); [apply zsum_zero|].
      intros c Hc. rewrite zrange_empty by lia. reflexivity.
    - intros x Hx IH Hle.
      rewrite (ops_upto_snoc a b x Hx). rewrite <- IH by lia.
      rewrite (zsum_ext _
                 (fun c => zlength (filter (fun q => col_at a q =? c) (zrange 0 x))
                           * row_length b c
                           + (if c =? col_at a x then row_length b c else 0))).
      + rewrite zsum_add. f_equal.
        apply (zsum_single (row_length b)).
        apply (inv_columns a valid_a). lia.
      + intros c Hc. rewrite count_prefix_snoc by lia.
        rewrite (Z.eqb_sym (col_at a x) c). destruct (c =? col_at a x); lia. }
  apply H; lia.
Qed.

Lemma predict_count_le_full :
  noRows a * noCols b < modulus64 -> predict_count a b <= noRows a * noCols b.
Proof.
  intros Hfull.
  pose proof (inv_rows a valid_a) as Hrows.
  pose proof (inv_cols b valid_b) as HcolsB.
  unfold predict_count. cbv zeta. rewrite mul64_small by nia.
  match goal with |- (if ?c then _ else _) <= _ => destruct (Z.ltb_spec0 _ _ : reflect _ c) end;
    lia.
Qed.

End Prediction.

(** ** The dense product has no more nonzero cells than Gustavson's
       algorithm has multiplications *)

Lemma aget_nil {A} (j : Z) (d : A) : aget [] j d = d.
Proof.
  unfold aget. destruct ((0 <=? j) && (j <? zlength [])); [|reflexivity].
  destruct (Z.to_nat j); reflexivity.
Qed.

Lemma dget_dense_zero rows cols i j : dget (dense_zero rows cols) i j = F32.zero.
Proof.
  unfold dget, dense_zero.
  destruct (Z_lt_dec i 0) as [Hneg|Hpos].
  - rewrite (aget_out_of_range _ i []) by lia. apply aget_nil.
  - destruct (Z_lt_dec i (Z.of_nat (Z.to_nat rows))) as [Hin|Hout].
    + rewrite aget_repeat_in_range by lia. apply aget_repeat.
    + rewrite (aget_out_of_range _ i []) by (rewrite zlength_repeat; lia).
      apply aget_nil.
Qed.

(** A cell read after a write is the written value, at the written
    place, or the cell as it was. *)
Lemma dget_dset_cases d i j v i' j' :
  (i' = i /\ j' = j /\ dget (dset d i j v) i' j' = v)
  \/ dget (dset d i j v) i' j' = dget d i' j'.
Proof.
  unfold dget, dset.
  destruct (Z.eq_dec i' i) as [->|Hi].
  - destruct (Z_lt_dec i 0) as [Hneg|Hpos].
    { right. rewrite aset_out_of_range by lia. reflexivity. }
    destruct (Z_lt_dec i (zlength d)) as [Hin|Hout].
    2:{ right. rewrite aset_out_of_range by lia. reflexivity. }
    rewrite aget_aset_same by lia.
    destruct (Z.eq_dec j' j) as [->|Hj].
    + destruct (Z_lt_dec j 0) as [Hneg'|Hpos'].
      { right. rewrite aset_out_of_range by lia. reflexivity. }
      destruct (Z_lt_dec j (zlength (aget d i []))) as [Hin'|Hout'].
      2:{ right. rewrite aset_out_of_range by lia. reflexivity. }
      left. rewrite aget_aset_same by lia. auto.
    + right. rewrite aget_aset_other by lia. reflexivity.
  - right. rewrite aget_aset_other by lia. reflexivity.
Qed.

Lemma F32_ne0_eq0 x : F32.ne0 x = true <-> F32.eq0 x = false.
Proof. unfold F32.ne0. destruct (F32.eq0 x); simpl; split; congruence. Qed.

(** A sum that is not zero has a summand that is not zero; a product of
    finite factors that is not zero has two factors that are not zero. *)
Lemma F32_add_ne0 x y :
  F32.ne0 (F32.add x y) = true -> F32.ne0 x = true \/ F32.ne0 y = true.
Proof.
  intros H. unfold F32.ne0 in *.
  destruct (F32.eq0 x) eqn:Ex; [|left; reflexivity].
  destruct (F32.eq0 y) eqn:Ey; [|right; reflexivity].
  rewrite (F32_add_zero x y Ex Ey) in H. discriminate H.
Qed.

Lemma F32_mul_ne0 x y :
  F32.finite x = true -> F32.finite y = true ->
  F32.ne0 (F32.mul x y) = true -> F32.ne0 x = true /\ F32.ne0 y = true.
Proof.
  intros Fx Fy H. unfold F32.ne0 in *.
  destruct (F32.eq0 x) eqn:Ex.
  { rewrite (F32_mul_zero_l x y Ex Fy) in H. discriminate H. }
  destruct (F32.eq0 y) eqn:Ey.
  { rewrite (F32_mul_zero_r x y Fx Ey) in H. discriminate H. }
  auto.
Qed.

Section DenseProduct.
Variables a b : Matrix.
Variables ord_a ord_b : dense.
Hypothesis finite_a : forall i k, F32.finite (dget ord_a i k) = true.
Hypothesis finite_b : forall k j, F32.finite (dget ord_b k j) = true.

(** A cell of the result is zero unless some product contributes. *)
Let supported (r : dense) : Prop :=
  forall i j, F32.ne0 (dget r i j) = true ->
              exists k, 0 <= k < noCols a
                        /\ F32.ne0 (dget ord_a i k) = true
                        /\ F32.ne0 (dget ord_b k j) = true.

Lemma dense_multiply_supported rows cols i j :
  F32.ne0 (dget (dense_multiply a b ord_a ord_b (dense_zero rows cols)) i j) = true ->
  exists k, 0 <= k < noCols a
            /\ F32.ne0 (dget ord_a i k) = true
            /\ F32.ne0 (dget ord_b k j) = true.
Proof.
  revert i j. change (supported (dense_multiply a b ord_a ord_b (dense_zero rows cols))).
  unfold dense_multiply.
  apply (for_lt_preserves supported).
  { intros i j H. rewrite dget_dense_zero in H. discriminate H. }
  intros i r _ Hr. apply (for_lt_preserves supported); [exact Hr|].
  clear r Hr. intros j r _ Hr. apply (for_lt_preserves supported); [exact Hr|].
  clear r Hr. intros k r Hk Hr i' j' H.
  destruct (dget_dset_cases r i j
              (F32.add (dget r i j) (F32.mul (dget ord_a i k) (dget ord_b k j)))
              i' j') as [(-> & -> & E)|E]; rewrite E in H.
  - destruct (F32_add_ne0 _ _ H) as [Hold|Hnew].
    + apply Hr. exact Hold.
    + exists k. split; [exact Hk|].
      apply F32_mul_ne0; [apply finite_a|apply finite_b|exact Hnew].
  - apply Hr. exact H.
Qed.

End DenseProduct.

Lemma scatter_row_cell (P : float -> Prop) es row j :
  P (aget row j F32.zero) -> (forall e, In e es -> P (snd e)) ->
  P (aget (scatter_row es row) j F32.zero).
Proof.
  revert row. induction es as [|e es IH]; intros row Hrow Hes; [exact Hrow|].
  change (scatter_row (e :: es) row)
    with (scatter_row es (aset row (fst e) (snd e))).
  apply IH; [|intros e' He'; apply Hes; right; exact He'].
  destruct (Z.eq_dec (fst e) j) as [E|Hne].
  - destruct (Z_lt_dec j 0) as [Hneg|Hpos].
    { rewrite aset_out_of_range by lia. exact Hrow. }
    destruct (Z_lt_dec j (zlength row)) as [Hin|Hout].
    2:{ rewrite aset_out_of_range by lia. exact Hrow. }
    rewrite E, aget_aset_same by lia. apply Hes. left. reflexivity.
  - rewrite aget_aset_other by exact Hne. exact Hrow.
Qed.

Section DenseOfCsr.
Variable m : Matrix.
Hypothesis valid : csr_invariants m.

Lemma dget_outside_rows i k :
  i < 0 \/ noRows m <= i -> dget (dense_of_csr m) i k = F32.zero.
Proof.
  intros Hi. pose proof (inv_rows m valid) as Hrows.
  destruct (dense_of_csr_spec m ltac:(lia)) as [Hlen _].
  unfold dget. rewrite (aget_out_of_range _ i []) by lia. apply aget_nil.
Qed.

Lemma dense_of_csr_finite :
  finite_values m -> forall i k, F32.finite (dget (dense_of_csr m) i k) = true.
Proof.
  intros Hfin i k. pose proof (inv_rows m valid) as Hrows.
  destruct (Z_lt_dec i 0) as [Hneg|Hpos].
  { rewrite dget_outside_rows by lia. reflexivity. }
  destruct (Z_lt_dec i (noRows m)) as [Hin|Hout].
  2:{ rewrite dget_outside_rows by lia. reflexivity. }
  destruct (dense_of_csr_spec m ltac:(lia)) as [_ Hrow].
  unfold dget. rewrite Hrow by lia.
  apply (scatter_row_cell (fun v => F32.finite v = true)).
  - rewrite aget_repeat. reflexivity.
  - intros e He. unfold row_entries in He. apply in_map_iff in He.
    destruct He as (p & <- & Hp). apply in_zrange in Hp. cbn [snd].
    pose proof (row_entry_range m valid i p ltac:(lia) Hp) as Hrange.
    unfold val_at.
    apply (proj1 (forallb_aget F32.finite (values m) F32.zero) Hfin).
    rewrite (inv_values_length m valid). exact Hrange.
Qed.

Lemma dense_of_csr_support i k :
  F32.ne0 (dget (dense_of_csr m) i k) = true ->
  0 <= i < noRows m
  /\ exists p, rowptr_at m i <= p < rowptr_at m (i + 1) /\ col_at m p = k.
Proof.
  intros H. pose proof (inv_rows m valid) as Hrows.
  destruct (Z_lt_dec i 0) as [Hneg|Hpos].
  { rewrite dget_outside_rows in H by lia. discriminate H. }
  destruct (Z_lt_dec i (noRows m)) as [Hin|Hout].
  2:{ rewrite dget_outside_rows in H by lia. discriminate H. }
  split; [lia|].
  destruct (dense_of_csr_spec m ltac:(lia)) as [_ Hrow].
  unfold dget in H. rewrite Hrow in H by lia.
  apply scatter_row_nonzero in H. apply in_map_iff in H.
  destruct H as (e & <- & He). unfold row_entries in He. apply in_map_iff in He.
  destruct He as (p & <- & Hp). apply in_zrange in Hp.
  exists p. split; [exact Hp|reflexivity].
Qed.

End DenseOfCsr.

Lemma zlength_map {A B} (f : A -> B) (l : list A) : zlength (map f l) = zlength l.
Proof. unfold zlength. now rewrite length_map. Qed.

Section DenseCount.
Variables a b : Matrix.
Hypothesis valid_a : csr_invariants a.
Hypothesis valid_b : csr_invariants b.
Hypothesis inner : noCols a = noRows b.
Hypothesis finite_a : finite_values a.
Hypothesis finite_b : finite_values b.

Let product : dense :=
  dense_multiply a b (dense_of_csr a) (dense_of_csr b)
                 (dense_zero (noRows a) (noCols b)).

(** The output columns reached from row [r] of the left factor, one for
    each multiplication of Gustavson's algorithm in that row. *)
Let reached (r : Z) : list Z :=
  flat_map (fun p => map (col_at b)
                         (zrange (rowptr_at b (col_at a p))
                                 (rowptr_at b (col_at a p + 1))))
           (zrange (rowptr_at a r) (rowptr_at a (r + 1))).

Lemma zlength_reached r :
  0 <= r < noRows a ->
  zlength (reached r)
  = ops_upto a b (rowptr_at a (r + 1)) - ops_upto a b (rowptr_at a r).
Proof.
  intros Hr. unfold reached. rewrite zlength_flat_map_zrange.
  pose proof (rowptr_range a valid_a r ltac:(lia)) as Hlo.
  pose proof (rowptr_range a valid_a (r + 1) ltac:(lia)) as Hhi.
  pose proof (inv_monotone a valid_a r Hr) as Hmono.
  unfold ops_upto.
  rewrite (zsum_split (fun q => row_length b (col_at a q)) 0
             (rowptr_at a r) (rowptr_at a (r + 1))) by lia.
  rewrite (zsum_ext _ (fun q => row_length b (col_at a q))); [lia|].
  intros p Hp. rewrite zlength_map.
  pose proof (entry_row_length a b valid_a valid_b inner p ltac:(lia)) as [Hlen _].
  unfold row_length in *. apply zlength_zrange. lia.
Qed.

Lemma product_row_reached r j v :
  In (j, v) (nz_cells (aget product r []) (noCols b)) -> In j (reached r).
Proof.
  intros H. apply in_nz_cells in H. destruct H as (Hj & -> & Hne).
  change (F32.ne0 (dget product r j) = true) in Hne.
  apply (dense_multiply_supported a b (dense_of_csr a) (dense_of_csr b)
           (dense_of_csr_finite a valid_a finite_a)
           (dense_of_csr_finite b valid_b finite_b)) in Hne.
  destruct Hne as (k & Hk & Ha & Hb).
  apply (dense_of_csr_support a valid_a) in Ha. destruct Ha as (Hr & p & Hp & Ep).
  apply (dense_of_csr_support b valid_b) in Hb. destruct Hb as (_ & q & Hq & Eq).
  unfold reached. apply in_flat_map. exists p. split; [apply in_zrange; exact Hp|].
  apply in_map_iff. exists q. split; [exact Eq|]. apply in_zrange.
  rewrite Ep. exact Hq.
Qed.

Lemma product_row_bound r :
  0 <= r < noRows a ->
  zlength (nz_cells (aget product r []) (noCols b))
  <= ops_upto a b (rowptr_at a (r + 1)) - ops_upto a b (rowptr_at a r).
Proof.
  intros Hr. rewrite <- (zlength_reached r Hr).
  rewrite <- (zlength_map fst (nz_cells (aget product r []) (noCols b))).
  unfold zlength. apply inj_le. apply NoDup_incl_length.
  - apply NoDup_nz_cells_columns.
  - intros j Hj. apply in_map_iff in Hj. destruct Hj as ([j' v] & <- & Hin).
    exact (product_row_reached r j' v Hin).
Qed.

Lemma product_rows_bound n :
  0 <= n -> n <= noRows a ->
  zlength (nz_upto (noCols b) product n) <= ops_upto a b (rowptr_at a n).
Proof.
  intros Hn. pattern n. apply (Z_induction_from 0); [| |exact Hn].
  - intros _. unfold nz_upto. rewrite zrange_empty by lia. cbn [flat_map].
    rewrite zlength_nil, (inv_first a valid_a), (ops_upto_zero a b). lia.
  - intros x Hx IH Hle. rewrite nz_upto_snoc by lia. rewrite zlength_app.
    pose proof (product_row_bound x ltac:(lia)). specialize (IH ltac:(lia)). lia.
Qed.

(** The number of stored values of the CSR matrix that V1 builds from
    its dense product. *)
Lemma dense_product_size :
  noRows a * noCols b < modulus64 ->
  valuesSize (csr_of_dense (noRows a) (noCols b) product)
  <= Z.min (column_row_sum a b) (noRows a * noCols b).
Proof.
  intros Hfull.
  pose proof (inv_rows a valid_a) as Hrows.
  pose proof (inv_cols b valid_b) as Hcols.
  pose proof (zlength_nz_upto_le (noCols b) product ltac:(lia) (noRows a) ltac:(lia))
    as Hcells.
  pose proof (csr_of_dense_spec (noRows a) (noCols b) product Hrows ltac:(lia)
                ltac:(lia)) as Hspec.
  cbv zeta in Hspec. destruct Hspec as (_ & _ & _ & _ & Hsize & _).
  rewrite Hsize.
  pose proof (product_rows_bound (noRows a) ltac:(lia) ltac:(lia)) as Hops.
  rewrite (inv_last a valid_a) in Hops.
  rewrite (column_row_sum_ops a b valid_a). lia.
Qed.

End DenseCount.

(** ** The entry points stay below the prediction *)

(** A successful initialisation hands out a zero-filled value buffer of
    the requested size. *)
Lemma init_empty_csr_matrix_buffer a b h flag w :
  fst (fst (init_empty_csr_matrix a b h flag w)) <> HEAP_MEMORY_ERROR ->
  values (deref (snd (fst (init_empty_csr_matrix a b h flag w))))
  = repeat F32.zero
           (Z.to_nat (if flag =? 0 then mul64 (noRows a) (noCols b)
                      else predict_count a b)).
Proof.
  unfold init_empty_csr_matrix, predict_values_dimension.
  set (full := mul64 (noRows a) (noCols b)).
  set (predicted := predict_count a b).
  unfold bind, ret, calloc, malloc_safe, umull_overflow, malloc, heap_request,
    bind, ret.
  destruct (flag =? 0);
    repeat first
      [ progress change (HEAP_MEMORY_ERROR =? HEAP_MEMORY_ERROR) with true
      | progress change (0 =? HEAP_MEMORY_ERROR) with false
      | progress cbn [fst snd negb andb]
      | match goal with
        | |- context [if ?c then _ else _] => destruct c
        end ];
    intros H; try (exfalso; apply H; reflexivity); reflexivity.
Qed.

Lemma grown_from_zeros n size res res' :
  grown n res res' -> values res = repeat F32.zero (Z.to_nat size) -> 0 <= size ->
  nnz_count (values res') <= Z.min n size.
Proof.
  intros [Hlen Hnz] Hzero Hsize. rewrite Hzero in Hlen, Hnz.
  rewrite nnz_count_zeros in Hnz. rewrite zlength_repeat in Hlen.
  pose proof (nnz_count_le_length (values res')). lia.
Qed.

Section EntryPoints.
Variables a b : Matrix.
Hypothesis valid_a : csr_invariants a.
Hypothesis valid_b : csr_invariants b.
Hypothesis multiplicable : can_multiply a b = true.
Hypothesis full_fits : noRows a * noCols b < modulus64.
Hypothesis sum_fits : column_row_sum a b < modulus64.

Lemma multiplicable_inner : noCols a = noRows b /\ 1 <= noRows a /\ 1 <= noCols b.
Proof.
  unfold can_multiply in multiplicable.
  repeat (apply andb_true_iff in multiplicable; destruct multiplicable as [multiplicable ?]).
  repeat match goal with
         | H : _ && _ = true |- _ => apply andb_true_iff in H; destruct H
         end.
  repeat match goal with
         | H : (_ =? _) = true |- _ => apply Z.eqb_eq in H
         | H : (_ <=? _) = true |- _ => apply Z.leb_le in H
         end.
  lia.
Qed.

Lemma full_size : mul64 (noRows a) (noCols b) = noRows a * noCols b.
Proof. destruct multiplicable_inner as (_ & ? & ?). apply mul64_small. nia. Qed.

Lemma predicted_size_range :
  0 <= predicted_size a b <= noRows a * noCols b
  /\ predict_count a b = predicted_size a b.
Proof.
  destruct multiplicable_inner as (inner & Hr & Hc).
  split; [|exact (predict_count_spec a b valid_a valid_b inner full_fits sum_fits)].
  unfold predicted_size. rewrite (column_row_sum_ops a b valid_a).
  pose proof (zlength_nonneg (values a)) as Hnonneg.
  rewrite (inv_values_length a valid_a) in Hnonneg.
  pose proof (ops_upto_mono a b valid_a valid_b inner 0 (valuesSize a)
                ltac:(lia) ltac:(lia)) as Hmono.
  cbv beta zeta in Hmono.
  pose proof (ops_upto_zero a b) as Hzero. cbv beta zeta in Hzero.
  rewrite Hzero in Hmono. nia.
Qed.

(** The stored values left by a Gustavson kernel that started from the
    zero-filled full-size buffer. *)
Lemma full_buffer_bound res res' :
  values res = repeat F32.zero (Z.to_nat (mul64 (noRows a) (noCols b))) ->
  grown (ops_upto a b (valuesSize a)) res res' ->
  nnz_count (values res') <= predicted_size a b.
Proof.
  intros Hzero Hgrown. destruct multiplicable_inner as (_ & Hr & Hc).
  rewrite full_size in Hzero.
  pose proof (grown_from_zeros _ _ _ _ Hgrown Hzero ltac:(nia)) as H.
  unfold predicted_size. rewrite (column_row_sum_ops a b valid_a). exact H.
Qed.

Lemma matr_mult_csr_V2_bound h w :
  errno (snd (matr_mult_csr_V2 a b h w)) = 0 ->
  h_valuesSize (fst (matr_mult_csr_V2 a b h w)) <= predicted_size a b.
Proof.
  destruct multiplicable_inner as (inner & _).
  unfold matr_mult_csr_V2. rewrite multiplicable. cbn [negb]. unfold bind.
  pose proof (init_empty_csr_matrix_buffer a b h NO_PREDICTION w) as Hbuf.
  destruct (init_empty_csr_matrix a b h NO_PREDICTION w) as [[rc h1] w1].
  cbn [fst snd] in Hbuf.
  destruct (Z.eqb_spec rc HEAP_MEMORY_ERROR) as [->|Hne].
  - intros D. discriminate D.
  - intros E. apply finish_with_clean_up_bound in E.
    eapply Z.le_trans; [exact E|].
    apply (full_buffer_bound (deref h1)); [exact (Hbuf Hne)|].
    apply (grown_multiply_V2 a b valid_a valid_b inner).
Qed.

Lemma matr_mult_csr_V5_bound h w :
  errno (snd (matr_mult_csr_V5 a b h w)) = 0 ->
  h_valuesSize (fst (matr_mult_csr_V5 a b h w)) <= predicted_size a b.
Proof.
  destruct predicted_size_range as [Hrange Hpredict].
  unfold matr_mult_csr_V5. rewrite multiplicable. cbn [negb]. unfold bind.
  pose proof (init_empty_csr_matrix_buffer a b h PREDICT_SIZE w) as Hbuf.
  destruct (init_empty_csr_matrix a b h PREDICT_SIZE w) as [[rc h1] w1].
  cbn [fst snd] in Hbuf.
  destruct (Z.eqb_spec rc HEAP_MEMORY_ERROR) as [->|Hne].
  - intros D. discriminate D.
  - intros E. apply finish_with_clean_up_bound in E.
    eapply Z.le_trans; [exact E|].
    eapply Z.le_trans; [apply nnz_count_le_length|].
    rewrite multiply_V5_length, (Hbuf Hne).
    change (PREDICT_SIZE =? 0) with false. cbv iota.
    rewrite zlength_repeat, Hpredict. lia.
Qed.

Lemma simd_entry_bound lanes h1 w1 :
  values (deref h1) = repeat F32.zero (Z.to_nat (mul64 (noRows a) (noCols b))) ->
  let res := set_rowPointers (deref h1) (aset (rowPointers (deref h1)) 0 0) in
  errno (snd (finish_with_clean_up (multiply_simd lanes a b res) w1)) = 0 ->
  h_valuesSize (fst (finish_with_clean_up (multiply_simd lanes a b res) w1))
  <= predicted_size a b.
Proof.
  destruct multiplicable_inner as (inner & _).
  intros Hbuf res E. apply finish_with_clean_up_bound in E.
  eapply Z.le_trans; [exact E|].
  apply (full_buffer_bound res); [exact Hbuf|].
  apply (grown_multiply_simd a b valid_a valid_b inner).
Qed.

Lemma matr_mult_csr_V3_bound h w :
  errno (snd (matr_mult_csr_V3 a b h w)) = 0 ->
  h_valuesSize (fst (matr_mult_csr_V3 a b h w)) <= predicted_size a b.
Proof.
  unfold matr_mult_csr_V3. rewrite multiplicable. cbn [negb]. unfold bind.
  pose proof (init_empty_csr_matrix_buffer a b h NO_PREDICTION w) as Hbuf.
  destruct (init_empty_csr_matrix a b h NO_PREDICTION w) as [[rc h1] w1].
  cbn [fst snd] in Hbuf.
  destruct (Z.eqb_spec rc HEAP_MEMORY_ERROR) as [->|Hne].
  - intros D. discriminate D.
  - unfold multiply_V3, bind, malloc, heap_request, ret.
    destruct (heap_grants w1 (heap_calls w1)); cbn [negb].
    + change (0 =? HEAP_MEMORY_ERROR) with false. cbv iota.
      apply (simd_entry_bound 4 h1 _ (Hbuf Hne)).
    + intros D. discriminate D.
Qed.

Lemma matr_mult_csr_V1_bound h w :
  finite_values a -> finite_values b ->
  errno (snd (matr_mult_csr_V1 a b h w)) = 0 ->
  h_valuesSize (fst (matr_mult_csr_V1 a b h w)) <= predicted_size a b.
Proof.
  intros finite_a finite_b.
  destruct multiplicable_inner as (inner & _).
  unfold matr_mult_csr_V1. rewrite multiplicable. cbn [negb]. unfold bind.
  pose proof (csr_to_ordinary_some a w) as Ha.
  destruct (csr_to_ordinary a w) as [[da|] w1]; [|intros D; discriminate D].
  specialize (Ha da w1 eq_refl). subst da.
  pose proof (csr_to_ordinary_some b w1) as Hb.
  destruct (csr_to_ordinary b w1) as [[db|] w2]; [|intros D; discriminate D].
  specialize (Hb db w2 eq_refl). subst db.
  destruct (malloc_safe (noRows a) sizeof_ptr w2) as [[|] w3]; cbn [negb];
    [|intros D; discriminate D].
  destruct (calloc_rows (Z.to_nat (noRows a)) (noCols b) w3) as [[|] w4]; cbn [negb];
    [|intros D; discriminate D].
  pose proof (ordinary_to_csr_some (noRows a) (noCols b)
                (dense_multiply a b (dense_of_csr a) (dense_of_csr b)
                   (dense_zero (noRows a) (noCols b))) w4) as Hm.
  destruct (ordinary_to_csr _ _ _ w4) as [[m|] w5]; [|intros D; discriminate D].
  specialize (Hm m w5 eq_refl). subst m. intros _.
  cbn [fst handle_of h_valuesSize].
  exact (dense_product_size a b valid_a valid_b inner finite_a finite_b full_fits).
Qed.

Lemma matr_mult_csr_V4_bound h w :
  finite_values a -> finite_values b ->
  errno (snd (matr_mult_csr_V4 a b h w)) = 0 ->
  h_valuesSize (fst (matr_mult_csr_V4 a b h w)) <= predicted_size a b.
Proof.
  intros finite_a finite_b.
  unfold matr_mult_csr_V4, cpu_supports_avx, bind.
  destruct (cpu_avx w); cbn [negb];
    [|exact (matr_mult_csr_V1_bound h w finite_a finite_b)].
  rewrite multiplicable. cbn [negb].
  pose proof (init_empty_csr_matrix_buffer a b h NO_PREDICTION w) as Hbuf.
  destruct (init_empty_csr_matrix a b h NO_PREDICTION w) as [[rc h1] w1].
  cbn [fst snd] in Hbuf.
  destruct (Z.eqb_spec rc HEAP_MEMORY_ERROR) as [->|Hne].
  - intros D. discriminate D.
  - unfold multiply_V4, bind, malloc, heap_request, ret.
    destruct (heap_grants w1 (heap_calls w1)); cbn [negb].
    + change (0 =? HEAP_MEMORY_ERROR) with false. cbv iota.
      apply (simd_entry_bound 8 h1 _ (Hbuf Hne)).
    + intros D. discriminate D.
Qed.

(** With AVX the fourth entry point never reaches the dense fallback, and
    its bound needs no condition on the stored values. *)
Lemma matr_mult_csr_V4_avx_bound h w :
  cpu_avx w = true ->
  errno (snd (matr_mult_csr_V4 a b h w)) = 0 ->
  h_valuesSize (fst (matr_mult_csr_V4 a b h w)) <= predicted_size a b.
Proof.
  intros Havx.
  unfold matr_mult_csr_V4, cpu_supports_avx, bind. rewrite Havx. cbn [negb].
  rewrite multiplicable. cbn [negb].
  pose proof (init_empty_csr_matrix_buffer a b h NO_PREDICTION w) as Hbuf.
  destruct (init_empty_csr_matrix a b h NO_PREDICTION w) as [[rc h1] w1].
  cbn [fst snd] in Hbuf.
  destruct (Z.eqb_spec rc HEAP_MEMORY_ERROR) as [->|Hne].
  - intros D. discriminate D.
  - unfold multiply_V4, bind, malloc, heap_request, ret.
    destruct (heap_grants w1 (heap_calls w1)); cbn [negb].
    + change (0 =? HEAP_MEMORY_ERROR) with false. cbv iota.
      apply (simd_entry_bound 8 h1 _ (Hbuf Hne)).
    + intros D. discriminate D.
Qed.

Lemma matr_mult_csr_bound h w :
  errno (snd (matr_mult_csr a b h w)) = 0 ->
  h_valuesSize (fst (matr_mult_csr a b h w)) <= predicted_size a b.
Proof.
  destruct multiplicable_inner as (inner & Hrows & _).
  unfold matr_mult_csr.
  destruct ((valuesSize a <? 10000) || (noRows a <? MIN_THREADS));
    [exact (matr_mult_csr_V5_bound h w)|].
  rewrite multiplicable. cbn [negb]. unfold bind.
  pose proof (init_empty_csr_matrix_buffer a b h NO_PREDICTION w) as Hbuf.
  destruct (init_empty_csr_matrix a b h NO_PREDICTION w) as [[rc h1] w1].
  cbn [fst snd] in Hbuf.
  destruct (Z.eqb_spec rc HEAP_MEMORY_ERROR) as [->|Hne].
  - intros D. discriminate D.
  - unfold get_nprocs.
    set (tc := wrap32 (choose_thread_count (noRows a) (wrap64 (nprocs w1)))).
    assert (Htc : 0 <= tc < modulus32).
    { subst tc. unfold wrap32. apply Z.mod_pos_bound. reflexivity. }
    pose proof (grown_start_threads a b valid_a valid_b inner tc (deref h1) w1
                  Hrows Htc) as Hgrown.
    destruct (start_threads tc a b (deref h1) w1) as [[sr res] w2].
    cbn [fst snd] in Hgrown.
    destruct (sr =? THREAD_START_ERROR); [intros D; discriminate D|].
    intros E. apply finish_with_clean_up_bound in E.
    eapply Z.le_trans; [exact E|].
    exact (full_buffer_bound (deref h1) res (Hbuf Hne) Hgrown).
Qed.

End EntryPoints.

Lemma predict_values_dimension_spec a b w :
  (fst (predict_values_dimension a b w) = (0, predict_count a b)
   \/ fst (predict_values_dimension a b w) = (HEAP_MEMORY_ERROR, 0))
  /\ (grants_next 2 w ->
      noCols a * sizeof_uint64 < modulus64 -> noRows b * sizeof_uint64 < modulus64 ->
      fst (predict_values_dimension a b w) = (0, predict_count a b)).
Proof.
  unfold predict_values_dimension, bind, calloc, heap_request, bind, ret.
  set (predicted := predict_count a b). cbn [fst snd heap_calls heap_grants].
  split.
  - destruct (heap_grants w (heap_calls w) && (noCols a * sizeof_uint64 <? modulus64));
      cbn [negb fst snd heap_calls heap_grants]; [|right; reflexivity].
    destruct (heap_grants w (S (heap_calls w))
              && (noRows b * sizeof_uint64 <? modulus64));
      cbn [negb fst]; [left|right]; reflexivity.
  - intros Hgrants Ha Hb.
    pose proof (Hgrants 0%nat ltac:(lia)) as G0. rewrite Nat.add_0_r in G0.
    pose proof (Hgrants 1%nat ltac:(lia)) as G1. rewrite Nat.add_1_r in G1.
    rewrite G0.
    replace (noCols a * sizeof_uint64 <? modulus64) with true
      by (symmetry; apply Z.ltb_lt; exact Ha).
    cbn [andb negb fst snd heap_calls heap_grants]. rewrite G1.
    replace (noRows b * sizeof_uint64 <? modulus64) with true
      by (symmetry; apply Z.ltb_lt; exact Hb).
    reflexivity.
Qed.

(** C2 (amended) -- for every valid multiplicable pair whose sizes fit
    [uint64_t] (neither the size of a full result nor the sum over the
    columns wraps), [predict_values_dimension] stores
    [min (sum over c of (stored entries of A in column c) * (stored
    entries in row c of B), rowCount_A * colCount_B)] whenever its two
    counter arrays are allocated (and reports [HEAP_MEMORY_ERROR]
    otherwise), and the predicted count is at most
    [rowCount_A * colCount_B].  The product returned on a run that leaves
    [errno] at 0 stores at most that many values: by the default
    implementation, V2, V3 and V5 always, by V4 on a machine with AVX
    always, and by the conversion-based V1 (also as the fallback of V4)
    when in addition every stored value of both factors is finite. *)
Theorem prediction_bounds_every_product (a b : Matrix) :
  valid_csr a -> valid_csr b -> can_multiply a b = true ->
  noRows a * noCols b < modulus64 -> column_row_sum a b < modulus64 ->
  (forall w,
      (fst (predict_values_dimension a b w) = (0, predicted_size a b)
       \/ fst (predict_values_dimension a b w) = (HEAP_MEMORY_ERROR, 0))
      /\ (grants_next 2 w ->
          noCols a * sizeof_uint64 < modulus64 ->
          fst (predict_values_dimension a b w) = (0, predicted_size a b)))
  /\ (forall f h w,
         In f [matr_mult_csr; matr_mult_csr_V2; matr_mult_csr_V3; matr_mult_csr_V5] ->
         errno (snd (f a b h w)) = 0 ->
         h_valuesSize (fst (f a b h w)) <= predicted_size a b)
  /\ (forall h w,
         cpu_avx w = true -> errno (snd (matr_mult_csr_V4 a b h w)) = 0 ->
         h_valuesSize (fst (matr_mult_csr_V4 a b h w)) <= predicted_size a b)
  /\ (finite_values a -> finite_values b ->
      forall f h w,
        In f [matr_mult_csr_V1; matr_mult_csr_V4] ->
        errno (snd (f a b h w)) = 0 ->
        h_valuesSize (fst (f a b h w)) <= predicted_size a b)
  /\ 0 <= predicted_size a b <= noRows a * noCols b.
Proof.
  intros Va Vb Hmul Hfull Hsum.
  apply valid_csr_invariants in Va. apply valid_csr_invariants in Vb.
  destruct (predicted_size_range a b Va Vb Hmul Hfull Hsum) as [Hrange Hpredict].
  destruct (multiplicable_inner a b Hmul) as (inner & _).
  split; [|split; [|split; [|split; [|exact Hrange]]]].
  - intros w. rewrite <- Hpredict.
    destruct (predict_values_dimension_spec a b w) as [Hcases Hgranted].
    split; [exact Hcases|].
    intros Hgrants Hcols. apply Hgranted; [exact Hgrants|exact Hcols|].
    rewrite <- inner. exact Hcols.
  - intros f h w Hf. cbn [In] in Hf.
    destruct Hf as [<-|[<-|[<-|[<-|[]]]]]; intros E.
    + apply matr_mult_csr_bound; assumption.
    + apply matr_mult_csr_V2_bound; assumption.
    + apply matr_mult_csr_V3_bound; assumption.
    + apply matr_mult_csr_V5_bound; assumption.
  - intros h w Havx E. apply matr_mult_csr_V4_avx_bound; assumption.
  - intros Fa Fb f h w Hf. cbn [In] in Hf.
    destruct Hf as [<-|[<-|[]]]; intros E.
    + apply matr_mult_csr_V1_bound; assumption.
    + apply matr_mult_csr_V4_bound; assumption.
Qed.

Lemma prediction_bounds_every_product_witness :
  fst (predict_values_dimension Scenario.A Scenario.B (generous true 4))
  = (0, predicted_size Scenario.A Scenario.B)
  /\ h_valuesSize (fst (matr_mult_csr Scenario.A Scenario.B blank_handle
                          (generous true 4)))
     <= predicted_size Scenario.A Scenario.B
  /\ h_valuesSize (fst (matr_mult_csr_V3 Scenario.A Scenario.B blank_handle
                          (generous true 4)))
     <= predicted_size Scenario.A Scenario.B
  /\ h_valuesSize (fst (matr_mult_csr_V4 Scenario.A Scenario.B blank_handle
                          (generous true 4)))
     <= predicted_size Scenario.A Scenario.B
  /\ h_valuesSize (fst (matr_mult_csr_V1 Scenario.A Scenario.B blank_handle
                          (generous true 4)))
     <= predicted_size Scenario.A Scenario.B
  /\ 0 <= predicted_size Scenario.A Scenario.B <= noRows Scenario.A * noCols Scenario.B.
Proof.
  pose proof (prediction_bounds_every_product Scenario.A Scenario.B
                ltac:(vm_compute; reflexivity) ltac:(vm_compute; reflexivity)
                ltac:(vm_compute; reflexivity) ltac:(vm_compute; reflexivity)
                ltac:(vm_compute; reflexivity))
    as (Hstored & Hbound & Havx & Hfinite & Hrange).
  split.
  { apply (proj2 (Hstored (generous true 4))).
    - intros k _. reflexivity.
    - vm_compute. reflexivity. }
  split.
  { apply Hbound; [left; reflexivity|vm_compute; reflexivity]. }
  split.
  { apply Hbound; [do 2 right; left; reflexivity|vm_compute; reflexivity]. }
  split.
  { apply Havx; vm_compute; reflexivity. }
  split.
  { apply (Hfinite ltac:(vm_compute; reflexivity) ltac:(vm_compute; reflexivity));
      [left; reflexivity|vm_compute; reflexivity]. }
  exact Hrange.
Defined.

(** C2 (as stated) fails for a valid pair that stores an infinity: the
    prediction is 1, Gustavson's kernels store the one product [inf * 1],
    but the dense triple loop of V1 also multiplies the infinity with the
    zero cell next to it, and the resulting NaN is a second value that
    compares unequal to zero. *)
Lemma infinite_value_exceeds_prediction :
  valid_csr Infinite.A /\ valid_csr Infinite.B
  /\ can_multiply Infinite.A Infinite.B = true
  /\ fst (predict_values_dimension Infinite.A Infinite.B (generous true 4)) = (0, 1)
  /\ predicted_size Infinite.A Infinite.B = 1
  /\ matr_mult_csr_V1 Infinite.A Infinite.B blank_handle (generous true 4)
     = (mkHandle 1 2 (Some [S754_infinity false; S754_nan]) 2
                 (Some [0; 1]) (Some [0; 2]) 2,
        snd (matr_mult_csr_V1 Infinite.A Infinite.B blank_handle (generous true 4)))
  /\ errno (snd (matr_mult_csr_V1 Infinite.A Infinite.B blank_handle
                   (generous true 4))) = 0
  /\ ~ (h_valuesSize (fst (matr_mult_csr_V1 Infinite.A Infinite.B blank_handle
                             (generous true 4)))
        <= predicted_size Infinite.A Infinite.B)
  /\ h_valuesSize (fst (matr_mult_csr_V2 Infinite.A Infinite.B blank_handle
                          (generous true 4))) = 1.
Proof.
  repeat (split; [vm_compute; reflexivity|]).
  split; [|vm_compute; reflexivity].
  vm_compute. intros H. apply H. reflexivity.
Qed.

(** ** The SIMD kernels and the workers compute what V2 computes *)

Lemma F32_mul_comm x y : F32.mul x y = F32.mul y x.
Proof.
  unfold F32.mul.
  destruct x as [sx|sx| |sx mx ex], y as [sy|sy| |sy my ey]; cbn [SFmul];
    try reflexivity; try (now rewrite xorb_comm).
  rewrite xorb_comm, Pos.mul_comm, Z.add_comm. reflexivity.
Qed.

Section SimdScalar.
Variable b : Matrix.
Variables (rowA : Z) (valueA : float).

Let body (indexB : Z) (res : Matrix) : Matrix :=
  accumulate b res rowA (col_at b indexB) (F32.mul valueA (val_at b indexB)).

(** One batch: the lanes are added in the order of the scalar loop. *)
Lemma scatter_lanes_scalar lanes indexB res :
  scatter_lanes b rowA (mul_lanes (load_lanes b indexB lanes) valueA) indexB res
  = (indexB + Z.of_nat lanes, iter_up lanes indexB body res).
Proof.
  unfold mul_lanes, load_lanes. rewrite map_map.
  revert indexB res. induction lanes as [|lanes IH]; intros indexB res.
  - cbn. f_equal. lia.
  - cbn [seq map scatter_lanes iter_up]. rewrite <- seq_shift, map_map.
    rewrite (map_ext _ (fun k => F32.mul (val_at b (indexB + 1 + Z.of_nat k)) valueA))
      by (intros k; do 2 f_equal; lia).
    rewrite IH. f_equal; [lia|]. f_equal. unfold body.
    change (Z.of_nat 0) with 0. rewrite Z.add_0_r, (F32_mul_comm valueA).
    reflexivity.
Qed.

Lemma simd_batches_scalar fuel lanes indexB vtm res :
  exists k, 0 <= k
            /\ simd_batches fuel lanes b rowA valueA indexB vtm res
               = (indexB + k, for_lt indexB (indexB + k) body res)
            /\ (Z.of_nat lanes <= vtm < modulus64 -> k <= vtm).
Proof.
  revert indexB vtm res. induction fuel as [|fuel IH]; intros indexB vtm res.
  - exists 0. cbn [simd_batches]. rewrite Z.add_0_r, for_lt_empty by lia.
    split; [lia|]. split; [reflexivity|lia].
  - cbn [simd_batches]. rewrite scatter_lanes_scalar.
    assert (Hbatch : iter_up lanes indexB body res
                     = for_lt indexB (indexB + Z.of_nat lanes) body res).
    { unfold for_lt. f_equal. lia. }
    destruct (Z.leb_spec (Z.of_nat lanes) (sub64 vtm (Z.of_nat lanes))) as [Hmore|Hdone].
    + destruct (IH (indexB + Z.of_nat lanes) (sub64 vtm (Z.of_nat lanes))
                   (iter_up lanes indexB body res)) as (k & Hk & E & Hle).
      exists (Z.of_nat lanes + k). split; [lia|]. split.
      * rewrite E, Hbatch. f_equal; [lia|].
        rewrite (for_lt_split indexB (indexB + Z.of_nat lanes)
                   (indexB + (Z.of_nat lanes + k))) by lia.
        f_equal. lia.
      * intros Hv. rewrite sub64_small in Hle, Hmore by lia.
        specialize (Hle ltac:(lia)). lia.
    + exists (Z.of_nat lanes). split; [lia|]. split; [now rewrite Hbatch|lia].
Qed.

(** The batches followed by the scalar remainder are the scalar loop. *)
Lemma simd_entry_scalar lanes lo hi res :
  0 <= hi - lo < modulus64 ->
  (let '(indexB, res) :=
     if Z.of_nat lanes <=? sub64 hi lo
     then simd_batches (Z.to_nat (sub64 hi lo)) lanes b rowA valueA lo (sub64 hi lo) res
     else (lo, res) in
   scalar_row_B b rowA valueA indexB hi res)
  = scalar_row_B b rowA valueA lo hi res.
Proof.
  intros Hlen. rewrite sub64_small by lia.
  destruct (Z.leb_spec (Z.of_nat lanes) (hi - lo)) as [Hbatch|Hscalar];
    [|reflexivity].
  destruct (simd_batches_scalar (Z.to_nat (hi - lo)) lanes lo (hi - lo) res)
    as (k & Hk & E & Hle).
  rewrite E. specialize (Hle ltac:(lia)). unfold scalar_row_B.
  symmetry. apply for_lt_split. lia.
Qed.

End SimdScalar.

Section KernelsAgree.
Variables a b : Matrix.
Hypothesis valid_a : csr_invariants a.
Hypothesis valid_b : csr_invariants b.
Hypothesis inner : noCols a = noRows b.

Lemma simd_row_gustavson lanes r res :
  0 <= r < noRows a -> simd_row lanes a b r res = gustavson_row a b r res.
Proof.
  intros Hr. unfold simd_row, gustavson_row. cbv zeta.
  match goal with
  | |- set_rowPointers (for_lt ?lo ?hi ?f ?s) _
       = set_rowPointers (for_lt _ _ ?g _) _ =>
      assert (E : for_lt lo hi f s = for_lt lo hi g s)
  end.
  { apply for_lt_ext. intros p t Hp.
    pose proof (row_entry_range a valid_a r p Hr Hp) as Hrange.
    destruct (entry_row_length a b valid_a valid_b inner p Hrange) as (Hlen & Hadd & Hfit).
    rewrite Hadd in *. unfold row_length in Hlen, Hfit.
    apply (simd_entry_scalar b r (val_at a p) lanes). lia. }
  rewrite E. reflexivity.
Qed.

Lemma multiply_simd_gustavson lanes res :
  multiply_simd lanes a b res
  = for_lt 0 (noRows a) (gustavson_row a b) res.
Proof.
  unfold multiply_simd. apply for_lt_ext. intros r t Hr.
  apply simd_row_gustavson. exact Hr.
Qed.

End KernelsAgree.

Lemma first_pointer_gustavson a b lo hi res :
  0 <= lo -> rowptr_at res 0 = 0 ->
  rowptr_at (for_lt lo hi (gustavson_row a b) res) 0 = 0.
Proof.
  intros Hlo H0.
  destruct (Z.le_gt_cases lo hi) as [Hle|Hgt]; [|now rewrite for_lt_empty by lia].
  apply (for_lt_invariant (fun _ t => rowptr_at t 0 = 0)); [exact Hle|exact H0|].
  intros r t Hr Ht. unfold gustavson_row. cbv zeta.
  match goal with
  | |- rowptr_at (set_rowPointers ?x _) 0 = 0 =>
      assert (Hx : rowPointers x = rowPointers t)
  end.
  { apply (for_lt_preserves (fun x => rowPointers x = rowPointers t)); [reflexivity|].
    intros p x _ Hx. unfold scalar_row_B.
    apply (for_lt_preserves (fun x => rowPointers x = rowPointers t)); [exact Hx|].
    intros q y _ Hy. exact Hy. }
  unfold rowptr_at in *. cbn [rowPointers set_rowPointers].
  rewrite aget_aset_other by lia. rewrite Hx. exact Ht.
Qed.

Lemma worker_rows a b arg res :
  rowptr_at res 0 = 0 ->
  multiply_main_implementation a b arg res
  = for_lt (start_row arg) (end_row arg) (gustavson_row a b) res.
Proof.
  intros H0. unfold multiply_main_implementation. cbv zeta.
  pose proof (aset_same_value (rowPointers res) 0 0) as E.
  unfold rowptr_at in H0. rewrite H0 in E.
  rewrite E, set_rowPointers_same. reflexivity.
Qed.

Lemma first_pointer_reset res :
  rowptr_at (set_rowPointers res (aset (rowPointers res) 0 0)) 0 = 0.
Proof.
  unfold rowptr_at. cbn [rowPointers set_rowPointers].
  destruct (Z_lt_dec 0 (zlength (rowPointers res))) as [Hin|Hout].
  - apply aget_aset_same. lia.
  - rewrite aset_out_of_range by lia. apply aget_out_of_range. lia.
Qed.

Lemma spawn_workers_rows a b (bd : Z -> Z) (tc : Z) n k0 res w :
  k0 + Z.of_nat n = tc -> 0 <= k0 ->
  (forall k, k0 <= k <= tc -> 0 <= bd k) ->
  (forall k, k0 <= k < tc -> bd k <= bd (k + 1)) ->
  rowptr_at res 0 = 0 ->
  fst (fst (spawn_workers a b
              (map (fun k => mkArg (bd k) (bd (k + 1))) (zrange k0 tc)) res w)) = 0 ->
  snd (fst (spawn_workers a b
              (map (fun k => mkArg (bd k) (bd (k + 1))) (zrange k0 tc)) res w))
  = for_lt (bd k0) (bd tc) (gustavson_row a b) res.
Proof.
  revert k0 res w. induction n as [|n IH]; intros k0 res w Hn Hk0 Hpos Hmono H0.
  - rewrite zrange_empty by lia. cbn. intros _. replace k0 with tc by lia.
    now rewrite for_lt_empty by lia.
  - rewrite zrange_first by lia. cbn [map spawn_workers]. unfold bind.
    destruct (pthread_create w) as [[|] w']; [|intros D; discriminate D].
    rewrite (worker_rows a b _ res H0). cbn [start_row end_row].
    assert (Hbd : forall j, k0 + 1 <= j -> j <= tc -> bd (k0 + 1) <= bd j).
    { intros j Hj. pattern j. apply (Z_induction_from (k0 + 1)); [| |exact Hj].
      - lia.
      - intros x Hx IHx Hle. specialize (Hmono x ltac:(lia)). lia. }
    intros E. rewrite IH; try assumption; try lia.
    + symmetry. apply for_lt_split. split; [apply Hmono; lia|apply Hbd; lia].
    + intros k Hk. apply Hpos. lia.
    + intros k Hk. apply Hmono. lia.
    + apply first_pointer_gustavson; [apply Hpos; lia|exact H0].
Qed.

Lemma start_threads_rows a b tc res w :
  1 <= noRows a < modulus64 -> 1 <= tc < modulus32 ->
  fst (fst (start_threads tc a b res w)) = 0 ->
  snd (fst (start_threads tc a b res w)) = multiply_V2 a b res.
Proof.
  intros Hrows Htc. unfold start_threads.
  destruct (Z.eqb_spec tc 0) as [->|_]; [lia|]. unfold bind.
  destruct (malloc (sizeof_ptr * tc) w) as [[|] w1]; cbn [negb];
    [|intros D; discriminate D].
  destruct (malloc_each (Z.to_nat tc) sizeof_MultiplyArg w1) as [[|] w2];
    cbn [negb]; [|intros D; discriminate D].
  destruct (malloc (sizeof_pthread_t * tc) w2) as [[|] w3]; cbn [negb];
    [|intros D; discriminate D].
  rewrite make_arguments_map by lia.
  set (bd := row_boundary (noRows a) tc).
  rewrite (zrange_first 0 tc) by lia. cbn [map spawn_workers]. unfold bind.
  destruct (pthread_create w3) as [[|] w4]; [|intros D; discriminate D].
  assert (Hrange : forall k, 0 <= k <= tc -> 0 <= bd k <= noRows a)
    by (intros k Hk; apply (boundary_range (noRows a) tc); lia).
  assert (Hmono : forall k, 0 <= k < tc -> bd k <= bd (k + 1))
    by (intros k Hk; apply (boundary_mono (noRows a) tc); lia).
  assert (Hfirst : bd 0 = 0) by (apply (boundary_zero (noRows a) tc); lia).
  assert (Hlast : bd tc = noRows a) by (apply (boundary_last (noRows a) tc); lia).
  unfold multiply_main_implementation. cbv zeta. cbn [start_row end_row].
  set (res0 := set_rowPointers res (aset (rowPointers res) 0 0)).
  change (0 + 1) with 1. intros E.
  rewrite (spawn_workers_rows a b bd tc (Z.to_nat (tc - 1)) 1); try lia;
    try exact E.
  - unfold multiply_V2. cbv zeta. fold res0. rewrite Hlast, Hfirst.
    symmetry. apply for_lt_split. rewrite <- Hfirst at 1.
    split; [apply Hmono; lia|]. rewrite <- Hlast.
    assert (Hbd : forall j, 1 <= j -> j <= tc -> bd 1 <= bd j).
    { intros j Hj. pattern j. apply (Z_induction_from 1); [| |exact Hj].
      - lia.
      - intros x Hx IHx Hle. specialize (Hmono x ltac:(lia)). lia. }
    apply Hbd; lia.
  - intros k Hk. apply Hrange. lia.
  - intros k Hk. apply Hmono. lia.
  - apply first_pointer_gustavson; [lia|]. apply first_pointer_reset.
Qed.

(** ** What a successful run returns does not depend on the allocator *)

Lemma init_empty_csr_matrix_success a b h flag w :
  fst (fst (init_empty_csr_matrix a b h flag w)) <> HEAP_MEMORY_ERROR ->
  let size := if flag =? 0 then mul64 (noRows a) (noCols b) else predict_count a b in
  fst (init_empty_csr_matrix a b h flag w)
  = (0, mkHandle (noRows a) (noCols b)
                 (Some (repeat F32.zero (Z.to_nat size))) size
                 (Some (repeat 0 (Z.to_nat size)))
                 (Some (repeat 0 (Z.to_nat (add64 (noRows a) 1))))
                 (add64 (noRows a) 1)).
Proof.
  unfold init_empty_csr_matrix, predict_values_dimension.
  set (full := mul64 (noRows a) (noCols b)).
  set (predicted := predict_count a b).
  unfold bind, ret, calloc, malloc_safe, umull_overflow, malloc, heap_request,
    bind, ret.
  destruct (flag =? 0);
    repeat first
      [ progress change (HEAP_MEMORY_ERROR =? HEAP_MEMORY_ERROR) with true
      | progress change (0 =? HEAP_MEMORY_ERROR) with false
      | progress cbn [fst snd negb andb]
      | match goal with
        | |- context [if ?c then _ else _] => destruct c
        end ];
    intros H; try (exfalso; apply H; reflexivity); reflexivity.
Qed.

Lemma clean_up_csr_world m w w' :
  fst (fst (clean_up_csr m w)) <> HEAP_MEMORY_ERROR ->
  fst (fst (clean_up_csr m w')) <> HEAP_MEMORY_ERROR ->
  fst (clean_up_csr m w) = fst (clean_up_csr m w').
Proof.
  unfold clean_up_csr.
  destruct (_clean_up_matrix_arrays m) as [[rc m'] nz].
  destruct (rc =? HEAP_MEMORY_ERROR); [intros H; exfalso; apply H; reflexivity|].
  unfold umull_overflow, bind, ret, realloc, heap_request.
  repeat first
    [ progress cbn [fst snd negb]
    | match goal with
      | |- context [if ?c then _ else _] => destruct c
      end ];
    intros H H'; try (exfalso; apply H; reflexivity);
    try (exfalso; apply H'; reflexivity); reflexivity.
Qed.

Lemma finish_with_clean_up_world res w w' :
  errno (snd (finish_with_clean_up res w)) = 0 ->
  errno (snd (finish_with_clean_up res w')) = 0 ->
  fst (finish_with_clean_up res w) = fst (finish_with_clean_up res w').
Proof.
  unfold finish_with_clean_up, bind.
  pose proof (clean_up_csr_world res w w') as H.
  destruct (clean_up_csr res w) as [[rc m] w1].
  destruct (clean_up_csr res w') as [[rc' m'] w1']. cbn [fst snd] in H.
  destruct (Z.eqb_spec rc HEAP_MEMORY_ERROR) as [->|Hne]; [intros D; discriminate D|].
  destruct (Z.eqb_spec rc' HEAP_MEMORY_ERROR) as [->|Hne'];
    [intros _ D; discriminate D|].
  intros _ _. specialize (H Hne Hne'). inversion H. reflexivity.
Qed.

Lemma init_full_buffer a b h w :
  fst (fst (init_empty_csr_matrix a b h NO_PREDICTION w)) <> HEAP_MEMORY_ERROR ->
  deref (snd (fst (init_empty_csr_matrix a b h NO_PREDICTION w))) = full_buffer a b.
Proof.
  intros H. pose proof (init_empty_csr_matrix_success a b h NO_PREDICTION w H) as E.
  cbv zeta in E. rewrite E. reflexivity.
Qed.

Section SuccessfulRuns.
Variables a b : Matrix.
Hypothesis valid_a : csr_invariants a.
Hypothesis valid_b : csr_invariants b.
Hypothesis multiplicable : can_multiply a b = true.

(** On success V2, V3 and V4 (with AVX) all return the compacted buffer
    of V2. *)
Lemma matr_mult_csr_V2_success h w :
  errno (snd (matr_mult_csr_V2 a b h w)) = 0 ->
  exists w1,
    errno (snd (finish_with_clean_up (multiply_V2 a b (full_buffer a b)) w1)) = 0
    /\ fst (matr_mult_csr_V2 a b h w)
       = fst (finish_with_clean_up (multiply_V2 a b (full_buffer a b)) w1).
Proof.
  unfold matr_mult_csr_V2. rewrite multiplicable. cbn [negb]. unfold bind.
  pose proof (init_full_buffer a b h w) as Hbuf.
  destruct (init_empty_csr_matrix a b h NO_PREDICTION w) as [[rc h1] w1].
  cbn [fst snd] in Hbuf.
  destruct (Z.eqb_spec rc HEAP_MEMORY_ERROR) as [->|Hne]; [intros D; discriminate D|].
  rewrite (Hbuf Hne). intros E. exists w1. split; [exact E|reflexivity].
Qed.

Lemma simd_entry_success lanes h1 :
  deref h1 = full_buffer a b ->
  multiply_simd lanes a b (set_rowPointers (deref h1) (aset (rowPointers (deref h1)) 0 0))
  = multiply_V2 a b (full_buffer a b).
Proof.
  intros ->. destruct (multiplicable_inner a b multiplicable) as (inner & _).
  rewrite (multiply_simd_gustavson a b valid_a valid_b inner). reflexivity.
Qed.

Lemma matr_mult_csr_V3_success h w :
  errno (snd (matr_mult_csr_V3 a b h w)) = 0 ->
  exists w1,
    errno (snd (finish_with_clean_up (multiply_V2 a b (full_buffer a b)) w1)) = 0
    /\ fst (matr_mult_csr_V3 a b h w)
       = fst (finish_with_clean_up (multiply_V2 a b (full_buffer a b)) w1).
Proof.
  unfold matr_mult_csr_V3. rewrite multiplicable. cbn [negb]. unfold bind.
  pose proof (init_full_buffer a b h w) as Hbuf.
  destruct (init_empty_csr_matrix a b h NO_PREDICTION w) as [[rc h1] w1].
  cbn [fst snd] in Hbuf.
  destruct (Z.eqb_spec rc HEAP_MEMORY_ERROR) as [->|Hne]; [intros D; discriminate D|].
  unfold multiply_V3, bind, malloc, heap_request, ret.
  destruct (heap_grants w1 (heap_calls w1)); cbn [negb];
    [|intros D; discriminate D].
  change (0 =? HEAP_MEMORY_ERROR) with false. cbv iota.
  rewrite (simd_entry_success 4 h1 (Hbuf Hne)).
  intros E. eexists. split; [exact E|reflexivity].
Qed.

Lemma matr_mult_csr_V4_success h w :
  cpu_avx w = true ->
  errno (snd (matr_mult_csr_V4 a b h w)) = 0 ->
  exists w1,
    errno (snd (finish_with_clean_up (multiply_V2 a b (full_buffer a b)) w1)) = 0
    /\ fst (matr_mult_csr_V4 a b h w)
       = fst (finish_with_clean_up (multiply_V2 a b (full_buffer a b)) w1).
Proof.
  intros Havx. unfold matr_mult_csr_V4, cpu_supports_avx, bind.
  rewrite Havx. cbn [negb]. rewrite multiplicable. cbn [negb].
  pose proof (init_full_buffer a b h w) as Hbuf.
  destruct (init_empty_csr_matrix a b h NO_PREDICTION w) as [[rc h1] w1].
  cbn [fst snd] in Hbuf.
  destruct (Z.eqb_spec rc HEAP_MEMORY_ERROR) as [->|Hne]; [intros D; discriminate D|].
  unfold multiply_V4, bind, malloc, heap_request, ret.
  destruct (heap_grants w1 (heap_calls w1)); cbn [negb];
    [|intros D; discriminate D].
  change (0 =? HEAP_MEMORY_ERROR) with false. cbv iota.
  rewrite (simd_entry_success 8 h1 (Hbuf Hne)).
  intros E. eexists. split; [exact E|reflexivity].
Qed.

End SuccessfulRuns.

(* ================================================================== *)
(** * Further properties of the code *)

(** X1 -- [multiply_V3] and [multiply_V4] fail with [HEAP_MEMORY_ERROR]
    exactly when their four- or eight-float scratch array is not
    allocated; otherwise they return 0 and leave in the result matrix, bit
    for bit, what [multiply_V2] leaves there: the lanes of a batch are
    added in the order of the scalar loop. *)
Theorem simd_kernels_compute_V2 (a b res : Matrix) (w : World) :
  valid_csr a -> valid_csr b -> noCols a = noRows b ->
  if heap_grants w (heap_calls w)
  then fst (multiply_V3 a b res w) = (0, multiply_V2 a b res)
       /\ fst (multiply_V4 a b res w) = (0, multiply_V2 a b res)
  else fst (multiply_V3 a b res w)
       = (HEAP_MEMORY_ERROR,
          set_rowPointers res (aset (rowPointers res) 0 0))
       /\ fst (multiply_V4 a b res w)
          = (HEAP_MEMORY_ERROR,
             set_rowPointers res (aset (rowPointers res) 0 0)).
Proof.
  intros Va Vb inner.
  apply valid_csr_invariants in Va. apply valid_csr_invariants in Vb.
  unfold multiply_V3, multiply_V4, bind, malloc, heap_request, ret.
  destruct (heap_grants w (heap_calls w)); cbn [negb fst].
  - rewrite !(multiply_simd_gustavson a b Va Vb inner). split; reflexivity.
  - split; reflexivity.
Qed.

Lemma simd_kernels_compute_V2_witness :
  fst (multiply_V3 Wide.A Wide.B (full_buffer Wide.A Wide.B) (generous true 4))
  = (0, multiply_V2 Wide.A Wide.B (full_buffer Wide.A Wide.B))
  /\ fst (multiply_V4 Wide.A Wide.B (full_buffer Wide.A Wide.B) (generous true 4))
     = (0, multiply_V2 Wide.A Wide.B (full_buffer Wide.A Wide.B)).
Proof.
  exact (simd_kernels_compute_V2 Wide.A Wide.B (full_buffer Wide.A Wide.B)
           (generous true 4)
           ltac:(vm_compute; reflexivity) ltac:(vm_compute; reflexivity)
           ltac:(reflexivity)).
Defined.

(** X2 -- whenever V2 and V3 (or V2 and V4 on a machine with AVX) both
    leave [errno] at 0 on a valid multiplicable pair, they return the same
    result structure, whatever the handles and allocator states they
    started from. *)
Theorem gustavson_entry_points_agree (a b : Matrix) (h h' : Handle) (w w' : World) :
  valid_csr a -> valid_csr b -> can_multiply a b = true ->
  errno (snd (matr_mult_csr_V2 a b h w)) = 0 ->
  (errno (snd (matr_mult_csr_V3 a b h' w')) = 0 ->
   fst (matr_mult_csr_V3 a b h' w') = fst (matr_mult_csr_V2 a b h w))
  /\ (cpu_avx w' = true -> errno (snd (matr_mult_csr_V4 a b h' w')) = 0 ->
      fst (matr_mult_csr_V4 a b h' w') = fst (matr_mult_csr_V2 a b h w)).
Proof.
  intros Va Vb Hmul E2.
  apply valid_csr_invariants in Va. apply valid_csr_invariants in Vb.
  destruct (matr_mult_csr_V2_success a b Hmul h w E2) as (w2 & F2 & ->).
  split.
  - intros E3.
    destruct (matr_mult_csr_V3_success a b Va Vb Hmul h' w' E3) as (w3 & F3 & ->).
    apply finish_with_clean_up_world; assumption.
  - intros Havx E4.
    destruct (matr_mult_csr_V4_success a b Va Vb Hmul h' w' Havx E4) as (w4 & F4 & ->).
    apply finish_with_clean_up_world; assumption.
Qed.

Lemma gustavson_entry_points_agree_witness :
  fst (matr_mult_csr_V3 Wide.A Wide.B blank_handle (generous false 1))
  = fst (matr_mult_csr_V2 Wide.A Wide.B blank_handle (generous true 4))
  /\ fst (matr_mult_csr_V4 Wide.A Wide.B blank_handle (generous true 2))
     = fst (matr_mult_csr_V2 Wide.A Wide.B blank_handle (generous true 4)).
Proof.
  split.
  - apply (proj1 (gustavson_entry_points_agree Wide.A Wide.B blank_handle blank_handle
                    (generous true 4) (generous false 1)
                    ltac:(vm_compute; reflexivity) ltac:(vm_compute; reflexivity)
                    ltac:(vm_compute; reflexivity) ltac:(vm_compute; reflexivity))).
    vm_compute. reflexivity.
  - apply (proj2 (gustavson_entry_points_agree Wide.A Wide.B blank_handle blank_handle
                    (generous true 4) (generous true 2)
                    ltac:(vm_compute; reflexivity) ltac:(vm_compute; reflexivity)
                    ltac:(vm_compute; reflexivity) ltac:(vm_compute; reflexivity)));
      vm_compute; reflexivity.
Defined.

(** X3 -- when [start_threads] returns 0 (every allocation and every
    [pthread_create] succeeded), the workers, each run on its row range,
    leave in the result matrix exactly what [multiply_V2] leaves there. *)
Theorem started_workers_compute_V2 (a b res : Matrix) (thread_count : Z) (w : World) :
  1 <= noRows a < modulus64 -> 1 <= thread_count < modulus32 ->
  fst (fst (start_threads thread_count a b res w)) = 0 ->
  snd (fst (start_threads thread_count a b res w)) = multiply_V2 a b res.
Proof. exact (start_threads_rows a b thread_count res w). Qed.

Lemma started_workers_compute_V2_witness :
  snd (fst (start_threads 2 Wide.A Wide.B (full_buffer Wide.A Wide.B)
                          (generous true 4)))
  = multiply_V2 Wide.A Wide.B (full_buffer Wide.A Wide.B).
Proof.
  apply (started_workers_compute_V2 Wide.A Wide.B (full_buffer Wide.A Wide.B) 2
           (generous true 4));
    vm_compute; first [reflexivity | split; [intros D; discriminate D|reflexivity]].
Defined.

Lemma malloc_frame size w :
  errno (snd (malloc size w)) = errno w
  /\ thread_calls (snd (malloc size w)) = thread_calls w.
Proof. split; reflexivity. Qed.

Lemma malloc_each_frame n size w :
  errno (snd (malloc_each n size w)) = errno w
  /\ thread_calls (snd (malloc_each n size w)) = thread_calls w.
Proof.
  revert w. induction n as [|n IH]; intros w; [split; reflexivity|].
  cbn [malloc_each]. unfold bind, malloc, heap_request.
  destruct (heap_grants w (heap_calls w)).
  - destruct (IH (mkWorld (errno w) (S (heap_calls w)) (heap_grants w)
                          (thread_calls w) (thread_grants w) (cpu_avx w) (nprocs w)))
      as [He Ht].
    split; [exact He|exact Ht].
  - split; reflexivity.
Qed.

Lemma spawn_workers_frame a b args res w :
  (fst (fst (spawn_workers a b args res w)) = 0
   \/ fst (fst (spawn_workers a b args res w)) = THREAD_START_ERROR)
  /\ errno (snd (spawn_workers a b args res w)) = errno w.
Proof.
  revert res w. induction args as [|arg args IH]; intros res w.
  - split; [left|]; reflexivity.
  - cbn [spawn_workers]. unfold bind, pthread_create.
    destruct (thread_grants w (thread_calls w)).
    + destruct (IH (multiply_main_implementation a b arg res)
                   (mkWorld (errno w) (heap_calls w) (heap_grants w)
                            (S (thread_calls w)) (thread_grants w) (cpu_avx w)
                            (nprocs w))) as [Hrc He].
      split; [exact Hrc|exact He].
    + split; [right|]; reflexivity.
Qed.

(** X4 -- the failures of [start_threads].  With a thread count of 0 it
    returns [THREAD_START_ERROR] at once, before any allocation or thread
    start; when it returns [HEAP_MEMORY_ERROR] no thread has been started
    and the result matrix is as it was; and it returns nothing but 0,
    [HEAP_MEMORY_ERROR] and [THREAD_START_ERROR]. *)
Theorem start_threads_failures (a b res : Matrix) (thread_count : Z) (w : World) :
  start_threads 0 a b res w = (THREAD_START_ERROR, res, w)
  /\ (fst (fst (start_threads thread_count a b res w)) = HEAP_MEMORY_ERROR ->
      snd (fst (start_threads thread_count a b res w)) = res
      /\ thread_calls (snd (start_threads thread_count a b res w)) = thread_calls w)
  /\ (fst (fst (start_threads thread_count a b res w)) = 0
      \/ fst (fst (start_threads thread_count a b res w)) = HEAP_MEMORY_ERROR
      \/ fst (fst (start_threads thread_count a b res w)) = THREAD_START_ERROR).
Proof.
  split; [reflexivity|].
  unfold start_threads.
  destruct (thread_count =? 0).
  { cbn. split; [intros D; discriminate D|auto]. }
  unfold bind.
  pose proof (malloc_frame (sizeof_ptr * thread_count) w) as [_ Ht1].
  destruct (malloc (sizeof_ptr * thread_count) w) as [[|] w1]; cbn [negb snd] in *;
    [|cbn [fst snd ret]; split; [auto|auto]].
  destruct (malloc_each_frame (Z.to_nat thread_count) sizeof_MultiplyArg w1)
    as [_ Ht2].
  destruct (malloc_each (Z.to_nat thread_count) sizeof_MultiplyArg w1) as [[|] w2];
    cbn [negb snd] in *;
    [|cbn [fst snd ret]; split; [intros _; split; congruence|auto]].
  pose proof (malloc_frame (sizeof_pthread_t * thread_count) w2) as [_ Ht3].
  destruct (malloc (sizeof_pthread_t * thread_count) w2) as [[|] w3];
    cbn [negb snd] in *;
    [|cbn [fst snd ret]; split; [intros _; split; congruence|auto]].
  destruct (spawn_workers_frame a b (make_arguments (noRows a) thread_count) res w3)
    as [Hrc _].
  cbv zeta.
  split.
  - intros D. destruct Hrc as [Hrc|Hrc]; rewrite Hrc in D; discriminate D.
  - destruct Hrc as [Hrc|Hrc]; auto.
Qed.

(** X5 -- the thread count that [matr_mult_csr] passes to [start_threads]
    for a matrix of at least two rows is [max 2 (min (rows / 40) procs)]
    (the second weight, [rows / 4], never decides); it lies between 2 and
    the number of rows and survives the conversion to [unsigned int]; and
    with it every worker receives [rows / thread_count] rows or one more,
    hence at least one row. *)
Theorem thread_count_keeps_workers_busy (rows available_threads : Z) :
  2 <= rows < modulus64 -> 0 <= available_threads < modulus32 ->
  let thread_count := choose_thread_count rows available_threads in
  thread_count = Z.max 2 (Z.min (rows / 40) available_threads)
  /\ 2 <= thread_count <= rows
  /\ wrap32 thread_count = thread_count
  /\ forall k, 0 <= k < thread_count ->
       let arg := arg_at (make_arguments rows thread_count) k in
       1 <= rows / thread_count <= end_row arg - start_row arg
       /\ end_row arg - start_row arg <= rows / thread_count + 1.
Proof.
  intros Hrows Havail. cbv zeta.
  assert (Hweights : rows / 40 <= rows / 4)
    by (apply Z.div_le_compat_l; lia).
  assert (Hsmall : 0 <= rows / 40 <= rows).
  { split; [apply Z.div_pos; lia|].
    apply Z.div_le_upper_bound; lia. }
  assert (E : choose_thread_count rows available_threads
              = Z.max 2 (Z.min (rows / 40) available_threads)).
  { unfold choose_thread_count, THREAD_COND_MIN_VALUES, THREAD_COND_MIN_ROWS,
      MIN_THREADS. cbv zeta.
    destruct (Z.ltb_spec (rows / 40) (rows / 4));
      match goal with
      | |- context [?x <? available_threads] =>
          destruct (Z.ltb_spec x available_threads)
      end;
      match goal with
      | |- context [?x <? 2] => destruct (Z.ltb_spec x 2)
      end; lia. }
  rewrite E. set (tc := Z.max 2 (Z.min (rows / 40) available_threads)).
  assert (Htc : 2 <= tc <= rows) by (unfold tc; lia).
  split; [reflexivity|]. split; [exact Htc|].
  assert (Hword : 2 < modulus32) by reflexivity.
  assert (Hwrap : 0 <= tc < modulus32) by (unfold tc; lia).
  split; [apply wrap32_small; exact Hwrap|].
  intros k Hk.
  destruct (make_arguments_spec rows tc ltac:(lia) ltac:(lia)) as [_ Hargs].
  rewrite (Hargs k Hk). cbn [start_row end_row].
  rewrite (boundary_step rows tc k) by lia.
  assert (Hstep : 1 <= rows / tc) by (apply Z.div_le_lower_bound; lia).
  destruct (k <? rows mod tc); lia.
Qed.

Lemma thread_count_keeps_workers_busy_witness :
  choose_thread_count 200 4 = Z.max 2 (Z.min (200 / 40) 4)
  /\ 2 <= choose_thread_count 200 4 <= 200
  /\ wrap32 (choose_thread_count 200 4) = choose_thread_count 200 4
  /\ forall k, 0 <= k < choose_thread_count 200 4 ->
       1 <= 200 / choose_thread_count 200 4
            <= end_row (arg_at (make_arguments 200 (choose_thread_count 200 4)) k)
               - start_row (arg_at (make_arguments 200 (choose_thread_count 200 4)) k)
       /\ end_row (arg_at (make_arguments 200 (choose_thread_count 200 4)) k)
          - start_row (arg_at (make_arguments 200 (choose_thread_count 200 4)) k)
          <= 200 / choose_thread_count 200 4 + 1.
Proof.
  apply (thread_count_keeps_workers_busy 200 4); split; vm_compute;
    first [reflexivity | intros D; discriminate D].
Defined.

(** ** The validators of the matrix reader *)

Lemma check_values_iff values values_size noRows noCols :
  0 <= values_size ->
  _check_values values values_size noRows noCols = 0
  <-> values_size <= mul64 noRows noCols
      /\ forall i, 0 <= i < values_size -> F32.ne0 (aget values i F32.zero) = true.
Proof.
  intros Hsize. unfold _check_values.
  destruct (Z.ltb_spec (mul64 noRows noCols) values_size) as [Hlt|Hle].
  - split; [intros D; discriminate D|intros [H _]; lia].
  - pose proof (all_lt_true 0 values_size
                  (fun i => negb (F32.eq0 (aget values i F32.zero))) Hsize) as H.
    destruct (all_lt 0 values_size _).
    + split; [intros _; split; [exact Hle|apply H; reflexivity]|reflexivity].
    + split; [intros D; discriminate D|].
      intros [_ Hall]. apply H in Hall. discriminate Hall.
Qed.

Lemma check_col_indices_iff colIndices col_indices_size values_size noCols :
  0 <= col_indices_size ->
  _check_col_indices colIndices col_indices_size values_size noCols = 0
  <-> col_indices_size = values_size
      /\ forall i, 0 <= i < col_indices_size -> aget colIndices i 0 < noCols.
Proof.
  intros Hsize. unfold _check_col_indices.
  destruct (Z.eqb_spec col_indices_size values_size) as [E|Hne]; cbn [negb].
  - pose proof (all_lt_true 0 col_indices_size
                  (fun i => negb (noCols <=? aget colIndices i 0)) Hsize) as H.
    destruct (all_lt 0 col_indices_size _).
    + split; [|reflexivity]. intros _. split; [exact E|].
      intros i Hi. pose proof (proj1 H eq_refl i Hi) as Hp. cbv beta in Hp.
      destruct (Z.leb_spec noCols (aget colIndices i 0)); [discriminate Hp|lia].
    + split; [intros D; discriminate D|].
      intros [_ Hall].
      assert (D : false = true); [|discriminate D].
      apply H. intros i Hi. specialize (Hall i Hi).
      destruct (Z.leb_spec noCols (aget colIndices i 0)); [lia|reflexivity].
  - split; [intros D; discriminate D|intros [E _]; contradiction].
Qed.

Lemma check_row_pointers_loop rowPointers noCols n :
  1 <= n ->
  let st := for_lt 1 n
              (fun i (st : bool * Z) =>
                 let '(running, prev_row_ptr) := st in
                 if running then
                   let next_row_ptr := aget rowPointers i 0 in
                   if noCols <? sub64 next_row_ptr prev_row_ptr
                   then (false, prev_row_ptr)
                   else (true, next_row_ptr)
                 else st)
              (true, aget rowPointers 0 0) in
  (fst st = true
   <-> forall j, 1 <= j < n ->
         sub64 (aget rowPointers j 0) (aget rowPointers (j - 1) 0) <= noCols)
  /\ (fst st = true -> snd st = aget rowPointers (n - 1) 0).
Proof.
  intros Hn. cbv zeta.
  apply (for_lt_invariant
           (fun i (st : bool * Z) =>
              (fst st = true
               <-> forall j, 1 <= j < i ->
                     sub64 (aget rowPointers j 0) (aget rowPointers (j - 1) 0)
                     <= noCols)
              /\ (fst st = true -> snd st = aget rowPointers (i - 1) 0)));
    [exact Hn| |].
  - cbn [fst snd]. split; [split; [intros _ j Hj; lia|reflexivity]|].
    intros _. reflexivity.
  - intros i [running prev] Hi [Hiff Hprev]. cbn [fst snd] in *.
    destruct running.
    + specialize (Hprev eq_refl). subst prev.
      destruct (Z.ltb_spec noCols (sub64 (aget rowPointers i 0)
                                         (aget rowPointers (i - 1) 0)))
        as [Hbig|Hok]; cbn [fst snd].
      * split; [|intros D; discriminate D].
        split; [intros D; discriminate D|].
        intros H. specialize (H i ltac:(lia)). lia.
      * split; [|intros _; f_equal; lia].
        split; [|reflexivity]. intros _ j Hj.
        destruct (Z.eq_dec j i) as [->|Hne]; [exact Hok|].
        apply (proj1 Hiff eq_refl). lia.
    + cbn [fst snd]. split; [|intros D; discriminate D].
      split; [intros D; discriminate D|].
      intros H. apply Hiff. intros j Hj. apply H. lia.
Qed.

Lemma check_row_pointers_iff rowPointers row_pointers_size values_size noRows noCols :
  _check_row_pointers rowPointers row_pointers_size values_size noRows noCols = 0
  <-> 2 <= row_pointers_size
      /\ row_pointers_size = add64 noRows 1
      /\ aget rowPointers 0 0 = 0
      /\ (forall j, 1 <= j < row_pointers_size ->
            sub64 (aget rowPointers j 0) (aget rowPointers (j - 1) 0) <= noCols)
      /\ aget rowPointers (row_pointers_size - 1) 0 = values_size.
Proof.
  unfold _check_row_pointers.
  destruct (Z.ltb_spec row_pointers_size 2) as [Hsmall|Hsize]; cbn [orb].
  { split; [intros D; discriminate D|intros (H & _); lia]. }
  destruct (Z.eqb_spec row_pointers_size (add64 noRows 1)) as [E|Hne]; cbn [negb].
  2:{ split; [intros D; discriminate D|intros (_ & H & _); contradiction]. }
  cbv zeta.
  destruct (Z.eqb_spec (aget rowPointers 0 0) 0) as [E0|Hne]; cbn [negb].
  2:{ split; [intros D; discriminate D|intros (_ & _ & H & _); contradiction]. }
  pose proof (check_row_pointers_loop rowPointers noCols row_pointers_size
                ltac:(lia)) as H.
  cbv zeta in H. destruct (for_lt 1 row_pointers_size _ _) as [running prev].
  cbn [fst snd] in H. destruct H as [Hiff Hprev].
  destruct running; cbn [negb].
  - specialize (Hprev eq_refl). subst prev.
    destruct (Z.eqb_spec (aget rowPointers (row_pointers_size - 1) 0) values_size)
      as [El|Hne]; cbn [negb].
    + split; [|reflexivity]. intros _.
      repeat split; try assumption; try lia. apply Hiff. reflexivity.
    + split; [intros D; discriminate D|intros (_ & _ & _ & _ & H); contradiction].
  - split; [intros D; discriminate D|].
    intros (_ & _ & _ & H & _). apply Hiff in H. discriminate H.
Qed.

Lemma in64_aget l j : Forall in64 l -> in64 (aget l j 0).
Proof.
  intros H. unfold aget.
  destruct ((0 <=? j) && (j <? zlength l)) eqn:E.
  - apply andb_true_iff in E. destruct E as [E1 E2].
    apply Z.leb_le in E1. apply Z.ltb_lt in E2.
    rewrite Forall_forall in H. apply H, nth_In. unfold zlength in E2. lia.
  - split; [lia|reflexivity].
Qed.

Lemma sub64_cases x y :
  in64 x -> in64 y ->
  (y <= x /\ sub64 x y = x - y) \/ (x < y /\ sub64 x y = x - y + modulus64).
Proof.
  unfold in64. intros Hx Hy. destruct (Z_le_gt_dec y x) as [Hle|Hgt].
  - left. split; [exact Hle|]. apply sub64_small. lia.
  - right. split; [lia|]. unfold sub64, wrap64. symmetry.
    apply (Z.mod_unique _ _ (-1)); lia.
Qed.

Section CheckedMatrix.
Variable m : Matrix.
Hypothesis arrays : parsed m.
Hypothesis rows_positive : 1 <= noRows m.
Hypothesis cols_positive : 1 <= noCols m.
Hypothesis rows_fit : noRows m + 1 < modulus64.
Hypothesis cells_fit : noRows m * noCols m < modulus64.

Lemma checked_pointers_grow :
  (forall j, 1 <= j < noRows m + 1 ->
     sub64 (rowptr_at m j) (rowptr_at m (j - 1)) <= noCols m) ->
  rowptr_at m 0 = 0 ->
  forall j, 0 <= j -> j <= noRows m ->
    0 <= rowptr_at m j <= j * noCols m
    /\ (1 <= j -> 0 <= rowptr_at m j - rowptr_at m (j - 1) <= noCols m).
Proof.
  destruct arrays as (_ & Hrp & _).
  intros Hstep H0 j Hj. pattern j. apply (Z_induction_from 0); [| |exact Hj].
  - intros _. rewrite H0. split; [lia|intros H; lia].
  - intros x Hx IH Hle. specialize (IH ltac:(lia)). destruct IH as [IH _].
    specialize (Hstep (x + 1) ltac:(lia)).
    replace (x + 1 - 1) with x in * by lia.
    pose proof (in64_aget _ (x + 1) Hrp) as Hnext. unfold in64 in Hnext.
    fold (rowptr_at m (x + 1)) in Hnext.
    assert (Hcells : (x + 1) * noCols m <= noRows m * noCols m) by nia.
    destruct (sub64_cases (rowptr_at m (x + 1)) (rowptr_at m x)
                (in64_aget _ (x + 1) Hrp) (in64_aget _ x Hrp)) as [[Hge E]|[Hlt E]];
      rewrite E in Hstep.
    + split; [lia|intros _; lia].
    + exfalso. lia.
Qed.

Lemma checked_implies_valid :
  passes_checks m ->
  csr_invariants m /\ forall r, 0 <= r < noRows m -> row_length m r <= noCols m.
Proof.
  destruct arrays as (Hcols & Hrp & Hvlen & Hrlen).
  intros (Hv & Hc & Hr).
  assert (Hvs : 0 <= valuesSize m) by (rewrite <- Hvlen; apply zlength_nonneg).
  apply check_values_iff in Hv; [|exact Hvs]. destruct Hv as [Hmax Hnz].
  apply check_col_indices_iff in Hc; [|apply zlength_nonneg].
  destruct Hc as [Hclen Hcol].
  apply check_row_pointers_iff in Hr.
  destruct Hr as (Hsize & Hsize' & H0 & Hstep & Hlast).
  rewrite add64_small in Hsize' by lia. rewrite Hsize' in Hstep, Hlast.
  replace (noRows m + 1 - 1) with (noRows m) in Hlast by lia.
  pose proof (checked_pointers_grow Hstep H0) as Hgrow.
  unfold rowptr_at in Hgrow.
  split.
  - constructor; try assumption; try lia; unfold rowptr_at.
    + nia.
    + rewrite <- Hlast. destruct (Hgrow (noRows m) ltac:(lia) ltac:(lia)) as [H _].
      lia.
    + intros r Hr. destruct (Hgrow (r + 1) ltac:(lia) ltac:(lia)) as [_ H].
      specialize (H ltac:(lia)). replace (r + 1 - 1) with r in H by lia. lia.
    + intros i Hi. split.
      * apply (in64_aget _ i Hcols).
      * apply Hcol. lia.
  - intros r Hr. destruct (Hgrow (r + 1) ltac:(lia) ltac:(lia)) as [_ H].
    specialize (H ltac:(lia)). replace (r + 1 - 1) with r in H by lia.
    unfold row_length, rowptr_at. lia.
Qed.

Lemma valid_implies_checked :
  csr_invariants m -> (forall r, 0 <= r < noRows m -> row_length m r <= noCols m) ->
  passes_checks m.
Proof.
  intros valid Hrows.
  assert (Hvs : 0 <= valuesSize m)
    by (rewrite <- (inv_values_length m valid); apply zlength_nonneg).
  assert (Hbound : forall j, 0 <= j -> j <= noRows m -> rowptr_at m j <= j * noCols m).
  { intros j Hj. pattern j. apply (Z_induction_from 0); [| |exact Hj].
    - intros _. rewrite (inv_first m valid). lia.
    - intros x Hx IH Hle. specialize (IH ltac:(lia)).
      specialize (Hrows x ltac:(lia)). unfold row_length in Hrows. lia. }
  split; [|split].
  - apply check_values_iff; [exact Hvs|]. split.
    + rewrite mul64_small by nia. rewrite <- (inv_last m valid).
      apply Hbound; lia.
    + intros i Hi. apply (inv_nonzero m valid i Hi).
  - apply check_col_indices_iff; [apply zlength_nonneg|].
    split; [apply (inv_colIndices_length m valid)|].
    intros i Hi. rewrite (inv_colIndices_length m valid) in Hi.
    apply (inv_columns m valid i Hi).
  - apply check_row_pointers_iff.
    rewrite add64_small by lia. rewrite (inv_rowPointersSize m valid).
    split; [lia|]. split; [reflexivity|]. split; [apply (inv_first m valid)|].
    split.
    + intros j Hj. fold (rowptr_at m j) (rowptr_at m (j - 1)).
      pose proof (inv_monotone m valid (j - 1) ltac:(lia)) as Hmono.
      pose proof (Hrows (j - 1) ltac:(lia)) as Hlen. unfold row_length in Hlen.
      replace (j - 1 + 1) with j in * by lia.
      pose proof (rowptr_range m valid j ltac:(lia)).
      pose proof (rowptr_range m valid (j - 1) ltac:(lia)).
      pose proof (inv_valuesSize m valid).
      rewrite sub64_small by lia. lia.
    + replace (noRows m + 1 - 1) with (noRows m) by lia. apply (inv_last m valid).
Qed.

End CheckedMatrix.

(** X6 -- for arrays as the reader parses them, positive dimensions and a
    cell count [noRows * noCols] that fits [uint64_t], the three checks
    [_check_values], [_check_col_indices] and [_check_row_pointers] all
    return 0 exactly when the matrix satisfies the CSR invariants and no
    row holds more than [noCols] entries.  (Distinct column indices within
    a row are not part of what is checked.) *)
Theorem checks_accept_exactly_valid (m : Matrix) :
  parsed m -> 1 <= noRows m -> 1 <= noCols m ->
  noRows m + 1 < modulus64 -> noRows m * noCols m < modulus64 ->
  (passes_checks m
   <-> valid_csr m /\ forall r, 0 <= r < noRows m -> row_length m r <= noCols m).
Proof.
  intros Hparsed Hrows Hcols Hfit Hcells. split.
  - intros Hpass.
    destruct (checked_implies_valid m Hparsed Hrows Hcols Hfit Hcells Hpass)
      as [Hvalid Hlen].
    split; [apply valid_csr_invariants; exact Hvalid|exact Hlen].
  - intros [Hvalid Hlen]. apply valid_csr_invariants in Hvalid.
    exact (valid_implies_checked m Hrows Hcols Hfit Hcells Hvalid Hlen).
Qed.

Lemma checks_accept_exactly_valid_witness :
  passes_checks Scenario.A
  <-> valid_csr Scenario.A
      /\ forall r, 0 <= r < noRows Scenario.A ->
                   row_length Scenario.A r <= noCols Scenario.A.
Proof.
  apply (checks_accept_exactly_valid Scenario.A).
  - unfold parsed. repeat split; try reflexivity;
      repeat constructor; vm_compute; first [reflexivity|intros D; discriminate D].
  - vm_compute. intros D; discriminate D.
  - vm_compute. intros D; discriminate D.
  - reflexivity.
  - reflexivity.
Defined.

(** ** [sort_matrix] is an insertion sort *)

Lemma swapped_entries m cur j :
  zlength (colIndices m) = valuesSize m -> zlength (values m) = valuesSize m ->
  0 <= cur < valuesSize m -> 0 <= j < valuesSize m ->
  let m' := set_values
              (set_colIndices m (swap_guarded (colIndices m) (valuesSize m) cur j 0))
              (swap_guarded (values m) (valuesSize m) cur j F32.zero) in
  valuesSize m' = valuesSize m
  /\ zlength (colIndices m') = valuesSize m
  /\ zlength (values m') = valuesSize m
  /\ forall k, col_at m' k = col_at m (transpose cur j k)
               /\ val_at m' k = val_at m (transpose cur j k).
Proof.
  intros Hc Hv Hcur Hj. cbv zeta. unfold swap_guarded.
  replace ((cur <? valuesSize m) && (j <? valuesSize m)) with true
    by (symmetry; apply andb_true_iff; split; apply Z.ltb_lt; lia).
  cbn [valuesSize colIndices values set_values set_colIndices].
  rewrite !zlength_aset. repeat split; try assumption.
  - unfold col_at. cbn [colIndices set_values set_colIndices].
    apply aget_swap; lia.
  - unfold val_at. cbn [values set_values set_colIndices].
    apply aget_swap; lia.
Qed.

Section InsertionSort.
Variable beg : Z.
Hypothesis beg_positive : 1 <= beg.

(** The columns of the positions [beg .. i] other than [cur] are in
    order. *)
Let sorted_around (m : Matrix) (i cur : Z) : Prop :=
  forall x y, beg <= x -> x < y -> y <= i -> x <> cur -> y <> cur ->
              col_at m x <= col_at m y.

Let arrays_of (m m' : Matrix) : Prop :=
  valuesSize m' = valuesSize m
  /\ zlength (colIndices m') = valuesSize m
  /\ zlength (values m') = valuesSize m.

Let untouched (m m' : Matrix) (i : Z) : Prop :=
  forall k, k < beg \/ i < k ->
            col_at m' k = col_at m k /\ val_at m' k = val_at m k.

Lemma sift_down_inserts n i col cur m :
  zlength (colIndices m) = valuesSize m -> zlength (values m) = valuesSize m ->
  valuesSize m < modulus64 ->
  beg <= cur <= i -> i < valuesSize m ->
  col_at m cur = col ->
  sorted_around m i cur ->
  (forall k, cur < k <= i -> col < col_at m k) ->
  cur - beg + 1 <= Z.of_nat n ->
  let m' := sift_down n beg col cur (sub64 cur 1) m in
  (forall x y, beg <= x -> x <= y -> y <= i -> col_at m' x <= col_at m' y)
  /\ arrays_of m m' /\ untouched m m' i.
Proof.
  revert cur m. induction n as [|n IH];
    intros cur m Hc Hv Hfit Hcur Hi Hcol Hsorted Habove Hfuel; [lia|].
  cbv zeta. cbn [sift_down]. rewrite sub64_small by lia.
  assert (Hdone :
            (cur = beg \/ col_at m (cur - 1) <= col) ->
            (forall x y, beg <= x -> x <= y -> y <= i -> col_at m x <= col_at m y)).
  { intros Hstop x y Hx Hxy Hy.
    destruct (Z.eq_dec x y) as [->|Hne]; [lia|].
    destruct (Z.eq_dec x cur) as [->|Hxc].
    - rewrite Hcol. specialize (Habove y ltac:(lia)). lia.
    - destruct (Z.eq_dec y cur) as [->|Hyc].
      + rewrite Hcol. destruct Hstop as [->|Hstop]; [lia|].
        destruct (Z.eq_dec x (cur - 1)) as [->|Hx1]; [exact Hstop|].
        specialize (Hsorted x (cur - 1) ltac:(lia) ltac:(lia) ltac:(lia)
                            ltac:(lia) ltac:(lia)). lia.
      + apply Hsorted; lia. }
  assert (Hsame : arrays_of m m /\ untouched m m i).
  { split; [repeat split; assumption|]. intros k _. split; reflexivity. }
  destruct (Z.leb_spec beg (cur - 1)) as [Hmore|Hstop].
  2:{ split; [apply Hdone; left; lia|exact Hsame]. }
  destruct (Z.ltb_spec col (col_at m (cur - 1))) as [Hlt|Hge].
  2:{ split; [apply Hdone; right; lia|exact Hsame]. }
  destruct (swapped_entries m cur (cur - 1) Hc Hv ltac:(lia) ltac:(lia))
    as (Hsize & Hc' & Hv' & Hat).
  set (m1 := set_values _ _) in *.
  assert (Hcols : forall k, col_at m1 k = col_at m (transpose cur (cur - 1) k))
    by (intros k; apply Hat).
  specialize (IH (cur - 1) m1 ltac:(lia) ltac:(lia) ltac:(lia) ltac:(lia) ltac:(lia)).
  cbv zeta in IH.
  destruct IH as (Hs & (A1 & A2 & A3) & Hu).
  - rewrite Hcols. unfold transpose.
    destruct (Z.eqb_spec (cur - 1) cur); [lia|].
    rewrite Z.eqb_refl. exact Hcol.
  - intros x y Hx Hxy Hy Hxc Hyc. rewrite !Hcols. unfold transpose.
    destruct (Z.eqb_spec x cur) as [->|Hx'];
      destruct (Z.eqb_spec y cur) as [->|Hy']; try lia.
    + destruct (Z.eqb_spec y (cur - 1)); [lia|].
      specialize (Hsorted (cur - 1) y ltac:(lia) ltac:(lia) ltac:(lia)
                          ltac:(lia) ltac:(lia)). exact Hsorted.
    + destruct (Z.eqb_spec x (cur - 1)); [lia|].
      specialize (Hsorted x (cur - 1) ltac:(lia) ltac:(lia) ltac:(lia)
                          ltac:(lia) ltac:(lia)). exact Hsorted.
    + destruct (Z.eqb_spec x (cur - 1)); [lia|].
      destruct (Z.eqb_spec y (cur - 1)); [lia|].
      apply Hsorted; lia.
  - intros k Hk. rewrite Hcols. unfold transpose.
    destruct (Z.eqb_spec k cur) as [->|Hkc]; [exact Hlt|].
    destruct (Z.eqb_spec k (cur - 1)); [lia|]. apply Habove. lia.
  - lia.
  - split; [exact Hs|]. split.
    + repeat split; congruence.
    + intros k Hk. destruct (Hu k Hk) as [U1 U2]. rewrite U1, U2.
      destruct (Hat k) as [T1 T2]. rewrite T1, T2. unfold transpose.
      destruct (Z.eqb_spec k cur); [lia|].
      destruct (Z.eqb_spec k (cur - 1)); [lia|]. split; reflexivity.
Qed.

Lemma sort_steps_sort m i :
  zlength (colIndices m) = valuesSize m -> zlength (values m) = valuesSize m ->
  valuesSize m < modulus64 ->
  beg <= i -> i <= valuesSize m ->
  let m' := for_lt beg i (sort_step beg) m in
  (forall x y, beg <= x -> x <= y -> y < i -> col_at m' x <= col_at m' y)
  /\ arrays_of m m' /\ untouched m m' (i - 1).
Proof.
  intros Hc Hv Hfit Hi. pattern i. apply (Z_induction_from beg); [| |exact Hi].
  - intros _. cbv zeta. rewrite for_lt_empty by lia.
    split; [intros x y Hx Hxy Hy; lia|].
    split; [repeat split; assumption|]. intros k _. split; reflexivity.
  - intros x Hx IH Hle. specialize (IH ltac:(lia)). cbv zeta in IH.
    destruct IH as (Hs & (A1 & A2 & A3) & Hu).
    cbv zeta. rewrite for_lt_last by lia.
    set (m1 := for_lt beg x (sort_step beg) m) in *.
    unfold sort_step.
    destruct (sift_down_inserts (Z.to_nat (x - beg + 1)) x (col_at m1 x) x m1)
      as (Hs' & (B1 & B2 & B3) & Hu'); try lia; try congruence.
    + unfold sorted_around. intros p q Hp Hpq Hq Hpx Hqx. apply Hs; lia.
    + split; [intros p q Hp Hpq Hq; apply Hs'; lia|].
      split; [repeat split; congruence|].
      intros k Hk. destruct (Hu' k ltac:(lia)) as [U1 U2].
      destruct (Hu k ltac:(lia)) as [U3 U4]. split; congruence.
Qed.

End InsertionSort.

(** X7 -- [sort_matrix] on a segment [beg .. end] that lies inside the
    arrays and does not start at position 0 returns, leaves the columns of
    that segment in ascending order, keeps every (column, value) pair (the
    two arrays are permuted together, the row pointers are not touched) and
    leaves every position outside the segment as it was. *)
Theorem sort_matrix_sorts (m : Matrix) (beg end_ : Z) :
  zlength (colIndices m) = valuesSize m -> zlength (values m) = valuesSize m ->
  valuesSize m < modulus64 ->
  1 <= beg -> beg <= end_ + 1 -> end_ < valuesSize m ->
  exists m',
    sort_matrix m beg end_ = Some m'
    /\ (forall x y, beg <= x -> x <= y -> y <= end_ -> col_at m' x <= col_at m' y)
    /\ reordered m m'
    /\ forall k, k < beg \/ end_ < k ->
                 col_at m' k = col_at m k /\ val_at m' k = val_at m k.
Proof.
  intros Hc Hv Hfit Hbeg Hend Hin.
  assert (E : sort_matrix m beg end_
              = Some (for_lt beg (end_ + 1) (sort_step beg) m)).
  { unfold sort_matrix. destruct (Z.eqb_spec end_ max64) as [->|_]; [|reflexivity].
    unfold max64 in Hin. lia. }
  exists (for_lt beg (end_ + 1) (sort_step beg) m). split; [exact E|].
  destruct (sort_steps_sort beg Hbeg m (end_ + 1) Hc Hv Hfit Hend ltac:(lia))
    as (Hsorted & _ & Hframe).
  split; [intros x y Hx Hxy Hy; apply Hsorted; lia|].
  split.
  - exact (proj1 (kept_sort_matrix m m beg end_ _ ltac:(lia)
                    (kept_initial m Hv Hc) E)).
  - intros k Hk. apply Hframe. lia.
Qed.

Lemma sort_matrix_sorts_witness :
  exists m',
    sort_matrix Shuffled.M 1 3 = Some m'
    /\ (forall x y, 1 <= x -> x <= y -> y <= 3 -> col_at m' x <= col_at m' y)
    /\ reordered Shuffled.M m'
    /\ forall k, k < 1 \/ 3 < k ->
                 col_at m' k = col_at Shuffled.M k /\ val_at m' k = val_at Shuffled.M k.
Proof.
  apply (sort_matrix_sorts Shuffled.M 1 3); try reflexivity;
    vm_compute; intros D; discriminate D.
Defined.

(** ** The matrix that [ordinary_to_csr] builds *)

Lemma aget_In {A} (l : list A) (i : Z) (d : A) :
  0 <= i < zlength l -> In (aget l i d) l.
Proof.
  intros H. rewrite aget_in_range by exact H. apply nth_In.
  unfold zlength in H. lia.
Qed.

Lemma nz_cells_increasing row j :
  0 <= j ->
  forall x y, 0 <= x -> x < y -> y < zlength (nz_cells row j) ->
    fst (aget (nz_cells row j) x (0, F32.zero))
    < fst (aget (nz_cells row j) y (0, F32.zero)).
Proof.
  intros Hj. pattern j. apply (Z_induction_from 0); [| |exact Hj].
  - intros x y Hx Hxy Hy. unfold nz_cells in Hy. rewrite zrange_empty in Hy by lia.
    cbn in Hy. lia.
  - intros k Hk IH x y Hx Hxy Hy. rewrite nz_cells_snoc in * by lia.
    destruct (F32.ne0 (aget row k F32.zero)).
    + rewrite zlength_app in Hy. change (zlength [(k, aget row k F32.zero)]) with 1 in Hy.
      rewrite (aget_app_l _ _ x) by lia.
      destruct (Z_lt_dec y (zlength (nz_cells row k))) as [Hin|Hlast].
      * rewrite (aget_app_l _ _ y) by lia. apply IH; lia.
      * rewrite (aget_app_r _ _ y) by lia.
        replace (y - zlength (nz_cells row k)) with 0 by lia. cbn [aget].
        change (aget [(k, aget row k F32.zero)] 0 (0, F32.zero))
          with (k, aget row k F32.zero). cbn [fst].
        pose proof (aget_In (nz_cells row k) x (0, F32.zero) ltac:(lia)) as Hmem.
        apply (in_map fst) in Hmem. apply nz_cells_columns_below in Hmem. lia.
    + rewrite app_nil_r in *. apply IH; lia.
Qed.

Lemma in_nz_upto cols d i k v :
  In (k, v) (nz_upto cols d i) -> 0 <= k < cols /\ F32.ne0 v = true.
Proof.
  unfold nz_upto. intros H. apply in_flat_map in H. destruct H as (r & _ & H).
  apply in_nz_cells in H. tauto.
Qed.

Section DenseToCsr.
Variables (rows cols : Z) (d : dense).
Hypothesis rows_range : 0 <= rows /\ rows + 1 < modulus64.
Hypothesis cols_range : 0 <= cols < modulus64.
Hypothesis cells_fit : rows * cols < modulus64.

Lemma nz_total_fits : zlength (nz_upto cols d rows) < modulus64.
Proof.
  pose proof (zlength_nz_upto_le cols d (proj1 cols_range) rows (proj1 rows_range)).
  lia.
Qed.

Lemma csr_of_dense_invariants : csr_invariants (csr_of_dense rows cols d).
Proof.
  destruct (csr_of_dense_spec rows cols d rows_range (proj1 cols_range) nz_total_fits)
    as (Hr & Hc & Hv & Hci & Hsize & Hps & Hpl & Hptr).
  set (m := csr_of_dense rows cols d) in *.
  set (nz := nz_upto cols d rows) in *.
  assert (Hentry : forall i, 0 <= i < zlength nz ->
                     0 <= col_at m i < cols /\ F32.ne0 (val_at m i) = true).
  { intros i Hi. unfold col_at, val_at. rewrite Hci, Hv.
    rewrite (aget_map fst nz i (0, F32.zero) : aget (map fst nz) i 0 = _).
    rewrite (aget_map snd nz i (0, F32.zero) : aget (map snd nz) i F32.zero = _).
    pose proof (aget_In nz i (0, F32.zero) Hi) as Hmem.
    destruct (aget nz i (0, F32.zero)) as [k v]. cbn [fst snd].
    apply (in_nz_upto cols d rows k v Hmem). }
  constructor.
  - rewrite Hr. exact rows_range.
  - rewrite Hc. exact cols_range.
  - rewrite Hps, Hr. reflexivity.
  - rewrite Hpl, Hps. reflexivity.
  - rewrite Hv, Hsize. apply zlength_map.
  - rewrite Hci, Hsize. apply zlength_map.
  - rewrite Hsize. exact nz_total_fits.
  - rewrite Hptr by lia. unfold nz_upto. rewrite zrange_empty by lia. reflexivity.
  - rewrite Hr. intros r Hr'. rewrite !Hptr by lia.
    apply zlength_nz_upto_mono. lia.
  - rewrite Hr, Hsize. apply Hptr. lia.
  - rewrite Hsize, Hc. intros i Hi. apply Hentry. exact Hi.
  - rewrite Hsize. intros i Hi. apply Hentry. exact Hi.
Qed.

Lemma csr_of_dense_rows_increase r p q :
  0 <= r < rows ->
  rowptr_at (csr_of_dense rows cols d) r <= p -> p < q ->
  q < rowptr_at (csr_of_dense rows cols d) (r + 1) ->
  col_at (csr_of_dense rows cols d) p < col_at (csr_of_dense rows cols d) q.
Proof.
  intros Hr Hp Hpq Hq.
  pose proof (row_entries_csr_of_dense rows cols d r rows_range (proj1 cols_range)
                nz_total_fits Hr) as Hrow.
  set (m := csr_of_dense rows cols d) in *.
  assert (Hat : forall k, rowptr_at m r <= k < rowptr_at m (r + 1) ->
                  col_at m k
                  = fst (aget (nz_cells (aget d r []) cols) (k - rowptr_at m r)
                              (0, F32.zero))).
  { intros k Hk. rewrite <- Hrow. unfold row_entries.
    rewrite aget_map_zrange by lia. cbn [fst]. f_equal. lia. }
  assert (Hlen : zlength (nz_cells (aget d r []) cols)
                 = rowptr_at m (r + 1) - rowptr_at m r).
  { rewrite <- Hrow. unfold row_entries. rewrite zlength_map.
    apply zlength_zrange. lia. }
  rewrite !Hat by lia.
  apply nz_cells_increasing; lia.
Qed.

End DenseToCsr.

Lemma malloc_granted size w :
  heap_grants w (heap_calls w) = true ->
  fst (malloc size w) = true
  /\ heap_calls (snd (malloc size w)) = S (heap_calls w)
  /\ heap_grants (snd (malloc size w)) = heap_grants w.
Proof. intros H. unfold malloc, heap_request. cbn. rewrite H. auto. Qed.

Lemma malloc_safe_granted element_size num_elements w :
  element_size * num_elements < modulus64 ->
  heap_grants w (heap_calls w) = true ->
  fst (malloc_safe element_size num_elements w) = true
  /\ heap_calls (snd (malloc_safe element_size num_elements w)) = S (heap_calls w)
  /\ heap_grants (snd (malloc_safe element_size num_elements w)) = heap_grants w.
Proof.
  intros Hfit H. unfold malloc_safe, umull_overflow.
  destruct (Z.leb_spec modulus64 (element_size * num_elements)); [lia|].
  apply malloc_granted. exact H.
Qed.

(** X8 -- [ordinary_to_csr] returns [NULL] only when one of its four
    blocks is not obtained, and it obtains them whenever the allocator
    grants four requests and the byte counts fit.  The matrix it returns
    has the given dimensions, satisfies all CSR invariants, and stores the
    entries of every row in strictly ascending column order. *)
Theorem ordinary_to_csr_builds_valid (rows cols : Z) (d : dense) (w : World) :
  0 <= rows /\ rows + 1 < modulus64 -> 0 <= cols < modulus64 ->
  rows * cols < modulus64 ->
  (forall m, fst (ordinary_to_csr rows cols d w) = Some m ->
     valid_csr m /\ noRows m = rows /\ noCols m = cols
     /\ forall r p q, 0 <= r < rows -> rowptr_at m r <= p -> p < q ->
                      q < rowptr_at m (r + 1) -> col_at m p < col_at m q)
  /\ (grants_next 4 w ->
      sizeof_uint64 * (rows * cols) < modulus64 ->
      sizeof_uint64 * (rows + 1) < modulus64 ->
      fst (ordinary_to_csr rows cols d w) = Some (csr_of_dense rows cols d)).
Proof.
  intros Hrows Hcols Hcells. split.
  - intros m Hm.
    assert (E : m = csr_of_dense rows cols d).
    { destruct (ordinary_to_csr rows cols d w) as [r w'] eqn:Er. cbn [fst] in Hm.
      subst r. exact (ordinary_to_csr_some rows cols d w m w' Er). }
    subst m. split.
    + apply valid_csr_invariants.
      exact (csr_of_dense_invariants rows cols d Hrows Hcols Hcells).
    + destruct (csr_of_dense_spec rows cols d Hrows (proj1 Hcols)
                  (nz_total_fits rows cols d Hrows Hcols Hcells)) as (Hr & Hc & _).
      split; [exact Hr|]. split; [exact Hc|].
      intros r p q. apply (csr_of_dense_rows_increase rows cols d Hrows Hcols Hcells).
  - intros Hgrants Hbytes Hptrs.
    pose proof (zlength_nz_upto_le cols d (proj1 Hcols) rows (proj1 Hrows)) as Hcount.
    pose proof (count_non_zero_spec cols d (proj1 Hcols) rows (proj1 Hrows)
                  ltac:(lia)) as Ecount.
    pose proof (zlength_nonneg (nz_upto cols d rows)) as Hnonneg.
    unfold sizeof_uint64 in *.
    pose proof (Hgrants 0%nat ltac:(lia)) as G0. rewrite Nat.add_0_r in G0.
    pose proof (Hgrants 1%nat ltac:(lia)) as G1.
    pose proof (Hgrants 2%nat ltac:(lia)) as G2.
    pose proof (Hgrants 3%nat ltac:(lia)) as G3.
    unfold ordinary_to_csr, bind.
    destruct (malloc_granted sizeof_Matrix w G0) as (E1 & C1 & H1).
    destruct (malloc sizeof_Matrix w) as [ok1 w1]. cbn [fst snd] in E1, C1, H1.
    subst ok1. cbn [negb]. cbv zeta. rewrite Ecount.
    destruct (malloc_safe_granted sizeof_float (zlength (nz_upto cols d rows)) w1)
      as (E2 & C2 & H2);
      [unfold sizeof_float; lia|rewrite H1, C1, <- Nat.add_1_r; exact G1|].
    destruct (malloc_safe sizeof_float _ w1) as [ok2 w2]. cbn [fst snd] in E2, C2, H2.
    subst ok2. cbn [negb].
    destruct (malloc_safe_granted sizeof_uint64 (zlength (nz_upto cols d rows)) w2)
      as (E3 & C3 & H3);
      [unfold sizeof_uint64; lia
      |rewrite H2, H1, C2, C1; replace (S (S (heap_calls w))) with (heap_calls w + 2)%nat
         by lia; exact G2|].
    destruct (malloc_safe sizeof_uint64 _ w2) as [ok3 w3]. cbn [fst snd] in E3, C3, H3.
    subst ok3. cbn [negb].
    destruct (malloc_safe_granted sizeof_uint64 (add64 rows 1) w3)
      as (E4 & C4 & H4);
      [unfold sizeof_uint64; rewrite add64_small by lia; lia
      |rewrite H3, H2, H1, C3, C2, C1;
       replace (S (S (S (heap_calls w)))) with (heap_calls w + 3)%nat by lia;
       exact G3|].
    destruct (malloc_safe sizeof_uint64 _ w3) as [ok4 w4]. cbn [fst snd] in E4, C4, H4.
    subst ok4. cbn [negb]. reflexivity.
Qed.

Lemma ordinary_to_csr_builds_valid_witness :
  (forall m, fst (ordinary_to_csr 2 3 [floats [1; 0; 2]; floats [0; 0; 3]]
                                  (generous true 4)) = Some m ->
     valid_csr m /\ noRows m = 2 /\ noCols m = 3
     /\ forall r p q, 0 <= r < 2 -> rowptr_at m r <= p -> p < q ->
                      q < rowptr_at m (r + 1) -> col_at m p < col_at m q)
  /\ (grants_next 4 (generous true 4) ->
      sizeof_uint64 * (2 * 3) < modulus64 ->
      sizeof_uint64 * (2 + 1) < modulus64 ->
      fst (ordinary_to_csr 2 3 [floats [1; 0; 2]; floats [0; 0; 3]] (generous true 4))
      = Some (csr_of_dense 2 3 [floats [1; 0; 2]; floats [0; 0; 3]])).
Proof.
  apply (ordinary_to_csr_builds_valid 2 3 [floats [1; 0; 2]; floats [0; 0; 3]]
           (generous true 4));
    try split; vm_compute; first [reflexivity | intros D; discriminate D].
Defined.

(** ** The array that [csr_to_ordinary] builds *)

Lemma scatter_row_last es1 e es2 row :
  ~ In (fst e) (map fst es2) -> 0 <= fst e < zlength row ->
  aget (scatter_row (es1 ++ e :: es2) row) (fst e) F32.zero = snd e.
Proof.
  intros Hnot Hin. unfold scatter_row. rewrite fold_left_app. cbn [fold_left].
  fold (scatter_row es1 row).
  fold (scatter_row es2 (aset (scatter_row es1 row) (fst e) (snd e))).
  rewrite scatter_row_notin by exact Hnot.
  apply aget_aset_same. rewrite zlength_scatter_row. exact Hin.
Qed.

Lemma calloc_rows_granted n cols w :
  cols * sizeof_float < modulus64 ->
  (forall k, (k < n)%nat -> heap_grants w (heap_calls w + k)%nat = true) ->
  fst (calloc_rows n cols w) = true.
Proof.
  intros Hfit. revert w. induction n as [|n IH]; intros w Hgrants; [reflexivity|].
  cbn [calloc_rows]. unfold bind, calloc, bind, heap_request, ret.
  pose proof (Hgrants 0%nat ltac:(lia)) as G0. rewrite Nat.add_0_r in G0.
  rewrite G0. replace (cols * sizeof_float <? modulus64) with true
    by (symmetry; apply Z.ltb_lt; exact Hfit).
  cbn [andb]. apply IH. cbn [heap_calls heap_grants]. intros k Hk.
  replace (S (heap_calls w) + k)%nat with (heap_calls w + S k)%nat by lia.
  apply Hgrants. lia.
Qed.

(** X9 -- [csr_to_ordinary] returns an array of [noRows] rows of [noCols]
    cells in which a cell is 0 when the row stores no entry for its
    column, and otherwise holds the value of the last entry that the row
    stores for that column; it returns [NULL] only when an allocation
    fails, and succeeds whenever the allocator grants its [noRows + 1]
    requests and the byte counts fit. *)
Theorem csr_to_ordinary_cells (m : Matrix) (w : World) :
  valid_csr m ->
  (forall d, fst (csr_to_ordinary m w) = Some d ->
     zlength d = noRows m
     /\ forall r, 0 <= r < noRows m ->
          zlength (aget d r []) = noCols m
          /\ forall c, 0 <= c < noCols m ->
               ((forall p, rowptr_at m r <= p < rowptr_at m (r + 1) -> col_at m p <> c) ->
                dget d r c = F32.zero)
               /\ (forall p, rowptr_at m r <= p < rowptr_at m (r + 1) ->
                     col_at m p = c ->
                     (forall q, p < q < rowptr_at m (r + 1) -> col_at m q <> c) ->
                     dget d r c = val_at m p))
  /\ (grants_next (S (Z.to_nat (noRows m))) w ->
      noRows m * sizeof_ptr < modulus64 -> noCols m * sizeof_float < modulus64 ->
      fst (csr_to_ordinary m w) = Some (dense_of_csr m)).
Proof.
  intros valid. apply valid_csr_invariants in valid.
  pose proof (inv_rows m valid) as Hrows.
  pose proof (inv_cols m valid) as Hcols.
  split.
  - intros d Hd.
    assert (E : d = dense_of_csr m).
    { destruct (csr_to_ordinary m w) as [r w'] eqn:Er. cbn [fst] in Hd. subst r.
      exact (csr_to_ordinary_some m w d w' Er). }
    subst d. destruct (dense_of_csr_spec m (proj1 Hrows)) as [Hlen Hrow].
    split; [exact Hlen|]. intros r Hr.
    assert (Hzeros : zlength (repeat F32.zero (Z.to_nat (noCols m))) = noCols m)
      by (rewrite zlength_repeat; lia).
    split; [rewrite (Hrow r Hr), zlength_scatter_row; exact Hzeros|].
    intros c Hc. unfold dget. rewrite (Hrow r Hr). split.
    + intros Hnone. rewrite scatter_row_notin; [apply aget_repeat|].
      intros Hin. apply in_map_iff in Hin. destruct Hin as (e & <- & He).
      unfold row_entries in He. apply in_map_iff in He.
      destruct He as (p & <- & Hp). apply in_zrange in Hp.
      exact (Hnone p Hp eq_refl).
    + intros p Hp Hcol Hlast. unfold row_entries.
      rewrite (zrange_app _ p) by lia. rewrite (zrange_first p) by lia.
      rewrite map_app. cbn [map]. rewrite <- Hcol.
      apply (scatter_row_last _ (col_at m p, val_at m p)).
      * cbn [fst]. intros Hin. apply in_map_iff in Hin.
        destruct Hin as (e & Hfst & He). apply in_map_iff in He.
        destruct He as (q & <- & Hq). apply in_zrange in Hq. cbn [fst] in Hfst.
        apply (Hlast q ltac:(lia)). rewrite Hfst. exact Hcol.
      * cbn [fst]. rewrite Hzeros, Hcol. exact Hc.
  - intros Hgrants Hptrs Hfloats.
    unfold csr_to_ordinary, bind.
    pose proof (Hgrants 0%nat ltac:(lia)) as G0. rewrite Nat.add_0_r in G0.
    destruct (malloc_safe_granted (noRows m) sizeof_ptr w Hptrs G0) as (E1 & C1 & H1).
    destruct (malloc_safe (noRows m) sizeof_ptr w) as [ok1 w1].
    cbn [fst snd] in E1, C1, H1. subst ok1. cbn [negb].
    pose proof (calloc_rows_granted (Z.to_nat (noRows m)) (noCols m) w1 Hfloats) as E2.
    destruct (calloc_rows (Z.to_nat (noRows m)) (noCols m) w1) as [ok2 w2].
    cbn [fst] in E2. rewrite E2; [reflexivity|].
    intros k Hk. rewrite H1, C1.
    replace (S (heap_calls w) + k)%nat with (heap_calls w + S k)%nat by lia.
    apply Hgrants. lia.
Qed.

Lemma csr_to_ordinary_cells_witness :
  fst (csr_to_ordinary Duplicate.M (generous true 4)) = Some (dense_of_csr Duplicate.M)
  /\ dget (dense_of_csr Duplicate.M) 0 0 = val_at Duplicate.M 1
  /\ dget (dense_of_csr Duplicate.M) 0 1 = F32.zero.
Proof.
  destruct (csr_to_ordinary_cells Duplicate.M (generous true 4)
              ltac:(vm_compute; reflexivity)) as [Hcells Hsome].
  assert (E : fst (csr_to_ordinary Duplicate.M (generous true 4))
              = Some (dense_of_csr Duplicate.M)).
  { apply Hsome; [intros k _; reflexivity|reflexivity|reflexivity]. }
  split; [exact E|].
  destruct (Hcells _ E) as [_ Hrow].
  destruct (Hrow 0 ltac:(vm_compute; split; [intros D; discriminate D|reflexivity]))
    as [_ Hcol].
  split.
  - apply (proj2 (Hcol 0 ltac:(vm_compute; split;
                                 [intros D; discriminate D|reflexivity])) 1).
    + vm_compute. split; [intros D; discriminate D|reflexivity].
    + reflexivity.
    + intros q Hq. exfalso. revert Hq. vm_compute. intros [H1 H2].
      destruct q as [|q|q]; try discriminate H1.
      destruct q as [q|q|]; try discriminate H1; try discriminate H2;
        destruct q; discriminate H2.
  - apply (proj1 (Hcol 1 ltac:(vm_compute; split;
                                 [intros D; discriminate D|reflexivity]))).
    intros p Hp. vm_compute in Hp. destruct Hp as [H1 H2].
    destruct p as [|p|p]; [vm_compute; intros D; discriminate D| |].
    + destruct p as [p|p|]; [destruct p; discriminate H2
                            |destruct p; discriminate H2
                            |vm_compute; intros D; discriminate D].
    + exfalso. apply H1. reflexivity.
Defined.

(** ** What the clean-up keeps *)

Lemma nonzero_entries_empty m lo hi : hi <= lo -> nonzero_entries m lo hi = [].
Proof. intros H. unfold nonzero_entries. now rewrite zrange_empty by lia. Qed.

Lemma nonzero_entries_snoc m lo p :
  lo <= p ->
  nonzero_entries m lo (p + 1)
  = nonzero_entries m lo p
    ++ (if F32.ne0 (val_at m p) then [(col_at m p, val_at m p)] else []).
Proof.
  intros H. unfold nonzero_entries. rewrite zrange_snoc by lia.
  rewrite map_app, filter_app. cbn [map filter snd]. reflexivity.
Qed.

Lemma nonzero_entries_app m lo mid hi :
  lo <= mid <= hi ->
  nonzero_entries m lo hi = nonzero_entries m lo mid ++ nonzero_entries m mid hi.
Proof.
  intros H. unfold nonzero_entries. rewrite (zrange_app lo mid hi) by lia.
  now rewrite map_app, filter_app.
Qed.

Lemma zlength_nonzero_entries_le m lo hi :
  lo <= hi -> zlength (nonzero_entries m lo hi) <= hi - lo.
Proof.
  intros H. unfold nonzero_entries.
  pose proof (filter_length_le (fun e : Z * float => F32.ne0 (snd e))
                (map (fun k => (col_at m k, val_at m k)) (zrange lo hi))) as L.
  pose proof (zlength_zrange lo hi H) as Z. unfold zlength in *.
  rewrite length_map in L. lia.
Qed.

Section Compacting.
Variable m : Matrix.
Hypothesis ready : compactable m.

Let kept (p : Z) : list (Z * float) := nonzero_entries m 0 p.

(** The row pointers while the rows below [row] have been rewritten. *)
Let pointers (row : Z) (m' : Matrix) : Prop :=
  noRows m' = noRows m /\ noCols m' = noCols m /\ valuesSize m' = valuesSize m
  /\ rowPointersSize m' = rowPointersSize m
  /\ zlength (rowPointers m') = zlength (rowPointers m)
  /\ forall r, rowptr_at m' r
               = if (1 <=? r) && (r <? row) then zlength (kept (rowptr_at m r))
                 else rowptr_at m r.

(** The state of the scan before position [p] is read. *)
Let scanned (p row : Z) (st : Compaction) : Prop :=
  row_beg st = p
  /\ non_zero_values st = zlength (kept p)
  /\ removed st = p - zlength (kept p)
  /\ zlength (values (cm st)) = zlength (values m)
  /\ zlength (colIndices (cm st)) = zlength (values m)
  /\ (forall i, 0 <= i < zlength (kept p) ->
        (col_at (cm st) i, val_at (cm st) i) = aget (kept p) i (0, F32.zero))
  /\ (forall i, p <= i -> col_at (cm st) i = col_at m i /\ val_at (cm st) i = val_at m i)
  /\ pointers row (cm st).

Lemma kept_length p : 0 <= p -> 0 <= zlength (kept p) <= p.
Proof.
  intros Hp. split; [apply zlength_nonneg|].
  pose proof (zlength_nonzero_entries_le m 0 p Hp). unfold kept. lia.
Qed.

Lemma scan_step p row st :
  0 <= p < zlength (values m) -> scanned p row st ->
  scanned (p + 1) row (compact_step st).
Proof.
  intros Hp (Hbeg & Hnz & Hrem & Hv & Hc & Hpre & Hrest & Hptr).
  pose proof (kept_length p ltac:(lia)) as Hk.
  destruct (Hrest p ltac:(lia)) as [Hcol Hval].
  unfold compact_step. rewrite Hbeg, Hnz, Hrem, Hval.
  assert (Esnoc : kept (p + 1)
                  = kept p ++ (if F32.ne0 (val_at m p)
                               then [(col_at m p, val_at m p)] else []))
    by (apply nonzero_entries_snoc; lia).
  destruct (F32.ne0 (val_at m p)) eqn:Hne.
  - assert (Hlen : zlength (kept (p + 1)) = zlength (kept p) + 1)
      by (rewrite Esnoc, zlength_app; reflexivity).
    unfold scanned. cbn [row_beg non_zero_values removed cm].
    unfold col_at, val_at in *.
    cbn [values colIndices rowPointers set_values set_colIndices].
    rewrite !zlength_aset. rewrite Hcol.
    split; [reflexivity|]. split; [lia|]. split; [lia|].
    split; [exact Hv|]. split; [exact Hc|]. split; [|split].
    + intros i Hi. rewrite Esnoc.
      destruct (Z.eq_dec i (zlength (kept p))) as [->|Hne'].
      * rewrite !aget_aset_same by lia. rewrite aget_app_r by lia.
        rewrite Z.sub_diag. reflexivity.
      * rewrite !aget_aset_other by lia. rewrite aget_app_l by lia.
        apply Hpre. lia.
    + intros i Hi. rewrite !aget_aset_other by lia. apply Hrest. lia.
    + exact Hptr.
  - assert (Hlen : zlength (kept (p + 1)) = zlength (kept p))
      by (rewrite Esnoc, app_nil_r; reflexivity).
    unfold scanned. cbn [row_beg non_zero_values removed cm].
    split; [reflexivity|]. split; [lia|]. split; [lia|].
    split; [exact Hv|]. split; [exact Hc|]. split; [|split].
    + intros i Hi. rewrite Esnoc, app_nil_r. apply Hpre. lia.
    + intros i Hi. apply Hrest. lia.
    + exact Hptr.
Qed.

Lemma scan_steps n p row st i :
  0 <= p -> p + Z.of_nat n <= zlength (values m) -> scanned p row st ->
  scanned (p + Z.of_nat n) row (iter_up n i (fun _ => compact_step) st).
Proof.
  revert p st i. induction n as [|n IH]; intros p st i Hp Hn Hst.
  - rewrite Z.add_0_r. exact Hst.
  - cbn [iter_up]. replace (p + Z.of_nat (S n)) with (p + 1 + Z.of_nat n) by lia.
    apply IH; [lia|lia|]. apply scan_step; [lia|exact Hst].
Qed.

Lemma pointer_bounds r :
  0 <= r <= noRows m -> 0 <= rowptr_at m r <= zlength (values m).
Proof.
  intros Hr.
  assert (Hup : forall j, 0 <= j -> j <= noRows m -> 0 <= rowptr_at m j).
  { intros j Hj. pattern j. apply (Z_induction_from 0); [| |exact Hj].
    - intros _. rewrite (cp_first m ready). lia.
    - intros x Hx IH Hle. specialize (IH ltac:(lia)).
      pose proof (cp_monotone m ready x ltac:(lia)). lia. }
  assert (Hdown : forall j, 0 <= j -> j <= noRows m - r ->
                    rowptr_at m r <= rowptr_at m (r + j)).
  { intros j Hj. pattern j. apply (Z_induction_from 0); [| |exact Hj].
    - intros _. rewrite Z.add_0_r. lia.
    - intros x Hx IH Hle. specialize (IH ltac:(lia)).
      pose proof (cp_monotone m ready (r + x) ltac:(lia)).
      replace (r + (x + 1)) with (r + x + 1) by lia. lia. }
  split; [apply Hup; lia|].
  specialize (Hdown (noRows m - r) ltac:(lia) ltac:(lia)).
  replace (r + (noRows m - r)) with (noRows m) in Hdown by lia.
  pose proof (cp_last m ready). lia.
Qed.

Lemma scan_row row st :
  1 <= row <= noRows m ->
  scanned (rowptr_at m (row - 1)) row st ->
  scanned (rowptr_at m row) (row + 1) (compact_row row st).
Proof.
  intros Hrow Hst.
  pose proof (pointer_bounds (row - 1) ltac:(lia)) as Hlo.
  pose proof (pointer_bounds row ltac:(lia)) as Hhi.
  pose proof (cp_monotone m ready (row - 1) ltac:(lia)) as Hmono.
  replace (row - 1 + 1) with row in Hmono by lia.
  pose proof (cp_fits m ready) as Hfit.
  unfold compact_row.
  assert (Hend : rowptr_at (cm st) row = rowptr_at m row).
  { destruct Hst as (_ & _ & _ & _ & _ & _ & _ & _ & _ & _ & _ & _ & Hp).
    rewrite Hp. destruct (Z.ltb_spec row row); [lia|].
    rewrite andb_false_r. reflexivity. }
  rewrite Hend.
  assert (Hbeg : row_beg st = rowptr_at m (row - 1)) by apply Hst.
  rewrite Hbeg.
  pose proof (scan_steps (Z.to_nat (rowptr_at m row - rowptr_at m (row - 1)))
                (rowptr_at m (row - 1)) row st 0 ltac:(lia) ltac:(lia) Hst) as H.
  replace (rowptr_at m (row - 1)
           + Z.of_nat (Z.to_nat (rowptr_at m row - rowptr_at m (row - 1))))
    with (rowptr_at m row) in H by lia.
  set (st' := iter_up _ 0 (fun _ => compact_step) st) in *.
  destruct H as (Hb & Hnz & Hrem & Hv & Hc & Hpre & Hrest & Hptr).
  pose proof (kept_length (rowptr_at m row) ltac:(lia)) as Hk.
  destruct Hptr as (P1 & P2 & P3 & P4 & Hlen & Hp).
  unfold scanned. cbn [row_beg non_zero_values removed cm].
  split; [exact Hb|]. split; [exact Hnz|]. split; [exact Hrem|].
  split; [exact Hv|]. split; [exact Hc|].
  split; [exact Hpre|]. split; [exact Hrest|].
  unfold pointers.
  split; [exact P1|]. split; [exact P2|]. split; [exact P3|]. split; [exact P4|].
  split; [cbn [rowPointers set_rowPointers]; rewrite zlength_aset; exact Hlen|].
  intros r. unfold rowptr_at in *. cbn [rowPointers set_rowPointers].
  destruct (Z.eq_dec r row) as [->|Hne].
  - rewrite aget_aset_same
      by (rewrite Hlen, (cp_rowPointers_length m ready),
            (cp_rowPointersSize m ready); lia).
    rewrite Hrem. rewrite sub64_small by lia.
    replace ((1 <=? row) && (row <? row + 1)) with true
      by (symmetry; apply andb_true_iff; split;
          [apply Z.leb_le|apply Z.ltb_lt]; lia).
    lia.
  - rewrite aget_aset_other by lia. rewrite Hp.
    replace (r <? row + 1) with (r <? row); [reflexivity|].
    destruct (Z.ltb_spec r row), (Z.ltb_spec r (row + 1)); try reflexivity; lia.
Qed.

End Compacting.

Lemma aget_shrink {A} (l : list A) (n i : Z) (d : A) :
  0 <= i < n -> n <= zlength l -> aget (shrink l n) i d = aget l i d.
Proof.
  intros Hi Hn. unfold shrink.
  rewrite <- (firstn_skipn (Z.to_nat n) l) at 2.
  symmetry. apply aget_app_l.
  unfold zlength in *. rewrite length_firstn. lia.
Qed.

Lemma zlength_shrink {A} (l : list A) (n : Z) :
  0 <= n <= zlength l -> zlength (shrink l n) = n.
Proof.
  intros Hn. unfold shrink, zlength in *. rewrite length_firstn. lia.
Qed.

Section CompactedMatrix.
Variable m : Matrix.
Hypothesis ready : compactable m.

Let last : Z := rowptr_at m (noRows m).

(** What the scan leaves: the matrix and the count of kept entries. *)
Lemma clean_up_matrix_arrays_spec :
  let m' := snd (fst (_clean_up_matrix_arrays m)) in
  fst (fst (_clean_up_matrix_arrays m)) = 0
  /\ snd (_clean_up_matrix_arrays m) = zlength (nonzero_entries m 0 last)
  /\ noRows m' = noRows m /\ noCols m' = noCols m
  /\ rowPointersSize m' = rowPointersSize m
  /\ zlength (rowPointers m') = zlength (rowPointers m)
  /\ zlength (values m') = zlength (values m)
  /\ zlength (colIndices m') = zlength (values m)
  /\ (forall r, 0 <= r <= noRows m ->
        rowptr_at m' r = zlength (nonzero_entries m 0 (rowptr_at m r)))
  /\ (forall i, 0 <= i < zlength (nonzero_entries m 0 last) ->
        (col_at m' i, val_at m' i)
        = aget (nonzero_entries m 0 last) i (0, F32.zero)).
Proof.
  cbv zeta. unfold _clean_up_matrix_arrays. cbn [fst snd].
  split; [reflexivity|].
  rewrite (cp_rowPointersSize m ready).
  pose proof (cp_rows m ready) as Hrows.
  set (st0 := mkCompaction m 0 0 (rowptr_at m 0)).
  assert (H : row_beg (for_lt 1 (noRows m + 1) compact_row st0) = last
              /\ non_zero_values (for_lt 1 (noRows m + 1) compact_row st0)
                 = zlength (nonzero_entries m 0 last)
              /\ removed (for_lt 1 (noRows m + 1) compact_row st0)
                 = last - zlength (nonzero_entries m 0 last)
              /\ zlength (values (cm (for_lt 1 (noRows m + 1) compact_row st0)))
                 = zlength (values m)
              /\ zlength (colIndices (cm (for_lt 1 (noRows m + 1) compact_row st0)))
                 = zlength (values m)
              /\ (forall i, 0 <= i < zlength (nonzero_entries m 0 last) ->
                    (col_at (cm (for_lt 1 (noRows m + 1) compact_row st0)) i,
                     val_at (cm (for_lt 1 (noRows m + 1) compact_row st0)) i)
                    = aget (nonzero_entries m 0 last) i (0, F32.zero))
              /\ (forall i, last <= i ->
                    col_at (cm (for_lt 1 (noRows m + 1) compact_row st0)) i
                    = col_at m i
                    /\ val_at (cm (for_lt 1 (noRows m + 1) compact_row st0)) i
                       = val_at m i)
              /\ (noRows (cm (for_lt 1 (noRows m + 1) compact_row st0)) = noRows m
                  /\ noCols (cm (for_lt 1 (noRows m + 1) compact_row st0)) = noCols m
                  /\ valuesSize (cm (for_lt 1 (noRows m + 1) compact_row st0))
                     = valuesSize m
                  /\ rowPointersSize (cm (for_lt 1 (noRows m + 1) compact_row st0))
                     = rowPointersSize m
                  /\ zlength (rowPointers
                                (cm (for_lt 1 (noRows m + 1) compact_row st0)))
                     = zlength (rowPointers m)
                  /\ forall r,
                       rowptr_at (cm (for_lt 1 (noRows m + 1) compact_row st0)) r
                       = if (1 <=? r) && (r <? noRows m + 1)
                         then zlength (nonzero_entries m 0 (rowptr_at m r))
                         else rowptr_at m r)).
  { replace last with (rowptr_at m (noRows m + 1 - 1))
      by (unfold last; f_equal; lia).
    apply (for_lt_invariant
             (fun i st =>
                row_beg st = rowptr_at m (i - 1)
                /\ non_zero_values st
                   = zlength (nonzero_entries m 0 (rowptr_at m (i - 1)))
                /\ removed st
                   = rowptr_at m (i - 1)
                     - zlength (nonzero_entries m 0 (rowptr_at m (i - 1)))
                /\ zlength (values (cm st)) = zlength (values m)
                /\ zlength (colIndices (cm st)) = zlength (values m)
                /\ (forall k, 0 <= k
                              < zlength (nonzero_entries m 0 (rowptr_at m (i - 1))) ->
                      (col_at (cm st) k, val_at (cm st) k)
                      = aget (nonzero_entries m 0 (rowptr_at m (i - 1))) k
                             (0, F32.zero))
                /\ (forall k, rowptr_at m (i - 1) <= k ->
                      col_at (cm st) k = col_at m k /\ val_at (cm st) k = val_at m k)
                /\ (noRows (cm st) = noRows m /\ noCols (cm st) = noCols m
                    /\ valuesSize (cm st) = valuesSize m
                    /\ rowPointersSize (cm st) = rowPointersSize m
                    /\ zlength (rowPointers (cm st)) = zlength (rowPointers m)
                    /\ forall r,
                         rowptr_at (cm st) r
                         = if (1 <=? r) && (r <? i)
                           then zlength (nonzero_entries m 0 (rowptr_at m r))
                           else rowptr_at m r))).
    - lia.
    - change (1 - 1) with 0. rewrite (cp_first m ready).
      rewrite nonzero_entries_empty by lia. subst st0.
      cbn [row_beg non_zero_values removed cm].
      repeat split; try reflexivity.
      + apply (cp_first m ready).
      + apply (cp_blocks m ready).
      + intros k Hk. unfold zlength in Hk. cbn in Hk. lia.
      + intros r. destruct (Z.ltb_spec r 1), (Z.leb_spec 1 r); try reflexivity; lia.
    - intros i st Hi Hst. replace (i + 1 - 1) with i by lia.
      apply (scan_row m ready i st ltac:(lia) Hst). }
  destruct H as (_ & Hnz & _ & Hv & Hc & Hpre & _ & P1 & P2 & _ & P4 & P5 & Hp).
  split; [exact Hnz|]. split; [exact P1|]. split; [exact P2|].
  split; [rewrite P4; apply (cp_rowPointersSize m ready)|].
  split; [exact P5|]. split; [exact Hv|]. split; [exact Hc|].
  split; [|exact Hpre].
  intros r Hr. rewrite Hp. destruct (Z.leb_spec 1 r) as [H1|H0].
  - replace (r <? noRows m + 1) with true by (symmetry; apply Z.ltb_lt; lia).
    reflexivity.
  - cbn [andb]. replace r with 0 by lia. rewrite (cp_first m ready).
    rewrite nonzero_entries_empty by lia. reflexivity.
Qed.

End CompactedMatrix.

Lemma clean_up_csr_spec m w :
  compactable m ->
  fst (fst (clean_up_csr m w)) <> HEAP_MEMORY_ERROR ->
  let m' := snd (fst (clean_up_csr m w)) in
  let kept := nonzero_entries m 0 (rowptr_at m (noRows m)) in
  fst (fst (clean_up_csr m w)) = 0
  /\ noRows m' = noRows m /\ noCols m' = noCols m
  /\ rowPointersSize m' = rowPointersSize m
  /\ zlength (rowPointers m') = zlength (rowPointers m)
  /\ valuesSize m' = zlength kept
  /\ (forall r, 0 <= r <= noRows m ->
        rowptr_at m' r = zlength (nonzero_entries m 0 (rowptr_at m r)))
  /\ (forall i, 0 <= i < zlength kept ->
        (col_at m' i, val_at m' i) = aget kept i (0, F32.zero))
  /\ (0 < zlength kept ->
      zlength (values m') = zlength kept /\ zlength (colIndices m') = zlength kept).
Proof.
  intros ready. cbv zeta.
  pose proof (clean_up_matrix_arrays_spec m ready) as H. cbv zeta in H.
  assert (Hle : zlength (nonzero_entries m 0 (rowptr_at m (noRows m)))
                <= zlength (values m)).
  { pose proof (pointer_bounds m ready (noRows m)
                  ltac:(pose proof (cp_rows m ready); lia)) as Hb.
    pose proof (zlength_nonzero_entries_le m 0 (rowptr_at m (noRows m)) ltac:(lia)).
    lia. }
  unfold clean_up_csr.
  destruct (_clean_up_matrix_arrays m) as [[rc m1] nz]. cbn [fst snd] in H.
  destruct H as (-> & -> & P1 & P2 & P3 & P4 & Hv & Hc & Hp & Hpre).
  change (0 =? HEAP_MEMORY_ERROR) with false. cbv iota.
  set (total := zlength (nonzero_entries m 0 (rowptr_at m (noRows m)))) in *.
  destruct (Z.ltb_spec 0 total) as [Hpos|Hzero].
  - unfold umull_overflow, bind, ret, realloc, heap_request.
    repeat first
      [ progress cbn [fst snd negb heap_calls heap_grants]
      | match goal with
        | |- context [if ?c then _ else _] => destruct c
        end ];
      intros D; try (exfalso; apply D; reflexivity); clear D.
    unfold col_at, val_at, rowptr_at in *.
    cbn [noRows noCols rowPointersSize rowPointers valuesSize values colIndices
         set_values set_colIndices set_valuesSize].
    split; [reflexivity|]. split; [exact P1|]. split; [exact P2|].
    split; [exact P3|]. split; [exact P4|]. split; [reflexivity|].
    split; [exact Hp|]. split.
    + intros i Hi. rewrite !aget_shrink by lia. apply Hpre. exact Hi.
    + intros _. rewrite !zlength_shrink by lia. split; reflexivity.
  - unfold ret. cbn [fst snd]. intros _.
    unfold col_at, val_at, rowptr_at in *.
    cbn [noRows noCols rowPointersSize rowPointers valuesSize values colIndices
         set_valuesSize].
    split; [reflexivity|]. split; [exact P1|]. split; [exact P2|].
    split; [exact P3|]. split; [exact P4|]. split; [reflexivity|].
    split; [exact Hp|]. split; [exact Hpre|]. intros Hpos. lia.
Qed.

(** After a successful clean-up every row holds its nonzero entries, in
    their order. *)
Lemma clean_up_csr_rows m w r :
  compactable m -> fst (fst (clean_up_csr m w)) <> HEAP_MEMORY_ERROR ->
  0 <= r < noRows m ->
  row_entries (snd (fst (clean_up_csr m w))) r
  = filter (fun e => F32.ne0 (snd e)) (row_entries m r).
Proof.
  intros ready Hok Hr.
  destruct (clean_up_csr_spec m w ready Hok) as (_ & _ & _ & _ & _ & _ & Hp & Hpre & _).
  set (m' := snd (fst (clean_up_csr m w))) in *.
  pose proof (pointer_bounds m ready r ltac:(lia)) as Hlo.
  pose proof (pointer_bounds m ready (r + 1) ltac:(lia)) as Hhi.
  pose proof (cp_monotone m ready r Hr) as Hmono.
  assert (Hend : rowptr_at m (r + 1) <= rowptr_at m (noRows m)).
  { assert (H : forall j, 0 <= j -> r + 1 + j <= noRows m ->
                  rowptr_at m (r + 1) <= rowptr_at m (r + 1 + j)).
    { intros j Hj. pattern j. apply (Z_induction_from 0); [| |exact Hj].
      - intros _. rewrite Z.add_0_r. lia.
      - intros x Hx IH Hle. specialize (IH ltac:(lia)).
        pose proof (cp_monotone m ready (r + 1 + x) ltac:(lia)).
        replace (r + 1 + (x + 1)) with (r + 1 + x + 1) by lia. lia. }
    specialize (H (noRows m - (r + 1)) ltac:(lia) ltac:(lia)).
    replace (r + 1 + (noRows m - (r + 1))) with (noRows m) in H by lia. exact H. }
  assert (E : nonzero_entries m 0 (rowptr_at m (noRows m))
              = nonzero_entries m 0 (rowptr_at m r)
                ++ nonzero_entries m (rowptr_at m r) (rowptr_at m (r + 1))
                ++ nonzero_entries m (rowptr_at m (r + 1)) (rowptr_at m (noRows m))).
  { rewrite (nonzero_entries_app m 0 (rowptr_at m r)) by lia.
    rewrite (nonzero_entries_app m (rowptr_at m r) (rowptr_at m (r + 1))) by lia.
    reflexivity. }
  assert (E1 : nonzero_entries m 0 (rowptr_at m (r + 1))
               = nonzero_entries m 0 (rowptr_at m r)
                 ++ nonzero_entries m (rowptr_at m r) (rowptr_at m (r + 1)))
    by (apply nonzero_entries_app; lia).
  unfold row_entries at 1. rewrite !Hp by lia. rewrite E1, zlength_app.
  rewrite (map_ext_in _
             (fun k => aget (nonzero_entries m 0 (rowptr_at m (noRows m))) k
                            (0, F32.zero))).
  - rewrite E. apply map_aget_middle.
  - intros k Hk. apply in_zrange in Hk. apply Hpre.
    rewrite E, !zlength_app.
    pose proof (zlength_nonneg (nonzero_entries m 0 (rowptr_at m r))).
    pose proof (zlength_nonneg
                  (nonzero_entries m (rowptr_at m (r + 1)) (rowptr_at m (noRows m)))).
    lia.
Qed.

Lemma clean_up_csr_granted m w :
  compactable m -> grants_next 2 w ->
  sizeof_uint64 * zlength (values m) < modulus64 ->
  fst (fst (clean_up_csr m w)) = 0.
Proof.
  intros ready Hgrants Hbytes.
  pose proof (clean_up_matrix_arrays_spec m ready) as H. cbv zeta in H.
  assert (Hle : zlength (nonzero_entries m 0 (rowptr_at m (noRows m)))
                <= zlength (values m)).
  { pose proof (pointer_bounds m ready (noRows m)
                  ltac:(pose proof (cp_rows m ready); lia)) as Hb.
    pose proof (zlength_nonzero_entries_le m 0 (rowptr_at m (noRows m)) ltac:(lia)).
    lia. }
  pose proof (Hgrants 0%nat ltac:(lia)) as G0. rewrite Nat.add_0_r in G0.
  pose proof (Hgrants 1%nat ltac:(lia)) as G1. rewrite Nat.add_1_r in G1.
  unfold clean_up_csr.
  destruct (_clean_up_matrix_arrays m) as [[rc m1] nz]. cbn [fst snd] in H.
  destruct H as (-> & -> & _).
  change (0 =? HEAP_MEMORY_ERROR) with false. cbv iota.
  set (total := zlength (nonzero_entries m 0 (rowptr_at m (noRows m)))) in *.
  unfold sizeof_uint64 in Hbytes.
  destruct (Z.ltb_spec 0 total) as [Hpos|Hzero]; [|reflexivity].
  unfold umull_overflow, bind, ret, realloc, heap_request.
  destruct (Z.leb_spec modulus64 (total * sizeof_float));
    [unfold sizeof_float in *; lia|].
  cbn [fst snd heap_calls heap_grants]. rewrite G0. cbn [negb].
  destruct (Z.leb_spec modulus64 (total * sizeof_uint64));
    [unfold sizeof_uint64 in *; lia|].
  cbn [fst snd heap_calls heap_grants]. rewrite G1. reflexivity.
Qed.

(** X10 -- on a matrix whose row pointers start at 0, never decrease and
    stay inside the value and column blocks, [clean_up_csr] returns 0 or
    [HEAP_MEMORY_ERROR], and 0 whenever its two [realloc] calls are
    granted.  When it returns 0, the dimensions are unchanged, every row
    holds exactly the entries it held before whose value is not zero, in
    the same order, the row pointers again start at 0, never decrease and
    end at the new [valuesSize], and no stored value is zero. *)
Theorem clean_up_csr_keeps_nonzeros (m : Matrix) (w : World) :
  compactable m ->
  (fst (fst (clean_up_csr m w)) = 0
   \/ fst (fst (clean_up_csr m w)) = HEAP_MEMORY_ERROR)
  /\ (fst (fst (clean_up_csr m w)) = 0 ->
      let m' := snd (fst (clean_up_csr m w)) in
      noRows m' = noRows m /\ noCols m' = noCols m
      /\ rowptr_at m' 0 = 0
      /\ (forall r, 0 <= r < noRows m -> rowptr_at m' r <= rowptr_at m' (r + 1))
      /\ rowptr_at m' (noRows m) = valuesSize m'
      /\ (forall i, 0 <= i < valuesSize m' -> F32.ne0 (val_at m' i) = true)
      /\ forall r, 0 <= r < noRows m ->
           row_entries m' r = filter (fun e => F32.ne0 (snd e)) (row_entries m r))
  /\ (grants_next 2 w -> sizeof_uint64 * zlength (values m) < modulus64 ->
      fst (fst (clean_up_csr m w)) = 0).
Proof.
  intros ready.
  pose proof (cp_rows m ready) as Hrows.
  split; [|split].
  - destruct (Z.eq_dec (fst (fst (clean_up_csr m w))) HEAP_MEMORY_ERROR) as [E|Hne];
      [right; exact E|left].
    apply (clean_up_csr_spec m w ready Hne).
  - intros Hok.
    assert (Hne : fst (fst (clean_up_csr m w)) <> HEAP_MEMORY_ERROR)
      by (rewrite Hok; intros D; discriminate D).
    destruct (clean_up_csr_spec m w ready Hne)
      as (_ & P1 & P2 & _ & _ & Hsize & Hp & Hpre & _).
    cbv zeta. split; [exact P1|]. split; [exact P2|].
    split; [|split; [|split; [|split]]].
    + rewrite Hp by lia. rewrite (cp_first m ready).
      rewrite nonzero_entries_empty by lia. reflexivity.
    + intros r Hr. rewrite !Hp by lia.
      pose proof (pointer_bounds m ready r ltac:(lia)).
      pose proof (cp_monotone m ready r Hr).
      rewrite (nonzero_entries_app m 0 (rowptr_at m r) (rowptr_at m (r + 1))) by lia.
      rewrite zlength_app.
      pose proof (zlength_nonneg
                    (nonzero_entries m (rowptr_at m r) (rowptr_at m (r + 1)))).
      lia.
    + rewrite Hp by lia. symmetry. exact Hsize.
    + rewrite Hsize. intros i Hi.
      pose proof (aget_In _ i (0, F32.zero) Hi) as Hin.
      rewrite <- (Hpre i Hi) in Hin. unfold nonzero_entries in Hin.
      apply filter_In in Hin. exact (proj2 Hin).
    + intros r Hr. apply clean_up_csr_rows; assumption.
  - apply clean_up_csr_granted. exact ready.
Qed.

Lemma padded_compactable : compactable Padded.M.
Proof.
  constructor; try reflexivity; try (vm_compute; intros D; discriminate D).
  intros r Hr. assert (Hcases : r = 0 \/ r = 1) by (cbn in Hr; lia).
  destruct Hcases as [->| ->]; vm_compute; intros D; discriminate D.
Defined.

Lemma clean_up_csr_keeps_nonzeros_witness :
  fst (fst (clean_up_csr Padded.M (generous true 4))) = 0
  /\ row_entries (snd (fst (clean_up_csr Padded.M (generous true 4)))) 0
     = filter (fun e => F32.ne0 (snd e)) (row_entries Padded.M 0)
  /\ row_entries (snd (fst (clean_up_csr Padded.M (generous true 4)))) 1
     = filter (fun e => F32.ne0 (snd e)) (row_entries Padded.M 1).
Proof.
  destruct (clean_up_csr_keeps_nonzeros Padded.M (generous true 4) padded_compactable)
    as (_ & Hrows & Hsome).
  assert (E : fst (fst (clean_up_csr Padded.M (generous true 4))) = 0).
  { apply Hsome; [intros k _; reflexivity|reflexivity]. }
  split; [exact E|].
  destruct (Hrows E) as (_ & _ & _ & _ & _ & _ & H).
  split; apply H; cbn; lia.
Defined.

(** ** What Gustavson's loop nest leaves in the buffer *)

Lemma cell_index_unique cols r c r' c' :
  0 <= c < cols -> 0 <= c' < cols -> r * cols + c = r' * cols + c' ->
  r = r' /\ c = c'.
Proof.
  intros Hc Hc' E.
  assert (Hr : r = r') by (destruct (Z.lt_trichotomy r r') as [H|[H|H]]; nia).
  subst r'. split; [reflexivity|lia].
Qed.

Section GustavsonSums.
Variables a b : Matrix.
Hypothesis valid_a : csr_invariants a.
Hypothesis valid_b : csr_invariants b.
Hypothesis inner : noCols a = noRows b.
Hypothesis cells_fit : noRows a * noCols b < modulus64.

Let idx (r c : Z) : Z := r * noCols b + c.

Let shaped (res : Matrix) : Prop :=
  noRows res = noRows a /\ noCols res = noCols b
  /\ zlength (values res) = noRows a * noCols b
  /\ zlength (colIndices res) = noRows a * noCols b.

(** A slot that holds a nonzero value names its own column. *)
Let columns_set (res : Matrix) : Prop :=
  forall r c, 0 <= r < noRows a -> 0 <= c < noCols b ->
              F32.ne0 (val_at res (idx r c)) = true -> col_at res (idx r c) = c.

(** [res] is [res0] with the products [f c] added, in order, to the cells
    [(r, c)] of row [r]. *)
Let added (r : Z) (f : Z -> list float) (res0 res : Matrix) : Prop :=
  shaped res
  /\ rowPointers res = rowPointers res0
  /\ rowPointersSize res = rowPointersSize res0
  /\ columns_set res
  /\ (forall c, 0 <= c < noCols b ->
        val_at res (idx r c) = fold_left F32.add (f c) (val_at res0 (idx r c)))
  /\ (forall r' c, 0 <= r' < noRows a -> r' <> r -> 0 <= c < noCols b ->
        val_at res (idx r' c) = val_at res0 (idx r' c)).

Lemma idx_range r c :
  0 <= r < noRows a -> 0 <= c < noCols b -> 0 <= idx r c < noRows a * noCols b.
Proof. intros Hr Hc. unfold idx. nia. Qed.

Lemma accumulate_cell res r c v :
  shaped res -> 0 <= r < noRows a -> 0 <= c < noCols b ->
  let res' := accumulate b res r c v in
  shaped res'
  /\ rowPointers res' = rowPointers res
  /\ rowPointersSize res' = rowPointersSize res
  /\ val_at res' (idx r c) = F32.add (val_at res (idx r c)) v
  /\ col_at res' (idx r c) = c
  /\ forall k, k <> idx r c ->
       val_at res' k = val_at res k /\ col_at res' k = col_at res k.
Proof.
  intros (S1 & S2 & S3 & S4) Hr Hc. cbv zeta.
  pose proof (idx_range r c Hr Hc) as Hi. unfold idx in *.
  unfold accumulate. cbv zeta. rewrite S2.
  rewrite (mul64_small r (noCols b)) by nia.
  rewrite add64_small by lia.
  unfold shaped, val_at, col_at.
  cbn [noRows noCols values colIndices rowPointers rowPointersSize
       set_values set_colIndices].
  rewrite !zlength_aset.
  split; [repeat split; assumption|]. split; [reflexivity|]. split; [reflexivity|].
  split; [apply aget_aset_same; lia|]. split; [apply aget_aset_same; lia|].
  intros k Hk. rewrite !aget_aset_other by lia. split; reflexivity.
Qed.

Lemma added_refl r res : shaped res -> columns_set res -> added r (fun _ => []) res res.
Proof.
  intros Hs Hk. unfold added. repeat split; try apply Hs; try assumption.
Qed.

Lemma added_trans r f g res0 res1 res2 :
  added r f res0 res1 -> added r g res1 res2 ->
  added r (fun c => f c ++ g c) res0 res2.
Proof.
  intros (_ & P1 & Q1 & _ & V1 & O1) (S2 & P2 & Q2 & K2 & V2 & O2).
  unfold added. split; [exact S2|]. split; [congruence|]. split; [congruence|].
  split; [exact K2|]. split.
  - intros c Hc. rewrite fold_left_app, (V2 c Hc), (V1 c Hc). reflexivity.
  - intros r' c Hr' Hne Hc. rewrite (O2 r' c Hr' Hne Hc). apply O1; assumption.
Qed.

Lemma added_ext r f g res0 res :
  (forall c, 0 <= c < noCols b -> f c = g c) -> added r f res0 res -> added r g res0 res.
Proof.
  intros E (S & P & Q & K & V & O). unfold added.
  split; [exact S|]. split; [exact P|]. split; [exact Q|]. split; [exact K|].
  split; [|exact O]. intros c Hc. rewrite <- (E c Hc). apply V. exact Hc.
Qed.

(** One product added to the cell of its column. *)
Lemma added_accumulate r c v res :
  shaped res -> columns_set res -> 0 <= r < noRows a -> 0 <= c < noCols b ->
  added r (fun c' => if c =? c' then [v] else []) res (accumulate b res r c v).
Proof.
  intros Hs Hk Hr Hc.
  destruct (accumulate_cell res r c v Hs Hr Hc) as (S' & P' & Q' & V' & C' & O').
  unfold added. split; [exact S'|]. split; [exact P'|]. split; [exact Q'|].
  split; [|split].
  - intros r' c' Hr' Hc' Hne.
    destruct (Z.eq_dec (idx r' c') (idx r c)) as [E|Hother].
    + destruct (cell_index_unique (noCols b) r' c' r c Hc' Hc E) as [-> ->].
      exact C'.
    + destruct (O' _ Hother) as [Ov Oc]. rewrite Oc. rewrite Ov in Hne.
      apply Hk; assumption.
  - intros c' Hc'. destruct (Z.eqb_spec c c') as [<-|Hne].
    + cbn [fold_left]. exact V'.
    + cbn [fold_left]. apply O'. intros E.
      destruct (cell_index_unique (noCols b) r c' r c Hc' Hc E) as [_ H]. lia.
  - intros r' c' Hr' Hne Hc'. apply O'. intros E.
    destruct (cell_index_unique (noCols b) r' c' r c Hc' Hc E) as [H _]. lia.
Qed.

Lemma added_scalar_row r p res0 :
  shaped res0 -> columns_set res0 ->
  0 <= r < noRows a -> rowptr_at a r <= p < rowptr_at a (r + 1) ->
  added r (fun c => entry_products a b c p) res0
        (scalar_row_B b r (val_at a p) (rowptr_at b (col_at a p))
                      (rowptr_at b (add64 (col_at a p) 1)) res0).
Proof.
  intros Hs Hk Hr Hp.
  pose proof (row_entry_range a valid_a r p Hr Hp) as Hrange.
  destruct (entry_row_length a b valid_a valid_b inner p Hrange) as (Hlen & Hadd & _).
  pose proof (inv_columns a valid_a p Hrange) as Hcol. rewrite inner in Hcol.
  pose proof (rowptr_range b valid_b (col_at a p) ltac:(lia)) as Hlo.
  pose proof (rowptr_range b valid_b (col_at a p + 1) ltac:(lia)) as Hhi.
  rewrite Hadd. unfold row_length in Hlen. unfold scalar_row_B, entry_products.
  set (lo := rowptr_at b (col_at a p)) in *.
  set (hi := rowptr_at b (col_at a p + 1)) in *.
  apply (for_lt_invariant
           (fun q res =>
              added r (fun c =>
                         flat_map (fun q' => if col_at b q' =? c
                                             then [F32.mul (val_at a p) (val_at b q')]
                                             else [])
                                  (zrange lo q)) res0 res)); [lia| |].
  - apply (added_ext r (fun _ => [])); [|apply added_refl; assumption].
    intros c Hc. rewrite zrange_empty by lia. reflexivity.
  - intros q res Hq Hres. cbv zeta.
    pose proof (inv_columns b valid_b q ltac:(lia)) as Hcq.
    destruct Hres as (S & P & Q & K & V & O).
    pose proof (added_accumulate r (col_at b q) (F32.mul (val_at a p) (val_at b q))
                  res S K Hr Hcq) as Hstep.
    apply (added_ext r
             (fun c =>
                flat_map (fun q' => if col_at b q' =? c
                                    then [F32.mul (val_at a p) (val_at b q')]
                                    else [])
                         (zrange lo q)
                ++ (if col_at b q =? c
                    then [F32.mul (val_at a p) (val_at b q)] else []))).
    + intros c Hc. rewrite zrange_snoc by lia. rewrite flat_map_app.
      cbn [flat_map]. rewrite app_nil_r. reflexivity.
    + apply (added_trans r _ _ res0 res); [|exact Hstep].
      unfold added. repeat split; try apply S; assumption.
Qed.

Lemma added_row r res0 :
  shaped res0 -> columns_set res0 -> 0 <= r < noRows a ->
  added r (cell_products a b r) res0
        (for_lt (rowptr_at a r) (rowptr_at a (r + 1))
           (fun indexA res =>
              scalar_row_B b r (val_at a indexA) (rowptr_at b (col_at a indexA))
                           (rowptr_at b (add64 (col_at a indexA) 1)) res)
           res0).
Proof.
  intros Hs Hk Hr. unfold cell_products.
  pose proof (inv_monotone a valid_a r Hr) as Hmono.
  apply (for_lt_invariant
           (fun p res =>
              added r (fun c => flat_map (entry_products a b c)
                                         (zrange (rowptr_at a r) p)) res0 res));
    [exact Hmono| |].
  - apply (added_ext r (fun _ => [])); [|apply added_refl; assumption].
    intros c Hc. rewrite zrange_empty by lia. reflexivity.
  - intros p res Hp Hres.
    pose proof Hres as (S & _ & _ & K & _).
    apply (added_ext r
             (fun c => flat_map (entry_products a b c) (zrange (rowptr_at a r) p)
                       ++ entry_products a b c p)).
    + intros c Hc. rewrite zrange_snoc by lia. rewrite flat_map_app.
      cbn [flat_map]. rewrite app_nil_r. reflexivity.
    + apply (added_trans r _ _ res0 res); [exact Hres|].
      apply added_scalar_row; assumption.
Qed.

Lemma gustavson_rows_buffer res0 i :
  shaped res0 -> columns_set res0 ->
  zlength (rowPointers res0) = noRows a + 1 -> 0 <= i -> i <= noRows a ->
  let res := for_lt 0 i (gustavson_row a b) res0 in
  shaped res /\ columns_set res
  /\ rowPointersSize res = rowPointersSize res0
  /\ zlength (rowPointers res) = noRows a + 1
  /\ (forall r, rowptr_at res r
                = if (1 <=? r) && (r <=? i) then r * noCols b else rowptr_at res0 r)
  /\ (forall r c, 0 <= r < noRows a -> 0 <= c < noCols b ->
        val_at res (idx r c)
        = if r <? i
          then fold_left F32.add (cell_products a b r c) (val_at res0 (idx r c))
          else val_at res0 (idx r c)).
Proof.
  intros Hs0 Hk0 Hlen0 Hi. pattern i. apply (Z_induction_from 0); [| |exact Hi].
  - intros _. cbv zeta. rewrite for_lt_empty by lia.
    split; [exact Hs0|]. split; [exact Hk0|]. split; [reflexivity|].
    split; [exact Hlen0|]. split.
    + intros r. destruct (Z.leb_spec 1 r), (Z.leb_spec r 0); try reflexivity; lia.
    + intros r c Hr Hc. destruct (Z.ltb_spec r 0); [lia|reflexivity].
  - intros x Hx IH Hle. specialize (IH ltac:(lia)). cbv zeta in IH.
    destruct IH as (S & K & Q & L & P & V).
    cbv zeta. rewrite for_lt_last by lia.
    set (res := for_lt 0 x (gustavson_row a b) res0) in *.
    unfold gustavson_row. cbv zeta.
    destruct (added_row x res S K ltac:(lia)) as (S' & P' & Q' & K' & V' & O').
    set (X := for_lt (rowptr_at a x) (rowptr_at a (x + 1)) _ res) in *.
    destruct S' as (S1 & S2 & S3 & S4).
    rewrite S2.
    assert (Hprod : 0 <= (x + 1) * noCols b < modulus64).
    { pose proof (inv_cols b valid_b) as Hcols.
      assert ((x + 1) * noCols b <= noRows a * noCols b) by nia. nia. }
    rewrite mul64_small by exact Hprod.
    unfold shaped, columns_set, val_at, col_at, rowptr_at in *.
    cbn [noRows noCols values colIndices rowPointers rowPointersSize set_rowPointers].
    rewrite zlength_aset.
    split; [repeat split; assumption|]. split; [exact K'|].
    split; [congruence|]. split; [congruence|]. split.
    + intros r. rewrite P'. destruct (Z.eq_dec r (x + 1)) as [->|Hne].
      * rewrite aget_aset_same by lia.
        replace ((1 <=? x + 1) && (x + 1 <=? x + 1)) with true; [reflexivity|].
        symmetry. apply andb_true_iff. split; apply Z.leb_le; lia.
      * rewrite aget_aset_other by lia. rewrite P.
        replace (r <=? x + 1) with (r <=? x); [reflexivity|].
        destruct (Z.leb_spec r x), (Z.leb_spec r (x + 1)); try reflexivity; lia.
    + intros r c Hr Hc. destruct (Z.eq_dec r x) as [->|Hne].
      * rewrite (V' c Hc). rewrite (V x c Hr Hc).
        destruct (Z.ltb_spec x x); [lia|].
        destruct (Z.ltb_spec x (x + 1)); [reflexivity|lia].
      * rewrite (O' r c Hr Hne Hc). rewrite (V r c Hr Hc).
        replace (r <? x + 1) with (r <? x); [reflexivity|].
        destruct (Z.ltb_spec r x), (Z.ltb_spec r (x + 1)); try reflexivity; lia.
Qed.

(** The buffer that [multiply_V2] leaves when it starts from the
    zero-filled buffer of [init_empty_csr_matrix]. *)
Lemma multiply_V2_buffer :
  let res := multiply_V2 a b (full_buffer a b) in
  noRows res = noRows a /\ noCols res = noCols b
  /\ rowPointersSize res = noRows a + 1
  /\ zlength (rowPointers res) = noRows a + 1
  /\ zlength (values res) = noRows a * noCols b
  /\ zlength (colIndices res) = noRows a * noCols b
  /\ (forall r, 0 <= r <= noRows a -> rowptr_at res r = r * noCols b)
  /\ (forall r c, 0 <= r < noRows a -> 0 <= c < noCols b ->
        val_at res (r * noCols b + c) = cell_sum a b r c
        /\ (F32.ne0 (cell_sum a b r c) = true -> col_at res (r * noCols b + c) = c)).
Proof.
  pose proof (inv_rows a valid_a) as Hrows.
  pose proof (inv_cols b valid_b) as Hcols.
  assert (Hcells : 0 <= noRows a * noCols b) by nia.
  unfold multiply_V2. cbv zeta.
  set (res0 := set_rowPointers (full_buffer a b)
                               (aset (rowPointers (full_buffer a b)) 0 0)).
  assert (Hvals : forall k, val_at res0 k = F32.zero).
  { intros k. unfold val_at, res0, full_buffer, zeroed_handle.
    cbn [values set_rowPointers deref h_values block]. apply aget_repeat. }
  assert (Hs0 : shaped res0).
  { unfold shaped, res0, full_buffer, zeroed_handle.
    cbn [noRows noCols values colIndices set_rowPointers deref h_noRows h_noCols
         h_values h_colIndices block].
    rewrite !zlength_repeat, mul64_small by lia. repeat split; lia. }
  assert (Hk0 : columns_set res0).
  { intros r c _ _ Hne. rewrite Hvals in Hne. discriminate Hne. }
  assert (Hlen0 : zlength (rowPointers res0) = noRows a + 1).
  { unfold res0, full_buffer, zeroed_handle.
    cbn [rowPointers set_rowPointers deref h_rowPointers block].
    rewrite zlength_aset, zlength_repeat, add64_small by lia. lia. }
  assert (Hsize0 : rowPointersSize res0 = noRows a + 1).
  { unfold res0, full_buffer, zeroed_handle.
    cbn [rowPointersSize set_rowPointers deref h_rowPointersSize].
    apply add64_small. lia. }
  assert (Hfirst0 : rowptr_at res0 0 = 0) by apply first_pointer_reset.
  destruct (gustavson_rows_buffer res0 (noRows a) Hs0 Hk0 Hlen0 ltac:(lia) ltac:(lia))
    as ((S1 & S2 & S3 & S4) & K & Q & L & P & V).
  split; [exact S1|]. split; [exact S2|]. split; [congruence|].
  split; [exact L|]. split; [exact S3|]. split; [exact S4|]. split.
  - intros r Hr. rewrite P. destruct (Z.leb_spec 1 r) as [H1|H0].
    + replace (r <=? noRows a) with true by (symmetry; apply Z.leb_le; lia).
      reflexivity.
    + cbn [andb]. replace r with 0 by lia. rewrite Hfirst0. lia.
  - intros r c Hr Hc.
    assert (E : val_at (for_lt 0 (noRows a) (gustavson_row a b) res0)
                       (r * noCols b + c) = cell_sum a b r c).
    { pose proof (V r c Hr Hc) as E. unfold idx in E. rewrite E.
      replace (r <? noRows a) with true by (symmetry; apply Z.ltb_lt; lia).
      rewrite Hvals. reflexivity. }
    split; [exact E|]. intros Hne. apply (K r c Hr Hc).
    unfold idx. rewrite E. exact Hne.
Qed.

End GustavsonSums.

(** ** From the buffer to the compacted product *)

Lemma deref_handle_of m : deref (handle_of m) = m.
Proof. destruct m. reflexivity. Qed.

Lemma finish_with_clean_up_result res w :
  errno (snd (finish_with_clean_up res w)) = 0 ->
  fst (fst (clean_up_csr res w)) <> HEAP_MEMORY_ERROR
  /\ deref (fst (finish_with_clean_up res w)) = snd (fst (clean_up_csr res w)).
Proof.
  unfold finish_with_clean_up, bind.
  destruct (clean_up_csr res w) as [[rc m] w1]. cbn [fst snd].
  destruct (Z.eqb_spec rc HEAP_MEMORY_ERROR) as [->|Hne]; [intros D; discriminate D|].
  intros _. split; [exact Hne|]. cbn [fst ret]. apply deref_handle_of.
Qed.

(** [clean_up_csr] returns a matrix with every CSR invariant when the
    nonzero slots of the buffer name columns of the matrix and at least one
    value is kept. *)
Lemma clean_up_csr_valid m w :
  compactable m -> fst (fst (clean_up_csr m w)) <> HEAP_MEMORY_ERROR ->
  noRows m + 1 < modulus64 -> 0 <= noCols m < modulus64 ->
  (forall k, 0 <= k < rowptr_at m (noRows m) -> F32.ne0 (val_at m k) = true ->
             0 <= col_at m k < noCols m) ->
  0 < valuesSize (snd (fst (clean_up_csr m w))) ->
  csr_invariants (snd (fst (clean_up_csr m w))).
Proof.
  intros ready Hne Hr Hc Hcol Hpos.
  destruct (clean_up_csr_spec m w ready Hne)
    as (_ & P1 & P2 & P3 & P4 & Hsize & Hp & Hpre & Hlen).
  pose proof (cp_rows m ready) as Hrows.
  pose proof (pointer_bounds m ready (noRows m) ltac:(lia)) as Hlast.
  rewrite Hsize in Hpos. specialize (Hlen Hpos).
  constructor.
  - rewrite P1. lia.
  - rewrite P2. exact Hc.
  - rewrite P3, P1. apply cp_rowPointersSize. exact ready.
  - rewrite P4, P3. apply cp_rowPointers_length. exact ready.
  - rewrite Hsize. apply Hlen.
  - rewrite Hsize. apply Hlen.
  - rewrite Hsize.
    pose proof (zlength_nonzero_entries_le m 0 (rowptr_at m (noRows m)) ltac:(lia)).
    pose proof (cp_fits m ready). lia.
  - rewrite Hp by lia. rewrite (cp_first m ready).
    rewrite nonzero_entries_empty by lia. reflexivity.
  - rewrite P1. intros r Hr'. rewrite !Hp by lia.
    pose proof (pointer_bounds m ready r ltac:(lia)).
    pose proof (cp_monotone m ready r Hr').
    rewrite (nonzero_entries_app m 0 (rowptr_at m r) (rowptr_at m (r + 1))) by lia.
    rewrite zlength_app.
    pose proof (zlength_nonneg
                  (nonzero_entries m (rowptr_at m r) (rowptr_at m (r + 1)))).
    lia.
  - rewrite P1, Hp by lia. symmetry. exact Hsize.
  - rewrite Hsize, P2. intros i Hi.
    pose proof (aget_In _ i (0, F32.zero) Hi) as Hin.
    rewrite <- (Hpre i Hi) in Hin. unfold nonzero_entries in Hin.
    apply filter_In in Hin. destruct Hin as [Hin Hnz]. cbn [snd] in Hnz.
    apply in_map_iff in Hin. destruct Hin as (k & E & Hk).
    apply in_zrange in Hk. inversion E as [[E1 E2]].
    rewrite <- E2 in Hnz. apply Hcol; assumption.
  - rewrite Hsize. intros i Hi.
    pose proof (aget_In _ i (0, F32.zero) Hi) as Hin.
    rewrite <- (Hpre i Hi) in Hin. unfold nonzero_entries in Hin.
    apply filter_In in Hin. exact (proj2 Hin).
Qed.

Section CompactedProduct.
Variables a b : Matrix.
Hypothesis valid_a : csr_invariants a.
Hypothesis valid_b : csr_invariants b.
Hypothesis multiplicable : can_multiply a b = true.
Hypothesis cells_fit : noRows a * noCols b < modulus64.

Let buffer : Matrix := multiply_V2 a b (full_buffer a b).

Lemma multiplicable_dimensions :
  noCols a = noRows b /\ 1 <= noRows a /\ 1 <= noCols b.
Proof.
  unfold can_multiply in multiplicable.
  repeat (apply andb_true_iff in multiplicable;
          destruct multiplicable as [multiplicable ?]).
  repeat match goal with
         | H : (_ =? _) = true |- _ => apply Z.eqb_eq in H
         | H : (_ <=? _) = true |- _ => apply Z.leb_le in H
         | H : _ && _ = true |- _ => apply andb_true_iff in H; destruct H
         end.
  lia.
Qed.

Lemma buffer_compactable : compactable buffer.
Proof.
  destruct multiplicable_dimensions as (inner & Hrows & Hcols).
  destruct (multiply_V2_buffer a b valid_a valid_b inner cells_fit)
    as (B1 & B2 & B3 & B4 & B5 & B6 & Bp & Bv).
  fold buffer in B1, B2, B3, B4, B5, B6, Bp, Bv.
  constructor.
  - rewrite B1. lia.
  - rewrite B3, B1. reflexivity.
  - rewrite B4, B3. reflexivity.
  - rewrite Bp by lia. lia.
  - rewrite B1. intros r Hr. rewrite !Bp by lia. nia.
  - rewrite B1, Bp, B5 by lia. lia.
  - rewrite B5, B6. reflexivity.
  - rewrite B5. exact cells_fit.
Qed.

(** Row [r] of the buffer, with its zero slots dropped, lists the nonzero
    cell sums of the row by ascending column. *)
Lemma buffer_row r :
  0 <= r < noRows a ->
  filter (fun e => F32.ne0 (snd e)) (row_entries buffer r) = product_row a b r.
Proof.
  intros Hr.
  destruct multiplicable_dimensions as (inner & Hrows & Hcols).
  destruct (multiply_V2_buffer a b valid_a valid_b inner cells_fit)
    as (B1 & B2 & B3 & B4 & B5 & B6 & Bp & Bv).
  fold buffer in B1, B2, B3, B4, B5, B6, Bp, Bv.
  unfold row_entries, product_row. rewrite !Bp by lia.
  replace ((r + 1) * noCols b) with (r * noCols b + noCols b) by lia.
  assert (G : forall n, 0 <= n -> n <= noCols b ->
            filter (fun e : Z * float => F32.ne0 (snd e))
                   (map (fun k => (col_at buffer k, val_at buffer k))
                        (zrange (r * noCols b) (r * noCols b + n)))
            = nz_cells (map (cell_sum a b r) (zrange 0 (noCols b))) n).
  { intros n Hn. pattern n. apply (Z_induction_from 0); [| |exact Hn].
    - intros _. rewrite Z.add_0_r, zrange_empty by lia. reflexivity.
    - intros x Hx IH Hle. specialize (IH ltac:(lia)).
      rewrite Z.add_assoc, zrange_snoc by lia.
      rewrite map_app, filter_app, IH, nz_cells_snoc by lia.
      f_equal. cbn [map filter snd].
      rewrite (aget_map_zrange (cell_sum a b r) 0 (noCols b) x F32.zero) by lia.
      rewrite Z.add_0_l.
      destruct (Bv r x Hr ltac:(lia)) as [Ev Ec]. rewrite Ev.
      destruct (F32.ne0 (cell_sum a b r x)) eqn:Hnz; [|reflexivity].
      rewrite (Ec eq_refl). reflexivity. }
  apply G; lia.
Qed.

(** A nonzero slot of the buffer names a column of the product. *)
Lemma buffer_columns k :
  0 <= k < rowptr_at buffer (noRows buffer) -> F32.ne0 (val_at buffer k) = true ->
  0 <= col_at buffer k < noCols buffer.
Proof.
  destruct multiplicable_dimensions as (inner & Hrows & Hcols).
  destruct (multiply_V2_buffer a b valid_a valid_b inner cells_fit)
    as (B1 & B2 & B3 & B4 & B5 & B6 & Bp & Bv).
  fold buffer in B1, B2, B3, B4, B5, B6, Bp, Bv.
  rewrite B1, B2, Bp by lia. intros Hk Hnz.
  pose proof (Z.div_mod k (noCols b) ltac:(lia)) as Hdm.
  pose proof (Z.mod_pos_bound k (noCols b) ltac:(lia)) as Hmod.
  assert (Hq : 0 <= k / noCols b < noRows a).
  { split; [apply Z.div_pos; lia|apply Z.div_lt_upper_bound; lia]. }
  replace k with (k / noCols b * noCols b + k mod noCols b) in Hnz |- * by lia.
  destruct (Bv _ _ Hq Hmod) as [Ev Ec].
  rewrite Ev in Hnz. rewrite (Ec Hnz). exact Hmod.
Qed.

(** What [clean_up_csr] makes of V2's buffer. *)
Lemma compacted_buffer w1 :
  fst (fst (clean_up_csr buffer w1)) <> HEAP_MEMORY_ERROR ->
  let m' := snd (fst (clean_up_csr buffer w1)) in
  noRows m' = noRows a /\ noCols m' = noCols b
  /\ (forall r, 0 <= r < noRows a -> row_entries m' r = product_row a b r)
  /\ (0 < valuesSize m' -> csr_invariants m').
Proof.
  intros Hne. cbv zeta.
  destruct multiplicable_dimensions as (inner & Hrows & Hcols).
  destruct (multiply_V2_buffer a b valid_a valid_b inner cells_fit)
    as (B1 & B2 & _).
  fold buffer in B1, B2.
  destruct (clean_up_csr_spec buffer w1 buffer_compactable Hne)
    as (_ & P1 & P2 & _).
  split; [congruence|]. split; [congruence|]. split.
  - intros r Hr. rewrite clean_up_csr_rows;
      [apply buffer_row; exact Hr|exact buffer_compactable|exact Hne|lia].
  - apply clean_up_csr_valid.
    + exact buffer_compactable.
    + exact Hne.
    + rewrite B1. apply (inv_rows a valid_a).
    + rewrite B2. apply (inv_cols b valid_b).
    + exact buffer_columns.
Qed.

(** What an entry point that compacts V2's buffer returns. *)
Lemma compacted_product w1 :
  errno (snd (finish_with_clean_up buffer w1)) = 0 ->
  let m' := deref (fst (finish_with_clean_up buffer w1)) in
  noRows m' = noRows a /\ noCols m' = noCols b
  /\ (forall r, 0 <= r < noRows a -> row_entries m' r = product_row a b r)
  /\ (0 < valuesSize m' -> csr_invariants m').
Proof.
  intros E. cbv zeta.
  destruct (finish_with_clean_up_result buffer w1 E) as [Hne ->].
  exact (compacted_buffer w1 Hne).
Qed.

(** The buffer has [noRows a * noCols b] cells. *)
Lemma buffer_cells : zlength (values buffer) = noRows a * noCols b.
Proof.
  destruct multiplicable_dimensions as (inner & Hrows & Hcols).
  destruct (multiply_V2_buffer a b valid_a valid_b inner cells_fit)
    as (_ & _ & _ & _ & B5 & _).
  exact B5.
Qed.

End CompactedProduct.

(** X11 -- functional correctness of Gustavson's kernels.  When
    [matr_mult_csr_V2], [matr_mult_csr_V3] or (on a machine with AVX)
    [matr_mult_csr_V4] leaves [errno] at 0 on a valid multiplicable pair
    whose dense size [noRows a * noCols b] fits 64 bits, the result has the
    dimensions of the product and its row [r] stores exactly the nonzero
    cell sums of that row, by ascending column; the sum of cell [(r, c)]
    adds, from 0 and in the order of the loop nest, the products of every
    entry of row [r] of A with the entries of the matching row of B that
    lie in column [c].  When at least one value is stored the result
    satisfies every CSR invariant. *)
Theorem gustavson_rows_are_products
        (f : Matrix -> Matrix -> Handle -> M Handle)
        (a b : Matrix) (h : Handle) (w : World) :
  valid_csr a -> valid_csr b -> can_multiply a b = true ->
  noRows a * noCols b < modulus64 ->
  f = matr_mult_csr_V2 \/ f = matr_mult_csr_V3
  \/ (f = matr_mult_csr_V4 /\ cpu_avx w = true) ->
  errno (snd (f a b h w)) = 0 ->
  let m' := deref (fst (f a b h w)) in
  noRows m' = noRows a /\ noCols m' = noCols b
  /\ (forall r, 0 <= r < noRows a -> row_entries m' r = product_row a b r)
  /\ (0 < valuesSize m' -> valid_csr m').
Proof.
  intros Va Vb Hmul Hfit Hf E.
  apply valid_csr_invariants in Va. apply valid_csr_invariants in Vb.
  assert (Hrun : exists w1,
            errno (snd (finish_with_clean_up (multiply_V2 a b (full_buffer a b)) w1)) = 0
            /\ fst (f a b h w)
               = fst (finish_with_clean_up (multiply_V2 a b (full_buffer a b)) w1)).
  { destruct Hf as [->|[->|[-> Havx]]].
    - apply matr_mult_csr_V2_success; assumption.
    - apply matr_mult_csr_V3_success; assumption.
    - apply matr_mult_csr_V4_success; assumption. }
  destruct Hrun as (w1 & E1 & ->).
  destruct (compacted_product a b Va Vb Hmul Hfit w1 E1) as (D1 & D2 & D3 & D4).
  cbv zeta. split; [exact D1|]. split; [exact D2|]. split; [exact D3|].
  intros Hpos. apply valid_csr_invariants. apply D4. exact Hpos.
Qed.

Lemma gustavson_rows_are_products_witness :
  row_entries (deref (fst (matr_mult_csr_V3 Wide.A Wide.B blank_handle
                                            (generous true 4)))) 0
  = product_row Wide.A Wide.B 0
  /\ row_entries (deref (fst (matr_mult_csr_V3 Wide.A Wide.B blank_handle
                                               (generous true 4)))) 1
     = product_row Wide.A Wide.B 1
  /\ valid_csr (deref (fst (matr_mult_csr_V3 Wide.A Wide.B blank_handle
                                             (generous true 4)))).
Proof.
  destruct (gustavson_rows_are_products matr_mult_csr_V3 Wide.A Wide.B blank_handle
              (generous true 4)
              ltac:(vm_compute; reflexivity) ltac:(vm_compute; reflexivity)
              ltac:(vm_compute; reflexivity) ltac:(vm_compute; reflexivity)
              ltac:(right; left; reflexivity) ltac:(vm_compute; reflexivity))
    as (_ & _ & Hrows & Hvalid).
  split; [apply Hrows; vm_compute; split; [intros D; discriminate D|reflexivity]|].
  split; [apply Hrows; vm_compute; split; [intros D; discriminate D|reflexivity]|].
  apply Hvalid. vm_compute. reflexivity.
Defined.

(** ** What the three loops of V1 leave in the dense result *)

Lemma nz_cells_ext row row' j :
  0 <= j ->
  (forall k, 0 <= k < j -> aget row k F32.zero = aget row' k F32.zero) ->
  nz_cells row j = nz_cells row' j.
Proof.
  intros Hj. pattern j. apply (Z_induction_from 0); [| |exact Hj].
  - intros _. reflexivity.
  - intros x Hx IH E. rewrite !nz_cells_snoc by lia.
    rewrite IH by (intros k Hk; apply E; lia).
    rewrite (E x ltac:(lia)). reflexivity.
Qed.

Section DenseSums.
Variables a b : Matrix.
Variables ord_a ord_b : dense.
Hypothesis rows_range : 0 <= noRows a.
Hypothesis inner_range : 0 <= noCols a.
Hypothesis cols_range : 0 <= noCols b.

Let shape (d : dense) : Prop :=
  zlength d = noRows a
  /\ forall i, 0 <= i < noRows a -> zlength (aget d i []) = noCols b.

Let step (i j : Z) (acc : float) (k : Z) : float :=
  F32.add acc (F32.mul (dget ord_a i k) (dget ord_b k j)).

Lemma dset_shape d i j v : shape d -> shape (dset d i j v).
Proof.
  intros [L R]. unfold dset. split.
  - rewrite zlength_aset. exact L.
  - intros i' Hi'. destruct (Z.eq_dec i i') as [->|Hne].
    + rewrite aget_aset_same by lia. rewrite zlength_aset. apply R. exact Hi'.
    + rewrite aget_aset_other by exact Hne. apply R. exact Hi'.
Qed.

Lemma dget_dset_same d i j v :
  shape d -> 0 <= i < noRows a -> 0 <= j < noCols b -> dget (dset d i j v) i j = v.
Proof.
  intros [L R] Hi Hj. unfold dget, dset.
  rewrite aget_aset_same by lia. apply aget_aset_same. rewrite R; lia.
Qed.

Lemma dget_dset_other d i j v i' j' :
  i' <> i \/ j' <> j -> dget (dset d i j v) i' j' = dget d i' j'.
Proof.
  intros Hne. destruct (dget_dset_cases d i j v i' j') as [(Ei & Ej & _)|E];
    [lia|exact E].
Qed.

(** The loop over [k] adds the products of one cell. *)
Lemma cell_loop r0 i j n :
  shape r0 -> 0 <= i < noRows a -> 0 <= j < noCols b -> 0 <= n ->
  let r := for_lt 0 n
             (fun k r => dset r i j
                (F32.add (dget r i j) (F32.mul (dget ord_a i k) (dget ord_b k j))))
             r0 in
  shape r
  /\ dget r i j = fold_left (step i j) (zrange 0 n) (dget r0 i j)
  /\ forall i' j', i' <> i \/ j' <> j -> dget r i' j' = dget r0 i' j'.
Proof.
  intros S0 Hi Hj Hn. pattern n. apply (Z_induction_from 0); [| |exact Hn].
  - cbv zeta. rewrite for_lt_empty by lia. split; [exact S0|].
    split; [reflexivity|]. intros; reflexivity.
  - intros x Hx IH. cbv zeta in IH |- *. destruct IH as (S & V & O).
    rewrite for_lt_last by lia.
    split; [apply dset_shape; exact S|]. split.
    + rewrite dget_dset_same by assumption.
      rewrite zrange_snoc, fold_left_app by lia. cbn [fold_left].
      rewrite V. reflexivity.
    + intros i' j' Hne. rewrite dget_dset_other by exact Hne. apply O. exact Hne.
Qed.

(** The loop over [j] fills the cells of one row. *)
Lemma row_loop r0 i m :
  shape r0 -> 0 <= i < noRows a -> 0 <= m -> m <= noCols b ->
  let r := for_lt 0 m
             (fun j r =>
                for_lt 0 (noCols a)
                  (fun k r => dset r i j
                     (F32.add (dget r i j) (F32.mul (dget ord_a i k) (dget ord_b k j))))
                  r)
             r0 in
  shape r
  /\ forall i' j',
       dget r i' j'
       = if (i' =? i) && ((0 <=? j') && (j' <? m))
         then fold_left (step i j') (zrange 0 (noCols a)) (dget r0 i j')
         else dget r0 i' j'.
Proof.
  intros S0 Hi Hm. pattern m. apply (Z_induction_from 0); [| |exact Hm].
  - intros _. cbv zeta. rewrite for_lt_empty by lia. split; [exact S0|].
    intros i' j'.
    destruct (i' =? i), (Z.leb_spec 0 j'), (Z.ltb_spec j' 0);
      cbn [andb]; try reflexivity; lia.
  - intros x Hx IH Hle. specialize (IH ltac:(lia)). cbv zeta in IH |- *.
    destruct IH as (S & V). rewrite for_lt_last by lia.
    destruct (cell_loop (for_lt 0 x
                (fun j r =>
                   for_lt 0 (noCols a)
                     (fun k r => dset r i j
                        (F32.add (dget r i j)
                                 (F32.mul (dget ord_a i k) (dget ord_b k j))))
                     r) r0) i x (noCols a) S Hi ltac:(lia) inner_range)
      as (S' & V' & O').
    split; [exact S'|]. intros i' j'.
    destruct (Z.eq_dec i' i) as [->|Hi'].
    + destruct (Z.eq_dec j' x) as [->|Hj'].
      * rewrite V', V. rewrite Z.eqb_refl.
        destruct (Z.leb_spec 0 x), (Z.ltb_spec x x), (Z.ltb_spec x (x + 1));
          cbn [andb]; try reflexivity; lia.
      * rewrite O' by (right; exact Hj'). rewrite V. rewrite Z.eqb_refl.
        destruct (Z.leb_spec 0 j'), (Z.ltb_spec j' x), (Z.ltb_spec j' (x + 1));
          cbn [andb]; try reflexivity; lia.
    + rewrite O' by (left; exact Hi'). rewrite V.
      destruct (Z.eqb_spec i' i); [contradiction|reflexivity].
Qed.

(** The loop over [i] fills the rows. *)
Lemma rows_loop r0 m :
  shape r0 -> 0 <= m -> m <= noRows a ->
  let r := for_lt 0 m
             (fun i r =>
                for_lt 0 (noCols b)
                  (fun j r =>
                     for_lt 0 (noCols a)
                       (fun k r => dset r i j
                          (F32.add (dget r i j)
                                   (F32.mul (dget ord_a i k) (dget ord_b k j))))
                       r)
                  r)
             r0 in
  shape r
  /\ forall i' j',
       dget r i' j'
       = if ((0 <=? i') && (i' <? m)) && ((0 <=? j') && (j' <? noCols b))
         then fold_left (step i' j') (zrange 0 (noCols a)) (dget r0 i' j')
         else dget r0 i' j'.
Proof.
  intros S0 Hm. pattern m. apply (Z_induction_from 0); [| |exact Hm].
  - intros _. cbv zeta. rewrite for_lt_empty by lia. split; [exact S0|].
    intros i' j'.
    destruct (Z.leb_spec 0 i'), (Z.ltb_spec i' 0); cbn [andb]; try reflexivity; lia.
  - intros x Hx IH Hle. specialize (IH ltac:(lia)). cbv zeta in IH |- *.
    destruct IH as (S & V). rewrite for_lt_last by lia.
    destruct (row_loop (for_lt 0 x
                (fun i r =>
                   for_lt 0 (noCols b)
                     (fun j r =>
                        for_lt 0 (noCols a)
                          (fun k r => dset r i j
                             (F32.add (dget r i j)
                                      (F32.mul (dget ord_a i k) (dget ord_b k j))))
                          r)
                     r) r0) x (noCols b) S ltac:(lia) cols_range ltac:(lia))
      as (S' & V').
    split; [exact S'|]. intros i' j'. rewrite V', !V.
    destruct (Z.eqb_spec i' x) as [->|Hi'].
    + destruct (Z.leb_spec 0 x), (Z.ltb_spec x x), (Z.ltb_spec x (x + 1)),
               (Z.leb_spec 0 j'), (Z.ltb_spec j' (noCols b));
        cbn [andb]; try reflexivity; lia.
    + destruct (Z.leb_spec 0 i'), (Z.ltb_spec i' x), (Z.ltb_spec i' (x + 1));
        cbn [andb]; try reflexivity; lia.
Qed.

Lemma dense_multiply_cells i j :
  0 <= i < noRows a -> 0 <= j < noCols b ->
  dget (dense_multiply a b ord_a ord_b (dense_zero (noRows a) (noCols b))) i j
  = dense_cell_sum ord_a ord_b (noCols a) i j.
Proof.
  intros Hi Hj.
  assert (S0 : shape (dense_zero (noRows a) (noCols b))).
  { unfold shape, dense_zero. split.
    - rewrite zlength_repeat. lia.
    - intros r Hr. rewrite aget_repeat_in_range by lia.
      rewrite zlength_repeat. lia. }
  destruct (rows_loop _ (noRows a) S0 rows_range ltac:(lia)) as (_ & V).
  unfold dense_multiply. rewrite V.
  replace ((0 <=? i) && (i <? noRows a)) with true
    by (symmetry; apply andb_true_iff; split; [apply Z.leb_le|apply Z.ltb_lt]; lia).
  replace ((0 <=? j) && (j <? noCols b)) with true
    by (symmetry; apply andb_true_iff; split; [apply Z.leb_le|apply Z.ltb_lt]; lia).
  cbn [andb]. rewrite dget_dense_zero. reflexivity.
Qed.

End DenseSums.

(** On success V1 returns the CSR form of the dense product. *)
Lemma matr_mult_csr_V1_success a b h w :
  errno (snd (matr_mult_csr_V1 a b h w)) = 0 ->
  can_multiply a b = true
  /\ fst (matr_mult_csr_V1 a b h w)
     = handle_of (csr_of_dense (noRows a) (noCols b)
                    (dense_multiply a b (dense_of_csr a) (dense_of_csr b)
                       (dense_zero (noRows a) (noCols b)))).
Proof.
  unfold matr_mult_csr_V1.
  destruct (can_multiply a b); cbn [negb]; [|intros D; discriminate D].
  unfold bind.
  pose proof (csr_to_ordinary_some a w) as Ha.
  destruct (csr_to_ordinary a w) as [[da|] w1]; [|intros D; discriminate D].
  specialize (Ha da w1 eq_refl). subst da.
  pose proof (csr_to_ordinary_some b w1) as Hb.
  destruct (csr_to_ordinary b w1) as [[db|] w2]; [|intros D; discriminate D].
  specialize (Hb db w2 eq_refl). subst db.
  destruct (malloc_safe (noRows a) sizeof_ptr w2) as [[|] w3]; cbn [negb];
    [|intros D; discriminate D].
  destruct (calloc_rows (Z.to_nat (noRows a)) (noCols b) w3) as [[|] w4]; cbn [negb];
    [|intros D; discriminate D].
  pose proof (ordinary_to_csr_some (noRows a) (noCols b)
                (dense_multiply a b (dense_of_csr a) (dense_of_csr b)
                   (dense_zero (noRows a) (noCols b))) w4) as Hm.
  destruct (ordinary_to_csr _ _ _ w4) as [[m|] w5]; [|intros D; discriminate D].
  specialize (Hm m w5 eq_refl). subst m. intros _.
  split; reflexivity.
Qed.

(** X12 -- functional correctness of the conversion-based kernel.  When
    [matr_mult_csr_V1] leaves [errno] at 0 on valid operands whose dense
    result size [noRows a * noCols b] fits 64 bits, the operands were
    multiplicable, the result satisfies every CSR invariant, has the
    dimensions of the product, and its row [r] stores exactly the nonzero
    cells of row [r] of the dense product by ascending column, where cell
    [(r, c)] is the float sum, from 0 and for [k = 0 .. noCols a - 1] in
    that order, of [ord_a[r][k] * ord_b[k][c]] over the dense forms of the
    operands. *)
Theorem reference_rows_are_dense_sums (a b : Matrix) (h : Handle) (w : World) :
  valid_csr a -> valid_csr b -> noRows a * noCols b < modulus64 ->
  errno (snd (matr_mult_csr_V1 a b h w)) = 0 ->
  let m' := deref (fst (matr_mult_csr_V1 a b h w)) in
  can_multiply a b = true
  /\ valid_csr m' /\ noRows m' = noRows a /\ noCols m' = noCols b
  /\ forall r, 0 <= r < noRows a -> row_entries m' r = dense_product_row a b r.
Proof.
  intros Va Vb Hfit E.
  apply valid_csr_invariants in Va. apply valid_csr_invariants in Vb.
  destruct (matr_mult_csr_V1_success a b h w E) as [Hmul ->].
  pose proof (inv_rows a Va) as Hrows.
  pose proof (inv_cols a Va) as Hinner.
  pose proof (inv_cols b Vb) as Hcols.
  cbv zeta. rewrite deref_handle_of.
  set (d := dense_multiply a b (dense_of_csr a) (dense_of_csr b)
              (dense_zero (noRows a) (noCols b))).
  split; [exact Hmul|]. split.
  { apply valid_csr_invariants. apply csr_of_dense_invariants; assumption. }
  assert (Hnz : zlength (nz_upto (noCols b) d (noRows a)) < modulus64)
    by (apply nz_total_fits; assumption).
  destruct (csr_of_dense_spec (noRows a) (noCols b) d Hrows (proj1 Hcols) Hnz)
    as (D1 & D2 & _).
  split; [exact D1|]. split; [exact D2|].
  intros r Hr.
  rewrite row_entries_csr_of_dense;
    [|exact Hrows|lia|apply nz_total_fits; assumption|exact Hr].
  unfold dense_product_row. apply nz_cells_ext; [lia|].
  intros k Hk.
  rewrite (aget_map_zrange
             (dense_cell_sum (dense_of_csr a) (dense_of_csr b) (noCols a) r)
             0 (noCols b) k F32.zero) by lia.
  rewrite Z.add_0_l.
  apply (dense_multiply_cells a b (dense_of_csr a) (dense_of_csr b)); lia.
Qed.

Lemma reference_rows_are_dense_sums_witness :
  valid_csr (deref (fst (matr_mult_csr_V1 Scenario.A Scenario.B blank_handle
                                          (generous true 4))))
  /\ row_entries (deref (fst (matr_mult_csr_V1 Scenario.A Scenario.B blank_handle
                                               (generous true 4)))) 1
     = dense_product_row Scenario.A Scenario.B 1.
Proof.
  destruct (reference_rows_are_dense_sums Scenario.A Scenario.B blank_handle
              (generous true 4)
              ltac:(vm_compute; reflexivity) ltac:(vm_compute; reflexivity)
              ltac:(vm_compute; reflexivity) ltac:(vm_compute; reflexivity))
    as (_ & Hvalid & _ & _ & Hrows).
  split; [exact Hvalid|].
  apply Hrows. vm_compute. split; [intros D; discriminate D|reflexivity].
Defined.

(** ** The threaded entry point on a machine that grants every request *)

Lemma calm_refl w : calm w w.
Proof. repeat split. Qed.

Lemma calm_trans w w1 w2 : calm w w1 -> calm w1 w2 -> calm w w2.
Proof.
  intros (A1 & A2 & A3 & A4) (B1 & B2 & B3 & B4).
  repeat split; congruence.
Qed.

Lemma granting_calm w w' : granting w -> calm w w' -> granting w'.
Proof.
  intros [H T] (_ & C2 & C3 & _). split; intros n; [rewrite C2|rewrite C3]; auto.
Qed.

Lemma heap_request_granted w :
  granting w -> fst (heap_request w) = true /\ calm w (snd (heap_request w)).
Proof.
  intros [H _]. unfold heap_request. cbn [fst snd].
  split; [apply H|repeat split].
Qed.

Lemma pthread_create_granted w :
  granting w -> fst (pthread_create w) = true /\ calm w (snd (pthread_create w)).
Proof.
  intros [_ T]. unfold pthread_create. cbn [fst snd].
  split; [apply T|repeat split].
Qed.

Lemma calloc_granting n size w :
  granting w -> n * size < modulus64 ->
  fst (calloc n size w) = true /\ calm w (snd (calloc n size w)).
Proof.
  intros G Hfit. unfold calloc, bind.
  destruct (heap_request_granted w G) as [E C].
  destruct (heap_request w) as [ok w1]. cbn [fst snd] in E, C. subst ok.
  cbn [ret fst snd andb]. split; [apply Z.ltb_lt; exact Hfit|exact C].
Qed.

Lemma malloc_safe_granting element_size num_elements w :
  granting w -> element_size * num_elements < modulus64 ->
  fst (malloc_safe element_size num_elements w) = true
  /\ calm w (snd (malloc_safe element_size num_elements w)).
Proof.
  intros G Hfit. unfold malloc_safe, umull_overflow.
  destruct (Z.leb_spec modulus64 (element_size * num_elements)); [lia|].
  apply heap_request_granted. exact G.
Qed.

Lemma init_empty_csr_matrix_granting a b h w :
  granting w -> 0 <= noRows a -> 0 <= noRows a * noCols b ->
  sizeof_uint64 * (noRows a * noCols b) < modulus64 ->
  sizeof_uint64 * (noRows a + 1) < modulus64 ->
  fst (fst (init_empty_csr_matrix a b h NO_PREDICTION w)) = 0
  /\ calm w (snd (init_empty_csr_matrix a b h NO_PREDICTION w)).
Proof.
  intros G Hrows Hcells Hfit Hfit'.
  assert (H8 : sizeof_uint64 = 8) by reflexivity.
  assert (H4 : sizeof_float = 4) by reflexivity.
  unfold init_empty_csr_matrix.
  change (NO_PREDICTION =? 0) with true. cbv iota.
  unfold bind. cbn [ret].
  change (0 =? HEAP_MEMORY_ERROR) with false. cbv iota.
  rewrite !mul64_small by lia. rewrite !add64_small by lia.
  destruct (calloc_granting (noRows a * noCols b) sizeof_float w G ltac:(lia))
    as [E1 C1].
  destruct (calloc (noRows a * noCols b) sizeof_float w) as [ok1 w1].
  cbn [fst snd] in E1, C1. subst ok1. cbn [negb].
  pose proof (granting_calm w w1 G C1) as G1.
  destruct (calloc_granting (noRows a * noCols b) sizeof_uint64 w1 G1 ltac:(lia))
    as [E2 C2].
  destruct (calloc (noRows a * noCols b) sizeof_uint64 w1) as [ok2 w2].
  cbn [fst snd] in E2, C2. subst ok2. cbn [negb].
  pose proof (granting_calm w1 w2 G1 C2) as G2.
  destruct (malloc_safe_granting sizeof_uint64 (noRows a + 1) w2 G2 ltac:(lia))
    as [E3 C3].
  destruct (malloc_safe sizeof_uint64 (noRows a + 1) w2) as [ok3 w3].
  cbn [fst snd] in E3, C3. subst ok3. cbn [negb ret fst snd].
  split; [reflexivity|].
  exact (calm_trans _ _ _ (calm_trans _ _ _ C1 C2) C3).
Qed.

Lemma malloc_each_granting n size w :
  granting w ->
  fst (malloc_each n size w) = true /\ calm w (snd (malloc_each n size w)).
Proof.
  revert w. induction n as [|n IH]; intros w G.
  - split; [reflexivity|apply calm_refl].
  - cbn [malloc_each]. unfold bind, malloc.
    destruct (heap_request_granted w G) as [E C].
    destruct (heap_request w) as [ok w1]. cbn [fst snd] in E, C. subst ok.
    destruct (IH w1 (granting_calm w w1 G C)) as [E' C'].
    split; [exact E'|exact (calm_trans _ _ _ C C')].
Qed.

Lemma spawn_workers_granting a b args res w :
  granting w ->
  fst (fst (spawn_workers a b args res w)) = 0
  /\ calm w (snd (spawn_workers a b args res w)).
Proof.
  revert res w. induction args as [|arg rest IH]; intros res w G.
  - split; [reflexivity|apply calm_refl].
  - cbn [spawn_workers]. unfold bind.
    destruct (pthread_create_granted w G) as [E C].
    destruct (pthread_create w) as [ok w1]. cbn [fst snd] in E, C. subst ok.
    destruct (IH (multiply_main_implementation a b arg res) w1
                 (granting_calm w w1 G C)) as [E' C'].
    split; [exact E'|exact (calm_trans _ _ _ C C')].
Qed.

Lemma start_threads_granting tc a b res w :
  granting w -> tc <> 0 ->
  fst (fst (start_threads tc a b res w)) = 0
  /\ calm w (snd (start_threads tc a b res w)).
Proof.
  intros G Htc. unfold start_threads.
  destruct (Z.eqb_spec tc 0) as [D|_]; [contradiction|].
  unfold bind, malloc.
  destruct (heap_request_granted w G) as [E1 C1].
  destruct (heap_request w) as [ok1 w1]. cbn [fst snd] in E1, C1. subst ok1.
  cbn [negb].
  pose proof (granting_calm w w1 G C1) as G1.
  destruct (malloc_each_granting (Z.to_nat tc) sizeof_MultiplyArg w1 G1) as [E2 C2].
  destruct (malloc_each (Z.to_nat tc) sizeof_MultiplyArg w1) as [ok2 w2].
  cbn [fst snd] in E2, C2. subst ok2. cbn [negb].
  pose proof (granting_calm w1 w2 G1 C2) as G2.
  destruct (heap_request_granted w2 G2) as [E3 C3].
  destruct (heap_request w2) as [ok3 w3]. cbn [fst snd] in E3, C3. subst ok3.
  cbn [negb].
  pose proof (granting_calm w2 w3 G2 C3) as G3.
  destruct (spawn_workers_granting a b (make_arguments (noRows a) tc) res w3 G3)
    as [E4 C4].
  split; [exact E4|].
  exact (calm_trans _ _ _ (calm_trans _ _ _ (calm_trans _ _ _ C1 C2) C3) C4).
Qed.

(** [clean_up_csr] never writes [errno]. *)
Lemma clean_up_csr_calm m w : calm w (snd (clean_up_csr m w)).
Proof.
  unfold clean_up_csr.
  destruct (_clean_up_matrix_arrays m) as [[rc m'] nz].
  unfold umull_overflow, bind, realloc, heap_request, ret.
  repeat match goal with
         | |- context [if ?c then _ else _] => destruct c
         end; cbn [fst snd negb]; repeat split.
Qed.

Lemma finish_with_clean_up_handle res w :
  fst (fst (clean_up_csr res w)) <> HEAP_MEMORY_ERROR ->
  fst (finish_with_clean_up res w) = handle_of (snd (fst (clean_up_csr res w)))
  /\ errno (snd (finish_with_clean_up res w)) = errno (snd (clean_up_csr res w)).
Proof.
  unfold finish_with_clean_up, bind.
  destruct (clean_up_csr res w) as [[rc m] w1]. cbn [fst snd].
  destruct (Z.eqb_spec rc HEAP_MEMORY_ERROR) as [->|Hne];
    [intros D; contradiction D; reflexivity|].
  intros _. split; reflexivity.
Qed.

(** With every thread start granted, [start_threads] calls
    [pthread_create] once for each worker. *)
Lemma spawn_workers_count a b args res w :
  granting w ->
  thread_calls (snd (spawn_workers a b args res w))
  = (thread_calls w + length args)%nat.
Proof.
  revert res w. induction args as [|arg rest IH]; intros res w G.
  - cbn [spawn_workers ret snd length]. lia.
  - cbn [spawn_workers length]. unfold bind.
    destruct (pthread_create_granted w G) as [E C].
    assert (Hcalls : thread_calls (snd (pthread_create w)) = S (thread_calls w))
      by reflexivity.
    destruct (pthread_create w) as [ok w1]. cbn [fst snd] in E, C, Hcalls. subst ok.
    rewrite (IH (multiply_main_implementation a b arg res) w1
                (granting_calm w w1 G C)).
    lia.
Qed.

Lemma start_threads_spawns tc a b res w :
  granting w -> 1 <= noRows a < modulus64 -> 1 <= tc < modulus32 ->
  thread_calls (snd (start_threads tc a b res w))
  = (thread_calls w + Z.to_nat tc)%nat.
Proof.
  intros G Hrows Htc. unfold start_threads.
  destruct (Z.eqb_spec tc 0) as [D|_]; [lia|].
  unfold bind, malloc.
  destruct (heap_request_granted w G) as [E1 C1].
  assert (T1 : thread_calls (snd (heap_request w)) = thread_calls w) by reflexivity.
  destruct (heap_request w) as [ok1 w1]. cbn [fst snd] in E1, C1, T1. subst ok1.
  cbn [negb].
  pose proof (granting_calm w w1 G C1) as G1.
  destruct (malloc_each_granting (Z.to_nat tc) sizeof_MultiplyArg w1 G1) as [E2 C2].
  destruct (malloc_each_frame (Z.to_nat tc) sizeof_MultiplyArg w1) as [_ T2].
  destruct (malloc_each (Z.to_nat tc) sizeof_MultiplyArg w1) as [ok2 w2].
  cbn [fst snd] in E2, C2, T2. subst ok2. cbn [negb].
  pose proof (granting_calm w1 w2 G1 C2) as G2.
  destruct (heap_request_granted w2 G2) as [E3 C3].
  assert (T3 : thread_calls (snd (heap_request w2)) = thread_calls w2)
    by reflexivity.
  destruct (heap_request w2) as [ok3 w3]. cbn [fst snd] in E3, C3, T3. subst ok3.
  cbn [negb].
  pose proof (granting_calm w2 w3 G2 C3) as G3.
  rewrite (spawn_workers_count a b (make_arguments (noRows a) tc) res w3 G3).
  rewrite (make_arguments_map (noRows a) tc Hrows Htc).
  rewrite length_map.
  pose proof (zlength_zrange 0 tc ltac:(lia)) as Hlen. unfold zlength in Hlen.
  lia.
Qed.

Lemma thread_count_range rows available_threads :
  0 <= available_threads < modulus32 ->
  2 <= choose_thread_count rows available_threads < modulus32.
Proof.
  intros Ha.
  assert (Hword : 2 < modulus32) by reflexivity.
  unfold choose_thread_count, MIN_THREADS. cbv zeta.
  destruct (Z.ltb_spec (rows / THREAD_COND_MIN_VALUES) (rows / THREAD_COND_MIN_ROWS));
    match goal with
    | |- context [if ?x <? available_threads then _ else _] =>
        destruct (Z.ltb_spec x available_threads)
    end;
    match goal with
    | |- context [if ?x <? 2 then _ else _] => destruct (Z.ltb_spec x 2)
    end; lia.
Qed.

Lemma thread_count_word rows available_threads :
  0 <= available_threads < modulus32 ->
  1 <= wrap32 (choose_thread_count rows available_threads) < modulus32.
Proof.
  intros Ha.
  assert (Hword : 2 < modulus32) by reflexivity.
  assert (H : 2 <= choose_thread_count rows available_threads < modulus32).
  { unfold choose_thread_count, MIN_THREADS. cbv zeta.
    destruct (Z.ltb_spec (rows / THREAD_COND_MIN_VALUES) (rows / THREAD_COND_MIN_ROWS));
      match goal with
      | |- context [if ?x <? available_threads then _ else _] =>
          destruct (Z.ltb_spec x available_threads)
      end;
      match goal with
      | |- context [if ?x <? 2 then _ else _] => destruct (Z.ltb_spec x 2)
      end; lia. }
  rewrite wrap32_small by lia. lia.
Qed.

Section ThreadedRun.
Variables a b : Matrix.
Hypothesis valid_a : csr_invariants a.
Hypothesis valid_b : csr_invariants b.
Hypothesis multiplicable : can_multiply a b = true.
Hypothesis many_values : 10000 <= valuesSize a.
Hypothesis two_rows : 2 <= noRows a.
Hypothesis cells_fit : sizeof_uint64 * (noRows a * noCols b) < modulus64.
Hypothesis pointers_fit : sizeof_uint64 * (noRows a + 1) < modulus64.

(** With every request granted, the threaded path of [matr_mult_csr]
    returns the compacted buffer of V2 and leaves [errno] alone. *)
Lemma matr_mult_csr_threaded h w :
  granting w -> 0 <= nprocs w < modulus32 ->
  exists w2,
    fst (fst (clean_up_csr (multiply_V2 a b (full_buffer a b)) w2)) = 0
    /\ fst (matr_mult_csr a b h w)
       = handle_of (snd (fst (clean_up_csr (multiply_V2 a b (full_buffer a b)) w2)))
    /\ errno (snd (matr_mult_csr a b h w)) = errno w
    /\ thread_calls (snd (matr_mult_csr a b h w))
       = (thread_calls w
          + Z.to_nat (choose_thread_count (noRows a) (nprocs w)))%nat.
Proof.
  intros G Hprocs.
  assert (H8 : sizeof_uint64 = 8) by reflexivity.
  assert (Hwords : modulus32 < modulus64) by reflexivity.
  destruct (multiplicable_dimensions a b multiplicable) as (inner & Hrows & Hcols).
  assert (Hcells : noRows a * noCols b < modulus64) by nia.
  unfold matr_mult_csr.
  destruct (Z.ltb_spec (valuesSize a) 10000) as [D|_]; [lia|].
  destruct (Z.ltb_spec (noRows a) MIN_THREADS) as [D|_];
    [unfold MIN_THREADS in D; lia|].
  cbn [orb]. rewrite multiplicable. cbn [negb]. unfold bind.
  destruct (init_empty_csr_matrix_granting a b h w G ltac:(lia) ltac:(nia)
              cells_fit pointers_fit) as [E0 C0].
  pose proof (init_full_buffer a b h w) as Hbuf.
  pose proof (no_spawn_init a b h NO_PREDICTION w) as N0.
  destruct (init_empty_csr_matrix a b h NO_PREDICTION w) as [[rc h1] w1].
  cbn [fst snd] in E0, C0, Hbuf, N0. subst rc.
  change (0 =? HEAP_MEMORY_ERROR) with false. cbv iota.
  rewrite Hbuf by (intros D; discriminate D).
  pose proof (granting_calm w w1 G C0) as G1.
  unfold get_nprocs. cbv beta iota.
  destruct C0 as (Cerr & _ & _ & Cprocs). rewrite Cprocs.
  rewrite wrap64_small by lia.
  pose proof (thread_count_word (noRows a) (nprocs w) Hprocs) as Hword.
  destruct (start_threads_granting
              (wrap32 (choose_thread_count (noRows a) (nprocs w)))
              a b (full_buffer a b) w1 G1 ltac:(lia)) as [E1 C1].
  pose proof (start_threads_rows a b
                (wrap32 (choose_thread_count (noRows a) (nprocs w)))
                (full_buffer a b) w1 ltac:(pose proof (inv_rows a valid_a); lia)
                Hword E1) as Hres.
  pose proof (start_threads_spawns
                (wrap32 (choose_thread_count (noRows a) (nprocs w)))
                a b (full_buffer a b) w1 G1
                ltac:(pose proof (inv_rows a valid_a); lia) Hword) as N1.
  destruct (start_threads _ a b (full_buffer a b) w1) as [[sr res] w2].
  cbn [fst snd] in E1, C1, Hres, N1. subst sr res.
  rewrite wrap32_small in N1
    by (pose proof (thread_count_range (noRows a) (nprocs w) Hprocs); lia).
  change (0 =? THREAD_START_ERROR) with false. cbv iota.
  pose proof (granting_calm w1 w2 G1 C1) as G2.
  pose proof (buffer_compactable a b valid_a valid_b multiplicable Hcells) as ready.
  assert (Hok : fst (fst (clean_up_csr (multiply_V2 a b (full_buffer a b)) w2)) = 0).
  { apply clean_up_csr_granted.
    - exact ready.
    - intros k _. apply (proj1 G2).
    - rewrite (buffer_cells a b valid_a valid_b multiplicable Hcells). exact cells_fit. }
  destruct (finish_with_clean_up_handle (multiply_V2 a b (full_buffer a b)) w2)
    as [Eh Ee]; [rewrite Hok; intros D; discriminate D|].
  exists w2. split; [exact Hok|]. split; [exact Eh|]. split.
  - rewrite Ee. destruct (clean_up_csr_calm (multiply_V2 a b (full_buffer a b)) w2)
      as (-> & _).
    destruct C1 as (-> & _). exact Cerr.
  - rewrite (no_spawn_finish (multiply_V2 a b (full_buffer a b)) w2).
    rewrite N1, N0. reflexivity.
Qed.

End ThreadedRun.

Lemma column_invariants n v :
  0 <= n -> n + 1 < modulus64 -> F32.ne0 v = true ->
  csr_invariants (Tall.column n v).
Proof.
  intros Hn Hfit Hv.
  assert (Hptr : forall r, 0 <= r <= n -> rowptr_at (Tall.column n v) r = r).
  { intros r Hr. unfold rowptr_at, Tall.column. cbn [rowPointers].
    rewrite <- (map_id (zrange 0 (n + 1))).
    rewrite (aget_map_zrange (fun k : Z => k) 0 (n + 1) r 0) by lia. lia. }
  constructor.
  - cbn [Tall.column noRows]. lia.
  - cbn [Tall.column noCols]. split; [lia|reflexivity].
  - reflexivity.
  - cbn [Tall.column rowPointers rowPointersSize]. rewrite zlength_zrange; lia.
  - cbn [Tall.column values valuesSize]. rewrite zlength_repeat. lia.
  - cbn [Tall.column colIndices valuesSize]. rewrite zlength_repeat. lia.
  - cbn [Tall.column valuesSize]. lia.
  - apply Hptr. lia.
  - cbn [Tall.column noRows]. intros r Hr. rewrite !Hptr by lia. lia.
  - rewrite Hptr by (cbn [Tall.column noRows]; lia). reflexivity.
  - cbn [Tall.column valuesSize noCols]. intros i Hi.
    unfold col_at. cbn [Tall.column colIndices]. rewrite aget_repeat. lia.
  - cbn [Tall.column valuesSize]. intros i Hi.
    unfold val_at. cbn [Tall.column values]. rewrite aget_repeat_in_range by lia. exact Hv.
Qed.

(** X13 -- the threaded main implementation on a machine that grants every
    allocation and every thread start.  For a valid multiplicable pair
    with at least 10000 stored values and two rows in A, byte counts that
    fit 64 bits and a processor count that fits an [unsigned int],
    [matr_mult_csr] takes the threaded path: it calls [pthread_create]
    once for each of its [max (2, min (rows / 40, processors))] workers,
    hence at least twice.  It leaves [errno] as it found it and returns
    the product computed by the workers: the dimensions of the product,
    in row [r] exactly the nonzero cell sums of Gustavson's loop nest by
    ascending column, every CSR invariant when a value is stored, and the
    very result structure of any successful run of [matr_mult_csr_V2]. *)
Theorem threaded_entry_computes_product (a b : Matrix) (h : Handle) (w : World) :
  valid_csr a -> valid_csr b -> can_multiply a b = true ->
  10000 <= valuesSize a -> 2 <= noRows a ->
  sizeof_uint64 * (noRows a * noCols b) < modulus64 ->
  sizeof_uint64 * (noRows a + 1) < modulus64 ->
  granting w -> 0 <= nprocs w < modulus32 ->
  let m' := deref (fst (matr_mult_csr a b h w)) in
  let workers := choose_thread_count (noRows a) (nprocs w) in
  workers = Z.max 2 (Z.min (noRows a / 40) (nprocs w))
  /\ thread_calls (snd (matr_mult_csr a b h w))
     = (thread_calls w + Z.to_nat workers)%nat
  /\ (thread_calls w + 2 <= thread_calls (snd (matr_mult_csr a b h w)))%nat
  /\ errno (snd (matr_mult_csr a b h w)) = errno w
  /\ noRows m' = noRows a /\ noCols m' = noCols b
  /\ (forall r, 0 <= r < noRows a -> row_entries m' r = product_row a b r)
  /\ (0 < valuesSize m' -> valid_csr m')
  /\ (forall h' w', errno (snd (matr_mult_csr_V2 a b h' w')) = 0 ->
        fst (matr_mult_csr a b h w) = fst (matr_mult_csr_V2 a b h' w')).
Proof.
  intros Va Vb Hmul Hmany Htwo Hfit Hfit' G Hprocs.
  apply valid_csr_invariants in Va. apply valid_csr_invariants in Vb.
  assert (H8 : sizeof_uint64 = 8) by reflexivity.
  destruct (multiplicable_dimensions a b Hmul) as (inner & Hrows & Hcols).
  assert (Hcells : noRows a * noCols b < modulus64) by nia.
  pose proof (thread_count_range (noRows a) (nprocs w) Hprocs) as Hcount.
  destruct (matr_mult_csr_threaded a b Va Vb Hmul Hmany Htwo Hfit Hfit' h w G Hprocs)
    as (w2 & Hok & Eh & Herr & Hcalls).
  assert (Hne : fst (fst (clean_up_csr (multiply_V2 a b (full_buffer a b)) w2))
                <> HEAP_MEMORY_ERROR) by (rewrite Hok; intros D; discriminate D).
  destruct (compacted_buffer a b Va Vb Hmul Hcells w2 Hne) as (D1 & D2 & D3 & D4).
  cbv zeta. rewrite Eh, deref_handle_of.
  split.
  { unfold choose_thread_count, MIN_THREADS, THREAD_COND_MIN_VALUES,
      THREAD_COND_MIN_ROWS. cbv zeta.
    pose proof (Z.div_le_compat_l (noRows a) 4 40 ltac:(lia) ltac:(lia)) as Hdiv.
    destruct (Z.ltb_spec (noRows a / 40) (noRows a / 4));
      match goal with
      | |- context [if ?x <? nprocs w then _ else _] =>
          destruct (Z.ltb_spec x (nprocs w))
      end;
      match goal with
      | |- context [if ?x <? 2 then _ else _] => destruct (Z.ltb_spec x 2)
      end; lia. }
  split; [exact Hcalls|]. split; [rewrite Hcalls; lia|].
  split; [exact Herr|]. split; [exact D1|]. split; [exact D2|].
  split; [exact D3|]. split.
  - intros Hpos. apply valid_csr_invariants. apply D4. exact Hpos.
  - intros h' w' E2.
    destruct (matr_mult_csr_V2_success a b Hmul h' w' E2) as (w1 & F2 & ->).
    destruct (finish_with_clean_up_result _ w1 F2) as [Hne' _].
    destruct (finish_with_clean_up_handle _ w1 Hne') as [-> _].
    rewrite (clean_up_csr_world (multiply_V2 a b (full_buffer a b)) w2 w1 Hne Hne').
    reflexivity.
Qed.

Lemma threaded_entry_computes_product_witness :
  thread_calls (snd (matr_mult_csr Tall.A Tall.B blank_handle (generous true 4)))
  = (thread_calls (generous true 4)
     + Z.to_nat (choose_thread_count (noRows Tall.A) (nprocs (generous true 4))))%nat
  /\ errno (snd (matr_mult_csr Tall.A Tall.B blank_handle (generous true 4)))
     = errno (generous true 4)
  /\ row_entries (deref (fst (matr_mult_csr Tall.A Tall.B blank_handle
                                            (generous true 4)))) 7
     = product_row Tall.A Tall.B 7.
Proof.
  destruct (threaded_entry_computes_product Tall.A Tall.B blank_handle
              (generous true 4)
              (proj2 (valid_csr_invariants Tall.A)
                     (column_invariants 10000 (F32.of_Z 1)
                        ltac:(lia) ltac:(reflexivity) ltac:(reflexivity)))
              ltac:(vm_compute; reflexivity) ltac:(reflexivity)
              ltac:(apply Z.le_refl) ltac:(intros D; discriminate D)
              ltac:(reflexivity) ltac:(reflexivity)
              ltac:(split; intros n; reflexivity)
              ltac:(split; [intros D; discriminate D|reflexivity]))
    as (_ & Hcalls & _ & Herr & _ & _ & Hrows & _).
  split; [exact Hcalls|]. split; [exact Herr|].
  apply Hrows. split; [intros D; discriminate D|reflexivity].
Defined.

(** ** The verdict of [equals] *)

(** Whenever [equals] returns, both arguments have been reordered, and a
    verdict of 1 means that the four sizes agree and that the reordered
    arrays agree position by position. *)
Lemma equals_outcome a b verdict a' b' :
  csr_invariants a -> csr_invariants b ->
  equals a b = Some (verdict, a', b') ->
  (reordered a a' /\ zlength (values a') = valuesSize a
   /\ zlength (colIndices a') = valuesSize a)
  /\ (reordered b b' /\ zlength (values b') = valuesSize b
      /\ zlength (colIndices b') = valuesSize b)
  /\ (verdict = true ->
      noCols a = noCols b /\ noRows a = noRows b
      /\ valuesSize a = valuesSize b /\ rowPointersSize a = rowPointersSize b
      /\ (forall i, 0 <= i < valuesSize a ->
            col_at a' i = col_at b' i /\ F32.neq (val_at a' i) (val_at b' i) = false)
      /\ (forall i, 0 <= i < rowPointersSize a -> rowptr_at a' i = rowptr_at b' i)).
Proof.
  intros Ha Hb E.
  pose proof (inv_values_length a Ha) as Hav.
  pose proof (inv_colIndices_length a Ha) as Hac.
  pose proof (inv_values_length b Hb) as Hbv.
  pose proof (inv_colIndices_length b Hb) as Hbc.
  pose proof (kept_initial a Hav Hac) as Ka.
  pose proof (kept_initial b Hbv Hbc) as Kb.
  unfold equals in E.
  destruct (negb (noCols a =? noCols b) || negb (noRows a =? noRows b)
            || negb (valuesSize a =? valuesSize b)
            || negb (rowPointersSize a =? rowPointersSize b)) eqn:Hdims.
  { inversion E; subst. split; [exact Ka|]. split; [exact Kb|].
    intros D. discriminate D. }
  apply orb_false_iff in Hdims. destruct Hdims as [Hdims D4].
  apply orb_false_iff in Hdims. destruct Hdims as [Hdims D3].
  apply orb_false_iff in Hdims. destruct Hdims as [D1 D2].
  apply negb_false_iff, Z.eqb_eq in D1, D2, D3, D4.
  set (body := fun (i : Z) (st : option (Matrix * Matrix)) => _) in E.
  assert (G : match for_lt 0 (sub64 (rowPointersSize a) 1) body (Some (a, b)) with
              | Some (x, y) =>
                  (reordered a x /\ zlength (values x) = valuesSize a
                   /\ zlength (colIndices x) = valuesSize a)
                  /\ (reordered b y /\ zlength (values y) = valuesSize b
                      /\ zlength (colIndices y) = valuesSize b)
              | None => True
              end).
  { rewrite (inv_rowPointersSize a Ha).
    rewrite sub64_small by (pose proof (inv_rows a Ha); lia).
    replace (noRows a + 1 - 1) with (noRows a) by lia.
    apply (for_lt_invariant
             (fun i st =>
                match st with
                | Some (x, y) =>
                    (reordered a x /\ zlength (values x) = valuesSize a
                     /\ zlength (colIndices x) = valuesSize a)
                    /\ (reordered b y /\ zlength (values y) = valuesSize b
                        /\ zlength (colIndices y) = valuesSize b)
                | None => True
                end)); [apply (inv_rows a Ha)|split; [exact Ka|exact Kb]|].
    intros i [[x y]|] Hi H; [|exact I]. destruct H as [Kx Ky]. unfold body.
    destruct (sort_matrix x _ _) as [x'|] eqn:Ex; [|exact I].
    destruct (sort_matrix y _ _) as [y'|] eqn:Ey; [|exact I].
    split.
    - refine (kept_sort_matrix a x _ _ x' _ Kx Ex).
      rewrite (reordered_rowptr a x i (proj1 Kx)).
      apply (rowptr_range a Ha). lia.
    - refine (kept_sort_matrix b y _ _ y' _ Ky Ey).
      rewrite (reordered_rowptr b y i (proj1 Ky)).
      apply (rowptr_range b Hb). lia. }
  destruct (for_lt 0 (sub64 (rowPointersSize a) 1) body (Some (a, b)))
    as [[x y]|]; [|discriminate E].
  destruct G as [Kx Ky]. inversion E as [[Ev Ex Ey]]. subst x y.
  split; [exact Kx|]. split; [exact Ky|].
  intros Hv. clear E. rename Ev into E.
  destruct Kx as ((_ & _ & Sx & Px & _) & _).
  pose proof (zlength_nonneg (values a)) as Hpos.
  pose proof (inv_rows a Ha) as Hrows.
  pose proof (inv_rowPointersSize a Ha) as Hsize.
  pose proof Hv as Et.
  clear E. apply andb_true_iff in Et. destruct Et as [E1 E2].
  rewrite Sx in E1. rewrite Px in E2.
  rewrite all_lt_true in E1 by lia. rewrite all_lt_true in E2 by lia.
  repeat (split; [assumption|]). split.
  - intros i Hi. specialize (E1 i Hi).
    apply negb_true_iff, orb_false_iff in E1. destruct E1 as [E1 E1'].
    apply negb_false_iff, Z.eqb_eq in E1. split; assumption.
  - intros i Hi. apply Z.eqb_eq. apply E2. exact Hi.
Qed.

Lemma In_aget {A} (l : list A) (v d : A) :
  In v l <-> exists i, 0 <= i < zlength l /\ aget l i d = v.
Proof.
  split.
  - intros H. destruct (In_nth l v d H) as (n & Hn & E).
    exists (Z.of_nat n). unfold zlength. split; [lia|].
    rewrite aget_in_range by (unfold zlength; lia).
    rewrite Nat2Z.id. exact E.
  - intros (i & Hi & <-). apply aget_In. exact Hi.
Qed.

(** The values of a reordered matrix are the values of the original. *)
Lemma reordered_values m x v :
  zlength (values m) = valuesSize m -> zlength (colIndices m) = valuesSize m ->
  reordered m x -> zlength (values x) = valuesSize m ->
  zlength (colIndices x) = valuesSize m ->
  (In v (values x) <-> In v (values m)).
Proof.
  intros Hv Hc (_ & _ & _ & _ & _ & P) Hxv Hxc.
  assert (G : forall y, zlength (values y) = valuesSize m ->
                        zlength (colIndices y) = valuesSize m ->
                        (In v (values y) <-> exists c, In (c, v) (entries y))).
  { intros y Hyv Hyc. split.
    - intros H. apply (In_aget _ v F32.zero) in H. destruct H as (i & Hi & E).
      exists (aget (colIndices y) i 0). unfold entries.
      rewrite <- E, <- (aget_combine (colIndices y) (values y) i 0 F32.zero) by lia.
      apply aget_In. rewrite zlength_combine; lia.
    - intros (c & H). unfold entries in H. exact (in_combine_r _ _ _ _ H). }
  rewrite (G x Hxv Hxc), (G m Hv Hc). split; intros (c & H); exists c.
  - exact (Permutation_in _ P H).
  - exact (Permutation_in _ (Permutation_sym P) H).
Qed.

(** X14 -- a verdict of 1 from [equals] on valid matrices is sound up to
    the order of the entries and the float comparison: the dimensions and
    the row pointers of the two arguments agree, and after the call the
    two arguments, each holding its own entries in a new order, agree
    position by position in the column index and hold values that do not
    differ under [!=]. *)
Theorem equals_verdict_is_sound (a b a' b' : Matrix) :
  valid_csr a -> valid_csr b -> equals a b = Some (true, a', b') ->
  noRows a = noRows b /\ noCols a = noCols b /\ valuesSize a = valuesSize b
  /\ rowPointers a = rowPointers b
  /\ Permutation (entries a') (entries a) /\ Permutation (entries b') (entries b)
  /\ Forall2 same_entry (entries a') (entries b').
Proof.
  intros Va Vb E.
  apply valid_csr_invariants in Va. apply valid_csr_invariants in Vb.
  destruct (equals_outcome a b true a' b' Va Vb E)
    as ((Ra & Hav & Hac) & (Rb & Hbv & Hbc) & Hsame).
  destruct (Hsame eq_refl) as (D1 & D2 & D3 & D4 & Hentries & Hptr).
  split; [exact D2|]. split; [exact D1|]. split; [exact D3|]. split.
  - apply (aget_ext _ _ 0).
    + rewrite (inv_rowPointers_length a Va), (inv_rowPointers_length b Vb). exact D4.
    + intros i Hi. rewrite (inv_rowPointers_length a Va) in Hi.
      pose proof (Hptr i Hi) as H.
      rewrite (reordered_rowptr a a' i Ra), (reordered_rowptr b b' i Rb) in H.
      exact H.
  - split; [apply Ra|]. split; [apply Rb|].
    unfold entries. apply (Forall2_aget same_entry _ _ (0, F32.zero) (0, F32.zero)).
    + rewrite !zlength_combine by lia. lia.
    + intros i Hi. rewrite zlength_combine in Hi by lia.
      rewrite !aget_combine by lia. apply Hentries. lia.
Qed.

Lemma equals_verdict_is_sound_witness :
  rowPointers Unsorted.M = rowPointers Unsorted.sorted
  /\ Forall2 same_entry (entries Unsorted.sorted) (entries Unsorted.sorted).
Proof.
  destruct (equals_verdict_is_sound Unsorted.M Unsorted.sorted
              Unsorted.sorted Unsorted.sorted
              ltac:(vm_compute; reflexivity) ltac:(vm_compute; reflexivity)
              ltac:(vm_compute; reflexivity))
    as (_ & _ & _ & Hptr & _ & _ & Hall).
  split; [exact Hptr|exact Hall].
Defined.

(** X15 -- whenever [equals] returns on a valid matrix and an identical
    copy of it, both copies have been reordered in the same way and the
    verdict is 1 exactly when no stored value is a NaN: a matrix that
    stores a NaN is not equal to itself. *)
Theorem equals_self_verdict (m a' b' : Matrix) (verdict : bool) :
  valid_csr m -> equals m m = Some (verdict, a', b') ->
  verdict = comparable m /\ a' = b' /\ reordered m a'.
Proof.
  intros V E. apply valid_csr_invariants in V.
  pose proof (inv_values_length m V) as Hv.
  pose proof (inv_colIndices_length m V) as Hc.
  pose proof (kept_initial m Hv Hc) as K.
  pose proof (inv_rows m V) as Hrows.
  unfold equals in E. rewrite !Z.eqb_refl in E. cbn [negb orb] in E.
  set (body := fun (i : Z) (st : option (Matrix * Matrix)) => _) in E.
  assert (G : match for_lt 0 (sub64 (rowPointersSize m) 1) body (Some (m, m)) with
              | Some (x, y) =>
                  x = y /\ reordered m x /\ zlength (values x) = valuesSize m
                  /\ zlength (colIndices x) = valuesSize m
              | None => True
              end).
  { rewrite (inv_rowPointersSize m V).
    rewrite sub64_small by lia.
    replace (noRows m + 1 - 1) with (noRows m) by lia.
    apply (for_lt_invariant
             (fun i st =>
                match st with
                | Some (x, y) =>
                    x = y /\ reordered m x /\ zlength (values x) = valuesSize m
                    /\ zlength (colIndices x) = valuesSize m
                | None => True
                end)); [lia|split; [reflexivity|exact K]|].
    intros i [[x y]|] Hi H; [|exact I]. destruct H as [<- Kx]. unfold body.
    destruct (sort_matrix x (rowptr_at x i) (sub64 (rowptr_at x (i + 1)) 1))
      as [x'|] eqn:Ex; [|exact I].
    split; [reflexivity|].
    refine (kept_sort_matrix m x _ _ x' _ Kx Ex).
    rewrite (reordered_rowptr m x i (proj1 Kx)).
    apply (rowptr_range m V). lia. }
  destruct (for_lt 0 (sub64 (rowPointersSize m) 1) body (Some (m, m)))
    as [[x y]|]; [|discriminate E].
  destruct G as (<- & R & Hxv & Hxc).
  inversion E as [[Ev Ex Ey]]. subst a' b'. clear E.
  split; [|split; [reflexivity|exact R]].
  pose proof R as (_ & _ & Sx & Px & _).
  pose proof (zlength_nonneg (values m)) as Hpos.
  pose proof (inv_rowPointersSize m V) as Hsize.
  apply eq_true_iff_eq. unfold comparable.
  rewrite andb_true_iff, !all_lt_true, forallb_forall by lia.
  split.
  - intros [E _] v Hin.
    apply (reordered_values m x v Hv Hc R Hxv Hxc) in Hin.
    apply (In_aget _ v F32.zero) in Hin. destruct Hin as (i & Hi & <-).
    specialize (E i ltac:(lia)).
    apply negb_true_iff, orb_false_iff in E. destruct E as [_ E].
    unfold val_at in E. rewrite E. reflexivity.
  - intros E. split.
    + intros i Hi. rewrite Z.eqb_refl. cbn [negb orb].
      apply E. apply (reordered_values m x _ Hv Hc R Hxv Hxc).
      unfold val_at. apply aget_In. lia.
    + intros i Hi. apply Z.eqb_refl.
Qed.

Lemma equals_self_verdict_witness :
  valid_csr Blurred.M
  /\ equals Blurred.M Blurred.M = Some (false, Blurred.M, Blurred.M)
  /\ false = comparable Blurred.M.
Proof.
  split; [vm_compute; reflexivity|]. split; [vm_compute; reflexivity|].
  exact (proj1 (equals_self_verdict Blurred.M Blurred.M Blurred.M false
                  ltac:(vm_compute; reflexivity) ltac:(vm_compute; reflexivity))).
Defined.

(** ** The size-predicted kernel when nothing cancels *)

(** *** Slots as lists *)

Lemma F32_add_zero_l v : F32.ne0 v = true -> F32.add F32.zero v = v.
Proof. destruct v as [[|]| | |]; intros H; try reflexivity; discriminate H. Qed.

Lemma zlength_absorb acc e :
  zlength acc <= zlength (absorb acc e) <= zlength acc + 1.
Proof.
  induction acc as [|x t IH]; cbn [absorb].
  - rewrite zlength_cons, zlength_nil. lia.
  - destruct (fst x =? fst e); rewrite !zlength_cons; lia.
Qed.

Lemma zlength_fold_absorb s acc :
  zlength acc <= zlength (fold_left absorb s acc) <= zlength acc + zlength s.
Proof.
  revert acc. induction s as [|e t IH]; intros acc; cbn [fold_left].
  - rewrite zlength_nil. lia.
  - pose proof (IH (absorb acc e)). pose proof (zlength_absorb acc e).
    rewrite zlength_cons. lia.
Qed.

Lemma in_keys_absorb acc e k :
  In k (map fst (absorb acc e)) <-> In k (map fst acc) \/ k = fst e.
Proof.
  induction acc as [|x t IH]; cbn [absorb map In].
  - split; [intros [H|[]]; right; congruence|intros [[]|H]; left; congruence].
  - destruct (Z.eqb_spec (fst x) (fst e)) as [E|Hne]; cbn [map In fst].
    + split; [tauto|]. intros [H|H]; [exact H|left; congruence].
    + rewrite IH. tauto.
Qed.

Lemma NoDup_keys_absorb acc e :
  NoDup (map fst acc) -> NoDup (map fst (absorb acc e)).
Proof.
  induction acc as [|x t IH]; cbn [absorb map]; intros H.
  - constructor; [intros []|constructor].
  - inversion H as [|? ? Hx Ht]; subst.
    destruct (Z.eqb_spec (fst x) (fst e)) as [E|Hne]; cbn [map fst].
    + constructor; assumption.
    + constructor; [|apply IH; exact Ht].
      rewrite in_keys_absorb. intros [D|D]; [exact (Hx D)|exact (Hne D)].
Qed.

Lemma in_keys_fold_absorb s acc k :
  In k (map fst (fold_left absorb s acc)) <-> In k (map fst acc) \/ In k (map fst s).
Proof.
  revert acc. induction s as [|e t IH]; intros acc; cbn [fold_left map In].
  - tauto.
  - rewrite IH, in_keys_absorb. split; [intros [[H|H]|H]|intros [H|[H|H]]]; auto.
Qed.

Lemma NoDup_keys_fold_absorb s acc :
  NoDup (map fst acc) -> NoDup (map fst (fold_left absorb s acc)).
Proof.
  revert acc. induction s as [|e t IH]; intros acc H; cbn [fold_left];
    [exact H|]. apply IH. apply NoDup_keys_absorb. exact H.
Qed.

Lemma slot_of_absorb acc e c :
  slot_of (absorb acc e) c
  = if fst e =? c
    then Some (match slot_of acc c with
               | Some x => F32.add x (snd e)
               | None => snd e
               end)
    else slot_of acc c.
Proof.
  induction acc as [|x t IH]; cbn [absorb slot_of].
  - reflexivity.
  - destruct (Z.eqb_spec (fst x) (fst e)) as [E|Hne]; cbn [slot_of fst snd].
    + rewrite <- E. destruct (fst x =? c); reflexivity.
    + rewrite IH. destruct (Z.eqb_spec (fst x) c) as [E1|_]; [|reflexivity].
      destruct (Z.eqb_spec (fst e) c) as [E2|_]; [congruence|reflexivity].
Qed.

Lemma slot_of_In acc c v :
  slot_of acc c = Some v -> In (c, v) acc.
Proof.
  induction acc as [|x t IH]; cbn [slot_of]; [intros D; discriminate D|].
  destruct (Z.eqb_spec (fst x) c) as [E|_].
  - intros D. inversion D; subst. left. destruct x; reflexivity.
  - intros H. right. apply IH. exact H.
Qed.

Lemma In_slot_of acc c v :
  NoDup (map fst acc) -> In (c, v) acc -> slot_of acc c = Some v.
Proof.
  induction acc as [|x t IH]; cbn [slot_of map]; intros N H; [destruct H|].
  inversion N as [|? ? Hx Ht]; subst.
  destruct H as [->|H]; cbn [fst snd].
  - rewrite Z.eqb_refl. reflexivity.
  - destruct (Z.eqb_spec (fst x) c) as [E|_]; [|apply IH; assumption].
    exfalso. apply Hx. rewrite E. apply (in_map fst _ _ H).
Qed.

(** The products of a stream that belong to column [c]. *)
Lemma stays_nonzero_sums s c :
  forall acc seen,
    forallb (fun x => F32.ne0 (snd x)) acc = true ->
    (match slot_of acc c with
     | Some x => x = fold_left F32.add
                       (map snd (filter (fun e => fst e =? c) seen)) F32.zero
     | None => filter (fun e => fst e =? c) seen = []
     end) ->
    stays_nonzero acc s = true ->
    forallb (fun x => F32.ne0 (snd x)) (fold_left absorb s acc) = true
    /\ match slot_of (fold_left absorb s acc) c with
       | Some x => x = fold_left F32.add
                         (map snd (filter (fun e => fst e =? c) (seen ++ s)))
                         F32.zero
       | None => filter (fun e => fst e =? c) (seen ++ s) = []
       end.
Proof.
  induction s as [|e t IH]; intros acc seen Hnz Hacc Hs; cbn [fold_left].
  - rewrite app_nil_r. split; assumption.
  - cbn [stays_nonzero] in Hs. apply andb_true_iff in Hs. destruct Hs as [Hnz' Hs].
    replace (seen ++ e :: t) with ((seen ++ [e]) ++ t)
      by (rewrite <- app_assoc; reflexivity).
    apply IH; [exact Hnz'| |exact Hs].
    rewrite slot_of_absorb, filter_app. cbn [filter].
    destruct (Z.eqb_spec (fst e) c) as [E|Hne].
    + rewrite map_app, fold_left_app. cbn [map fold_left].
      destruct (slot_of acc c) as [x|] eqn:Sx.
      * rewrite Hacc. reflexivity.
      * rewrite Hacc. cbn [map fold_left app].
        symmetry. apply F32_add_zero_l.
        assert (Hin : In (c, snd e) (absorb acc e)).
        { apply slot_of_In. rewrite slot_of_absorb, Sx.
          destruct (Z.eqb_spec (fst e) c); [reflexivity|contradiction]. }
        rewrite forallb_forall in Hnz'. exact (Hnz' _ Hin).
    + rewrite app_nil_r. exact Hacc.
Qed.

Lemma column_of_pairs {A} (k : A -> Z) (g : A -> float) (c : Z) (l : list A) :
  map snd (filter (fun e : Z * float => fst e =? c) (map (fun q => (k q, g q)) l))
  = flat_map (fun q => if k q =? c then [g q] else []) l.
Proof.
  induction l as [|q t IH]; [reflexivity|].
  cbn [map filter flat_map fst]. destruct (k q =? c); cbn [map snd app];
    rewrite IH; reflexivity.
Qed.

Lemma cell_products_stream a b r c :
  cell_products a b r c
  = map snd (filter (fun e => fst e =? c) (row_stream a b r)).
Proof.
  unfold cell_products, row_stream.
  induction (zrange (rowptr_at a r) (rowptr_at a (r + 1))) as [|p t IH];
    [reflexivity|].
  cbn [flat_map]. rewrite filter_app, map_app, <- IH. f_equal.
  unfold entry_products. symmetry.
  apply (column_of_pairs (col_at b) (fun q => F32.mul (val_at a p) (val_at b q))).
Qed.

Section StreamRows.
Variables a b : Matrix.
Hypothesis valid_a : csr_invariants a.
Hypothesis valid_b : csr_invariants b.
Hypothesis inner : noCols a = noRows b.

Lemma row_stream_columns r k :
  0 <= r < noRows a -> In k (map fst (row_stream a b r)) -> 0 <= k < noCols b.
Proof.
  intros Hr H. apply in_map_iff in H. destruct H as ([k' v] & E & H).
  cbn [fst] in E. subst k'. unfold row_stream in H.
  apply in_flat_map in H. destruct H as (p & Hp & H).
  apply in_zrange in Hp. apply in_map_iff in H. destruct H as (q & E & Hq).
  apply in_zrange in Hq. inversion E; subst.
  pose proof (row_entry_range a valid_a r p Hr Hp) as Hp'.
  pose proof (inv_columns a valid_a p Hp') as Hc. rewrite inner in Hc.
  pose proof (rowptr_range b valid_b (col_at a p) ltac:(lia)).
  pose proof (rowptr_range b valid_b (col_at a p + 1) ltac:(lia)).
  apply (inv_columns b valid_b). lia.
Qed.

Lemma zlength_row_stream r :
  0 <= r < noRows a ->
  zlength (row_stream a b r)
  = ops_upto a b (rowptr_at a (r + 1)) - ops_upto a b (rowptr_at a r).
Proof.
  intros Hr. unfold row_stream, ops_upto.
  pose proof (rowptr_range a valid_a r ltac:(lia)).
  pose proof (inv_monotone a valid_a r Hr).
  rewrite zlength_flat_map_zrange.
  rewrite (zsum_split _ 0 (rowptr_at a r) (rowptr_at a (r + 1))) by lia.
  replace (zsum (fun q => row_length b (col_at a q)) 0 (rowptr_at a r)
           + zsum (fun q => row_length b (col_at a q)) (rowptr_at a r)
                  (rowptr_at a (r + 1))
           - zsum (fun q => row_length b (col_at a q)) 0 (rowptr_at a r))
    with (zsum (fun q => row_length b (col_at a q)) (rowptr_at a r)
               (rowptr_at a (r + 1))) by lia.
  apply zsum_ext. intros p Hp.
  pose proof (row_entry_range a valid_a r p Hr Hp) as Hp'.
  destruct (entry_row_length a b valid_a valid_b inner p Hp') as (Hlen & _).
  rewrite zlength_map, zlength_zrange by (unfold row_length in Hlen; lia).
  reflexivity.
Qed.

(** What V5 gathers for a row is what V2 stores for it, in the order in
    which the columns are first met. *)
Lemma gather_product_row r :
  0 <= r < noRows a -> stays_nonzero [] (row_stream a b r) = true ->
  Permutation (gather (row_stream a b r)) (product_row a b r).
Proof.
  intros Hr Hs.
  pose proof (inv_cols b valid_b) as Hcols.
  assert (Hkeys : NoDup (map fst (gather (row_stream a b r))))
    by (apply NoDup_keys_fold_absorb; constructor).
  apply NoDup_Permutation.
  - exact (NoDup_map_inv fst _ Hkeys).
  - exact (NoDup_map_inv fst _ (NoDup_nz_cells_columns _ _)).
  - intros [k v].
    destruct (stays_nonzero_sums (row_stream a b r) k [] [] eq_refl eq_refl Hs)
      as [Hnz Hsum].
    cbn [app] in Hsum. fold (gather (row_stream a b r)) in Hnz, Hsum.
    rewrite <- cell_products_stream in Hsum.
    unfold product_row. rewrite in_nz_cells. split.
    + intros Hin.
      assert (Hk : 0 <= k < noCols b).
      { apply (row_stream_columns r k Hr).
        apply (in_map fst) in Hin. cbn [fst] in Hin.
        apply in_keys_fold_absorb in Hin. destruct Hin as [[]|Hin]. exact Hin. }
      rewrite (aget_map_zrange (cell_sum a b r) 0 (noCols b) k F32.zero) by lia.
      rewrite Z.add_0_l.
      rewrite (In_slot_of _ k v Hkeys Hin) in Hsum.
      split; [exact Hk|]. split; [exact Hsum|].
      rewrite forallb_forall in Hnz. exact (Hnz _ Hin).
    + intros (Hk & Ev & Hv).
      rewrite (aget_map_zrange (cell_sum a b r) 0 (noCols b) k F32.zero) in Ev by lia.
      rewrite Z.add_0_l in Ev. unfold cell_sum in Ev.
      destruct (slot_of (gather (row_stream a b r)) k) as [x|] eqn:Sx.
      * apply slot_of_In. rewrite Sx. congruence.
      * rewrite cell_products_stream, Hsum in Ev. cbn [map fold_left] in Ev.
        subst v. discriminate Hv.
Qed.

End StreamRows.

(** *** The slot search of V5 on the buffer *)

Lemma zlength_one {A} (x : A) : zlength [x] = 1.
Proof. reflexivity. Qed.

Section SlotSearch.
Variables P Beg : Z.
Hypothesis Beg_nonneg : 0 <= Beg.

Let holds := slots_hold P Beg.
Let framed := framed_below Beg.

Lemma framed_refl res : framed res res.
Proof. unfold framed, framed_below. repeat split. Qed.

Lemma framed_trans res res1 res2 : framed res res1 -> framed res1 res2 -> framed res res2.
Proof.
  intros (A1 & A2 & A3 & A4 & A5) (B1 & B2 & B3 & B4 & B5).
  unfold framed, framed_below. repeat split; try congruence.
  - rewrite (proj1 (B5 i H)). apply A5. exact H.
  - rewrite (proj2 (B5 i H)). apply A5. exact H.
Qed.

Lemma place_scan c v suf :
  forall pre res End,
    holds res (pre ++ suf) ->
    forallb (fun x => F32.ne0 (snd x)) (pre ++ suf) = true ->
    Beg + zlength (pre ++ absorb suf (c, v)) <= P ->
    let out := place_V5 (Z.to_nat (P - (Beg + zlength pre))) (Beg + zlength pre)
                        c v res End in
    holds (fst out) (pre ++ absorb suf (c, v))
    /\ framed res (fst out)
    /\ (End = Beg + zlength (pre ++ suf) ->
        snd out = Beg + zlength (pre ++ absorb suf (c, v))).
Proof.
  induction suf as [|x t IH]; intros pre res End H Hnz Hcap; cbv zeta.
  - rewrite app_nil_r in H, Hnz. cbn [absorb] in Hcap |- *.
    destruct H as (S1 & S2 & S3 & He & Hz).
    rewrite zlength_app, zlength_one in Hcap.
    pose proof (zlength_nonneg pre) as Hpre.
    replace (P - (Beg + zlength pre))
      with (Z.succ (P - (Beg + zlength pre) - 1)) by lia.
    rewrite Z2Nat.inj_succ by lia. cbn [place_V5].
    rewrite (Hz (Beg + zlength pre)) by lia.
    change (F32.eq0 F32.zero) with true. cbv iota. cbn [fst snd].
    split; [|split].
    + unfold holds, slots_hold, col_at, val_at.
      cbn [values colIndices valuesSize set_values set_colIndices].
      rewrite !zlength_aset. split; [exact S1|]. split; [exact S2|].
      split; [exact S3|]. split.
      * intros j Hj. rewrite zlength_app, zlength_one in Hj.
        destruct (Z.eq_dec j (zlength pre)) as [->|Hne].
        -- rewrite !aget_aset_same by lia.
           rewrite aget_app_r by lia. rewrite Z.sub_diag. reflexivity.
        -- rewrite !aget_aset_other by lia.
           rewrite aget_app_l by lia. apply (He j). lia.
      * intros i Hi. rewrite zlength_app, zlength_one in Hi.
        rewrite aget_aset_other by lia. apply Hz. lia.
    + unfold framed, framed_below, col_at, val_at.
      cbn [noRows noCols rowPointers rowPointersSize values colIndices
           set_values set_colIndices].
      repeat split; rewrite aget_aset_other by lia; reflexivity.
    + intros _. rewrite zlength_app, zlength_one. lia.
  - pose proof H as (S1 & S2 & S3 & He & Hz).
    pose proof (zlength_nonneg pre) as Hpre.
    pose proof (zlength_nonneg t) as Ht.
    pose proof (zlength_absorb (x :: t) (c, v)) as Hab.
    rewrite zlength_app in Hcap. rewrite zlength_cons in Hab.
    replace (P - (Beg + zlength pre))
      with (Z.succ (P - (Beg + zlength pre) - 1)) by lia.
    rewrite Z2Nat.inj_succ by lia. cbn [place_V5].
    assert (Hx : (col_at res (Beg + zlength pre), val_at res (Beg + zlength pre)) = x).
    { rewrite (He (zlength pre)) by (rewrite zlength_app, zlength_cons; lia).
      rewrite aget_app_r by lia. rewrite Z.sub_diag. reflexivity. }
    assert (Hxnz : F32.ne0 (snd x) = true).
    { rewrite forallb_forall in Hnz. apply Hnz. apply in_or_app. right. left.
      reflexivity. }
    assert (Hxc : col_at res (Beg + zlength pre) = fst x)
      by (rewrite <- Hx; reflexivity).
    assert (Hxv : val_at res (Beg + zlength pre) = snd x)
      by (rewrite <- Hx; reflexivity).
    replace (F32.eq0 (val_at res (Beg + zlength pre))) with false
      by (rewrite Hxv; unfold F32.ne0 in Hxnz; destruct (F32.eq0 (snd x));
          [discriminate Hxnz|reflexivity]).
    rewrite Hxc. cbn [absorb fst].
    destruct (Z.eqb_spec (fst x) c) as [Ec|Hne].
    + cbn [fst snd]. split; [|split].
      * unfold holds, slots_hold, col_at, val_at.
        cbn [values colIndices valuesSize set_values].
        rewrite zlength_aset. split; [exact S1|]. split; [exact S2|].
        split; [exact S3|]. split.
        -- intros j Hj. rewrite zlength_app, zlength_cons in Hj.
           destruct (Z.eq_dec j (zlength pre)) as [->|Hj'].
           ++ rewrite aget_aset_same by lia.
              rewrite aget_app_r by lia. rewrite Z.sub_diag.
              fold (col_at res (Beg + zlength pre)).
              fold (val_at res (Beg + zlength pre)).
              rewrite Hxc, Hxv. reflexivity.
           ++ rewrite aget_aset_other by lia.
              specialize (He j ltac:(rewrite zlength_app, zlength_cons; lia)).
              unfold col_at, val_at in He. rewrite He.
              destruct (Z_lt_dec j (zlength pre)) as [Hlt|Hge].
              ** rewrite !aget_app_l by lia. reflexivity.
              ** rewrite !aget_app_r by lia.
                 replace (j - zlength pre) with (Z.succ (j - zlength pre - 1)) by lia.
                 unfold aget. rewrite !zlength_cons.
                 destruct ((0 <=? Z.succ (j - zlength pre - 1))
                           && (Z.succ (j - zlength pre - 1) <? zlength t + 1));
                   [|reflexivity].
                 rewrite Z2Nat.inj_succ by lia. reflexivity.
        -- intros i Hi. rewrite zlength_app, zlength_cons in Hi.
           rewrite aget_aset_other by lia. apply Hz.
           rewrite zlength_app, zlength_cons. lia.
      * unfold framed, framed_below, col_at, val_at.
        cbn [noRows noCols rowPointers rowPointersSize values colIndices set_values].
        repeat split. rewrite aget_aset_other by lia. reflexivity.
      * intros ->. rewrite !zlength_app, !zlength_cons. reflexivity.
    + replace (Beg + zlength pre + 1) with (Beg + zlength (pre ++ [x]))
        by (rewrite zlength_app, zlength_one; lia).
      replace (P - (Beg + zlength pre) - 1) with (P - (Beg + zlength (pre ++ [x])))
        by (rewrite zlength_app, zlength_one; lia).
      replace (pre ++ x :: absorb t (c, v)) with ((pre ++ [x]) ++ absorb t (c, v))
        by (rewrite <- app_assoc; reflexivity).
      replace (pre ++ x :: t) with ((pre ++ [x]) ++ t) in *
        by (rewrite <- app_assoc; reflexivity).
      apply (IH (pre ++ [x]) res End H Hnz).
      assert (Hstep : zlength (absorb (x :: t) (c, v))
                      = zlength (absorb t (c, v)) + 1).
      { cbn [absorb fst]. destruct (Z.eqb_spec (fst x) c); [contradiction|].
        apply zlength_cons. }
      rewrite Hstep in Hcap. rewrite !zlength_app, zlength_one. lia.
Qed.

End SlotSearch.

Lemma place_absorb P Beg res End acc e :
  0 <= Beg -> slots_hold P Beg res acc ->
  forallb (fun x => F32.ne0 (snd x)) acc = true ->
  Beg + zlength (absorb acc e) <= P ->
  slots_hold P Beg (fst (place_step Beg (res, End) e)) (absorb acc e)
  /\ framed_below Beg res (fst (place_step Beg (res, End) e))
  /\ (End = Beg + zlength acc ->
      snd (place_step Beg (res, End) e) = Beg + zlength (absorb acc e)).
Proof.
  intros HBeg H Hnz Hcap. destruct e as [c v].
  pose proof (place_scan P Beg HBeg c v acc [] res End) as G.
  cbv zeta in G. cbn [app] in G. rewrite zlength_nil, Z.add_0_r in G.
  unfold place_step. cbn [fst snd]. rewrite (proj1 H).
  apply G; assumption.
Qed.

Lemma fold_absorb P Beg s :
  forall acc res End,
    0 <= Beg -> slots_hold P Beg res acc ->
    forallb (fun x => F32.ne0 (snd x)) acc = true ->
    stays_nonzero acc s = true ->
    Beg + zlength (fold_left absorb s acc) <= P ->
    End = Beg + zlength acc ->
    slots_hold P Beg (fst (fold_left (place_step Beg) s (res, End)))
               (fold_left absorb s acc)
    /\ framed_below Beg res (fst (fold_left (place_step Beg) s (res, End)))
    /\ snd (fold_left (place_step Beg) s (res, End))
       = Beg + zlength (fold_left absorb s acc)
    /\ forallb (fun x => F32.ne0 (snd x)) (fold_left absorb s acc) = true.
Proof.
  induction s as [|e t IH]; intros acc res End HBeg H Hnz Hs Hcap HEnd;
    cbn [fold_left].
  - split; [exact H|]. split; [apply framed_refl|]. split; [exact HEnd|exact Hnz].
  - cbn [stays_nonzero] in Hs. apply andb_true_iff in Hs. destruct Hs as [Hnz' Hs].
    cbn [fold_left] in Hcap.
    pose proof (zlength_fold_absorb t (absorb acc e)) as Hmono.
    destruct (place_absorb P Beg res End acc e HBeg H Hnz ltac:(lia))
      as (H1 & F1 & E1).
    specialize (E1 HEnd).
    destruct (place_step Beg (res, End) e) as [res1 End1]. cbn [fst snd] in *.
    destruct (IH (absorb acc e) res1 End1 HBeg H1 Hnz' Hs Hcap E1)
      as (H2 & F2 & E2 & N2).
    split; [exact H2|]. split; [exact (framed_trans Beg _ _ _ F1 F2)|].
    split; [exact E2|exact N2].
Qed.

(** *** The loops of V5 as a fold over the products of the row *)

Lemma for_lt_fold_left {S} (lo hi : Z) (body : Z -> S -> S) (s : S) :
  for_lt lo hi body s = fold_left (fun s i => body i s) (zrange lo hi) s.
Proof.
  destruct (Z.le_gt_cases lo hi) as [Hle|Hgt].
  - pattern hi. apply (Z_induction_from lo); [| |exact Hle].
    + rewrite for_lt_empty, zrange_empty by lia. reflexivity.
    + intros x Hx IH. rewrite for_lt_last, zrange_snoc, fold_left_app, IH by lia.
      reflexivity.
  - rewrite for_lt_empty, zrange_empty by lia. reflexivity.
Qed.

Lemma fold_left_pairs {A} (Beg : Z) (k : A -> Z) (g : A -> float) (l : list A) st :
  fold_left (fun (st : Matrix * Z) q =>
               let '(res, valuesEndPtr) := st in
               place_V5 (Z.to_nat (valuesSize res - Beg)) Beg (k q) (g q)
                        res valuesEndPtr) l st
  = fold_left (place_step Beg) (map (fun q => (k q, g q)) l) st.
Proof.
  revert st. induction l as [|q t IH]; intros st; [reflexivity|].
  cbn [fold_left map]. rewrite IH. destruct st as [res e]. reflexivity.
Qed.

Section V5Rows.
Variables a b : Matrix.
Hypothesis valid_a : csr_invariants a.
Hypothesis valid_b : csr_invariants b.
Hypothesis inner : noCols a = noRows b.

Lemma row_V5_stream r res Beg End :
  0 <= r < noRows a ->
  row_V5 a b r (res, Beg, End)
  = let out := fold_left (place_step Beg) (row_stream a b r) (res, End) in
    (set_rowPointers (fst out) (aset (rowPointers (fst out)) (r + 1) (snd out)),
     snd out, snd out).
Proof.
  intros Hr. unfold row_V5. cbv zeta.
  assert (E : for_lt (rowptr_at a r) (rowptr_at a (r + 1))
                (fun indexA st =>
                   for_lt (rowptr_at b (col_at a indexA))
                     (rowptr_at b (add64 (col_at a indexA) 1))
                     (fun indexB (st0 : Matrix * Z) =>
                        let '(res0, valuesEndPtr) := st0 in
                        place_V5 (Z.to_nat (valuesSize res0 - Beg)) Beg
                          (col_at b indexB)
                          (F32.mul (val_at a indexA) (val_at b indexB))
                          res0 valuesEndPtr) st) (res, End)
              = fold_left (place_step Beg) (row_stream a b r) (res, End)).
  { unfold row_stream. rewrite for_lt_fold_left.
    assert (Hin : forall p, In p (zrange (rowptr_at a r) (rowptr_at a (r + 1))) ->
                            add64 (col_at a p) 1 = col_at a p + 1).
    { intros p Hp. apply in_zrange in Hp.
      apply (entry_row_length a b valid_a valid_b inner).
      apply (row_entry_range a valid_a r p Hr Hp). }
    generalize (res, End).
    induction (zrange (rowptr_at a r) (rowptr_at a (r + 1))) as [|p t IH];
      intros st; [reflexivity|].
    cbn [fold_left flat_map]. rewrite fold_left_app.
    rewrite IH by (intros q Hq; apply Hin; right; exact Hq).
    f_equal. rewrite (Hin p (or_introl eq_refl)).
    rewrite for_lt_fold_left.
    apply (fold_left_pairs Beg (col_at b)
             (fun q => F32.mul (val_at a p) (val_at b q))). }
  rewrite E.
  destruct (fold_left (place_step Beg) (row_stream a b r) (res, End)) as [res1 End1].
  reflexivity.
Qed.

End V5Rows.

(** *** The slots suffice *)

Section V5Capacity.
Variables a b : Matrix.
Hypothesis valid_a : csr_invariants a.
Hypothesis valid_b : csr_invariants b.
Hypothesis inner : noCols a = noRows b.
Hypothesis cells_fit : noRows a * noCols b < modulus64.
Hypothesis sum_fits : column_row_sum a b < modulus64.

Lemma zlength_gather_le_cols r :
  0 <= r < noRows a -> zlength (gather (row_stream a b r)) <= noCols b.
Proof.
  intros Hr. pose proof (inv_cols b valid_b) as Hcols.
  rewrite <- (zlength_map fst), <- (Z.sub_0_r (noCols b)).
  rewrite <- (zlength_zrange 0 (noCols b)) by lia.
  unfold zlength. apply inj_le. apply NoDup_incl_length.
  - apply NoDup_keys_fold_absorb. constructor.
  - intros k Hk. apply in_keys_fold_absorb in Hk. destruct Hk as [[]|Hk].
    apply in_zrange. apply (row_stream_columns a b valid_a valid_b inner r k Hr Hk).
Qed.

Lemma used_before_snoc r :
  0 <= r ->
  used_before a b (r + 1) = used_before a b r + zlength (gather (row_stream a b r)).
Proof. intros Hr. unfold used_before. rewrite zsum_snoc by lia. reflexivity. Qed.

Lemma used_before_mono r s :
  0 <= r <= s -> used_before a b r <= used_before a b s.
Proof.
  intros H. unfold used_before. apply zsum_prefix_le; [lia|].
  intros i _. apply zlength_nonneg.
Qed.

Lemma used_before_bounds n :
  0 <= n -> n <= noRows a ->
  0 <= used_before a b n
  /\ used_before a b n <= n * noCols b
  /\ used_before a b n <= ops_upto a b (rowptr_at a n).
Proof.
  intros Hn. pattern n. apply (Z_induction_from 0); [| |exact Hn].
  - intros _. unfold used_before. rewrite zsum_empty by lia.
    rewrite (inv_first a valid_a), ops_upto_zero. lia.
  - intros x Hx IH Hle. specialize (IH ltac:(lia)). destruct IH as (I0 & I1 & I2).
    rewrite used_before_snoc by lia.
    pose proof (zlength_nonneg (gather (row_stream a b x))) as Hpos.
    pose proof (zlength_gather_le_cols x ltac:(lia)) as Hc.
    pose proof (zlength_fold_absorb (row_stream a b x) []) as Hs.
    fold (gather (row_stream a b x)) in Hs. rewrite zlength_nil in Hs.
    rewrite (zlength_row_stream a b valid_a valid_b inner x ltac:(lia)) in Hs.
    split; [lia|]. split; [lia|lia].
Qed.

Lemma used_before_capacity :
  used_before a b (noRows a) <= predict_count a b.
Proof.
  pose proof (inv_rows a valid_a) as Hrows.
  destruct (used_before_bounds (noRows a) ltac:(lia) ltac:(lia)) as (_ & H1 & H2).
  rewrite (predict_count_spec a b valid_a valid_b inner cells_fit sum_fits).
  unfold predicted_size. rewrite (column_row_sum_ops a b valid_a).
  rewrite (inv_last a valid_a) in H2. lia.
Qed.

End V5Capacity.

(** *** The buffer that V5 leaves *)

Section V5Buffer.
Variables a b : Matrix.
Hypothesis valid_a : csr_invariants a.
Hypothesis valid_b : csr_invariants b.
Hypothesis inner : noCols a = noRows b.
Hypothesis cells_fit : noRows a * noCols b < modulus64.
Hypothesis sum_fits : column_row_sum a b < modulus64.
Hypothesis steady : no_cancellation a b.

Let P : Z := predict_count a b.
Let T (r : Z) : Z := used_before a b r.
Let start : Matrix :=
  set_rowPointers (predicted_buffer a b)
                  (aset (rowPointers (predicted_buffer a b)) 0 0).

(** The state of the loop over the rows when [n] rows are done. *)
Let rows_done (n : Z) (st : Matrix * Z * Z) : Prop :=
  snd (fst st) = T n /\ snd st = T n
  /\ valuesSize (fst (fst st)) = P
  /\ zlength (values (fst (fst st))) = P
  /\ zlength (colIndices (fst (fst st))) = P
  /\ noRows (fst (fst st)) = noRows a /\ noCols (fst (fst st)) = noCols b
  /\ rowPointersSize (fst (fst st)) = noRows a + 1
  /\ zlength (rowPointers (fst (fst st))) = noRows a + 1
  /\ (forall r, 0 <= r <= n -> rowptr_at (fst (fst st)) r = T r)
  /\ (forall r j, 0 <= r < n -> 0 <= j < zlength (gather (row_stream a b r)) ->
        (col_at (fst (fst st)) (T r + j), val_at (fst (fst st)) (T r + j))
        = aget (gather (row_stream a b r)) j (0, F32.zero))
  /\ (forall i, T n <= i < P -> val_at (fst (fst st)) i = F32.zero).

Lemma slots_nonneg : 0 <= P.
Proof.
  pose proof (inv_rows a valid_a) as Hrows.
  pose proof (used_before_capacity a b valid_a valid_b inner cells_fit sum_fits).
  destruct (used_before_bounds a b valid_a valid_b inner (noRows a)
              ltac:(lia) ltac:(lia)) as (H0 & _).
  unfold P. lia.
Qed.

Lemma rows_done_start : rows_done 0 (start, 0, 0).
Proof.
  pose proof slots_nonneg as HP.
  pose proof (inv_rows a valid_a) as Hrows.
  assert (HT : T 0 = 0) by (unfold T, used_before; apply zsum_empty; lia).
  unfold rows_done, start, predicted_buffer, zeroed_handle, deref.
  cbn [fst snd valuesSize values colIndices noRows noCols rowPointers
       rowPointersSize set_rowPointers h_noRows h_noCols h_values h_valuesSize
       h_colIndices h_rowPointers h_rowPointersSize block].
  fold P. rewrite zlength_aset, !zlength_repeat, add64_small by lia.
  rewrite HT.
  split; [reflexivity|]. split; [reflexivity|]. split; [reflexivity|].
  split; [lia|]. split; [lia|]. split; [reflexivity|]. split; [reflexivity|].
  split; [reflexivity|]. split; [lia|]. split; [|split].
  - intros r Hr. replace r with 0 by lia. rewrite HT.
    unfold rowptr_at. cbn [rowPointers]. apply aget_aset_same.
    rewrite zlength_repeat. lia.
  - intros r j Hr. lia.
  - intros i Hi. unfold val_at. cbn [values]. apply aget_repeat.
Qed.

Lemma rows_done_step n st :
  0 <= n < noRows a -> rows_done n st -> rows_done (n + 1) (row_V5 a b n st).
Proof.
  intros Hn H. destruct st as [[res Beg] End].
  destruct H as (HB & HE & S1 & S2 & S3 & D1 & D2 & D3 & D4 & Hp & He & Hz).
  cbn [fst snd] in *. subst Beg End.
  pose proof (inv_rows a valid_a) as Hrows.
  pose proof (used_before_capacity a b valid_a valid_b inner cells_fit sum_fits)
    as Hcap.
  fold P in Hcap.
  pose proof (used_before_mono a b (n + 1) (noRows a) ltac:(lia)) as Hmono.
  pose proof (used_before_snoc a b n ltac:(lia)) as Hsnoc.
  destruct (used_before_bounds a b valid_a valid_b inner n ltac:(lia) ltac:(lia))
    as (HT0 & _).
  fold (T n) in HT0, Hsnoc. fold (T (n + 1)) in Hsnoc, Hmono.
  assert (Hstart : slots_hold P (T n) res []).
  { unfold slots_hold. change (zlength (@nil (Z * float))) with 0.
    rewrite Z.add_0_r.
    repeat (split; [assumption|]). split; [|exact Hz].
    intros j Hj. lia. }
  destruct (fold_absorb P (T n) (row_stream a b n) [] res (T n) HT0 Hstart
              eq_refl (steady n Hn)
              ltac:(fold (gather (row_stream a b n)); unfold T in *; lia)
              ltac:(change (zlength (@nil (Z * float))) with 0; lia))
    as (H1 & F1 & E1 & _).
  fold (gather (row_stream a b n)) in H1, E1.
  rewrite (row_V5_stream a b valid_a valid_b inner n res (T n) (T n) Hn).
  cbv zeta.
  destruct (fold_left (place_step (T n)) (row_stream a b n) (res, T n))
    as [res1 End1].
  cbn [fst snd] in H1, F1, E1 |- *.
  destruct H1 as (R1 & R2 & R3 & Re & Rz).
  destruct F1 as (F1 & F2 & F3 & F4 & F5).
  assert (EEnd : End1 = T (n + 1)) by lia.
  unfold rows_done. cbn [fst snd]. unfold col_at, val_at, rowptr_at in *.
  cbn [valuesSize values colIndices noRows noCols rowPointers rowPointersSize
       set_rowPointers].
  rewrite zlength_aset.
  split; [exact EEnd|]. split; [exact EEnd|]. split; [exact R1|].
  split; [exact R2|]. split; [exact R3|]. split; [congruence|].
  split; [congruence|]. split; [congruence|]. split; [congruence|].
  split; [|split].
  - intros r Hr. rewrite F3. destruct (Z.eq_dec r (n + 1)) as [->|Hne].
    + rewrite aget_aset_same by lia. exact EEnd.
    + rewrite aget_aset_other by lia. apply Hp. lia.
  - intros r j Hr Hj. destruct (Z.eq_dec r n) as [->|Hne].
    + apply Re. exact Hj.
    + pose proof (used_before_mono a b (r + 1) n ltac:(lia)) as Hm.
      pose proof (used_before_snoc a b r ltac:(lia)) as Hs.
      fold (T (r + 1)) in Hm, Hs. fold (T r) in Hs. fold (T n) in Hm.
      destruct (F5 (T r + j) ltac:(lia)) as [-> ->].
      apply He; [lia|exact Hj].
  - intros i Hi. apply Rz. lia.
Qed.

Lemma rows_done_all n :
  0 <= n -> n <= noRows a -> rows_done n (for_lt 0 n (row_V5 a b) (start, 0, 0)).
Proof.
  intros Hn. pattern n. apply (Z_induction_from 0); [| |exact Hn].
  - intros _. rewrite for_lt_empty by lia. exact rows_done_start.
  - intros x Hx IH Hle. rewrite for_lt_last by lia.
    apply rows_done_step; [lia|]. apply IH. lia.
Qed.

(** The buffer when the loop nest of V5 is through. *)
Lemma multiply_V5_buffer :
  let res := multiply_V5 a b (predicted_buffer a b) in
  noRows res = noRows a /\ noCols res = noCols b
  /\ rowPointersSize res = noRows a + 1
  /\ zlength (rowPointers res) = noRows a + 1
  /\ valuesSize res = predict_count a b
  /\ zlength (values res) = predict_count a b
  /\ zlength (colIndices res) = predict_count a b
  /\ (forall r, 0 <= r <= noRows a -> rowptr_at res r = used_before a b r)
  /\ (forall r, 0 <= r < noRows a -> row_entries res r = gather (row_stream a b r)).
Proof.
  pose proof (inv_rows a valid_a) as Hrows.
  pose proof (rows_done_all (noRows a) ltac:(lia) ltac:(lia)) as H.
  unfold multiply_V5. cbv zeta. fold start.
  destruct H as (_ & _ & S1 & S2 & S3 & D1 & D2 & D3 & D4 & Hp & He & _).
  split; [exact D1|]. split; [exact D2|]. split; [exact D3|]. split; [exact D4|].
  split; [exact S1|]. split; [exact S2|]. split; [exact S3|]. split; [exact Hp|].
  intros r Hr. unfold row_entries. rewrite !Hp by lia. fold (T r) (T (r + 1)).
  pose proof (used_before_snoc a b r ltac:(lia)) as Hs.
  fold (T r) (T (r + 1)) in Hs.
  pose proof (zlength_nonneg (gather (row_stream a b r))) as Hpos.
  apply (aget_ext _ _ (0, F32.zero)).
  - rewrite zlength_map, zlength_zrange by lia. lia.
  - intros i Hi. rewrite zlength_map, zlength_zrange in Hi by lia.
    rewrite (aget_map_zrange
               (fun k => (col_at (fst (fst (for_lt 0 (noRows a) (row_V5 a b)
                                              (start, 0, 0)))) k,
                          val_at (fst (fst (for_lt 0 (noRows a) (row_V5 a b)
                                              (start, 0, 0)))) k))
               (T r) (T (r + 1)) i (0, F32.zero)) by lia.
    apply He; lia.
Qed.

Lemma gather_nonzero r :
  0 <= r < noRows a ->
  forallb (fun x => F32.ne0 (snd x)) (gather (row_stream a b r)) = true.
Proof.
  intros Hr.
  exact (proj1 (stays_nonzero_sums (row_stream a b r) 0 [] [] eq_refl eq_refl
                  (steady r Hr))).
Qed.

Lemma used_before_locate n :
  0 <= n -> n <= noRows a ->
  forall k, 0 <= k < T n -> exists r, 0 <= r < n /\ T r <= k < T (r + 1).
Proof.
  intros Hn. pattern n. apply (Z_induction_from 0); [| |exact Hn].
  - intros _ k Hk. unfold T, used_before in Hk. rewrite zsum_empty in Hk; lia.
  - intros x Hx IH Hle k Hk. destruct (Z_lt_dec k (T x)) as [Hlt|Hge].
    + destruct (IH ltac:(lia) k ltac:(lia)) as (r & Hr & Hrk).
      exists r. split; [lia|exact Hrk].
    + exists x. split; lia.
Qed.

Lemma V5_buffer_compactable : compactable (multiply_V5 a b (predicted_buffer a b)).
Proof.
  pose proof (inv_rows a valid_a) as Hrows.
  pose proof (inv_cols b valid_b) as Hcols.
  destruct multiply_V5_buffer as (D1 & D2 & D3 & D4 & S1 & S2 & S3 & Hp & He).
  pose proof (used_before_capacity a b valid_a valid_b inner cells_fit sum_fits)
    as Hcap.
  assert (Hfull : predict_count a b <= noRows a * noCols b)
    by (apply predict_count_le_full; assumption).
  constructor.
  - rewrite D1. lia.
  - rewrite D3, D1. reflexivity.
  - rewrite D4, D3. reflexivity.
  - rewrite Hp by lia. unfold used_before. apply zsum_empty. lia.
  - rewrite D1. intros r Hr. rewrite !Hp by lia.
    apply used_before_mono. lia.
  - rewrite D1, Hp, S2 by lia. exact Hcap.
  - rewrite S2, S3. reflexivity.
  - rewrite S2. lia.
Qed.

(** Every slot in use names a column of the product and holds a value that
    is not zero. *)
Lemma V5_buffer_slots k :
  0 <= k < used_before a b (noRows a) ->
  0 <= col_at (multiply_V5 a b (predicted_buffer a b)) k < noCols b
  /\ F32.ne0 (val_at (multiply_V5 a b (predicted_buffer a b)) k) = true.
Proof.
  intros Hk. pose proof (inv_rows a valid_a) as Hrows.
  destruct (used_before_locate (noRows a) ltac:(lia) ltac:(lia) k Hk)
    as (r & Hr & Hrk).
  pose proof (rows_done_all (noRows a) ltac:(lia) ltac:(lia)) as H.
  destruct H as (_ & _ & _ & _ & _ & _ & _ & _ & _ & _ & He & _).
  pose proof (used_before_snoc a b r ltac:(lia)) as Hs.
  fold (T r) (T (r + 1)) in Hs.
  specialize (He r (k - T r) ltac:(lia) ltac:(lia)).
  replace (T r + (k - T r)) with k in He by lia.
  unfold multiply_V5. cbv zeta. fold start.
  assert (Hin : In (col_at (fst (fst (for_lt 0 (noRows a) (row_V5 a b)
                                        (start, 0, 0)))) k,
                    val_at (fst (fst (for_lt 0 (noRows a) (row_V5 a b)
                                        (start, 0, 0)))) k)
                   (gather (row_stream a b r))).
  { rewrite He. apply aget_In. lia. }
  split.
  - apply (row_stream_columns a b valid_a valid_b inner r _ ltac:(lia)).
    apply (in_map fst) in Hin. cbn [fst] in Hin.
    apply in_keys_fold_absorb in Hin. destruct Hin as [[]|Hin]. exact Hin.
  - pose proof (gather_nonzero r ltac:(lia)) as Hnz.
    rewrite forallb_forall in Hnz. exact (Hnz _ Hin).
Qed.

End V5Buffer.

Lemma filter_all_true {A} (f : A -> bool) (l : list A) :
  forallb f l = true -> filter f l = l.
Proof.
  induction l as [|x t IH]; cbn [forallb filter]; [reflexivity|].
  intros H. apply andb_true_iff in H. destruct H as [Hx Ht].
  rewrite Hx, (IH Ht). reflexivity.
Qed.

Lemma matr_mult_csr_V5_success a b h w :
  can_multiply a b = true ->
  errno (snd (matr_mult_csr_V5 a b h w)) = 0 ->
  exists w1,
    errno (snd (finish_with_clean_up (multiply_V5 a b (predicted_buffer a b)) w1)) = 0
    /\ fst (matr_mult_csr_V5 a b h w)
       = fst (finish_with_clean_up (multiply_V5 a b (predicted_buffer a b)) w1).
Proof.
  intros Hmul. unfold matr_mult_csr_V5. rewrite Hmul. cbn [negb]. unfold bind.
  pose proof (init_empty_csr_matrix_success a b h PREDICT_SIZE w) as Hbuf.
  destruct (init_empty_csr_matrix a b h PREDICT_SIZE w) as [[rc h1] w1].
  cbn [fst snd] in Hbuf.
  destruct (Z.eqb_spec rc HEAP_MEMORY_ERROR) as [->|Hne]; [intros D; discriminate D|].
  specialize (Hbuf Hne). cbv zeta in Hbuf.
  change (PREDICT_SIZE =? 0) with false in Hbuf. cbv iota in Hbuf.
  inversion Hbuf; subst. intros E. exists w1. split; [exact E|reflexivity].
Qed.

(** X16 -- the size-predicted kernel is right whenever nothing cancels.
    Let no product and no partial sum that the loop nest forms for a cell
    be zero.  Then, when [matr_mult_csr_V5] (or [matr_mult_csr] on an input
    below its threading thresholds) leaves [errno] at 0 on a valid
    multiplicable pair whose dense size and predicted operation count fit
    64 bits, the result has the dimensions of the product, its row [r]
    holds one entry for each column that the products of the row reach, in
    the order in which the columns are first met and with the sum of the
    products as value, which are the entries that Gustavson's kernel V2
    stores for the row up to their order, and the result satisfies every
    CSR invariant when a value is stored. *)
Theorem predicted_kernel_without_cancellation
        (f : Matrix -> Matrix -> Handle -> M Handle)
        (a b : Matrix) (h : Handle) (w : World) :
  valid_csr a -> valid_csr b -> can_multiply a b = true ->
  noRows a * noCols b < modulus64 -> column_row_sum a b < modulus64 ->
  no_cancellation a b ->
  f = matr_mult_csr_V5
  \/ (f = matr_mult_csr /\ (valuesSize a < 10000 \/ noRows a < MIN_THREADS)) ->
  errno (snd (f a b h w)) = 0 ->
  let m' := deref (fst (f a b h w)) in
  noRows m' = noRows a /\ noCols m' = noCols b
  /\ (forall r, 0 <= r < noRows a ->
        row_entries m' r = gather (row_stream a b r)
        /\ Permutation (row_entries m' r) (product_row a b r))
  /\ (0 < valuesSize m' -> valid_csr m').
Proof.
  intros Va Vb Hmul Hfit Hsum Hsteady Hf E.
  apply valid_csr_invariants in Va. apply valid_csr_invariants in Vb.
  destruct (multiplicable_dimensions a b Hmul) as (inner & Hrows & Hcols).
  assert (Ef : f a b h w = matr_mult_csr_V5 a b h w).
  { destruct Hf as [->|[-> Hsmall]]; [reflexivity|].
    unfold matr_mult_csr.
    replace ((valuesSize a <? 10000) || (noRows a <? MIN_THREADS)) with true;
      [reflexivity|].
    symmetry. apply orb_true_iff.
    destruct Hsmall as [H|H]; [left|right]; apply Z.ltb_lt; exact H. }
  rewrite Ef in E |- *. clear Ef Hf f.
  destruct (matr_mult_csr_V5_success a b h w Hmul E) as (w1 & E1 & ->).
  destruct (finish_with_clean_up_result _ w1 E1) as [Hne ->].
  pose proof (V5_buffer_compactable a b Va Vb inner Hfit Hsum Hsteady) as ready.
  destruct (multiply_V5_buffer a b Va Vb inner Hfit Hsum Hsteady)
    as (D1 & D2 & _ & _ & _ & _ & _ & Hp & He).
  destruct (clean_up_csr_spec _ w1 ready Hne) as (_ & P1 & P2 & _).
  cbv zeta. split; [congruence|]. split; [congruence|]. split.
  - intros r Hr.
    assert (Er : row_entries
                   (snd (fst (clean_up_csr
                                (multiply_V5 a b (predicted_buffer a b)) w1))) r
                 = gather (row_stream a b r)).
    { rewrite clean_up_csr_rows; [|exact ready|exact Hne|lia].
      rewrite (He r Hr). apply filter_all_true.
      exact (gather_nonzero a b Hsteady r Hr). }
    split; [exact Er|]. rewrite Er.
    exact (gather_product_row a b Va Vb inner r Hr (Hsteady r Hr)).
  - intros Hpos. apply valid_csr_invariants. apply clean_up_csr_valid.
    + exact ready.
    + exact Hne.
    + rewrite D1. apply (inv_rows a Va).
    + rewrite D2. apply (inv_cols b Vb).
    + intros k Hk _. rewrite D1, Hp in Hk by lia. rewrite D2.
      exact (proj1 (V5_buffer_slots a b Va Vb inner Hfit Hsum Hsteady k Hk)).
    + exact Hpos.
Qed.

Lemma predicted_kernel_without_cancellation_witness :
  row_entries (deref (fst (matr_mult_csr Scenario.A Scenario.B blank_handle
                                         (generous true 4)))) 0
  = gather (row_stream Scenario.A Scenario.B 0)
  /\ Permutation
       (row_entries (deref (fst (matr_mult_csr Scenario.A Scenario.B blank_handle
                                               (generous true 4)))) 0)
       (product_row Scenario.A Scenario.B 0)
  /\ valid_csr (deref (fst (matr_mult_csr Scenario.A Scenario.B blank_handle
                                          (generous true 4)))).
Proof.
  assert (Hsteady : no_cancellation Scenario.A Scenario.B).
  { intros r Hr. assert (Hcases : r = 0 \/ r = 1) by (cbn in Hr; lia).
    destruct Hcases as [->| ->]; vm_compute; reflexivity. }
  destruct (predicted_kernel_without_cancellation matr_mult_csr
              Scenario.A Scenario.B blank_handle (generous true 4)
              ltac:(vm_compute; reflexivity) ltac:(vm_compute; reflexivity)
              ltac:(vm_compute; reflexivity) ltac:(vm_compute; reflexivity)
              ltac:(vm_compute; reflexivity) Hsteady
              ltac:(right; split; [reflexivity|left; vm_compute; reflexivity])
              ltac:(vm_compute; reflexivity))
    as (_ & _ & Hrows & Hvalid).
  destruct (Hrows 0 ltac:(vm_compute; split; [intros D; discriminate D|reflexivity]))
    as [Hrow Hperm].
  split; [exact Hrow|]. split; [exact Hperm|].
  apply Hvalid. vm_compute. reflexivity.
Defined.

(** ** The size-predicted kernel keeps the structure, cancellation or not *)

Section V5Structure.
Variables a b : Matrix.
Hypothesis valid_a : csr_invariants a.
Hypothesis valid_b : csr_invariants b.
Hypothesis multiplicable : can_multiply a b = true.
Hypothesis cells_fit : noRows a * noCols b < modulus64.
Hypothesis sum_fits : column_row_sum a b < modulus64.

Let P : Z := predict_count a b.








End V5Structure.



(** ** The equality checker reorders each row inside its own segment *)

Section SegmentSort.
Variable m0 : Matrix.
Variables lo hi : Z.
Hypothesis lo_nonneg : 0 <= lo.
Hypothesis hi_inside : hi <= valuesSize m0.
Hypothesis size_fits : valuesSize m0 < modulus64.
Hypothesis colIndices_length : zlength (colIndices m0) = valuesSize m0.
Hypothesis values_length : zlength (values m0) = valuesSize m0.

(** The entries stored at the positions [lo .. hi - 1]. *)
Let seg (m : Matrix) : list (Z * float) :=
  map (fun k => (col_at m k, val_at m k)) (zrange lo hi).

(** What every step of a sort of the segment preserves: the sizes, the row
    pointers, every position outside the segment, and the entries of the
    segment up to their order. *)
Let seg_kept (m : Matrix) : Prop :=
  noRows m = noRows m0 /\ noCols m = noCols m0
  /\ valuesSize m = valuesSize m0 /\ rowPointersSize m = rowPointersSize m0
  /\ rowPointers m = rowPointers m0
  /\ zlength (colIndices m) = valuesSize m0
  /\ zlength (values m) = valuesSize m0
  /\ (forall k, k < lo \/ hi <= k ->
        col_at m k = col_at m0 k /\ val_at m k = val_at m0 k)
  /\ Permutation (seg m) (seg m0).

Lemma seg_kept_initial : seg_kept m0.
Proof. unfold seg_kept. repeat split; auto. Qed.

Lemma seg_kept_swap m cur j :
  seg_kept m -> lo <= cur < hi -> lo <= j < hi ->
  seg_kept (set_values
              (set_colIndices m (swap_guarded (colIndices m) (valuesSize m) cur j 0))
              (swap_guarded (values m) (valuesSize m) cur j F32.zero)).
Proof.
  intros (D1 & D2 & D3 & D4 & D5 & Hc & Hv & Hout & Hperm) Hcur Hj.
  destruct (swapped_entries m cur j ltac:(congruence) ltac:(congruence)
              ltac:(lia) ltac:(lia)) as (Hsize & Hc' & Hv' & Hat).
  cbv zeta in Hsize, Hc', Hv', Hat.
  set (m1 := set_values _ _) in *.
  unfold seg_kept.
  split; [exact D1|]. split; [exact D2|]. split; [congruence|].
  split; [exact D4|]. split; [exact D5|]. split; [congruence|].
  split; [congruence|]. split.
  - intros k Hk. destruct (Hat k) as [H1 H2]. rewrite H1, H2.
    unfold transpose.
    destruct (Z.eqb_spec k cur); [lia|]. destruct (Z.eqb_spec k j); [lia|].
    apply Hout. exact Hk.
  - etransitivity; [|exact Hperm]. unfold seg.
    apply transposed_permutation with (i := cur - lo) (j := j - lo)
                                      (d := (0, F32.zero)).
    + rewrite zlength_map, zlength_zrange by lia. lia.
    + rewrite zlength_map, zlength_zrange by lia. lia.
    + rewrite !zlength_map. reflexivity.
    + intros k Hk. rewrite zlength_map, zlength_zrange in Hk by lia.
      pose proof (transpose_range (cur - lo) (j - lo) k (hi - lo)
                    ltac:(lia) ltac:(lia) Hk) as Ht.
      rewrite (aget_map_zrange (fun q => (col_at m1 q, val_at m1 q))
                 lo hi k (0, F32.zero)) by lia.
      rewrite (aget_map_zrange (fun q => (col_at m q, val_at m q))
                 lo hi (transpose (cur - lo) (j - lo) k) (0, F32.zero)) by lia.
      destruct (Hat (lo + k)) as [H1 H2]. rewrite H1, H2.
      replace (transpose cur j (lo + k))
        with (lo + transpose (cur - lo) (j - lo) k); [reflexivity|].
      unfold transpose.
      destruct (Z.eqb_spec k (cur - lo)), (Z.eqb_spec (lo + k) cur); try lia.
      destruct (Z.eqb_spec k (j - lo)), (Z.eqb_spec (lo + k) j); lia.
Qed.

(** The inner loop of [sort_matrix] for the position [cur]: it is entered
    with [j = cur - 1] wrapped and runs [cur - lo + 1] rounds at most, the
    last of which, when [lo = 0], meets [j = 2^64 - 1] and swaps nothing. *)
Lemma sift_down_segment col n :
  forall cur m,
    seg_kept m -> lo <= cur < hi -> Z.of_nat n = cur - lo + 1 ->
    seg_kept (sift_down n lo col cur (sub64 cur 1) m).
Proof.
  induction n as [|n IH]; intros cur m K Hcur Hn; [exact K|].
  cbn [sift_down].
  destruct (Z.eq_dec cur 0) as [->|Hpos].
  - assert (Hlo : lo = 0) by lia. subst lo.
    assert (Hn0 : n = O) by lia. subst n.
    change (sub64 0 1) with max64.
    change (0 <=? max64) with true. cbv iota.
    destruct (col <? col_at m max64); [|exact K].
    cbn [sift_down].
    assert (Hguard : (max64 <? valuesSize m) = false).
    { apply Z.ltb_ge. destruct K as (_ & _ & D3 & _). rewrite D3.
      unfold max64. lia. }
    unfold swap_guarded. rewrite Hguard, andb_false_r.
    rewrite set_colIndices_same. rewrite Hguard, andb_false_r.
    rewrite set_values_same. exact K.
  - rewrite sub64_small by lia.
    destruct (Z.leb_spec lo (cur - 1)) as [Hmore|Hstop]; [|exact K].
    destruct (col <? col_at m (cur - 1)); [|exact K].
    apply IH; [|lia|lia].
    exact (seg_kept_swap m cur (cur - 1) K ltac:(lia) ltac:(lia)).
Qed.

Lemma sort_steps_segment :
  seg_kept (for_lt lo hi (sort_step lo) m0).
Proof.
  apply (for_lt_preserves seg_kept); [exact seg_kept_initial|].
  intros i m Hi K. unfold sort_step.
  apply sift_down_segment; [exact K|exact Hi|].
  rewrite Z2Nat.id by lia. reflexivity.
Qed.

End SegmentSort.

(** A returning [sort_matrix] leaves every position outside the segment
    alone and permutes the entries of the segment. *)
Lemma sort_matrix_segment m beg end_ m' :
  0 <= beg -> end_ + 1 <= valuesSize m -> valuesSize m < modulus64 ->
  zlength (colIndices m) = valuesSize m -> zlength (values m) = valuesSize m ->
  sort_matrix m beg end_ = Some m' ->
  noRows m' = noRows m /\ noCols m' = noCols m
  /\ valuesSize m' = valuesSize m /\ rowPointersSize m' = rowPointersSize m
  /\ rowPointers m' = rowPointers m
  /\ zlength (colIndices m') = valuesSize m
  /\ zlength (values m') = valuesSize m
  /\ (forall k, k < beg \/ end_ + 1 <= k ->
        col_at m' k = col_at m k /\ val_at m' k = val_at m k)
  /\ Permutation
       (map (fun k => (col_at m' k, val_at m' k)) (zrange beg (end_ + 1)))
       (map (fun k => (col_at m k, val_at m k)) (zrange beg (end_ + 1))).
Proof.
  intros Hbeg Hend Hfit Hc Hv. unfold sort_matrix.
  destruct (end_ =? max64); [intros D; discriminate D|].
  intros E. inversion E; subst m'.
  exact (sort_steps_segment m beg (end_ + 1) Hbeg Hend Hfit Hc Hv).
Qed.

Section RowsKept.
Variable a : Matrix.
Hypothesis valid_a : csr_invariants a.

(** What the sorting loop of [equals] preserves of an argument. *)
Let rows_kept (x : Matrix) : Prop :=
  noRows x = noRows a /\ noCols x = noCols a
  /\ valuesSize x = valuesSize a /\ rowPointersSize x = rowPointersSize a
  /\ rowPointers x = rowPointers a
  /\ zlength (colIndices x) = valuesSize a
  /\ zlength (values x) = valuesSize a
  /\ forall r, 0 <= r < noRows a ->
                Permutation (row_entries x r) (row_entries a r).

Lemma rows_kept_initial : rows_kept a.
Proof.
  unfold rows_kept. repeat split; auto.
  - apply (inv_colIndices_length a valid_a).
  - apply (inv_values_length a valid_a).
Qed.

Lemma rows_kept_sort x i x' :
  rows_kept x -> 0 <= i < noRows a ->
  sort_matrix x (rowptr_at x i) (sub64 (rowptr_at x (i + 1)) 1) = Some x' ->
  rows_kept x'.
Proof.
  intros (D1 & D2 & D3 & D4 & D5 & Hc & Hv & Hrows) Hi E.
  assert (Hptr : forall r, rowptr_at x r = rowptr_at a r)
    by (intros r; unfold rowptr_at; rewrite D5; reflexivity).
  rewrite !Hptr in E.
  pose proof (rowptr_range a valid_a i ltac:(lia)) as Hlo.
  pose proof (rowptr_range a valid_a (i + 1) ltac:(lia)) as Hhi.
  pose proof (inv_monotone a valid_a i Hi) as Hmono.
  pose proof (inv_valuesSize a valid_a) as Hfit.
  destruct (Z.eq_dec (rowptr_at a (i + 1)) 0) as [Hzero|Hpos].
  { rewrite Hzero in E. unfold sort_matrix in E.
    change (sub64 0 1 =? max64) with true in E. discriminate E. }
  rewrite sub64_small in E by lia.
  destruct (sort_matrix_segment x (rowptr_at a i) (rowptr_at a (i + 1) - 1) x'
              ltac:(lia) ltac:(lia) ltac:(lia) ltac:(congruence) ltac:(congruence) E)
    as (S1 & S2 & S3 & S4 & S5 & Sc & Sv & Sout & Sperm).
  replace (rowptr_at a (i + 1) - 1 + 1) with (rowptr_at a (i + 1)) in Sout, Sperm
    by lia.
  assert (Hptr' : forall r, rowptr_at x' r = rowptr_at a r)
    by (intros r; unfold rowptr_at; rewrite S5, D5; reflexivity).
  unfold rows_kept.
  split; [congruence|]. split; [congruence|]. split; [congruence|].
  split; [congruence|]. split; [congruence|]. split; [congruence|].
  split; [congruence|].
  intros r Hr. etransitivity; [|exact (Hrows r Hr)].
  unfold row_entries. rewrite !Hptr', !Hptr.
  destruct (Z.eq_dec r i) as [->|Hne]; [exact Sperm|].
  replace (map (fun k => (col_at x' k, val_at x' k))
               (zrange (rowptr_at a r) (rowptr_at a (r + 1))))
    with (map (fun k => (col_at x k, val_at x k))
              (zrange (rowptr_at a r) (rowptr_at a (r + 1))));
    [apply Permutation_refl|].
  apply map_ext_in. intros k Hk. apply in_zrange in Hk.
  assert (Hout : k < rowptr_at a i \/ rowptr_at a (i + 1) <= k).
  { destruct (Z_lt_dec r i) as [Hlt|Hgt].
    - left. pose proof (rowptr_monotone a valid_a (r + 1) i ltac:(lia) ltac:(lia)).
      lia.
    - right. pose proof (rowptr_monotone a valid_a (i + 1) r ltac:(lia) ltac:(lia)).
      lia. }
  destruct (Sout k Hout) as [-> ->]. reflexivity.
Qed.

End RowsKept.

(** Whenever [equals] returns, each argument has kept its sizes and row
    pointers and, row by row, its entries up to their order. *)
Lemma equals_rows a b verdict a' b' :
  csr_invariants a -> csr_invariants b ->
  equals a b = Some (verdict, a', b') ->
  same_matrix a a' /\ same_matrix b b'.
Proof.
  intros Ha Hb E.
  pose proof (rows_kept_initial a Ha) as Ka.
  pose proof (rows_kept_initial b Hb) as Kb.
  assert (Hsame : forall m x,
            (noRows x = noRows m /\ noCols x = noCols m
             /\ valuesSize x = valuesSize m /\ rowPointersSize x = rowPointersSize m
             /\ rowPointers x = rowPointers m
             /\ zlength (colIndices x) = valuesSize m
             /\ zlength (values x) = valuesSize m
             /\ forall r, 0 <= r < noRows m ->
                          Permutation (row_entries x r) (row_entries m r)) ->
            same_matrix m x).
  { intros m x (D1 & D2 & D3 & D4 & D5 & _ & _ & Hrows).
    unfold same_matrix. repeat (split; [congruence|]).
    intros r Hr. apply Permutation_sym. apply Hrows. exact Hr. }
  unfold equals in E.
  destruct (negb (noCols a =? noCols b) || negb (noRows a =? noRows b)
            || negb (valuesSize a =? valuesSize b)
            || negb (rowPointersSize a =? rowPointersSize b)) eqn:Hdims.
  { inversion E; subst. split; apply Hsame; assumption. }
  assert (Hrows : noRows b = noRows a).
  { apply orb_false_iff in Hdims. destruct Hdims as [Hdims _].
    apply orb_false_iff in Hdims. destruct Hdims as [Hdims _].
    apply orb_false_iff in Hdims. destruct Hdims as [_ Hdims].
    apply negb_false_iff, Z.eqb_eq in Hdims. lia. }
  set (body := fun (i : Z) (st : option (Matrix * Matrix)) => _) in E.
  assert (G : match for_lt 0 (sub64 (rowPointersSize a) 1) body (Some (a, b)) with
              | Some (x, y) => same_matrix a x /\ same_matrix b y
              | None => True
              end).
  { rewrite (inv_rowPointersSize a Ha).
    rewrite sub64_small by (pose proof (inv_rows a Ha); lia).
    replace (noRows a + 1 - 1) with (noRows a) by lia.
    pose proof (for_lt_invariant
                  (fun (i : Z) (st : option (Matrix * Matrix)) =>
                     match st with
                     | Some (x, y) =>
                         (noRows x = noRows a /\ noCols x = noCols a
                          /\ valuesSize x = valuesSize a
                          /\ rowPointersSize x = rowPointersSize a
                          /\ rowPointers x = rowPointers a
                          /\ zlength (colIndices x) = valuesSize a
                          /\ zlength (values x) = valuesSize a
                          /\ forall r, 0 <= r < noRows a ->
                                Permutation (row_entries x r) (row_entries a r))
                         /\ (noRows y = noRows b /\ noCols y = noCols b
                             /\ valuesSize y = valuesSize b
                             /\ rowPointersSize y = rowPointersSize b
                             /\ rowPointers y = rowPointers b
                             /\ zlength (colIndices y) = valuesSize b
                             /\ zlength (values y) = valuesSize b
                             /\ forall r, 0 <= r < noRows b ->
                                   Permutation (row_entries y r) (row_entries b r))
                     | None => True
                     end)
                  0 (noRows a) body (Some (a, b))
                  (proj1 (inv_rows a Ha)) (conj Ka Kb)) as Hloop.
    assert (Hstep : forall i st, 0 <= i < noRows a ->
              match st with
              | Some (x, y) =>
                  (noRows x = noRows a /\ noCols x = noCols a
                   /\ valuesSize x = valuesSize a
                   /\ rowPointersSize x = rowPointersSize a
                   /\ rowPointers x = rowPointers a
                   /\ zlength (colIndices x) = valuesSize a
                   /\ zlength (values x) = valuesSize a
                   /\ forall r, 0 <= r < noRows a ->
                         Permutation (row_entries x r) (row_entries a r))
                  /\ (noRows y = noRows b /\ noCols y = noCols b
                      /\ valuesSize y = valuesSize b
                      /\ rowPointersSize y = rowPointersSize b
                      /\ rowPointers y = rowPointers b
                      /\ zlength (colIndices y) = valuesSize b
                      /\ zlength (values y) = valuesSize b
                      /\ forall r, 0 <= r < noRows b ->
                            Permutation (row_entries y r) (row_entries b r))
              | None => True
              end ->
              match body i st with
              | Some (x, y) =>
                  (noRows x = noRows a /\ noCols x = noCols a
                   /\ valuesSize x = valuesSize a
                   /\ rowPointersSize x = rowPointersSize a
                   /\ rowPointers x = rowPointers a
                   /\ zlength (colIndices x) = valuesSize a
                   /\ zlength (values x) = valuesSize a
                   /\ forall r, 0 <= r < noRows a ->
                         Permutation (row_entries x r) (row_entries a r))
                  /\ (noRows y = noRows b /\ noCols y = noCols b
                      /\ valuesSize y = valuesSize b
                      /\ rowPointersSize y = rowPointersSize b
                      /\ rowPointers y = rowPointers b
                      /\ zlength (colIndices y) = valuesSize b
                      /\ zlength (values y) = valuesSize b
                      /\ forall r, 0 <= r < noRows b ->
                            Permutation (row_entries y r) (row_entries b r))
              | None => True
              end).
    { intros i [[x y]|] Hi H; [|exact I]. destruct H as [Kx Ky]. unfold body.
      destruct (sort_matrix x _ _) as [x'|] eqn:Ex; [|exact I].
      destruct (sort_matrix y _ _) as [y'|] eqn:Ey; [|exact I].
      split.
      - exact (rows_kept_sort a Ha x i x' Kx Hi Ex).
      - exact (rows_kept_sort b Hb y i y' Ky ltac:(lia) Ey). }
    specialize (Hloop Hstep).
    destruct (for_lt 0 (noRows a) body (Some (a, b))) as [[x y]|]; [|exact I].
    destruct Hloop as [Kx Ky]. split; apply Hsame; assumption. }
  destruct (for_lt 0 (sub64 (rowPointersSize a) 1) body (Some (a, b)))
    as [[x y]|]; [|discriminate E].
  inversion E; subst. exact G.
Qed.

(** C9 (as amended) -- whenever [equals] returns on two valid CSR matrices,
    each argument keeps its dimensions, [valuesSize], [rowPointersSize]
    and [rowPointers], and every one of its rows holds the same (column
    index, value) pairs as before the call, possibly in another order
    within the row: the rows are sorted in the arguments themselves, not
    in copies, each inside its own segment of the arrays. *)
Theorem equals_reorders_arguments
        (a b a' b' : Matrix) (verdict : bool)
        (Ha : valid_csr a) (Hb : valid_csr b)
        (E : equals a b = Some (verdict, a', b')) :
  same_matrix a a' /\ same_matrix b b'.
Proof.
  apply valid_csr_invariants in Ha, Hb.
  exact (equals_rows a b verdict a' b' Ha Hb E).
Qed.

Lemma equals_reorders_arguments_witness :
  valid_csr Unsorted.M
  /\ equals Unsorted.M Unsorted.M = Some (true, Unsorted.sorted, Unsorted.sorted)
  /\ same_matrix Unsorted.M Unsorted.sorted.
Proof.
  assert (H : valid_csr Unsorted.M) by (vm_compute; reflexivity).
  assert (E : equals Unsorted.M Unsorted.M
              = Some (true, Unsorted.sorted, Unsorted.sorted))
    by (vm_compute; reflexivity).
  split; [exact H|]. split; [exact E|].
  exact (proj1 (equals_reorders_arguments
                  Unsorted.M Unsorted.M Unsorted.sorted Unsorted.sorted true
                  H H E)).
Defined.
